(** * V8 string table and Maglev register allocator: a shallow embedding

    The first part embeds [src/objects/string-table.cc] (the interning
    table [StringTable::Data], its capacity policy, [StringTable::LookupKey]
    and [StringTable::LookupString]); the second part embeds the spill-slot
    and register-eviction code of [src/maglev/maglev-regalloc.cc].

    C++ [int] and [uint32_t] values are integers in [Z] with their
    wrap-around written out; arrays are lists read with [!!] and written
    with [<[ _ := _ ]>]; a loop that the C++ code leaves unbounded takes a
    fuel argument and yields [None] when the fuel runs out. *)

From stdpp Require Import base numbers option list gmap.
From Stdlib Require Import ZArith Lia Permutation Znumtheory Zpow_facts.

Local Open Scope Z_scope.

(** ** Machine integers *)

(** [uint32_t] arithmetic is modulo 2^32. *)
Definition uint32_t (z : Z) : Z := z mod 2 ^ 32.

(** [int] is a 32-bit two's complement integer. *)
Definition int32_t (z : Z) : Z := (z + 2 ^ 31) mod 2 ^ 32 - 2 ^ 31.

(** Modelled from the spec: [base::bits::RoundUpToPowerOfTwo32] lives in
    [src/base/bits.h], which is not part of the sources at hand.  It yields
    the least power of two that is at least its [uint32_t] argument (1 for
    0), as a [uint32_t]. *)
Definition RoundUpToPowerOfTwo32 (value : Z) : Z :=
  uint32_t (2 ^ Z.log2_up value).

Module StringTable.

(** ** Strings, slots and indices *)

(** A string object as the table sees it: the address of the heap object
    (pointer identity), its hash and its characters.  None of the three
    changes while the string is in the table. *)
Record String := mkString {
  ptr : Z;
  String_hash : Z;
  chars : list Z
}.

Definition String_length (s : String) : Z := Z.of_nat (length (chars s)).

Global Instance String_eq_dec : EqDecision String.
Proof. solve_decision. Defined.

(** A slot of [elements_]: Smi 0 (never written), Smi 1 (removed by the
    collector) or a string. *)
Inductive Element :=
| empty_element
| deleted_element
| StringElement (s : String).

Global Instance Element_eq_dec : EqDecision Element.
Proof. solve_decision. Defined.

(** Modelled from the spec: [InternalIndex] is declared in
    [src/objects/internal-index.h]; it is an array index or the
    distinguished [NotFound] value. *)
Inductive InternalIndex :=
| Entry (raw : Z)
| NotFound.

Definition is_found (i : InternalIndex) : bool :=
  match i with Entry _ => true | NotFound => false end.

Definition is_not_found (i : InternalIndex) : bool := negb (is_found i).

(** ** Capacity policy *)

Definition kStringTableMaxEmptyFactor : Z := 4.
Definition kStringTableMinCapacity : Z := 2048.

Definition StringTableHasSufficientCapacityToAdd
    (capacity number_of_elements number_of_deleted_elements
     number_of_additional_elements : Z) : bool :=
  let nof := int32_t (number_of_elements + number_of_additional_elements) in
  if (nof <? capacity) &&
     (number_of_deleted_elements <=? Z.quot (int32_t (capacity - nof)) 2)
  then
    let needed_free := Z.quot nof 2 in
    if int32_t (nof + needed_free) <=? capacity then true else false
  else false.

Definition ComputeStringTableCapacity (at_least_space_for : Z) : Z :=
  let raw_capacity :=
    int32_t (at_least_space_for + Z.shiftr at_least_space_for 1) in
  let capacity := int32_t (RoundUpToPowerOfTwo32 (uint32_t raw_capacity)) in
  Z.max capacity kStringTableMinCapacity.

Definition ComputeStringTableCapacityWithShrink
    (current_capacity at_least_room_for : Z) : Z :=
  if Z.quot current_capacity kStringTableMaxEmptyFactor <? at_least_room_for
  then current_capacity
  else
    let new_capacity := ComputeStringTableCapacity at_least_room_for in
    if new_capacity <? kStringTableMinCapacity then current_capacity
    else new_capacity.

(** ** Keys *)

(** The interface the templates [FindEntry], [FindEntryOrInsertionEntry]
    and [LookupKey] require of a [StringTableKey].  The two methods that
    allocate or change a map work on the isolate state [IsolateT]. *)
Class StringTableKey (IsolateT K : Type) := {
  key_hash : K → Z;
  key_length : K → Z;
  IsMatch : K → String → bool;
  PrepareForInsertion : IsolateT → K → IsolateT * K;
  GetHandleForInsertion : IsolateT → K → IsolateT * String
}.

Definition KeyIsMatch `{StringTableKey IsolateT K} (key : K) (string : String)
    : bool :=
  if negb (String_hash string =? key_hash key) then false
  else if negb (String_length string =? key_length key) then false
  else IsMatch key string.

(** ** [StringTable::Data] *)

#[warnings="-register-all"]
Inductive Data := mkData {
  previous_data_ : option Data;
  number_of_elements_ : Z;
  number_of_deleted_elements_ : Z;
  capacity_ : Z;
  elements_ : list Element
}.

Definition capacity (d : Data) : Z := capacity_ d.
Definition number_of_elements (d : Data) : Z := number_of_elements_ d.
Definition number_of_deleted_elements (d : Data) : Z :=
  number_of_deleted_elements_ d.

(** [Data(int capacity)]: every slot is set to [empty_element]. *)
Definition New (capacity : Z) : Data :=
  mkData None 0 0 capacity (replicate (Z.to_nat capacity) empty_element).

(** Reading or writing outside [elements_] is undefined in C++: [None]. *)
Definition Get (d : Data) (index : InternalIndex) : option Element :=
  match index with
  | Entry raw => if raw <? 0 then None else elements_ d !! Z.to_nat raw
  | NotFound => None
  end.

Definition Set_ (d : Data) (index : InternalIndex) (entry : String)
    : option Data :=
  match index with
  | Entry raw =>
      if (0 <=? raw) && (raw <? Z.of_nat (length (elements_ d))) then
        Some (mkData (previous_data_ d) (number_of_elements_ d)
                (number_of_deleted_elements_ d) (capacity_ d)
                (<[Z.to_nat raw := StringElement entry]> (elements_ d)))
      else None
  | NotFound => None
  end.

Definition ElementAdded (d : Data) : Data :=
  mkData (previous_data_ d) (int32_t (number_of_elements_ d + 1))
    (number_of_deleted_elements_ d) (capacity_ d) (elements_ d).

Definition DeletedElementOverwritten (d : Data) : Data :=
  mkData (previous_data_ d) (int32_t (number_of_elements_ d + 1))
    (int32_t (number_of_deleted_elements_ d - 1)) (capacity_ d) (elements_ d).

Definition ElementsRemoved (d : Data) (count : Z) : Data :=
  mkData (previous_data_ d) (int32_t (number_of_elements_ d - count))
    (int32_t (number_of_deleted_elements_ d + count)) (capacity_ d)
    (elements_ d).

Definition PreviousData (d : Data) : option Data := previous_data_ d.

Definition DropPreviousData (d : Data) : Data :=
  mkData None (number_of_elements_ d) (number_of_deleted_elements_ d)
    (capacity_ d) (elements_ d).

(** ** Probing *)

Definition FirstProbe (hash size : Z) : InternalIndex :=
  Entry (Z.land hash (uint32_t (size - 1))).

Definition as_uint32 (i : InternalIndex) : Z :=
  match i with Entry raw => uint32_t raw | NotFound => uint32_t (-1) end.

Definition NextProbe (last : InternalIndex) (number size : Z)
    : InternalIndex :=
  Entry (Z.land (uint32_t (as_uint32 last + number)) (uint32_t (size - 1))).

(** One pass through the body of a probing loop either returns or goes
    on to the next probe with an updated loop-carried value. *)
Inductive LoopStep (R T : Type) :=
| Return (r : R)
| Continue (s : T).
Arguments Return {R T} r.
Arguments Continue {R T} s.

(** The loop header shared by [FindEntry], [FindInsertionEntry] and
    [FindEntryOrInsertionEntry]:
    [for (InternalIndex entry = FirstProbe(hash, capacity_);;
          entry = NextProbe(entry, count++, capacity_))].
    [ProbeLoop] is the loop from an arbitrary [entry] and [count]. *)
Fixpoint ProbeLoop {R T : Type}
    (body : InternalIndex → T → option (LoopStep R T))
    (size : Z) (fuel : nat) (entry : InternalIndex) (count : Z) (s : T)
    : option R :=
  match fuel with
  | O => None
  | S fuel' =>
      match body entry s with
      | None => None
      | Some (Return r) => Some r
      | Some (Continue s') =>
          ProbeLoop body size fuel' (NextProbe entry count size)
            (uint32_t (count + 1)) s'
      end
  end.

Definition FindEntry_body `{StringTableKey IsolateT K} (d : Data) (key : K)
    (entry : InternalIndex) (_ : unit)
    : option (LoopStep InternalIndex unit) :=
  match Get d entry with
  | None => None
  | Some empty_element => Some (Return NotFound)
  | Some deleted_element => Some (Continue tt)
  | Some (StringElement string) =>
      if KeyIsMatch key string then Some (Return entry)
      else Some (Continue tt)
  end.

Definition FindEntry `{StringTableKey IsolateT K} (fuel : nat) (d : Data)
    (key : K) (hash : Z) : option InternalIndex :=
  ProbeLoop (FindEntry_body d key) (uint32_t (capacity_ d)) fuel
    (FirstProbe hash (uint32_t (capacity_ d))) 1 tt.

Definition FindInsertionEntry_body (d : Data)
    (entry : InternalIndex) (_ : unit)
    : option (LoopStep InternalIndex unit) :=
  match Get d entry with
  | None => None
  | Some empty_element | Some deleted_element => Some (Return entry)
  | Some (StringElement _) => Some (Continue tt)
  end.

Definition FindInsertionEntry (fuel : nat) (d : Data) (hash : Z)
    : option InternalIndex :=
  ProbeLoop (FindInsertionEntry_body d) (uint32_t (capacity_ d)) fuel
    (FirstProbe hash (uint32_t (capacity_ d))) 1 tt.

(** The loop-carried value is [insertion_entry]. *)
Definition FindEntryOrInsertionEntry_body `{StringTableKey IsolateT K}
    (d : Data) (key : K) (entry : InternalIndex)
    (insertion_entry : InternalIndex)
    : option (LoopStep InternalIndex InternalIndex) :=
  match Get d entry with
  | None => None
  | Some empty_element =>
      if is_not_found insertion_entry then Some (Return entry)
      else Some (Return insertion_entry)
  | Some deleted_element =>
      if is_not_found insertion_entry then Some (Continue entry)
      else Some (Continue insertion_entry)
  | Some (StringElement string) =>
      if KeyIsMatch key string then Some (Return entry)
      else Some (Continue insertion_entry)
  end.

Definition FindEntryOrInsertionEntry `{StringTableKey IsolateT K}
    (fuel : nat) (d : Data) (key : K) (hash : Z) : option InternalIndex :=
  ProbeLoop (FindEntryOrInsertionEntry_body d key) (uint32_t (capacity_ d))
    fuel (FirstProbe hash (uint32_t (capacity_ d))) 1 NotFound.

(** The loop variables [entry] and [count] after [i] increments of the
    shared loop header. *)
Fixpoint ProbeState (hash size : Z) (i : nat) : InternalIndex * Z :=
  match i with
  | O => (FirstProbe hash size, 1)
  | S i' =>
      let '(entry, count) := ProbeState hash size i' in
      (NextProbe entry count size, uint32_t (count + 1))
  end.

(** The probing loop over an explicit sequence of slots: attempt [i]
    inspects [probe i]. *)
Fixpoint ProbeWalk {R T : Type}
    (body : InternalIndex → T → option (LoopStep R T))
    (probe : nat → InternalIndex) (fuel : nat) (i : nat) (s : T)
    : option R :=
  match fuel with
  | O => None
  | S fuel' =>
      match body (probe i) s with
      | None => None
      | Some (Return r) => Some r
      | Some (Continue s') => ProbeWalk body probe fuel' (S i) s'
      end
  end.

(** The probe formula as the specification words it:
    [probe(hash, i) = (hash + i) mod capacity]. *)
Definition spec_probe (hash capacity : Z) (i : nat) : InternalIndex :=
  Entry ((hash + Z.of_nat i) mod capacity).

(** The slot at distance [i (i + 1) / 2] (the [i]-th triangular number)
    from the hash. *)
Definition triangular (i : Z) : Z := i * (i + 1) / 2.

Definition triangular_probe (hash capacity : Z) (i : nat) : InternalIndex :=
  Entry ((hash + triangular (Z.of_nat i)) mod capacity).

(** ** The invariant of a table generation *)

(** The strings the slots hold, in slot order. *)
Fixpoint strings_of (l : list Element) : list String :=
  match l with
  | [] => []
  | StringElement s :: l' => s :: strings_of l'
  | _ :: l' => strings_of l'
  end.

Fixpoint count_deleted (l : list Element) : nat :=
  match l with
  | [] => O
  | deleted_element :: l' => S (count_deleted l')
  | _ :: l' => count_deleted l'
  end.

(** The capacity is a power of two between the minimum capacity and
    2^30, [elements_] has [capacity_] slots, the two counters count the
    strings and the deleted slots, and the table is never full. *)
Record Invariant (d : Data) : Prop := mkInvariant {
  inv_capacity : ∃ k, 11 <= k <= 30 ∧ capacity_ d = 2 ^ k;
  inv_length : Z.of_nat (length (elements_ d)) = capacity_ d;
  inv_elements :
    number_of_elements_ d = Z.of_nat (length (strings_of (elements_ d)));
  inv_deleted :
    number_of_deleted_elements_ d = Z.of_nat (count_deleted (elements_ d));
  inv_not_full :
    number_of_elements_ d + number_of_deleted_elements_ d < capacity_ d
}.

(** The shape of a table a search can run on: a power-of-two capacity
    and as many slots as the capacity says. *)
Definition Searchable (d : Data) (k : Z) : Prop :=
  0 <= k <= 30 ∧ capacity_ d = 2 ^ k ∧
  Z.of_nat (length (elements_ d)) = capacity_ d.

(** Growing by one element keeps the capacity within [int]. *)
Definition CanGrow (d : Data) : Prop :=
  number_of_elements_ d + 1 + (number_of_elements_ d + 1) / 2 <= 2 ^ 30.

(** Two keys with the same hash, length and characters: they match the
    same strings. *)
Definition SameContent `{StringTableKey IsolateT K} (k1 k2 : K) : Prop :=
  key_hash k1 = key_hash k2 ∧ key_length k1 = key_length k2 ∧
  ∀ s, IsMatch k1 s = IsMatch k2 s.

(** The string a key hands out for insertion has the hash, length and
    characters of the key, and preparing the key leaves these alone. *)
Definition InsertsItself `{StringTableKey IsolateT K} (isolate : IsolateT)
    (k : K) : Prop :=
  let '(isolate1, k') := PrepareForInsertion isolate k in
  let '(_, s) := GetHandleForInsertion isolate1 k' in
  SameContent k' k ∧ KeyIsMatch k s = true.

(** The strings [Resize] reads from the slots [range] of the old table. *)
Definition picked (data : Data) (range : list Z) : list String :=
  flat_map (λ i, match Get data (Entry i) with
                 | Some (StringElement s) => [s]
                 | _ => []
                 end) range.

(** The string [s] in slot [e] is reached by the probe sequence of its
    hash before any free slot. *)
Definition Reachable (d : Data) (k : Z) (s : String) (e : Z) : Prop :=
  ∃ n : nat, Z.of_nat n < 2 ^ k ∧
    triangular_probe (String_hash s) (2 ^ k) n = Entry e ∧
    ∀ j : nat, (j < n)%nat →
      ∃ t, Get d (triangular_probe (String_hash s) (2 ^ k) j)
           = Some (StringElement t).

Definition PathOK (d : Data) (k : Z) : Prop :=
  ∀ e s, Get d (Entry e) = Some (StringElement s) → Reachable d k s e.

(** ** Resizing *)

(** The rehash loop of [Resize] over the indices of the old table. *)
Fixpoint Rehash (fuel : nat) (data : Data) (range : list Z) (new_data : Data)
    : option Data :=
  match range with
  | [] => Some new_data
  | i :: range' =>
      match Get data (Entry i) with
      | None => None
      | Some empty_element | Some deleted_element =>
          Rehash fuel data range' new_data
      | Some (StringElement string) =>
          let hash := String_hash string in
          match FindInsertionEntry fuel new_data hash with
          | None => None
          | Some insertion_index =>
              match Set_ new_data insertion_index string with
              | None => None
              | Some new_data' => Rehash fuel data range' new_data'
              end
          end
      end
  end.

Definition Resize (fuel : nat) (data : Data) (capacity : Z) : option Data :=
  let new_data := New capacity in
  match Rehash fuel data (seqZ 0 (capacity_ data)) new_data with
  | None => None
  | Some new_data =>
      Some (mkData (Some data) (number_of_elements data)
              (number_of_deleted_elements_ new_data) (capacity_ new_data)
              (elements_ new_data))
  end.

(** ** The table *)

(** [StringTable] owns the current generation [data_]; the write mutex
    has no state in a sequential execution. *)
Record StringTable := mkStringTable { data_ : Data }.

Definition EnsureCapacity (fuel : nat) (table : StringTable)
    (additional_elements : Z) : option (StringTable * Data) :=
  let data := data_ table in
  let current_capacity := capacity data in
  let current_nof := number_of_elements data in
  let capacity_after_shrinking :=
    ComputeStringTableCapacityWithShrink current_capacity
      (int32_t (current_nof + 1)) in
  let new_capacity :=
    if capacity_after_shrinking <? current_capacity then
      capacity_after_shrinking
    else if negb (StringTableHasSufficientCapacityToAdd current_capacity
                    current_nof (number_of_deleted_elements data) 1) then
      ComputeStringTableCapacity (int32_t (current_nof + 1))
    else -1 in
  if negb (new_capacity =? -1) then
    match Resize fuel data new_capacity with
    | None => None
    | Some new_data => Some (mkStringTable new_data, new_data)
    end
  else Some (table, data).

Definition LookupKey `{StringTableKey IsolateT K} (fuel : nat)
    (table : StringTable) (isolate : IsolateT) (key : K)
    : option (StringTable * IsolateT * String) :=
  let current_data := data_ table in
  match FindEntry fuel current_data key (key_hash key) with
  | None => None
  | Some (Entry raw) =>
      match Get current_data (Entry raw) with
      | Some (StringElement result) => Some (table, isolate, result)
      | _ => None
      end
  | Some NotFound =>
      let '(isolate, key) := PrepareForInsertion isolate key in
      match EnsureCapacity fuel table 1 with
      | None => None
      | Some (table, data) =>
          match FindEntryOrInsertionEntry fuel data key (key_hash key) with
          | None => None
          | Some entry =>
              match Get data entry with
              | None => None
              | Some empty_element =>
                  let '(isolate, new_string) :=
                    GetHandleForInsertion isolate key in
                  match Set_ data entry new_string with
                  | None => None
                  | Some data =>
                      Some (mkStringTable (ElementAdded data), isolate,
                            new_string)
                  end
              | Some deleted_element =>
                  let '(isolate, new_string) :=
                    GetHandleForInsertion isolate key in
                  match Set_ data entry new_string with
                  | None => None
                  | Some data =>
                      Some (mkStringTable (DeletedElementOverwritten data),
                            isolate, new_string)
                  end
              | Some (StringElement element) =>
                  Some (table, isolate, element)
              end
          end
      end
  end.


(** ** Interning *)

(** A caller that interns the keys of a list one after the other and
    collects the strings it gets. *)
Fixpoint LookupKeys `{StringTableKey IsolateT K} (fuel : nat)
    (table : StringTable) (isolate : IsolateT) (keys : list K)
    : option (StringTable * IsolateT * list String) :=
  match keys with
  | [] => Some (table, isolate, [])
  | key :: keys' =>
      match LookupKey fuel table isolate key with
      | None => None
      | Some (table, isolate, result) =>
          match LookupKeys fuel table isolate keys' with
          | None => None
          | Some (table, isolate, results) =>
              Some (table, isolate, result :: results)
          end
      end
  end.

(** What two strings must share to be the same string to a key: the hash
    and the characters. *)
Definition content (s : String) : Z * list Z := (String_hash s, chars s).

(** Every string of the table lies on the probe sequence of its hash,
    with no empty slot before it: a search for it does not stop early. *)
Definition Findable (d : Data) (k : Z) : Prop :=
  ∀ e s, Get d (Entry e) = Some (StringElement s) →
    ∃ n : nat, Z.of_nat n < 2 ^ k ∧
      triangular_probe (String_hash s) (2 ^ k) n = Entry e ∧
      ∀ j : nat, (j < n)%nat →
        Get d (triangular_probe (String_hash s) (2 ^ k) j)
        ≠ Some empty_element.

(** An interning table: the invariant of a generation holds, every string
    is findable, and no two slots hold strings of the same content. *)
Record Interned (d : Data) : Prop := mkInterned {
  interned_invariant : Invariant d;
  interned_findable : ∀ k, capacity_ d = 2 ^ k → Findable d k;
  interned_unique : NoDup (content <$> strings_of (elements_ d))
}.

(** A key that matches exactly the strings of its hash with the
    characters [c]. *)
Definition MatchesContent `{StringTableKey IsolateT K} (key : K)
    (c : list Z) : Prop :=
  ∀ s, KeyIsMatch key s = true ↔ content s = (key_hash key, c).

(** The isolate states [good] are kept by the insertion methods of the
    keys of [keys], which insert a string of the content [c key]. *)
Definition InsertingKeys `{StringTableKey IsolateT K}
    (good : IsolateT → Prop) (keys : list K) (c : K → list Z) : Prop :=
  ∀ isolate key, good isolate → key ∈ keys →
    MatchesContent key (c key) ∧
    InsertsItself isolate key ∧
    good (PrepareForInsertion isolate key).1 ∧
    good (GetHandleForInsertion (PrepareForInsertion isolate key).1
            (PrepareForInsertion isolate key).2).1.

(** ** Heap strings, the forwarding table and [LookupString] *)

(** Modelled from the spec: the hash field of a [Name] is declared in
    [src/objects/name.h].  Its two low bits tell whether the remaining bits
    hold nothing yet, a hash, an integer index or a forwarding index. *)
Inductive HashField :=
| kEmpty
| kHash (hash : Z)
| kIntegerIndex (value : Z)
| kForwardingIndex (index : Z).

Definition HashBits_decode (field : HashField) : Z :=
  match field with
  | kEmpty => 0
  | kHash h => h
  | kIntegerIndex v => v
  | kForwardingIndex i => i
  end.

Definition IsForwardingIndex (field : HashField) : bool :=
  match field with kForwardingIndex _ => true | _ => false end.

Definition IsIntegerIndex (field : HashField) : bool :=
  match field with kIntegerIndex _ => true | _ => false end.

(** Modelled from the spec: the string representations are declared in
    [src/objects/string.h]. *)
Inductive StringShape :=
| SeqString
| ExternalString (one_byte uncached : bool)
| ConsString (first second : Z)
| SlicedString (parent offset : Z)
| ThinString (actual : Z).

(** A string object on the heap: its representation, whether its map is
    an internalized-string map, whether it lives in the shared heap, its
    hash field and the characters it denotes. *)
Record HeapString := mkHeapString {
  shape : StringShape;
  internalized : bool;
  shared : bool;
  raw_hash_field_ : HashField;
  characters : list Z
}.

(** Modelled from the spec: the block layout of [StringForwardingTable]
    ([BlockForIndex], [IndexInBlock], [CapacityForBlock]) is declared in
    [src/objects/string-table.h].  The table is an append-only sequence of
    (original, forwarded) pairs indexed by the forwarding index. *)
Record StringForwardingTable := mkStringForwardingTable {
  next_free_index_ : Z;
  records_ : list (Z * Z)
}.

Definition Size (t : StringForwardingTable) : Z := next_free_index_ t.

Definition Add (t : StringForwardingTable) (string forward_to : Z)
    : StringForwardingTable * Z :=
  let index := next_free_index_ t in
  (mkStringForwardingTable (int32_t (index + 1))
     (records_ t ++ [(string, forward_to)]), index).

Definition GetForwardString (t : StringForwardingTable) (index : Z)
    : option Z :=
  if (0 <=? index) && (index <? Size t) then
    snd <$> records_ t !! Z.to_nat index
  else None.

Record Isolate := mkIsolate {
  heap : gmap Z HeapString;
  string_forwarding_table : StringForwardingTable
}.

Inductive StringTransitionStrategy :=
| kCopy
| kInPlace
| kAlreadyTransitioned.

(** The collaborators of [LookupString] and [InternalizedStringKey] that
    are defined outside [string-table.cc]: the flag, [String::Flatten],
    [Name::EnsureHash] and the factory. *)
Class Runtime := {
  FLAG_always_use_string_forwarding_table : bool;
  Flatten : gmap Z HeapString → Z → gmap Z HeapString * Z;
  EnsureHash : gmap Z HeapString → Z → gmap Z HeapString;
  ComputeInternalizationStrategyForString :
    gmap Z HeapString → Z → StringTransitionStrategy;
  NewInternalizedStringImpl :
    gmap Z HeapString → Z → Z → HashField → gmap Z HeapString * Z;
  InternalizeExternalString :
    gmap Z HeapString → Z → gmap Z HeapString * Z
}.

(** The view the table has of the heap string at [address]. *)
Definition StringAt (h : gmap Z HeapString) (address : Z) : String :=
  match h !! address with
  | Some o =>
      mkString address (HashBits_decode (raw_hash_field_ o)) (characters o)
  | None => mkString address 0 []
  end.

Definition IsInternalizedString (h : gmap Z HeapString) (a : Z) : bool :=
  match h !! a with Some o => internalized o | None => false end.

Definition IsThinString (h : gmap Z HeapString) (a : Z) : bool :=
  match h !! a with
  | Some o => match shape o with ThinString _ => true | _ => false end
  | None => false
  end.

Definition IsExternalString (h : gmap Z HeapString) (a : Z) : bool :=
  match h !! a with
  | Some o => match shape o with ExternalString _ _ => true | _ => false end
  | None => false
  end.

Definition IsShared (h : gmap Z HeapString) (a : Z) : bool :=
  match h !! a with Some o => shared o | None => false end.

Definition raw_hash_field (h : gmap Z HeapString) (a : Z) : HashField :=
  match h !! a with Some o => raw_hash_field_ o | None => kEmpty end.

Definition set_raw_hash_field (h : gmap Z HeapString) (a : Z)
    (field : HashField) : gmap Z HeapString :=
  match h !! a with
  | Some o =>
      <[a := mkHeapString (shape o) (internalized o) (shared o) field
               (characters o)]> h
  | None => h
  end.

Definition set_map_internalized (h : gmap Z HeapString) (a : Z)
    : gmap Z HeapString :=
  match h !! a with
  | Some o =>
      <[a := mkHeapString (shape o) true (shared o) (raw_hash_field_ o)
               (characters o)]> h
  | None => h
  end.

(** Modelled from the spec: [String::MakeThin] (in [src/objects/string.cc])
    rewrites the string in place into a thin reference to [internalized]. *)
Definition MakeThin (h : gmap Z HeapString) (a internalized_string : Z)
    : gmap Z HeapString :=
  match h !! a with
  | Some o =>
      <[a := mkHeapString (ThinString internalized_string) (internalized o)
               (shared o) (raw_hash_field_ o) (characters o)]> h
  | None => h
  end.

(** [InternalizedStringKey]: the hash and length handed to the
    [StringTableKey] base, the string, and whether [PrepareForInsertion]
    chose the in-place transition ([maybe_internalized_map_] is set). *)
Record InternalizedStringKey := mkInternalizedStringKey {
  hash_ : Z;
  length_ : Z;
  string_ : String;
  maybe_internalized_map_ : bool
}.

(** Modelled from the spec: [String::SlowEquals] (in
    [src/objects/string.cc]) compares the characters of two strings. *)
Definition SlowEquals (a b : String) : bool :=
  bool_decide (chars a = chars b).

Section WithRuntime.
Context `{Runtime}.

Definition InternalizedStringKey_PrepareForInsertion (isolate : Isolate)
    (key : InternalizedStringKey) : Isolate * InternalizedStringKey :=
  let h := heap isolate in
  let a := ptr (string_ key) in
  match ComputeInternalizationStrategyForString h a with
  | kInPlace =>
      (isolate,
       mkInternalizedStringKey (hash_ key) (length_ key) (string_ key) true)
  | kAlreadyTransitioned => (isolate, key)
  | kCopy =>
      let '(h', a') :=
        match shape <$> h !! a with
        | Some (ExternalString _ false) => InternalizeExternalString h a
        | _ =>
            NewInternalizedStringImpl h a (String_length (string_ key))
              (raw_hash_field h a)
        end in
      (mkIsolate h' (string_forwarding_table isolate),
       mkInternalizedStringKey (hash_ key) (length_ key) (StringAt h' a')
         (maybe_internalized_map_ key))
  end.

Definition InternalizedStringKey_GetHandleForInsertion (isolate : Isolate)
    (key : InternalizedStringKey) : Isolate * String :=
  if maybe_internalized_map_ key then
    (mkIsolate (set_map_internalized (heap isolate) (ptr (string_ key)))
       (string_forwarding_table isolate),
     string_ key)
  else (isolate, string_ key).

Global Instance InternalizedStringKey_key
    : StringTableKey Isolate InternalizedStringKey := {
  key_hash := hash_;
  key_length := length_;
  IsMatch := fun key string => SlowEquals (string_ key) string;
  PrepareForInsertion := InternalizedStringKey_PrepareForInsertion;
  GetHandleForInsertion := InternalizedStringKey_GetHandleForInsertion
}.

Definition SetInternalizedReference (isolate : Isolate)
    (string internalized_string : Z) : Isolate :=
  let h := heap isolate in
  if (IsShared h string || FLAG_always_use_string_forwarding_table)
     && negb (IsExternalString h string) then
    let field := raw_hash_field h string in
    if IsIntegerIndex field then isolate
    else
      let '(table, forwarding_index) :=
        Add (string_forwarding_table isolate) string internalized_string in
      mkIsolate
        (set_raw_hash_field h string (kForwardingIndex forwarding_index))
        table
  else
    mkIsolate (MakeThin h string internalized_string)
      (string_forwarding_table isolate).

(** Whether [LookupString] records [string] in the forwarding table once
    it has its interned [result]. *)
Definition NeedsForwarding `{Runtime} (h : gmap Z HeapString)
    (string result : Z) : bool :=
  negb (string =? result) && negb (IsThinString h string) &&
  (IsShared h string || FLAG_always_use_string_forwarding_table) &&
  negb (IsExternalString h string) &&
  negb (IsIntegerIndex (raw_hash_field h string)).

Definition LookupString (fuel : nat) (table : StringTable)
    (isolate : Isolate) (string : Z) : option (StringTable * Isolate * Z) :=
  let '(h, result) := Flatten (heap isolate) string in
  let isolate := mkIsolate h (string_forwarding_table isolate) in
  let looked_up :=
    if negb (IsInternalizedString h result) then
      let h := EnsureHash h result in
      let isolate := mkIsolate h (string_forwarding_table isolate) in
      let field := raw_hash_field h result in
      if IsForwardingIndex field then
        let index := HashBits_decode field in
        match GetForwardString (string_forwarding_table isolate) index with
        | None => None
        | Some forwarded => Some (table, isolate, forwarded)
        end
      else
        let key :=
          mkInternalizedStringKey (HashBits_decode field)
            (String_length (StringAt h result)) (StringAt h result) false in
        match LookupKey fuel table isolate key with
        | None => None
        | Some (table, isolate, found) => Some (table, isolate, ptr found)
        end
    else Some (table, isolate, result) in
  match looked_up with
  | None => None
  | Some (table, isolate, result) =>
      if negb (string =? result) && negb (IsThinString (heap isolate) string)
      then Some (table, SetInternalizedReference isolate string result, result)
      else Some (table, isolate, result)
  end.

(** The isolate and the key with which [LookupString] calls [LookupKey]:
    the flattened string with its hash computed, unless that string is
    interned already or carries a forwarding index. *)
Definition LookupString_key (isolate : Isolate) (string : Z)
    : option (Isolate * InternalizedStringKey) :=
  let '(h, result) := Flatten (heap isolate) string in
  if negb (IsInternalizedString h result) then
    let h := EnsureHash h result in
    let field := raw_hash_field h result in
    if IsForwardingIndex field then None
    else
      Some (mkIsolate h (string_forwarding_table isolate),
            mkInternalizedStringKey (HashBits_decode field)
              (String_length (StringAt h result)) (StringAt h result) false)
  else None.

(** [result] is the canonical string of the content [(hash, c)] in
    [table]: looking that content up, with a key of any kind or through
    a string that [LookupString] turns into such a key, returns [result]
    and leaves the table as it is. *)
Definition Canonical (fuel : nat) (table : StringTable) (hash : Z)
    (c : list Z) (result : String) : Prop :=
  (∀ (IsolateT K : Type) (key_kind : StringTableKey IsolateT K)
     (isolate : IsolateT) (key : K),
     key_hash key = hash → MatchesContent key c →
     LookupKey fuel table isolate key = Some (table, isolate, result)) ∧
  (∀ (isolate : Isolate) (string : Z) isolate1 key,
     LookupString_key isolate string = Some (isolate1, key) →
     hash_ key = hash → chars (string_ key) = c →
     ∃ isolate',
       LookupString fuel table isolate string
       = Some (table, isolate', ptr result)).

End WithRuntime.

End StringTable.

(** ** A runtime for concrete executions *)

Module Concrete.
Import StringTable.

(** The canonical empty string that ends a flat cons string. *)
Definition empty_string : Z := 0.

Definition IsFlatCons (h : gmap Z HeapString) (second : Z) : bool :=
  match h !! second with
  | Some o => bool_decide (characters o = [])
  | None => false
  end.

(** [String::Flatten]: a direct string is returned as it is; a flat cons
    string yields its first part and a thin string the string it refers
    to; any other cons string is flattened into a fresh sequential string
    that becomes its first part. *)
Definition Flatten_ (h : gmap Z HeapString) (string : Z)
    : gmap Z HeapString * Z :=
  let through_thin (s : Z) : Z :=
    match shape <$> h !! s with
    | Some (ThinString actual) => actual
    | _ => s
    end in
  match h !! string with
  | Some o =>
      match shape o with
      | ConsString first second =>
          if IsFlatCons h second then (h, through_thin first)
          else
            let flat := fresh (dom h) in
            (<[string := mkHeapString (ConsString flat empty_string)
                           (internalized o) (shared o) (raw_hash_field_ o)
                           (characters o)]>
               (<[flat := mkHeapString SeqString false false kEmpty
                            (characters o)]> h),
             flat)
      | ThinString actual => (h, actual)
      | _ => (h, string)
      end
  | None => (h, string)
  end.

Definition StringHasher (l : list Z) : Z :=
  uint32_t (foldl (λ acc c, 31 * acc + c) 7 l) mod 2 ^ 30.

Definition EnsureHash_ (h : gmap Z HeapString) (a : Z) : gmap Z HeapString :=
  match h !! a with
  | Some o =>
      match raw_hash_field_ o with
      | kEmpty => set_raw_hash_field h a (kHash (StringHasher (characters o)))
      | _ => h
      end
  | None => h
  end.

Definition ComputeInternalizationStrategyForString_
    (h : gmap Z HeapString) (a : Z) : StringTransitionStrategy :=
  match h !! a with
  | Some o =>
      if internalized o then kAlreadyTransitioned
      else match shape o with
           | SeqString => if shared o then kInPlace else kCopy
           | _ => kCopy
           end
  | None => kCopy
  end.

Definition NewInternalizedStringImpl_ (h : gmap Z HeapString) (a : Z)
    (len : Z) (field : HashField) : gmap Z HeapString * Z :=
  let copy := fresh (dom h) in
  (<[copy := mkHeapString SeqString true false field
               (characters (default (mkHeapString SeqString false false
                                       kEmpty []) (h !! a)))]> h,
   copy).

Definition InternalizeExternalString_ (h : gmap Z HeapString) (a : Z)
    : gmap Z HeapString * Z :=
  match h !! a with
  | Some o =>
      let copy := fresh (dom h) in
      (<[copy := mkHeapString (shape o) true false (raw_hash_field_ o)
                   (characters o)]> h,
       copy)
  | None => (h, a)
  end.

Definition runtime (always_use_string_forwarding_table : bool) : Runtime := {|
  FLAG_always_use_string_forwarding_table :=
    always_use_string_forwarding_table;
  Flatten := Flatten_;
  EnsureHash := EnsureHash_;
  ComputeInternalizationStrategyForString :=
    ComputeInternalizationStrategyForString_;
  NewInternalizedStringImpl := NewInternalizedStringImpl_;
  InternalizeExternalString := InternalizeExternalString_
|}.

#[export] Instance default_runtime : Runtime := runtime false.

(** A shared sequential string that is not interned yet. *)
Definition seq_string (hash : Z) (characters : list Z) : HeapString :=
  mkHeapString SeqString false true (kHash hash) characters.

(** The key [LookupString] builds for the heap string at [a]. *)
Definition key_of (h : gmap Z HeapString) (a : Z) : InternalizedStringKey :=
  mkInternalizedStringKey (HashBits_decode (raw_hash_field h a))
    (String_length (StringAt h a)) (StringAt h a) false.

(** Three strings with the same hash 0 and one equal in content to the
    third. *)
Definition heap3 : gmap Z HeapString :=
  <[101 := seq_string 0 [97]]>
  (<[102 := seq_string 0 [98]]>
  (<[103 := seq_string 0 [99]]>
  (<[104 := seq_string 0 [99]]> ∅))).

Definition isolate3 : Isolate := mkIsolate heap3 (mkStringForwardingTable 0 []).

(** The table after interning the strings at 101, 102 and 103. *)
Definition table3 : option StringTable :=
  '(t, i, _) ← LookupKey 2048 (mkStringTable (New kStringTableMinCapacity))
                  isolate3 (key_of heap3 101);
  '(t, i, _) ← LookupKey 2048 t i (key_of (heap i) 102);
  '(t, i, _) ← LookupKey 2048 t i (key_of (heap i) 103);
  Some t.

(** The generation of [table3]. *)
Definition data3 : Data :=
  match table3 with Some t => data_ t | None => New kStringTableMinCapacity end.

(** The table and the isolate after interning the strings at 101 and
    102 only. *)
Definition table2 : option (StringTable * Isolate) :=
  '(t, i, _) ← LookupKey 4096 (mkStringTable (New kStringTableMinCapacity))
                  isolate3 (key_of heap3 101);
  '(t, i, _) ← LookupKey 4096 t i (key_of (heap i) 102);
  Some (t, i).

Definition data2 : Data :=
  match table2 with
  | Some (t, _) => data_ t
  | None => New kStringTableMinCapacity
  end.

Definition isolate2 : Isolate :=
  match table2 with Some (_, i) => i | None => isolate3 end.

(** [n] shared sequential strings, the [i]-th at address [1000 + i] with
    hash [i] and the single character [i]. *)
Definition many_strings (n : nat) : gmap Z HeapString :=
  list_to_map
    ((λ i : nat, (1000 + Z.of_nat i, seq_string (Z.of_nat i) [Z.of_nat i]))
       <$> seq 0 n).

(** Interning the first [n] of them, one after the other, into a new
    table. *)
Fixpoint intern_first (n : nat) (h : gmap Z HeapString)
    : option (StringTable * Isolate) :=
  match n with
  | O =>
      Some (mkStringTable (New kStringTableMinCapacity),
            mkIsolate h (mkStringForwardingTable 0 []))
  | S n' =>
      match intern_first n' h with
      | None => None
      | Some (t, i) =>
          match LookupKey 4096 t i (key_of (heap i) (1000 + Z.of_nat n')) with
          | None => None
          | Some (t', i', _) => Some (t', i')
          end
      end
  end.

(** A generation of capacity 4096 with 1100 strings, each in the slot of
    its hash, and 2000 slots the collector has marked deleted. *)
Definition cluttered : Data :=
  mkData None 1100 2000 4096
    (((λ i : nat,
         StringElement (mkString (1000 + Z.of_nat i) (Z.of_nat i) [Z.of_nat i]))
        <$> seq 0 1100)
     ++ replicate 2000 deleted_element ++ replicate 996 empty_element).

(** A generation of capacity 4096 with 100 strings, each in the slot of
    its hash, and no deleted slot. *)
Definition sparse : Data :=
  mkData None 100 0 4096
    (((λ i : nat,
         StringElement (mkString (1000 + Z.of_nat i) (Z.of_nat i) [Z.of_nat i]))
        <$> seq 0 100)
     ++ replicate 3996 empty_element).

(** A flat cons string at 300 whose first part, at 200, is interned. *)
Definition cons_heap : gmap Z HeapString :=
  <[300 := mkHeapString (ConsString 200 empty_string) false false (kHash 5)
             [120; 121]]>
  (<[200 := mkHeapString SeqString true true (kHash 5) [120; 121]]>
  (<[empty_string := mkHeapString SeqString true true (kHash 0) []]> ∅)).

Definition cons_isolate : Isolate :=
  mkIsolate cons_heap (mkStringForwardingTable 0 []).

(** Modelled from the spec: [StringTableInsertionKey] (declared in
    [src/objects/string-table-inl.h]) is the key of a string that exists
    already; it matches by [String::SlowEquals], needs no preparation and
    hands out its string. *)
#[export] Instance StringTableInsertionKey : StringTableKey unit String := {|
  key_hash := String_hash;
  key_length := String_length;
  IsMatch := SlowEquals;
  PrepareForInsertion := λ isolate key, (isolate, key);
  GetHandleForInsertion := λ isolate key, (isolate, key)
|}.

(** Three strings to intern, the first and the last equal in content. *)
Definition three_keys : list String :=
  [mkString 201 7 [97; 98]; mkString 202 7 [97; 99]; mkString 203 7 [97; 98]].

End Concrete.

(** * The Maglev register allocator *)

Module Maglev.

(** ** Register lists *)

(** Modelled from the spec: [RegListBase] (in [src/codegen/reglist-base.h])
    is a bit set of register codes; iteration, [first] and [PopFirst] go
    by increasing register code.  The number of registers and the
    allocatable registers of the two register classes depend on the
    target architecture. *)
Class Architecture := {
  kNumRegisters : Z;
  kAllocatableGeneralRegisters : Z;
  kAllocatableDoubleRegisters : Z
}.

Definition kEmptyRegList : Z := 0.

Definition has (regs : Z) (reg : Z) : bool := Z.testbit regs reg.
Definition set (regs : Z) (reg : Z) : Z := Z.lor regs (Z.shiftl 1 reg).
Definition clear (regs : Z) (reg : Z) : Z := Z.ldiff regs (Z.shiftl 1 reg).

(** [RegisterT::no_reg()]. *)
Definition no_reg : Z := -1.

Section WithArchitecture.
Context `{Architecture}.

(** The registers of a list in iteration order. *)
Definition registers_of (regs : Z) : list Z :=
  List.filter (has regs) (seqZ 0 kNumRegisters).

Definition first (regs : Z) : Z := hd no_reg (registers_of regs).

Definition Count (regs : Z) : Z := Z.of_nat (length (registers_of regs)).

(** ** Operands *)

Inductive MachineRepresentation :=
| kWord32
| kTagged
| kFloat64.

Inductive ValueRepresentation :=
| ValueRepresentation_kTagged
| ValueRepresentation_kInt32
| ValueRepresentation_kFloat64.

Inductive LocationKind :=
| REGISTER
| STACK_SLOT.

Inductive UnallocatedPolicy :=
| FIXED_SLOT (fixed_slot_index : Z)
| NONE
| REGISTER_OR_SLOT
| REGISTER_OR_SLOT_OR_CONSTANT
| FIXED_REGISTER (fixed_register_index : Z)
| FIXED_FP_REGISTER (fixed_register_index : Z)
| MUST_HAVE_REGISTER
| MUST_HAVE_SLOT
| SAME_AS_INPUT (input_index : Z).

(** Modelled from the spec: [compiler::InstructionOperand] and its
    subclasses are declared in [src/compiler/backend/instruction.h]. *)
Inductive InstructionOperand :=
| InvalidOperand
| UnallocatedOperand (policy : UnallocatedPolicy)
| ConstantOperand
| AllocatedOperand (kind : LocationKind) (rep : MachineRepresentation)
    (index : Z).

Global Instance MachineRepresentation_eq_dec : EqDecision MachineRepresentation.
Proof. solve_decision. Defined.

Global Instance ValueRepresentation_eq_dec : EqDecision ValueRepresentation.
Proof. solve_decision. Defined.

Global Instance LocationKind_eq_dec : EqDecision LocationKind.
Proof. solve_decision. Defined.

Global Instance UnallocatedPolicy_eq_dec : EqDecision UnallocatedPolicy.
Proof. solve_decision. Defined.

Global Instance InstructionOperand_eq_dec : EqDecision InstructionOperand.
Proof. solve_decision. Defined.

Definition IsAnyRegister (op : InstructionOperand) : bool :=
  match op with AllocatedOperand REGISTER _ _ => true | _ => false end.

Definition IsDoubleRegister (op : InstructionOperand) : bool :=
  match op with AllocatedOperand REGISTER kFloat64 _ => true | _ => false end.

Definition IsRegister (op : InstructionOperand) : bool :=
  IsAnyRegister op && negb (IsDoubleRegister op).

Definition IsAnyStackSlot (op : InstructionOperand) : bool :=
  match op with AllocatedOperand STACK_SLOT _ _ => true | _ => false end.

Definition IsConstant (op : InstructionOperand) : bool :=
  match op with ConstantOperand => true | _ => false end.

Definition IsAllocated (op : InstructionOperand) : bool :=
  match op with AllocatedOperand _ _ _ => true | _ => false end.

Definition IsUnallocated (op : InstructionOperand) : bool :=
  match op with UnallocatedOperand _ => true | _ => false end.

(** ** Value nodes *)

Definition kInvalidNodeId : Z := 0.

Record LiveRange := mkLiveRange { start : Z; end_ : Z }.

(** Modelled from the spec: [ValueNode] is declared in
    [src/maglev/maglev-ir.h].  The allocator reads the id, the live range
    and the representation, and updates the next use, the spill slot, the
    set of registers that hold the value and the result operand. *)
Record ValueNode := mkValueNode {
  id : Z;
  live_range : LiveRange;
  next_use : Z;
  value_representation : ValueRepresentation;
  is_constant_node : bool;
  spill_or_hint_ : InstructionOperand;
  registers_with_result_ : Z;
  result : InstructionOperand
}.

Definition use_double_register (n : ValueNode) : bool :=
  match value_representation n with
  | ValueRepresentation_kFloat64 => true
  | _ => false
  end.

Definition GetMachineRepresentation (n : ValueNode) : MachineRepresentation :=
  match value_representation n with
  | ValueRepresentation_kTagged => kTagged
  | ValueRepresentation_kInt32 => kWord32
  | ValueRepresentation_kFloat64 => kFloat64
  end.

Definition is_dead (n : ValueNode) : bool := next_use n =? kInvalidNodeId.
Definition has_valid_live_range (n : ValueNode) : bool :=
  negb (end_ (live_range n) =? 0).
Definition is_loadable (n : ValueNode) : bool :=
  IsConstant (spill_or_hint_ n) || IsAnyStackSlot (spill_or_hint_ n).
Definition is_spilled (n : ValueNode) : bool := IsAnyStackSlot (spill_or_hint_ n).
Definition has_register (n : ValueNode) : bool :=
  negb (registers_with_result_ n =? kEmptyRegList).
Definition is_in_register (n : ValueNode) (reg : Z) : bool :=
  has (registers_with_result_ n) reg.
Definition num_registers (n : ValueNode) : Z := Count (registers_with_result_ n).

Definition set_next_use (n : ValueNode) (use : Z) : ValueNode :=
  mkValueNode (id n) (live_range n) use (value_representation n)
    (is_constant_node n) (spill_or_hint_ n) (registers_with_result_ n)
    (result n).

Definition set_spill_or_hint (n : ValueNode) (op : InstructionOperand)
    : ValueNode :=
  mkValueNode (id n) (live_range n) (next_use n) (value_representation n)
    (is_constant_node n) op (registers_with_result_ n) (result n).

Definition set_registers (n : ValueNode) (regs : Z) : ValueNode :=
  mkValueNode (id n) (live_range n) (next_use n) (value_representation n)
    (is_constant_node n) (spill_or_hint_ n) regs (result n).

Definition set_result (n : ValueNode) (op : InstructionOperand) : ValueNode :=
  mkValueNode (id n) (live_range n) (next_use n) (value_representation n)
    (is_constant_node n) (spill_or_hint_ n) (registers_with_result_ n) op.

Definition AddRegister (n : ValueNode) (reg : Z) : ValueNode :=
  set_registers n (set (registers_with_result_ n) reg).
Definition RemoveRegister (n : ValueNode) (reg : Z) : ValueNode :=
  set_registers n (clear (registers_with_result_ n) reg).

(** [node->allocation()]: the first register that holds the value, else
    the spill slot or constant. *)
Definition allocation (n : ValueNode) : InstructionOperand :=
  if has_register n then
    AllocatedOperand REGISTER (GetMachineRepresentation n)
      (first (registers_with_result_ n))
  else spill_or_hint_ n.

(** ** The state of the allocator *)

Inductive RegisterClass :=
| General
| Double.

Global Instance RegisterClass_eq_dec : EqDecision RegisterClass.
Proof. solve_decision. Defined.

Definition kAllocatableRegisters (c : RegisterClass) : Z :=
  match c with
  | General => kAllocatableGeneralRegisters
  | Double => kAllocatableDoubleRegisters
  end.

(** [RegisterFrameState<RegisterT>]: the node each register holds (a
    pointer, 0 when never written) and the free registers. *)
Record RegisterFrameState := mkRegisterFrameState {
  values_ : gmap Z Z;
  free_ : Z
}.

(** The address [kBlockedRegisterSentinel] stands for a blocked register;
    no node lives there. *)
Definition kBlockedRegisterSentinel : Z := 0xb10cced.

Record SpillSlotInfo := mkSpillSlotInfo {
  slot_index : Z;
  freed_at_position : Z
}.

Record SpillSlots := mkSpillSlots {
  top : Z;
  free_slots : list SpillSlotInfo
}.

Inductive AllocationStage :=
| kAtStart
| kAtEnd.

Global Instance AllocationStage_eq_dec : EqDecision AllocationStage.
Proof. solve_decision. Defined.

(** A gap move inserted before the current node: the node moved, its
    source and its target. *)
Record GapMove := mkGapMove {
  moved : Z;
  source : InstructionOperand;
  target : InstructionOperand
}.

(** The allocator: the value nodes of the graph by address, the two
    register files, the two families of spill slots, the id of
    [current_node_] and the gap moves inserted so far. *)
Record Allocator := mkAllocator {
  nodes : gmap Z ValueNode;
  general_registers_ : RegisterFrameState;
  double_registers_ : RegisterFrameState;
  tagged_ : SpillSlots;
  untagged_ : SpillSlots;
  current_node_id : Z;
  gap_moves : list GapMove
}.

Definition registers (s : Allocator) (c : RegisterClass) : RegisterFrameState :=
  match c with
  | General => general_registers_ s
  | Double => double_registers_ s
  end.

Definition with_registers (s : Allocator) (c : RegisterClass)
    (r : RegisterFrameState) : Allocator :=
  match c with
  | General =>
      mkAllocator (nodes s) r (double_registers_ s) (tagged_ s) (untagged_ s)
        (current_node_id s) (gap_moves s)
  | Double =>
      mkAllocator (nodes s) (general_registers_ s) r (tagged_ s) (untagged_ s)
        (current_node_id s) (gap_moves s)
  end.

Definition with_nodes (s : Allocator) (m : gmap Z ValueNode) : Allocator :=
  mkAllocator m (general_registers_ s) (double_registers_ s) (tagged_ s)
    (untagged_ s) (current_node_id s) (gap_moves s).

Definition with_node (s : Allocator) (node : Z) (n : ValueNode) : Allocator :=
  with_nodes s (<[node := n]> (nodes s)).

Definition with_slots (s : Allocator) (is_tagged : bool) (slots : SpillSlots)
    : Allocator :=
  if is_tagged then
    mkAllocator (nodes s) (general_registers_ s) (double_registers_ s) slots
      (untagged_ s) (current_node_id s) (gap_moves s)
  else
    mkAllocator (nodes s) (general_registers_ s) (double_registers_ s)
      (tagged_ s) slots (current_node_id s) (gap_moves s).


(** ** [RegisterFrameState] *)

Definition free (s : Allocator) (c : RegisterClass) : Z :=
  free_ (registers s c).

Definition used (s : Allocator) (c : RegisterClass) : Z :=
  Z.lxor (kAllocatableRegisters c) (free s c).

Definition FreeIsEmpty (s : Allocator) (c : RegisterClass) : bool :=
  free s c =? kEmptyRegList.

Definition GetValue (s : Allocator) (c : RegisterClass) (reg : Z) : Z :=
  default 0 (values_ (registers s c) !! reg).

Definition with_free (s : Allocator) (c : RegisterClass) (regs : Z)
    : Allocator :=
  with_registers s c (mkRegisterFrameState (values_ (registers s c)) regs).

Definition RemoveFromFree (s : Allocator) (c : RegisterClass) (reg : Z)
    : Allocator :=
  with_free s c (clear (free s c) reg).

Definition AddToFree (s : Allocator) (c : RegisterClass) (reg : Z)
    : Allocator :=
  with_free s c (set (free s c) reg).

Definition AddToFree_list (s : Allocator) (c : RegisterClass) (regs : Z)
    : Allocator :=
  with_free s c (Z.lor (free s c) regs).

Definition SetSentinelValue (s : Allocator) (c : RegisterClass) (reg node : Z)
    : Allocator :=
  with_registers s c
    (mkRegisterFrameState (<[reg := node]> (values_ (registers s c)))
       (free s c)).

(** [SetValue] writes the register and adds it to the registers of the
    node; a node pointer that is no node is undefined behaviour. *)
Definition SetValue (s : Allocator) (c : RegisterClass) (reg node : Z)
    : option Allocator :=
  n ← nodes s !! node;
  Some (with_node (SetSentinelValue s c reg node) node (AddRegister n reg)).

(** [RegisterFrameState::FreeRegistersUsedBy]. *)
Definition FreeRegistersUsedBy_in (s : Allocator) (c : RegisterClass)
    (node : Z) : option Allocator :=
  n ← nodes s !! node;
  let regs := registers_with_result_ n in
  Some (AddToFree_list (with_node s node (set_registers n kEmptyRegList)) c
          regs).

(** [StraightForwardRegisterAllocator::FreeRegistersUsedBy]. *)
Definition FreeRegistersUsedBy (s : Allocator) (node : Z) : option Allocator :=
  n ← nodes s !! node;
  if use_double_register n then FreeRegistersUsedBy_in s Double node
  else FreeRegistersUsedBy_in s General node.

(** ** Spill slots *)

(** Modelled from the spec: [std::upper_bound] is the binary search of the
    C++ standard library.  It halves the range [first, first + len) and
    keeps the left half when [comp value *mid] holds, the right half
    otherwise.  The fuel bounds the number of halvings; the length of the
    list is enough. *)
Fixpoint upper_bound_loop {A : Type} (comp : A → bool) (l : list A)
    (fuel : nat) (first len : nat) : nat :=
  match fuel with
  | O => first
  | S fuel' =>
      if (len =? 0)%nat then first
      else
        let half := (len / 2)%nat in
        let mid := (first + half)%nat in
        match l !! mid with
        | Some x =>
            if comp x then upper_bound_loop comp l fuel' first half
            else upper_bound_loop comp l fuel' (mid + 1)%nat
                   (len - half - 1)%nat
        | None => first
        end
  end.

Definition upper_bound {A : Type} (comp : A → bool) (l : list A) : nat :=
  upper_bound_loop comp l (length l) 0 (length l).

Definition slots_of (s : Allocator) (is_tagged : bool) : SpillSlots :=
  if is_tagged then tagged_ s else untagged_ s.

Definition AllocateSpillSlot (s : Allocator) (node : Z) : option Allocator :=
  n ← nodes s !! node;
  let is_tagged :=
    bool_decide (value_representation n = ValueRepresentation_kTagged) in
  let slots := slots_of s is_tagged in
  let representation := GetMachineRepresentation n in
  let fresh :=
    (uint32_t (top slots),
     mkSpillSlots (int32_t (top slots + 1)) (free_slots slots)) in
  let '(free_slot, slots) :=
    match free_slots slots with
    | [] => fresh
    | _ =>
        let start := start (live_range n) in
        let it :=
          upper_bound (λ slot_info, freed_at_position slot_info <? start)
            (free_slots slots) in
        match free_slots slots !! it with
        | Some slot_info =>
            (slot_index slot_info,
             mkSpillSlots (top slots) (delete it (free_slots slots)))
        | None => fresh
        end
    end in
  Some (with_node (with_slots s is_tagged slots) node
          (set_spill_or_hint n
             (AllocatedOperand STACK_SLOT representation free_slot))).

Definition Spill (s : Allocator) (node : Z) : option Allocator :=
  n ← nodes s !! node;
  if is_loadable n then Some s else AllocateSpillSlot s node.

(** [UpdateUse] on a value node and an input location, of which the
    next use is all that is read. *)
Definition UpdateUse (s : Allocator) (node : Z) (next_use_id : Z)
    : option Allocator :=
  n ← nodes s !! node;
  let n := set_next_use n next_use_id in
  let s := with_node s node n in
  if negb (is_dead n) then Some s
  else
    s ← FreeRegistersUsedBy s node;
    n ← nodes s !! node;
    if is_spilled n then
      match spill_or_hint_ n with
      | AllocatedOperand _ rep index =>
          if 0 <? index then
            let is_tagged := bool_decide (rep = kTagged) in
            let slots := slots_of s is_tagged in
            Some (with_slots s is_tagged
                    (mkSpillSlots (top slots)
                       (free_slots slots
                        ++ [mkSpillSlotInfo (uint32_t index)
                              (end_ (live_range n))])))
          else Some s
      | _ => Some s
      end
    else Some s.

(** ** Nodes under allocation *)

(** An input of a node: the value it reads, its operand (a policy before
    allocation, a location after) and the next use of the value. *)
Record Input := mkInput {
  input_node : Z;
  operand : InstructionOperand;
  next_use_id : Z
}.

Definition SetAllocated (input : Input) (op : InstructionOperand) : Input :=
  mkInput (input_node input) op (next_use_id input).

(** Modelled from the spec: the deopt frames ([EagerDeoptInfo],
    [LazyDeoptInfo], [CompactInterpreterFrameState::ForEachValue]) are
    declared in [src/maglev/maglev-ir.h] and
    [src/maglev/maglev-interpreter-frame-state.h].  A deopt info is the
    sequence of values [ForEachValue] visits, parent frames first, each
    with its interpreter register and its input location. *)
Record DeoptValue := mkDeoptValue {
  deopt_node : Z;
  interpreter_register : Z;
  deopt_location : Input
}.

(** Modelled from the spec: [NodeBase] is declared in
    [src/maglev/maglev-ir.h].  [value_node] is the address of the node as a
    [ValueNode] when it is one. *)
Record Node := mkNode {
  node_id : Z;
  value_node : option Z;
  inputs : list Input;
  temporaries : Z;
  num_temporaries_needed : Z;
  is_call : bool;
  can_eager_deopt : bool;
  can_lazy_deopt : bool;
  eager_deopt_info : list DeoptValue;
  lazy_deopt_info : list DeoptValue;
  result_location : Z
}.

Definition with_inputs (node : Node) (l : list Input) : Node :=
  mkNode (node_id node) (value_node node) l (temporaries node)
    (num_temporaries_needed node) (is_call node) (can_eager_deopt node)
    (can_lazy_deopt node) (eager_deopt_info node) (lazy_deopt_info node)
    (result_location node).

Definition assign_temporaries (node : Node) (regs : Z) : Node :=
  mkNode (node_id node) (value_node node) (inputs node) regs
    (num_temporaries_needed node) (is_call node) (can_eager_deopt node)
    (can_lazy_deopt node) (eager_deopt_info node) (lazy_deopt_info node)
    (result_location node).


Definition AddMoveBeforeCurrentNode (s : Allocator) (node : Z)
    (source target : InstructionOperand) : Allocator :=
  mkAllocator (nodes s) (general_registers_ s) (double_registers_ s)
    (tagged_ s) (untagged_ s) (current_node_id s)
    (gap_moves s ++ [mkGapMove node source target]).

(** ** Dropping and taking registers *)

Definition DropRegisterValue (s : Allocator) (c : RegisterClass) (reg : Z)
    (stage : AllocationStage) : option Allocator :=
  let node := GetValue s c reg in
  n ← nodes s !! node;
  let mach_repr := GetMachineRepresentation n in
  let n := RemoveRegister n reg in
  let s := with_node s node n in
  if has_register n || is_loadable n then Some s
  else if bool_decide (stage = kAtEnd)
          && (end_ (live_range n) =? current_node_id s) then Some s
  else if negb (FreeIsEmpty s c) then
    let target_reg := first (free s c) in
    let s := RemoveFromFree s c target_reg in
    s ← SetValue s c target_reg node;
    Some (AddMoveBeforeCurrentNode s node
            (AllocatedOperand REGISTER mach_repr reg)
            (AllocatedOperand REGISTER mach_repr target_reg))
  else Spill s node.

(** The loop of [FreeSomeRegister] over the used registers, in register
    order, with its variables [furthest_use] and [best]. *)
Fixpoint FreeSomeRegister_loop (s : Allocator) (c : RegisterClass)
    (stage : AllocationStage) (regs : list Z) (furthest_use best : Z)
    : option Z :=
  match regs with
  | [] => Some best
  | reg :: regs' =>
      let value := GetValue s c reg in
      if value =? kBlockedRegisterSentinel then
        FreeSomeRegister_loop s c stage regs' furthest_use best
      else
        n ← nodes s !! value;
        if bool_decide (stage = kAtEnd)
           && (end_ (live_range n) =? current_node_id s) then Some reg
        else if 1 <? num_registers n then Some reg
        else
          let use := int32_t (next_use n) in
          if furthest_use <? use then
            FreeSomeRegister_loop s c stage regs' use reg
          else FreeSomeRegister_loop s c stage regs' furthest_use best
  end.

Definition FreeSomeRegister (s : Allocator) (c : RegisterClass)
    (stage : AllocationStage) : option (Allocator * Z) :=
  best ← FreeSomeRegister_loop s c stage (registers_of (used s c)) 0 no_reg;
  s ← DropRegisterValue s c best stage;
  Some (AddToFree s c best, best).

Definition TryAllocateRegister (s : Allocator) (c : RegisterClass) (node : Z)
    : option (Allocator * InstructionOperand) :=
  if free s c =? kEmptyRegList then Some (s, InvalidOperand)
  else
    let reg := first (free s c) in
    let s := RemoveFromFree s c reg in
    n ← nodes s !! node;
    s ← SetValue s c reg node;
    Some (s, AllocatedOperand REGISTER (GetMachineRepresentation n) reg).

Definition register_class (n : ValueNode) : RegisterClass :=
  if use_double_register n then Double else General.

Definition AllocateRegister (s : Allocator) (node : Z)
    (stage : AllocationStage) : option (Allocator * InstructionOperand) :=
  n ← nodes s !! node;
  let c := register_class n in
  s ← (if FreeIsEmpty s c then fst <$> FreeSomeRegister s c stage else Some s);
  '(s, allocation) ← TryAllocateRegister s c node;
  if IsAllocated allocation then Some (s, allocation) else None.

Definition ForceAllocate (s : Allocator) (c : RegisterClass) (reg node : Z)
    (stage : AllocationStage) : option (Allocator * InstructionOperand) :=
  n ← nodes s !! node;
  let allocated := AllocatedOperand REGISTER (GetMachineRepresentation n) reg in
  if has (free s c) reg then
    s ← SetValue (RemoveFromFree s c reg) c reg node;
    Some (s, allocated)
  else if GetValue s c reg =? node then Some (s, allocated)
  else
    s ← DropRegisterValue s c reg stage;
    s ← SetValue s c reg node;
    Some (s, allocated).

(** [ForceAllocate(const Input&, ...)]: the register the input was
    assigned. *)
Definition ForceAllocate_input (s : Allocator) (input : Input) (node : Z)
    (stage : AllocationStage) : option (Allocator * InstructionOperand) :=
  match operand input with
  | AllocatedOperand REGISTER rep reg =>
      if IsDoubleRegister (operand input) then
        ForceAllocate s Double reg node stage
      else ForceAllocate s General reg node stage
  | _ => None
  end.

(** ** Temporaries *)

Fixpoint AssignFixedTemporaries_loop (s : Allocator) (regs : list Z)
    : option Allocator :=
  match regs with
  | [] => Some s
  | reg :: regs' =>
      s ← (if negb (has (free s General) reg) then
             DropRegisterValue s General reg kAtStart
           else Some (RemoveFromFree s General reg));
      AssignFixedTemporaries_loop
        (SetSentinelValue s General reg kBlockedRegisterSentinel) regs'
  end.

Definition AssignFixedTemporaries (s : Allocator) (node : Node)
    : option Allocator :=
  AssignFixedTemporaries_loop s (registers_of (temporaries node)).

(** The first loop of [AssignArbitraryTemporaries], over the registers
    that were free when it started. *)
Fixpoint TakeFreeTemporaries (s : Allocator) (regs : list Z)
    (temporaries num_temporaries_needed : Z) : Allocator * Z * Z :=
  match regs with
  | [] => (s, temporaries, num_temporaries_needed)
  | reg :: regs' =>
      let s := RemoveFromFree s General reg in
      let s := SetSentinelValue s General reg kBlockedRegisterSentinel in
      let temporaries := set temporaries reg in
      let num_temporaries_needed := int32_t (num_temporaries_needed - 1) in
      if num_temporaries_needed =? 0 then
        (s, temporaries, num_temporaries_needed)
      else TakeFreeTemporaries s regs' temporaries num_temporaries_needed
  end.

(** The second loop, which frees [n] more registers. *)
Fixpoint FreeMoreTemporaries (s : Allocator) (n : nat) (temporaries : Z)
    : option (Allocator * Z) :=
  match n with
  | O => Some (s, temporaries)
  | S n' =>
      '(s, reg) ← FreeSomeRegister s General kAtStart;
      let s := RemoveFromFree s General reg in
      let s := SetSentinelValue s General reg kBlockedRegisterSentinel in
      FreeMoreTemporaries s n' (set temporaries reg)
  end.

Definition AssignArbitraryTemporaries (s : Allocator) (node : Node)
    : option (Allocator * Node) :=
  let num_temporaries_needed := num_temporaries_needed node in
  if num_temporaries_needed =? 0 then Some (s, node)
  else
    let '(s, temporaries, num_temporaries_needed) :=
      TakeFreeTemporaries s (registers_of (free s General))
        (temporaries node) num_temporaries_needed in
    '(s, temporaries) ←
      FreeMoreTemporaries s (Z.to_nat num_temporaries_needed) temporaries;
    Some (s, assign_temporaries node temporaries).

(** ** Inputs *)

Definition AssignFixedInput (s : Allocator) (input : Input)
    : option (Allocator * Input) :=
  match operand input with
  | UnallocatedOperand policy =>
      let node := input_node input in
      n ← nodes s !! node;
      let location := allocation n in
      let forced (r : option (Allocator * InstructionOperand)) :=
        '(s, allocated) ← r;
        Some (if bool_decide (location ≠ allocated) then
                AddMoveBeforeCurrentNode s node location allocated
              else s,
              SetAllocated input allocated) in
      match policy with
      | MUST_HAVE_REGISTER => Some (s, input)
      | REGISTER_OR_SLOT_OR_CONSTANT => Some (s, SetAllocated input location)
      | FIXED_REGISTER reg => forced (ForceAllocate s General reg node kAtStart)
      | FIXED_FP_REGISTER reg =>
          forced (ForceAllocate s Double reg node kAtStart)
      | _ => None
      end
  | _ => None
  end.

Definition AssignArbitraryRegisterInput (s : Allocator) (input : Input)
    : option (Allocator * Input) :=
  if negb (IsUnallocated (operand input)) then Some (s, input)
  else
    let node := input_node input in
    n ← nodes s !! node;
    let location := allocation n in
    if IsAnyRegister location then Some (s, SetAllocated input location)
    else
      '(s, allocation) ← AllocateRegister s node kAtStart;
      Some (AddMoveBeforeCurrentNode s node location allocation,
            SetAllocated input allocation).

(** [for (Input& input : *node) f(input)]. *)
Fixpoint for_each_input (f : Allocator → Input → option (Allocator * Input))
    (s : Allocator) (l : list Input) : option (Allocator * list Input) :=
  match l with
  | [] => Some (s, [])
  | input :: l' =>
      '(s, input) ← f s input;
      '(s, l') ← for_each_input f s l';
      Some (s, input :: l')
  end.

Definition AssignInputs (s : Allocator) (node : Node)
    : option (Allocator * Node) :=
  '(s, l) ← for_each_input AssignFixedInput s (inputs node);
  let node := with_inputs node l in
  s ← AssignFixedTemporaries s node;
  '(s, l) ← for_each_input AssignArbitraryRegisterInput s (inputs node);
  AssignArbitraryTemporaries s (with_inputs node l).

(** ** Calls *)



(** ** The result and the uses of a node *)

Definition set_node_result (s : Allocator) (node : Z)
    (op : InstructionOperand) : option Allocator :=
  n ← nodes s !! node;
  Some (with_node s node (set_result n op)).

Definition AllocateNodeResult (s : Allocator) (node : Z) (l : list Input)
    : option Allocator :=
  n ← nodes s !! node;
  let n := set_spill_or_hint n InvalidOperand in
  let s := with_node s node n in
  let allocated (r : option (Allocator * InstructionOperand)) :=
    '(s, op) ← r;
    s ← set_node_result s node op;
    n ← nodes s !! node;
    if negb (has_valid_live_range n) && IsAnyRegister (result n) then
      FreeRegistersUsedBy s node
    else Some s in
  match result n with
  | UnallocatedOperand policy =>
      match policy with
      | FIXED_SLOT index =>
          let location :=
            AllocatedOperand STACK_SLOT (GetMachineRepresentation n) index in
          Some (with_node s node
                  (set_spill_or_hint (set_result n location) location))
      | FIXED_REGISTER reg =>
          allocated (ForceAllocate s General reg node kAtEnd)
      | MUST_HAVE_REGISTER => allocated (AllocateRegister s node kAtEnd)
      | SAME_AS_INPUT index =>
          input ← (if index <? 0 then None else l !! Z.to_nat index);
          allocated (ForceAllocate_input s input node kAtEnd)
      | FIXED_FP_REGISTER reg =>
          allocated (ForceAllocate s Double reg node kAtEnd)
      | NONE =>
          if negb (has_valid_live_range n) && IsAnyRegister (result n) then
            FreeRegistersUsedBy s node
          else Some s
      | _ => None
      end
  | _ => None
  end.




(** ** The free list and the runs of the spill-slot bookkeeping *)

(** Slots are appended to the free list as their values die, so the list
    is ordered by [freed_at_position]; [UpdateUse] checks as much against
    the last entry. *)
Definition FreedInOrder (l : list SpillSlotInfo) : Prop :=
  ∀ (i j : nat) x y, (i ≤ j)%nat → l !! i = Some x → l !! j = Some y →
    freed_at_position x <= freed_at_position y.

(** The allocation of a spill slot in the words of the specification: the
    first entry of the free list with [freed_at_position <= start] is
    reused, and the top counter is bumped when there is none. *)
Definition spec_AllocateSpillSlot (s : Allocator) (node : Z)
    : option Allocator :=
  n ← nodes s !! node;
  let is_tagged :=
    bool_decide (value_representation n = ValueRepresentation_kTagged) in
  let slots := slots_of s is_tagged in
  let start := start (live_range n) in
  let '(free_slot, slots) :=
    match list_find (λ slot_info, freed_at_position slot_info <= start)
            (free_slots slots) with
    | Some (i, slot_info) =>
        (slot_index slot_info,
         mkSpillSlots (top slots) (delete i (free_slots slots)))
    | None =>
        (uint32_t (top slots),
         mkSpillSlots (int32_t (top slots + 1)) (free_slots slots))
    end in
  Some (with_node (with_slots s is_tagged slots) node
          (set_spill_or_hint n
             (AllocatedOperand STACK_SLOT (GetMachineRepresentation n)
                free_slot))).

(** The local slot a value is spilled to: its family (tagged or not) and
    its index.  [AllocateSpillSlot] hands out the indices from 0 on. *)
Definition local_slot (n : ValueNode) : option (bool * Z) :=
  match spill_or_hint_ n with
  | AllocatedOperand STACK_SLOT rep index =>
      if 0 <=? index then Some (bool_decide (rep = kTagged), index) else None
  | _ => None
  end.

(** Before the first spill both families are empty and no value sits in
    a local slot. *)
Definition NoLocalSlots (s : Allocator) : Prop :=
  tagged_ s = mkSpillSlots 0 [] ∧ untagged_ s = mkSpillSlots 0 [] ∧
  map_Forall (λ _ n, local_slot n = None) (nodes s).

(** One step of the bookkeeping: a live value that is not loadable gets a
    slot ([Spill] calls [AllocateSpillSlot]), or a use of a live value is
    recorded ([UpdateUse]), which frees its slot at its last use.  The
    top counter is an [int] and must not overflow. *)
Inductive SpillStep (s s' : Allocator) : Prop :=
| step_spill node n :
    nodes s !! node = Some n →
    is_dead n = false →
    is_loadable n = false →
    top (slots_of s
           (bool_decide
              (value_representation n = ValueRepresentation_kTagged)))
      < 2 ^ 31 - 1 →
    AllocateSpillSlot s node = Some s' →
    SpillStep s s'
| step_use node n next_use_id :
    nodes s !! node = Some n →
    is_dead n = false →
    start (live_range n) <= end_ (live_range n) →
    UpdateUse s node next_use_id = Some s' →
    SpillStep s s'.

Inductive SpillRun : Allocator → Prop :=
| run_start s : NoLocalSlots s → SpillRun s
| run_step s s' : SpillRun s → SpillStep s s' → SpillRun s'.

(** What a run maintains: the free slots are below the top, pairwise
    distinct and owned by dead values only, whose live ranges ended by
    the time the slot was freed, one of them at that very position; and
    of two values in one slot one died before the other started. *)
Record SlotsInv (s : Allocator) : Prop := mkSlotsInv {
  inv_top : ∀ t, 0 <= top (slots_of s t) < 2 ^ 31;
  inv_free_range : ∀ t info,
    info ∈ free_slots (slots_of s t) →
    0 < slot_index info < top (slots_of s t);
  inv_free_nodup : ∀ t, NoDup (slot_index <$> free_slots (slots_of s t));
  inv_owner_range : ∀ v n t i,
    nodes s !! v = Some n → local_slot n = Some (t, i) →
    i < top (slots_of s t);
  inv_free_owner : ∀ t info v n,
    info ∈ free_slots (slots_of s t) →
    nodes s !! v = Some n → local_slot n = Some (t, slot_index info) →
    is_dead n = true ∧ end_ (live_range n) <= freed_at_position info;
  inv_free_from : ∀ t info,
    info ∈ free_slots (slots_of s t) →
    ∃ v n, nodes s !! v = Some n ∧
           local_slot n = Some (t, slot_index info) ∧
           end_ (live_range n) = freed_at_position info;
  inv_one_owner : ∀ v w n m slot,
    v ≠ w → nodes s !! v = Some n → nodes s !! w = Some m →
    local_slot n = Some slot → local_slot m = Some slot →
    (is_dead n = true ∧ end_ (live_range n) < start (live_range m)) ∨
    (is_dead m = true ∧ end_ (live_range m) < start (live_range n))
}.

(** ** The choice of [FreeSomeRegister] *)

(** The used registers that are not blocked, in register order. *)
Definition candidates (s : Allocator) (c : RegisterClass) : list Z :=
  List.filter (λ reg, negb (GetValue s c reg =? kBlockedRegisterSentinel))
    (registers_of (used s c)).

(** The first test of the loop: the allocation is at the end of the node
    and the value of the register dies at the current node. *)
Definition dies_here (s : Allocator) (c : RegisterClass)
    (stage : AllocationStage) (reg : Z) : bool :=
  match nodes s !! GetValue s c reg with
  | Some n =>
      bool_decide (stage = kAtEnd)
      && (end_ (live_range n) =? current_node_id s)
  | None => false
  end.

(** The second test: the value of the register is in another register as
    well. *)
Definition has_copy (s : Allocator) (c : RegisterClass) (reg : Z) : bool :=
  match nodes s !! GetValue s c reg with
  | Some n => 1 <? num_registers n
  | None => false
  end.

(** The next use of the value of a register, as the [int] the loop
    compares. *)
Definition use_of (s : Allocator) (c : RegisterClass) (reg : Z) : Z :=
  match nodes s !! GetValue s c reg with
  | Some n => int32_t (next_use n)
  | None => 0
  end.

(** The first register of a list with the furthest next use. *)
Fixpoint furthest (s : Allocator) (c : RegisterClass) (regs : list Z)
    (furthest_use best : Z) : Z :=
  match regs with
  | [] => best
  | reg :: regs' =>
      if furthest_use <? use_of s c reg then
        furthest s c regs' (use_of s c reg) reg
      else furthest s c regs' furthest_use best
  end.

(** The choice in the words of the specification: a register whose value
    dies at the current node, at the end stage, before a register whose
    value has a copy, before the register with the furthest next use. *)
Definition spec_FreeSomeRegister (s : Allocator) (c : RegisterClass)
    (stage : AllocationStage) : Z :=
  let regs := candidates s c in
  match List.find (dies_here s c stage) regs with
  | Some reg => reg
  | None =>
      match List.find (has_copy s c) regs with
      | Some reg => reg
      | None => furthest s c regs 0 no_reg
      end
  end.

(** ** The register state at a call *)

(** The allocatable registers are among the registers of the target. *)
Definition ArchitectureOK : Prop :=
  0 <= kNumRegisters ∧
  ∀ c, 0 <= kAllocatableRegisters c < 2 ^ kNumRegisters.

(** What [VerifyRegisterState] checks, with blocked registers let
    through: a free register is allocatable, a used register that is not
    blocked holds a value of its class that lists the register, and a
    register a value lists is used and holds the value.  No value lives
    at the address of the sentinel. *)
Record RegistersOK (s : Allocator) : Prop := mkRegistersOK {
  ok_free : ∀ c reg,
    has (free s c) reg = true → has (kAllocatableRegisters c) reg = true;
  ok_used : ∀ c reg,
    has (used s c) reg = true →
    GetValue s c reg ≠ kBlockedRegisterSentinel →
    ∃ n, nodes s !! GetValue s c reg = Some n ∧
         register_class n = c ∧ is_in_register n reg = true;
  ok_node : ∀ v n reg,
    nodes s !! v = Some n → is_in_register n reg = true →
    has (used s (register_class n)) reg = true ∧
    GetValue s (register_class n) reg = v;
  ok_sentinel : nodes s !! kBlockedRegisterSentinel = None
}.

(** The same checks as a function. *)
Definition holds_its_value (s : Allocator) (c : RegisterClass) (reg : Z)
    : bool :=
  let value := GetValue s c reg in
  (value =? kBlockedRegisterSentinel)
  || match nodes s !! value with
     | Some n => bool_decide (register_class n = c) && is_in_register n reg
     | None => false
     end.

Definition is_in_its_registers (s : Allocator) (v : Z) (n : ValueNode)
    : bool :=
  let c := register_class n in
  (Z.land (registers_with_result_ n) (used s c) =? registers_with_result_ n)
  && forallb (λ reg, GetValue s c reg =? v)
       (registers_of (registers_with_result_ n)).

Definition register_state_ok (s : Allocator) : bool :=
  forallb
    (λ c,
       (Z.land (free s c) (kAllocatableRegisters c) =? free s c)
       && forallb (holds_its_value s c) (registers_of (used s c)))
    [General; Double]
  && bool_decide
       (map_Forall (λ v n, is_in_its_registers s v n = true) (nodes s))
  && bool_decide (nodes s !! kBlockedRegisterSentinel = None).


(** A value keeps its representation and its result operand and stays
    loadable. *)
Definition Kept (n n' : ValueNode) : Prop :=
  value_representation n' = value_representation n ∧
  result n' = result n ∧
  (is_loadable n = true → is_loadable n' = true).




(** ** A register in transit *)

(** The register state while a register changes hands: as [RegistersOK],
    but the register [hole], if any, is in use and listed by no value. *)
Record RegistersOKBut (s : Allocator) (hole : option (RegisterClass * Z))
    : Prop := mkRegistersOKBut {
  but_free : ∀ c reg,
    has (free s c) reg = true → has (kAllocatableRegisters c) reg = true;
  but_hole : ∀ c reg, hole = Some (c, reg) → has (used s c) reg = true;
  but_used : ∀ c reg,
    has (used s c) reg = true →
    hole ≠ Some (c, reg) →
    GetValue s c reg ≠ kBlockedRegisterSentinel →
    ∃ n, nodes s !! GetValue s c reg = Some n ∧
         register_class n = c ∧ is_in_register n reg = true;
  but_node : ∀ v n reg,
    nodes s !! v = Some n → is_in_register n reg = true →
    has (used s (register_class n)) reg = true ∧
    GetValue s (register_class n) reg = v ∧
    hole ≠ Some (register_class n, reg);
  but_sentinel : nodes s !! kBlockedRegisterSentinel = None
}.

(** A value that gave up a register is still at hand: it is in a register
    or loadable, or the current node is its last use and the allocation
    is at the end of the node. *)
Definition StillAtHand (s : Allocator) (stage : AllocationStage)
    (n : ValueNode) : Prop :=
  has_register n = true ∨ is_loadable n = true ∨
  (stage = kAtEnd ∧ end_ (live_range n) = current_node_id s).

(** From [s] to [s'] no value is lost: every value is still there, with
    its representation, and a value that was at hand is still at hand. *)
Definition NothingLost (stage : AllocationStage) (s s' : Allocator) : Prop :=
  current_node_id s' = current_node_id s ∧
  ∀ w n, nodes s !! w = Some n →
    ∃ n', nodes s' !! w = Some n' ∧
          value_representation n' = value_representation n ∧
          (StillAtHand s stage n → StillAtHand s' stage n').

(** ** [SpillRegisters] *)

(** Modelled from the spec: [ForEachUsedRegister] (declared in
    [src/maglev/maglev-regalloc.h]) calls its argument on every used
    register and the value it holds, in register order. *)
Fixpoint ForEachUsedRegister_Spill (s : Allocator) (c : RegisterClass)
    (regs : list Z) : option Allocator :=
  match regs with
  | [] => Some s
  | reg :: regs' =>
      s ← Spill s (GetValue s c reg);
      ForEachUsedRegister_Spill s c regs'
  end.

Definition SpillRegisters (s : Allocator) : option Allocator :=
  s ← ForEachUsedRegister_Spill s General (registers_of (used s General));
  ForEachUsedRegister_Spill s Double (registers_of (used s Double)).

(** ** [VerifyInputs] *)

(** The check [VerifyInputs] makes on one input: a general or double
    register operand names a register that holds the value of the input,
    and any other operand is the allocation of the value. *)
Definition VerifyInput (s : Allocator) (input : Input) : bool :=
  if IsRegister (operand input) then
    match operand input with
    | AllocatedOperand _ _ reg => GetValue s General reg =? input_node input
    | _ => false
    end
  else if IsDoubleRegister (operand input) then
    match operand input with
    | AllocatedOperand _ _ reg => GetValue s Double reg =? input_node input
    | _ => false
    end
  else
    match nodes s !! input_node input with
    | Some n => bool_decide (operand input = allocation n)
    | None => false
    end.

(** ** The register of a result *)

(** A value can be forced into a register: the register is an allocatable
    register of the class of the value and is not blocked. *)
Definition CanForce (s : Allocator) (n : ValueNode) (c : RegisterClass)
    (reg : Z) : Prop :=
  register_class n = c ∧
  has (kAllocatableRegisters c) reg = true ∧
  (has (used s c) reg = true →
   GetValue s c reg ≠ kBlockedRegisterSentinel).

(** A register can be found for a value: a register of its class is free,
    or one can be given up. *)
Definition CanAllocate (s : Allocator) (n : ValueNode)
    (stage : AllocationStage) : Prop :=
  free s (register_class n) = kEmptyRegList →
  ∃ reg, reg ∈ candidates s (register_class n) ∧
         dies_here s (register_class n) stage reg
         || has_copy s (register_class n) reg
         || (0 <? use_of s (register_class n) reg) = true.

(** The result of a value asks for a register, and the register can be
    had: the fixed register or the register of the input can be forced,
    or some register can be found.  [l] are the inputs of the node. *)
Definition ResultReady (s : Allocator) (n : ValueNode) (l : list Input)
    : Prop :=
  match result n with
  | UnallocatedOperand (FIXED_REGISTER reg) => CanForce s n General reg
  | UnallocatedOperand (FIXED_FP_REGISTER reg) => CanForce s n Double reg
  | UnallocatedOperand MUST_HAVE_REGISTER => CanAllocate s n kAtEnd
  | UnallocatedOperand (SAME_AS_INPUT index) =>
      0 <= index ∧
      match l !! Z.to_nat index with
      | Some input =>
          match operand input with
          | AllocatedOperand REGISTER rep reg =>
              CanForce s n
                (if IsDoubleRegister (operand input) then Double else General)
                reg
          | _ => False
          end
      | None => False
      end
  | _ => False
  end.

(** ** [ClearRegisterState] *)

(** The loop runs while a register is in use; the fuel bounds its
    rounds. *)
Fixpoint ClearRegisterState (fuel : nat) (s : Allocator) (c : RegisterClass)
    : option Allocator :=
  match fuel with
  | O => None
  | S fuel' =>
      if used s c =? kEmptyRegList then Some s
      else
        let reg := first (used s c) in
        let node := GetValue s c reg in
        s ← FreeRegistersUsedBy_in s c node;
        ClearRegisterState fuel' s c
  end.

(** ** The inputs of a node *)

(** The register an input is fixed to, with its class. *)
Definition fixed_register (input : Input) : option (RegisterClass * Z) :=
  match operand input with
  | UnallocatedOperand (FIXED_REGISTER reg) => Some (General, reg)
  | UnallocatedOperand (FIXED_FP_REGISTER reg) => Some (Double, reg)
  | _ => None
  end.

(** An input [AssignInputs] can give a register: its value is in a
    register or loadable, and it asks for a fixed register, which is an
    allocatable register of the class of the value, or for any
    register. *)
Definition InputReady (s : Allocator) (input : Input) : Prop :=
  ∃ n, nodes s !! input_node input = Some n ∧
       StillAtHand s kAtStart n ∧
       match operand input with
       | UnallocatedOperand (FIXED_REGISTER reg) =>
           register_class n = General ∧
           has (kAllocatableRegisters General) reg = true
       | UnallocatedOperand (FIXED_FP_REGISTER reg) =>
           register_class n = Double ∧
           has (kAllocatableRegisters Double) reg = true
       | UnallocatedOperand MUST_HAVE_REGISTER => True
       | _ => False
       end.

(** An input that has the register [reg] of the class [c]: the value is
    of that class, the operand is the register, and the register is in
    use and holds the value. *)
Definition InputIn (s : Allocator) (input : Input) (c : RegisterClass)
    (reg : Z) : Prop :=
  ∃ n, nodes s !! input_node input = Some n ∧
    register_class n = c ∧
    operand input
    = AllocatedOperand REGISTER (GetMachineRepresentation n) reg ∧
    has (used s c) reg = true ∧
    GetValue s c reg = input_node input.

Definition InputAssigned (s : Allocator) (input : Input) : Prop :=
  ∃ c reg, InputIn s input c reg.

(** No register in use is blocked. *)
Definition NoneBlocked (s : Allocator) : Prop :=
  ∀ c reg, has (used s c) reg = true →
    GetValue s c reg ≠ kBlockedRegisterSentinel.

End WithArchitecture.

End Maglev.

(** ** A target and allocator states for concrete executions *)

Module MaglevConcrete.
Import Maglev.

(** Four general and four double registers, all of them allocatable. *)
#[export] Instance four_registers : Architecture := {|
  kNumRegisters := 4;
  kAllocatableGeneralRegisters := 15;
  kAllocatableDoubleRegisters := 15
|}.

Definition tagged_value (id start end_ next_use : Z)
    (spill : InstructionOperand) (regs : Z) : ValueNode :=
  mkValueNode id (mkLiveRange start end_) next_use
    ValueRepresentation_kTagged false spill regs InvalidOperand.

Definition all_free : RegisterFrameState := mkRegisterFrameState ∅ 15.

(** Four tagged values, at the addresses 10 to 40, none in a register or
    a slot: the first lives from node 1 to node 20, the second from 2 to
    5, the third from 5 to 9 and the fourth from 6 to 12. *)
Definition four_values : Allocator :=
  mkAllocator
    {[ 10 := tagged_value 1 1 20 2 InvalidOperand 0;
       20 := tagged_value 2 2 5 3 InvalidOperand 0;
       30 := tagged_value 5 5 9 6 InvalidOperand 0;
       40 := tagged_value 6 6 12 7 InvalidOperand 0 ]}
    all_free all_free (mkSpillSlots 0 []) (mkSpillSlots 0 []) 2 [].

(** The first two values are spilled, and the second dies at node 5:
    its slot 1 is in the free list, freed at 5. *)
Definition first_spilled : Allocator :=
  default four_values (AllocateSpillSlot four_values 10).

Definition two_spilled : Allocator :=
  default first_spilled (AllocateSpillSlot first_spilled 20).

Definition one_slot_freed : Allocator :=
  default two_spilled (UpdateUse two_spilled 20 kInvalidNodeId).

(** Then the fourth value is spilled. *)
Definition slot_reused : Allocator :=
  default one_slot_freed (AllocateSpillSlot one_slot_freed 40).

Definition in_registers (start end_ next_use : Z) (regs : Z) : ValueNode :=
  tagged_value start start end_ next_use InvalidOperand regs.

(** All four general registers are in use at the end of node 5: the
    registers 0 and 1 hold the value at 10, which lives on, register 2
    holds the value at 20, which dies at node 5, and register 3 the
    value at 30. *)
Definition registers_full : Allocator :=
  mkAllocator
    {[ 10 := in_registers 1 9 9 3;
       20 := in_registers 2 5 5 4;
       30 := in_registers 3 7 7 8 ]}
    (mkRegisterFrameState {[ 0 := 10; 1 := 10; 2 := 20; 3 := 30 ]} 0)
    all_free (mkSpillSlots 0 []) (mkSpillSlots 0 []) 5 [].

(** A call at node 5 with its result fixed to register 0, while
    register 1 holds the value at 10, which lives on to node 9. *)
Definition before_call : Allocator :=
  mkAllocator
    {[ 10 := in_registers 1 9 9 2;
       50 := mkValueNode 5 (mkLiveRange 5 8) 8 ValueRepresentation_kTagged
               false InvalidOperand 0
               (UnallocatedOperand (FIXED_REGISTER 0)) ]}
    (mkRegisterFrameState {[ 1 := 10 ]} 13)
    all_free (mkSpillSlots 0 []) (mkSpillSlots 0 []) 4 [].

Definition call : Node :=
  mkNode 5 (Some 50) [] 0 0 true false false [] [] 0.

(** A node at 5 without inputs that needs four temporaries. *)
Definition four_temporaries : Node :=
  mkNode 5 None [] 0 4 false false false [] [] 0.

Definition spilled_value (id start end_ next_use slot : Z) : ValueNode :=
  tagged_value id start end_ next_use
    (AllocatedOperand STACK_SLOT kTagged slot) 0.

(** Before node 8: register 1 holds the value at 10 and register 2 the
    value at 70, the value at 60 is in stack slot 0 only, and the
    registers 0 and 3 are free. *)
Definition two_in_registers : Allocator :=
  mkAllocator
    {[ 10 := in_registers 1 9 8 2;
       60 := spilled_value 6 6 8 8 0;
       70 := in_registers 7 12 12 4 ]}
    (mkRegisterFrameState {[ 1 := 10; 2 := 70 ]} 9)
    all_free (mkSpillSlots 1 []) (mkSpillSlots 0 []) 8 [].

(** A node at 8 that wants the value at 10 in register 2 and the value
    at 60 in any register. *)
Definition fixed_and_arbitrary : Node :=
  mkNode 8 None
    [mkInput 10 (UnallocatedOperand (FIXED_REGISTER 2)) 8;
     mkInput 60 (UnallocatedOperand MUST_HAVE_REGISTER) 8]
    0 0 false false false [] [] 0.

(** Before node 8: register 1 holds the value at 10, the value at 60 is
    in stack slot 0 only, and the registers 0, 2 and 3 are free. *)
Definition one_in_register : Allocator :=
  mkAllocator
    {[ 10 := in_registers 1 9 9 2;
       60 := spilled_value 6 6 8 8 0 ]}
    (mkRegisterFrameState {[ 1 := 10 ]} 13)
    all_free (mkSpillSlots 1 []) (mkSpillSlots 0 []) 8 [].

(** A node at 8 that wants the value at 60 in any register, has the
    temporary register 3 and needs one more temporary. *)
Definition with_temporaries : Node :=
  mkNode 8 None
    [mkInput 60 (UnallocatedOperand MUST_HAVE_REGISTER) 8]
    8 1 false false false [] [] 0.

(** Before node 8 with no register free: the registers 0 to 3 hold the
    values at 20, 10, 30 and 40, and the value at 60 is in stack slot 0
    only. *)
Definition no_register_free : Allocator :=
  mkAllocator
    {[ 10 := in_registers 1 9 8 2;
       20 := in_registers 2 10 10 1;
       30 := in_registers 3 11 11 4;
       40 := in_registers 4 12 12 8;
       60 := spilled_value 6 6 8 8 0 ]}
    (mkRegisterFrameState {[ 0 := 20; 1 := 10; 2 := 30; 3 := 40 ]} 0)
    all_free (mkSpillSlots 1 []) (mkSpillSlots 0 []) 8 [].

(** A node at 8 that wants the value at 10 in register 0 and the value
    at 60 in any register. *)
Definition fixed_then_arbitrary : Node :=
  mkNode 8 None
    [mkInput 10 (UnallocatedOperand (FIXED_REGISTER 0)) 8;
     mkInput 60 (UnallocatedOperand MUST_HAVE_REGISTER) 8]
    0 0 false false false [] [] 0.

End MaglevConcrete.

(** * Properties of the string table *)

Module StringTableProofs.
Import StringTable Concrete.

(** ** Machine arithmetic *)

Lemma uint32_t_id z : 0 <= z < 2 ^ 32 → uint32_t z = z.
Proof. intros. unfold uint32_t. apply Z.mod_small. lia. Qed.

Lemma int32_t_id z : - 2 ^ 31 <= z < 2 ^ 31 → int32_t z = z.
Proof. intros. unfold int32_t. rewrite Z.mod_small; lia. Qed.

Lemma pow2_le_mono a b : 0 <= a <= b → 2 ^ a <= 2 ^ b.
Proof. intros. apply Z.pow_le_mono_r; lia. Qed.

Lemma pow2_lt_mono a b : 0 <= a < b → 2 ^ a < 2 ^ b.
Proof. intros. apply Z.pow_lt_mono_r; lia. Qed.

Lemma pow2_pos a : 0 <= a → 0 < 2 ^ a.
Proof. intros. apply Z.pow_pos_nonneg; lia. Qed.

Lemma mask_pow2 k : 0 <= k <= 31 → uint32_t (2 ^ k - 1) = Z.ones k.
Proof.
  intros Hk. rewrite Z.ones_equiv, <- Z.sub_1_r.
  apply uint32_t_id.
  pose proof (pow2_pos k ltac:(lia)).
  pose proof (pow2_lt_mono k 32 ltac:(lia)). lia.
Qed.

Lemma mod_pow2_uint32 k z : 0 <= k <= 32 → (uint32_t z) mod 2 ^ k = z mod 2 ^ k.
Proof.
  intros Hk. unfold uint32_t. apply Z.mod_mod_divide.
  exists (2 ^ (32 - k)). rewrite <- Z.pow_add_r by lia. f_equal. lia.
Qed.

Lemma FirstProbe_pow2 hash k :
  0 <= k <= 31 → FirstProbe hash (2 ^ k) = Entry (hash mod 2 ^ k).
Proof.
  intros Hk. unfold FirstProbe. rewrite mask_pow2 by lia.
  rewrite Z.land_ones by lia. reflexivity.
Qed.

Lemma NextProbe_pow2 e number k :
  0 <= k <= 31 →
  NextProbe (Entry e) number (2 ^ k) = Entry ((e + number) mod 2 ^ k).
Proof.
  intros Hk. unfold NextProbe, as_uint32. rewrite mask_pow2 by lia.
  rewrite Z.land_ones by lia. rewrite mod_pow2_uint32 by lia.
  rewrite <- Zplus_mod_idemp_l. rewrite mod_pow2_uint32 by lia.
  rewrite Zplus_mod_idemp_l. reflexivity.
Qed.

Lemma triangular_succ (i : Z) :
  0 <= i → (i + 1) * (i + 1 + 1) / 2 = i * (i + 1) / 2 + (i + 1).
Proof.
  intros Hi. replace ((i + 1) * (i + 1 + 1)) with (i * (i + 1) + (i + 1) * 2) by lia.
  apply Z.div_add. lia.
Qed.

Lemma ProbeState_pow2 hash k i :
  0 <= k <= 31 →
  ProbeState hash (2 ^ k) i
  = (triangular_probe hash (2 ^ k) i, uint32_t (Z.of_nat i + 1)).
Proof.
  intros Hk. induction i as [|i IH].
  - simpl. rewrite FirstProbe_pow2 by lia. unfold triangular_probe. simpl.
    rewrite Z.add_0_r. reflexivity.
  - simpl. rewrite IH. unfold triangular_probe, triangular.
    rewrite NextProbe_pow2 by lia. f_equal.
    + f_equal. rewrite Nat2Z.inj_succ, <- Z.add_1_r.
      rewrite triangular_succ by lia.
      rewrite <- (Zplus_mod_idemp_r (uint32_t _)).
      rewrite mod_pow2_uint32 by lia.
      rewrite Zplus_mod_idemp_r, Zplus_mod_idemp_l. f_equal. lia.
    + unfold uint32_t. rewrite Zplus_mod_idemp_l. f_equal. lia.
Qed.

Lemma ProbeLoop_ProbeWalk {R T} (body : InternalIndex → T → option (LoopStep R T))
    hash size fuel i s :
  ProbeLoop body size fuel (ProbeState hash size i).1 (ProbeState hash size i).2 s
  = ProbeWalk body (λ j, (ProbeState hash size j).1) fuel i s.
Proof.
  revert i s. induction fuel as [|fuel IH]; intros i s; [reflexivity|].
  simpl. destruct (body _ s) as [[r|s']|]; try reflexivity.
  rewrite <- IH. simpl. destruct (ProbeState hash size i). reflexivity.
Qed.

Lemma ProbeWalk_ext {R T} (body : InternalIndex → T → option (LoopStep R T))
    probe probe' fuel i s :
  (∀ j, probe j = probe' j) →
  ProbeWalk body probe fuel i s = ProbeWalk body probe' fuel i s.
Proof.
  intros Hp. revert i s. induction fuel as [|fuel IH]; intros i s; [reflexivity|].
  simpl. rewrite Hp. destruct (body _ s) as [[r|s']|]; auto.
Qed.

Lemma ProbeLoop_triangular {R T}
    (body : InternalIndex → T → option (LoopStep R T)) hash k fuel s :
  0 <= k <= 31 →
  ProbeLoop body (2 ^ k) fuel (FirstProbe hash (2 ^ k)) 1 s
  = ProbeWalk body (triangular_probe hash (2 ^ k)) fuel 0 s.
Proof.
  intros Hk.
  pose proof (ProbeLoop_ProbeWalk body hash (2 ^ k) fuel 0 s) as H.
  simpl in H. rewrite H. apply ProbeWalk_ext.
  intros j. rewrite ProbeState_pow2 by lia. reflexivity.
Qed.

(** ** The probe sequence visits every slot *)

Lemma coprime_pow2_odd n m : 0 <= n → Z.odd m = true → Z.gcd (2 ^ n) m = 1.
Proof.
  intros Hn Ho. apply Z.coprime_pow_l; [lia|].
  apply Z.coprime_prime_l; [apply Z.prime_2|].
  intros [q Hq]. rewrite Hq, Z.mul_comm, Z.odd_mul in Ho. discriminate.
Qed.

Lemma triangular_double i : 2 * triangular i = i * (i + 1).
Proof.
  unfold triangular.
  assert (Hev : (i * (i + 1)) mod 2 = 0).
  { rewrite Z.mul_mod by lia.
    destruct (Z.mod_pos_bound i 2 ltac:(lia)) as [? ?].
    assert (i mod 2 = 0 ∨ i mod 2 = 1) as [Hi|Hi] by lia.
    - rewrite Hi. reflexivity.
    - rewrite <- Zplus_mod_idemp_l, Hi. reflexivity. }
  pose proof (Z.div_mod (i * (i + 1)) 2 ltac:(lia)). lia.
Qed.

Lemma triangular_diff i j : 2 * (triangular j - triangular i) = (j - i) * (j + i + 1).
Proof. rewrite Z.mul_sub_distr_l, !triangular_double. lia. Qed.

Lemma triangular_inj_mod k i j :
  0 <= k → 0 <= i < 2 ^ k → 0 <= j < 2 ^ k →
  (triangular i) mod 2 ^ k = (triangular j) mod 2 ^ k → i = j.
Proof.
  intros Hk Hi Hj Heq.
  assert (Hpos := pow2_pos k Hk).
  assert (Hdiv : (2 ^ k | triangular j - triangular i)).
  { apply Z.mod_divide; [lia|]. rewrite Zminus_mod, Heq, Z.sub_diag. reflexivity. }
  assert (Hdiv2 : (2 ^ (k + 1) | (j - i) * (j + i + 1))).
  { rewrite <- triangular_diff. rewrite Z.pow_add_r by lia. rewrite (Z.mul_comm (2^k)).
    simpl. apply Z.mul_divide_mono_l. exact Hdiv. }
  assert (Hk1 : 2 ^ (k + 1) = 2 * 2 ^ k) by (rewrite Z.pow_add_r by lia; lia).
  destruct (Z.odd (j - i)) eqn:Hodd.
  - (* j - i odd: 2^(k+1) divides j + i + 1 *)
    assert (Hd : (2 ^ (k + 1) | j + i + 1)).
    { apply Z.gauss with (m := j - i); [exact Hdiv2|].
      apply coprime_pow2_odd; [lia|exact Hodd]. }
    destruct Hd as [q Hq].
    assert (q <= 0 ∨ 1 <= q) as [?|?] by lia; nia.
  - assert (Hodd' : Z.odd (j + i + 1) = true).
    { replace (j + i + 1) with ((j - i) + (2 * i + 1)) by lia.
      rewrite Z.odd_add, Hodd. replace (2 * i + 1) with (1 + 2 * i) by lia.
      rewrite Z.odd_add_mul_2. reflexivity. }
    assert (Hd : (2 ^ (k + 1) | j - i)).
    { apply Z.gauss with (m := j + i + 1); [rewrite Z.mul_comm; exact Hdiv2|].
      apply coprime_pow2_odd; [lia|exact Hodd']. }
    destruct Hd as [q Hq].
    assert (q = 0 ∨ q <= -1 ∨ 1 <= q) as [?|[?|?]] by lia; nia.
Qed.

Lemma triangular_shift_inj_mod k h i j :
  0 <= k → 0 <= i < 2 ^ k → 0 <= j < 2 ^ k →
  (h + triangular i) mod 2 ^ k = (h + triangular j) mod 2 ^ k → i = j.
Proof.
  intros Hk Hi Hj Heq. apply (triangular_inj_mod k); try assumption.
  assert (Hpos := pow2_pos k Hk).
  replace (triangular i) with ((h + triangular i) - h) by lia.
  replace (triangular j) with ((h + triangular j) - h) by lia.
  rewrite Zminus_mod, Heq, <- Zminus_mod. reflexivity.
Qed.

Lemma triangular_surj_mod k h e :
  0 <= k → 0 <= e < 2 ^ k →
  ∃ i : nat, Z.of_nat i < 2 ^ k ∧ (h + triangular (Z.of_nat i)) mod 2 ^ k = e.
Proof.
  intros Hk He. assert (Hpos := pow2_pos k Hk).
  set (n := Z.to_nat (2 ^ k)).
  set (f := λ i : nat, (h + triangular (Z.of_nat i)) mod 2 ^ k).
  set (L := List.map f (List.seq 0 n)).
  set (L' := List.map Z.of_nat (List.seq 0 n)).
  assert (Hnd : List.NoDup L).
  { apply List.NoDup_map_NoDup_ForallPairs; [|apply List.seq_NoDup].
    intros a b Ha Hb Hab. apply List.in_seq in Ha, Hb. unfold f in Hab.
    apply Nat2Z.inj. apply (triangular_shift_inj_mod k h); try lia. }
  assert (Hincl : List.incl L L').
  { intros x Hx. apply List.in_map_iff in Hx as [i [<- Hi]].
    apply List.in_map_iff. exists (Z.to_nat (f i)).
    pose proof (Z.mod_pos_bound (h + triangular (Z.of_nat i)) (2 ^ k) Hpos).
    unfold f in *. split; [lia|]. apply List.in_seq. lia. }
  assert (Hlen : (length L' <= length L)%nat).
  { unfold L, L'. rewrite !List.length_map. lia. }
  pose proof (List.NoDup_length_incl Hnd Hlen Hincl) as Hback.
  assert (Hin : List.In e L').
  { apply List.in_map_iff. exists (Z.to_nat e). split; [lia|].
    apply List.in_seq. lia. }
  apply Hback in Hin. apply List.in_map_iff in Hin as [i [Hfi Hi]].
  apply List.in_seq in Hi. exists i. split; [lia|exact Hfi].
Qed.

Lemma FindEntry_triangular `{StringTableKey IsolateT K} fuel d (key : K) hash k :
  0 <= k <= 30 → capacity_ d = 2 ^ k →
  FindEntry fuel d key hash
  = ProbeWalk (FindEntry_body d key) (triangular_probe hash (2 ^ k)) fuel 0 tt.
Proof.
  intros Hk Hc. unfold FindEntry. rewrite Hc.
  pose proof (pow2_lt_mono k 32 ltac:(lia)). pose proof (pow2_pos k ltac:(lia)).
  rewrite (uint32_t_id (2 ^ k)) by lia. apply ProbeLoop_triangular. lia.
Qed.

Lemma FindInsertionEntry_triangular fuel d hash k :
  0 <= k <= 30 → capacity_ d = 2 ^ k →
  FindInsertionEntry fuel d hash
  = ProbeWalk (FindInsertionEntry_body d) (triangular_probe hash (2 ^ k))
      fuel 0 tt.
Proof.
  intros Hk Hc. unfold FindInsertionEntry. rewrite Hc.
  pose proof (pow2_lt_mono k 32 ltac:(lia)). pose proof (pow2_pos k ltac:(lia)).
  rewrite (uint32_t_id (2 ^ k)) by lia. apply ProbeLoop_triangular. lia.
Qed.

Lemma FindEntryOrInsertionEntry_triangular `{StringTableKey IsolateT K}
    fuel d (key : K) hash k :
  0 <= k <= 30 → capacity_ d = 2 ^ k →
  FindEntryOrInsertionEntry fuel d key hash
  = ProbeWalk (FindEntryOrInsertionEntry_body d key)
      (triangular_probe hash (2 ^ k)) fuel 0 NotFound.
Proof.
  intros Hk Hc. unfold FindEntryOrInsertionEntry. rewrite Hc.
  pose proof (pow2_lt_mono k 32 ltac:(lia)). pose proof (pow2_pos k ltac:(lia)).
  rewrite (uint32_t_id (2 ^ k)) by lia. apply ProbeLoop_triangular. lia.
Qed.

(** C4 (as the code has it): in a table whose capacity is a power of two,
    the loop header shared by [FindEntry], [FindInsertionEntry] and
    [FindEntryOrInsertionEntry] inspects at attempt [i = 0, 1, 2, ...] the
    slot [(hash + i (i + 1) / 2) mod capacity]: the step from one probe to
    the next grows by one each time (quadratic probing), starting from
    [hash mod capacity]. *)
Theorem probe_sequence_is_triangular `{StringTableKey IsolateT K}
    (fuel : nat) (d : Data) (key : K) (hash k : Z) :
  0 <= k <= 30 → capacity_ d = 2 ^ k →
  (∀ i : nat,
     (ProbeState hash (capacity_ d) i).1
     = Entry ((hash + Z.of_nat i * (Z.of_nat i + 1) / 2) mod capacity_ d)) ∧
  FindEntry fuel d key hash
  = ProbeWalk (FindEntry_body d key) (triangular_probe hash (capacity_ d))
      fuel 0 tt ∧
  FindInsertionEntry fuel d hash
  = ProbeWalk (FindInsertionEntry_body d) (triangular_probe hash (capacity_ d))
      fuel 0 tt ∧
  FindEntryOrInsertionEntry fuel d key hash
  = ProbeWalk (FindEntryOrInsertionEntry_body d key)
      (triangular_probe hash (capacity_ d)) fuel 0 NotFound.
Proof.
  intros Hk Hc. rewrite Hc. repeat split.
  - intros i. rewrite ProbeState_pow2 by lia. reflexivity.
  - by apply FindEntry_triangular.
  - by apply FindInsertionEntry_triangular.
  - by apply FindEntryOrInsertionEntry_triangular.
Qed.

Lemma probe_sequence_is_triangular_witness :
  let d := New 2048 in
  let key := Concrete.key_of Concrete.heap3 103 in
  (∀ i : nat,
     (ProbeState 5 (capacity_ d) i).1
     = Entry ((5 + Z.of_nat i * (Z.of_nat i + 1) / 2) mod capacity_ d)) ∧
  FindEntry 2048 d key 5
  = ProbeWalk (FindEntry_body d key) (triangular_probe 5 (capacity_ d))
      2048 0 tt ∧
  FindInsertionEntry 2048 d 5
  = ProbeWalk (FindInsertionEntry_body d) (triangular_probe 5 (capacity_ d))
      2048 0 tt ∧
  FindEntryOrInsertionEntry 2048 d key 5
  = ProbeWalk (FindEntryOrInsertionEntry_body d key)
      (triangular_probe 5 (capacity_ d)) 2048 0 NotFound.
Proof.
  apply (probe_sequence_is_triangular 2048 (New 2048)
           (Concrete.key_of Concrete.heap3 103) 5 11); [lia | reflexivity].
Defined.

(** C4 (as the specification words it) fails: with three strings of hash
    0 interned, the third sits in slot 3, the slot of attempt 2, where
    [FindEntry] finds it; the sequence [(hash + i) mod capacity] inspects
    slot 2 at attempt 2, which is empty. *)
Lemma probe_sequence_is_not_linear :
  ∃ t, Concrete.table3 = Some t ∧
  let d := data_ t in
  let key := Concrete.key_of Concrete.heap3 104 in
  (ProbeState 0 (capacity_ d) 2).1 = Entry 3 ∧
  spec_probe 0 (capacity_ d) 2 = Entry 2 ∧
  FindEntry 2048 d key 0 = Some (Entry 3) ∧
  ProbeWalk (FindEntry_body d key) (spec_probe 0 (capacity_ d)) 2048 0 tt
  = Some NotFound.
Proof. eexists. split; [vm_compute; reflexivity|]. vm_compute. auto. Qed.

(** ** Walking a probe sequence *)

Lemma ProbeWalk_total {R T} (body : InternalIndex → T → option (LoopStep R T))
    probe fuel (i m : nat) (s : T) :
  (i ≤ m)%nat → (m < i + fuel)%nat →
  (∀ j s', (i ≤ j ≤ m)%nat → body (probe j) s' ≠ None) →
  (∀ s', ∃ r, body (probe m) s' = Some (Return r)) →
  ∃ r, ProbeWalk body probe fuel i s = Some r.
Proof.
  revert i s. induction fuel as [|fuel IH]; intros i s Him Hfuel Hdef Hstop.
  - lia.
  - simpl. destruct (body (probe i) s) as [[r|s']|] eqn:Hb.
    + eauto.
    + destruct (decide (i = m)) as [->|Hne].
      * destruct (Hstop s) as [r Hr]. congruence.
      * apply IH; [lia|lia| |exact Hstop].
        intros j s'' Hj. apply Hdef. lia.
    + exfalso. apply (Hdef i s); [lia|exact Hb].
Qed.

Lemma ProbeWalk_unit_inv {R} (body : InternalIndex → unit → option (LoopStep R unit))
    probe fuel (i : nat) r :
  ProbeWalk body probe fuel i tt = Some r →
  ∃ n : nat, (i ≤ n < i + fuel)%nat ∧
    (∀ j, (i ≤ j < n)%nat → body (probe j) tt = Some (Continue tt)) ∧
    body (probe n) tt = Some (Return r).
Proof.
  revert i. induction fuel as [|fuel IH]; intros i Hw; [discriminate|].
  simpl in Hw. destruct (body (probe i) tt) as [[r'|[]]|] eqn:Hb; try discriminate.
  - inversion Hw; subst. exists i. split; [lia|]. split; [intros; lia|exact Hb].
  - apply IH in Hw as (n & Hn & Hskip & Hstop). exists n.
    split; [lia|]. split; [|exact Hstop].
    intros j Hj. destruct (decide (j = i)) as [->|]; [exact Hb|]. apply Hskip. lia.
Qed.

Lemma ProbeWalk_unit_intro {R} (body : InternalIndex → unit → option (LoopStep R unit))
    probe fuel (i n : nat) r :
  (i ≤ n < i + fuel)%nat →
  (∀ j, (i ≤ j < n)%nat → body (probe j) tt = Some (Continue tt)) →
  body (probe n) tt = Some (Return r) →
  ProbeWalk body probe fuel i tt = Some r.
Proof.
  revert i. induction fuel as [|fuel IH]; intros i Hn Hskip Hstop; [lia|].
  simpl. destruct (decide (i = n)) as [->|Hne].
  - rewrite Hstop. reflexivity.
  - rewrite (Hskip i) by lia. apply IH; [lia| |exact Hstop].
    intros j Hj. apply Hskip. lia.
Qed.

(** ** Slots *)

Lemma Get_Entry d e :
  0 <= e → Get d (Entry e) = elements_ d !! Z.to_nat e.
Proof. intros He. unfold Get. destruct (e <? 0) eqn:Hlt; [lia|reflexivity]. Qed.

Lemma Get_in_range d e :
  0 <= e < Z.of_nat (length (elements_ d)) → is_Some (Get d (Entry e)).
Proof.
  intros He. rewrite Get_Entry by lia. apply lookup_lt_is_Some. lia.
Qed.

Lemma Get_Some_range d e x :
  Get d (Entry e) = Some x → 0 <= e < Z.of_nat (length (elements_ d)).
Proof.
  unfold Get. destruct (e <? 0) eqn:Hlt; [discriminate|].
  intros Hl. apply lookup_lt_Some in Hl. lia.
Qed.

Lemma triangular_probe_range hash k i :
  0 <= k →
  ∃ e, triangular_probe hash (2 ^ k) i = Entry e ∧ 0 <= e < 2 ^ k.
Proof.
  intros Hk. eexists. split; [reflexivity|].
  apply Z.mod_pos_bound, pow2_pos, Hk.
Qed.

Lemma triangular_probe_surj hash k e :
  0 <= k → 0 <= e < 2 ^ k →
  ∃ i : nat, Z.of_nat i < 2 ^ k ∧ triangular_probe hash (2 ^ k) i = Entry e.
Proof.
  intros Hk He. destruct (triangular_surj_mod k hash e Hk He) as (i & Hi & Heq).
  exists i. split; [exact Hi|]. unfold triangular_probe. by rewrite Heq.
Qed.

Lemma triangular_probe_inj hash k (i j : nat) :
  0 <= k → Z.of_nat i < 2 ^ k → Z.of_nat j < 2 ^ k →
  triangular_probe hash (2 ^ k) i = triangular_probe hash (2 ^ k) j → i = j.
Proof.
  intros Hk Hi Hj Heq. unfold triangular_probe in Heq. inversion Heq as [Heq'].
  apply Nat2Z.inj. apply (triangular_shift_inj_mod k hash); try lia.
Qed.

Lemma slots_partition l :
  ∃ n : nat, length l = (length (strings_of l) + count_deleted l + n)%nat ∧
    (0 < n → ∃ i, l !! i = Some empty_element)%nat.
Proof.
  induction l as [|x l (n & Hlen & Hex)].
  - exists O. split; [reflexivity|lia].
  - destruct x.
    + exists (S n). simpl. split; [lia|]. intros _. exists O. reflexivity.
    + exists n. simpl. split; [lia|]. intros Hn. destruct (Hex Hn) as [i Hi].
      exists (S i). exact Hi.
    + exists n. simpl. split; [lia|]. intros Hn. destruct (Hex Hn) as [i Hi].
      exists (S i). exact Hi.
Qed.

Lemma has_empty_slot l :
  (length (strings_of l) + count_deleted l < length l)%nat →
  ∃ i, l !! i = Some empty_element.
Proof.
  intros Hlt. destruct (slots_partition l) as (n & Hlen & Hex). apply Hex. lia.
Qed.

Lemma Invariant_has_empty d :
  Invariant d → ∃ e, 0 <= e < capacity_ d ∧ Get d (Entry e) = Some empty_element.
Proof.
  intros [_ Hlen Hnof Hdel Hfull].
  destruct (has_empty_slot (elements_ d)) as [i Hi]; [lia|].
  exists (Z.of_nat i). pose proof (lookup_lt_Some _ _ _ Hi).
  split; [lia|]. rewrite Get_Entry by lia. by rewrite Nat2Z.id.
Qed.

(** ** The three searches return *)

Lemma probe_defined d k hash i :
  Searchable d k →
  ∃ e x, triangular_probe hash (2 ^ k) i = Entry e ∧ 0 <= e < 2 ^ k ∧
    Get d (Entry e) = Some x.
Proof.
  intros (Hk & Hc & Hl).
  destruct (triangular_probe_range hash k i ltac:(lia)) as (e & He & Hr).
  destruct (Get_in_range d e ltac:(lia)) as [x Hx]. eauto 6.
Qed.

Lemma FindEntry_body_defined `{StringTableKey IsolateT K} d (key : K) k hash i :
  Searchable d k →
  FindEntry_body d key (triangular_probe hash (2 ^ k) i) tt ≠ None.
Proof.
  intros Hs. destruct (probe_defined d k hash i Hs) as (e & x & -> & _ & Hx).
  unfold FindEntry_body. rewrite Hx. destruct x; [done|done|].
  destruct (KeyIsMatch key s); done.
Qed.

Lemma FindEntry_returns `{StringTableKey IsolateT K} fuel d (key : K) hash k e :
  Searchable d k → 0 <= e < 2 ^ k → Get d (Entry e) = Some empty_element →
  2 ^ k <= Z.of_nat fuel →
  ∃ r, FindEntry fuel d key hash = Some r.
Proof.
  intros Hs He Hempty Hfuel. pose proof Hs as (Hk & Hc & Hl).
  rewrite (FindEntry_triangular fuel d key hash k) by assumption.
  destruct (triangular_probe_surj hash k e ltac:(lia) He) as (m & Hm & Hpm).
  apply (ProbeWalk_total _ _ fuel 0 m); [lia|lia| |].
  - intros j [] _. by apply FindEntry_body_defined.
  - intros []. rewrite Hpm. unfold FindEntry_body. rewrite Hempty. eauto.
Qed.

Lemma FindInsertionEntry_returns fuel d hash k e :
  Searchable d k → 0 <= e < 2 ^ k →
  (Get d (Entry e) = Some empty_element ∨ Get d (Entry e) = Some deleted_element) →
  2 ^ k <= Z.of_nat fuel →
  ∃ r, FindInsertionEntry fuel d hash = Some r.
Proof.
  intros Hs He Hfree Hfuel. pose proof Hs as (Hk & Hc & Hl).
  rewrite (FindInsertionEntry_triangular fuel d hash k) by assumption.
  destruct (triangular_probe_surj hash k e ltac:(lia) He) as (m & Hm & Hpm).
  apply (ProbeWalk_total _ _ fuel 0 m); [lia|lia| |].
  - intros j [] _.
    destruct (probe_defined d k hash j Hs) as (e' & x & -> & _ & Hx).
    unfold FindInsertionEntry_body. rewrite Hx. by destruct x.
  - intros []. rewrite Hpm. unfold FindInsertionEntry_body.
    destruct Hfree as [-> | ->]; eauto.
Qed.

Lemma FindEntryOrInsertionEntry_returns `{StringTableKey IsolateT K}
    fuel d (key : K) hash k e :
  Searchable d k → 0 <= e < 2 ^ k → Get d (Entry e) = Some empty_element →
  2 ^ k <= Z.of_nat fuel →
  ∃ r, FindEntryOrInsertionEntry fuel d key hash = Some r.
Proof.
  intros Hs He Hempty Hfuel. pose proof Hs as (Hk & Hc & Hl).
  rewrite (FindEntryOrInsertionEntry_triangular fuel d key hash k) by assumption.
  destruct (triangular_probe_surj hash k e ltac:(lia) He) as (m & Hm & Hpm).
  apply (ProbeWalk_total _ _ fuel 0 m); [lia|lia| |].
  - intros j ins _.
    destruct (probe_defined d k hash j Hs) as (e' & x & -> & _ & Hx).
    unfold FindEntryOrInsertionEntry_body. rewrite Hx. destruct x.
    + by destruct (is_not_found ins).
    + by destruct (is_not_found ins).
    + by destruct (KeyIsMatch key s).
  - intros ins. rewrite Hpm. unfold FindEntryOrInsertionEntry_body.
    rewrite Hempty. destruct (is_not_found ins); eauto.
Qed.

(** ** Writing a slot *)

Lemma strings_of_insert_free l i s x :
  l !! i = Some x → x = empty_element ∨ x = deleted_element →
  strings_of (<[i := StringElement s]> l) ≡ₚ s :: strings_of l.
Proof.
  revert i. induction l as [|y l IH]; intros i Hi Hx; [done|].
  destruct i as [|i]; simpl in *.
  - inversion Hi; subst y. by destruct Hx as [-> | ->].
  - specialize (IH i Hi Hx). destruct y; simpl; try done.
    rewrite IH. apply perm_swap.
Qed.

Lemma count_deleted_insert_empty l i s :
  l !! i = Some empty_element →
  count_deleted (<[i := StringElement s]> l) = count_deleted l.
Proof.
  revert i. induction l as [|y l IH]; intros i Hi; [done|].
  destruct i as [|i]; simpl in *.
  - by inversion Hi.
  - destruct y; simpl; auto.
Qed.

Lemma count_deleted_insert_deleted l i s :
  l !! i = Some deleted_element →
  S (count_deleted (<[i := StringElement s]> l)) = count_deleted l.
Proof.
  revert i. induction l as [|y l IH]; intros i Hi; [done|].
  destruct i as [|i]; simpl in *.
  - by inversion Hi.
  - destruct y; simpl; auto.
Qed.

Lemma Set_free d e s x :
  Get d (Entry e) = Some x →
  ∃ d', Set_ d (Entry e) s = Some d' ∧
    elements_ d' = <[Z.to_nat e := StringElement s]> (elements_ d) ∧
    previous_data_ d' = previous_data_ d ∧
    number_of_elements_ d' = number_of_elements_ d ∧
    number_of_deleted_elements_ d' = number_of_deleted_elements_ d ∧
    capacity_ d' = capacity_ d.
Proof.
  intros Hx. pose proof (Get_Some_range _ _ _ Hx) as Hr. unfold Set_.
  destruct (0 <=? e) eqn:H0; [|lia].
  destruct (e <? Z.of_nat (length (elements_ d))) eqn:H1; [|lia].
  simpl. eexists. split; [reflexivity|]. simpl. auto.
Qed.

Lemma Get_insert_eq d d' e s :
  elements_ d' = <[Z.to_nat e := StringElement s]> (elements_ d) →
  0 <= e < Z.of_nat (length (elements_ d)) →
  Get d' (Entry e) = Some (StringElement s).
Proof.
  intros He Hr. rewrite Get_Entry, He by lia. apply list_lookup_insert_eq. lia.
Qed.

Lemma Get_insert_ne d d' e e' s :
  elements_ d' = <[Z.to_nat e := StringElement s]> (elements_ d) →
  0 <= e → e ≠ e' →
  Get d' (Entry e') = Get d (Entry e').
Proof.
  intros He Hr Hne. unfold Get. destruct (e' <? 0) eqn:Hlt; [done|].
  rewrite He. apply list_lookup_insert_ne. lia.
Qed.

(** A write into a slot turns no string slot into a free one. *)
Lemma Get_insert_string d d' e s e' t :
  elements_ d' = <[Z.to_nat e := StringElement s]> (elements_ d) →
  0 <= e →
  Get d (Entry e') = Some (StringElement t) →
  ∃ t', Get d' (Entry e') = Some (StringElement t').
Proof.
  intros He Hr Ht. destruct (decide (e = e')) as [<-|Hne].
  - exists s. eapply Get_insert_eq; [done|]. by eapply Get_Some_range.
  - exists t. by rewrite (Get_insert_ne d d' e e' s).
Qed.

(** ** [FindInsertionEntry] returns the first free slot of the path *)

Lemma FindInsertionEntry_inv fuel d hash k r :
  Searchable d k →
  FindInsertionEntry fuel d hash = Some r →
  ∃ (n : nat) e x, r = Entry e ∧ triangular_probe hash (2 ^ k) n = Entry e ∧
    (n < fuel)%nat ∧ 0 <= e < 2 ^ k ∧
    Get d (Entry e) = Some x ∧ (x = empty_element ∨ x = deleted_element) ∧
    ∀ j : nat, (j < n)%nat →
      ∃ t, Get d (triangular_probe hash (2 ^ k) j) = Some (StringElement t).
Proof.
  intros Hs Hf. pose proof Hs as (Hk & Hc & Hl).
  rewrite (FindInsertionEntry_triangular fuel d hash k) in Hf by assumption.
  apply ProbeWalk_unit_inv in Hf as (n & Hn & Hskip & Hstop).
  destruct (probe_defined d k hash n Hs) as (e & x & Hp & He & Hx).
  rewrite Hp in Hstop. unfold FindInsertionEntry_body in Hstop.
  rewrite Hx in Hstop. exists n, e, x.
  assert (Hr : r = Entry e ∧ (x = empty_element ∨ x = deleted_element)).
  { destruct x; inversion Hstop; auto. }
  destruct Hr as [-> Hfree]. repeat split; try done; try lia.
  intros j Hj. specialize (Hskip j ltac:(lia)).
  destruct (probe_defined d k hash j Hs) as (e' & y & Hp' & _ & Hy).
  rewrite Hp' in *. unfold FindInsertionEntry_body in Hskip. rewrite Hy in Hskip.
  destruct y; try discriminate. eauto.
Qed.

(** ** The rehash loop *)

Lemma Rehash_spec fuel data range nd k :
  Searchable nd k → count_deleted (elements_ nd) = O → PathOK nd k →
  Forall (λ i, 0 <= i < Z.of_nat (length (elements_ data))) range →
  Z.of_nat (length (strings_of (elements_ nd)) + length (picked data range))
    < 2 ^ k →
  2 ^ k <= Z.of_nat fuel →
  ∃ nd', Rehash fuel data range nd = Some nd' ∧
    Searchable nd' k ∧ count_deleted (elements_ nd') = O ∧ PathOK nd' k ∧
    strings_of (elements_ nd') ≡ₚ strings_of (elements_ nd) ++ picked data range ∧
    previous_data_ nd' = previous_data_ nd ∧
    number_of_elements_ nd' = number_of_elements_ nd ∧
    number_of_deleted_elements_ nd' = number_of_deleted_elements_ nd ∧
    capacity_ nd' = capacity_ nd.
Proof.
  revert nd. induction range as [|i range IH]; intros nd Hs Hdel Hpath Hrange Hroom Hfuel.
  - exists nd. unfold picked. simpl. rewrite app_nil_r.
    destruct Hs as (? & ? & ?). repeat split; auto; lia.
  - apply Forall_cons in Hrange as [Hi Hrange].
    destruct (Get_in_range data i Hi) as [x Hx].
    assert (Hpick : picked data (i :: range)
                    = match x with StringElement s => [s] | _ => [] end
                      ++ picked data range).
    { unfold picked. cbn [flat_map]. by rewrite Hx. }
    rewrite Hpick in *. cbn [Rehash]. rewrite Hx.
    destruct x as [| |s]; cbn [app] in *; try (apply IH; assumption).
    pose proof Hs as (Hk & Hc & Hl).
    (* the new table has an empty slot *)
    destruct (has_empty_slot (elements_ nd)) as [ie Hie].
    { rewrite Hdel. cbn [length] in Hroom. lia. }
    pose proof (lookup_lt_Some _ _ _ Hie) as Hielt.
    destruct (FindInsertionEntry_returns fuel nd (String_hash s) k (Z.of_nat ie))
      as [r Hr]; [done|lia| |done|].
    { left. rewrite Get_Entry by lia. by rewrite Nat2Z.id. }
    rewrite Hr.
    destruct (FindInsertionEntry_inv fuel nd (String_hash s) k r Hs Hr)
      as (n & e & x & -> & Hpn & Hn & He & Hx' & Hfree & Hbefore).
    destruct (Set_free nd e s x Hx') as (nd1 & Hset & Hel & Hprev & Hnof & Hndel & Hcap).
    rewrite Hset.
    assert (Hx'' : elements_ nd !! Z.to_nat e = Some x) by (by rewrite <- Get_Entry by lia).
    destruct (IH nd1) as (nd' & Hre & Hs' & Hdel' & Hpath' & Hperm & Hprev' & Hnof' & Hndel' & Hcap').
    + split; [done|]. split; [congruence|]. rewrite Hel, length_insert. congruence.
    + rewrite Hel. destruct Hfree as [-> | ->].
      * by rewrite count_deleted_insert_empty.
      * pose proof (count_deleted_insert_deleted _ _ s Hx''). lia.
    + (* paths *)
      intros e' t Ht. destruct (decide (e = e')) as [<-|Hne].
      * rewrite (Get_insert_eq nd nd1 e s) in Ht by (done || lia).
        inversion Ht; subst t. exists n. split.
        { destruct (decide (Z.of_nat n < 2 ^ k)) as [|Hge]; [done|].
          (* more than 2^k string slots would fill the table *)
          exfalso.
          destruct (triangular_probe_surj (String_hash s) k e ltac:(lia) He)
            as (m & Hm & Hpm).
          destruct (Hbefore m ltac:(lia)) as [t' Ht']. rewrite Hpm in Ht'.
          destruct Hfree; congruence. }
        split; [done|]. intros j Hj. destruct (Hbefore j Hj) as [t' Ht'].
        destruct (probe_defined nd k (String_hash s) j Hs) as (ej & y & Hpj & _ & _).
        rewrite Hpj in *. eapply Get_insert_string; [done|lia|done].
      * rewrite (Get_insert_ne nd nd1 e e' s) in Ht by (done || lia).
        destruct (Hpath e' t Ht) as (n' & Hn' & Hpn' & Hb'). exists n'.
        split; [done|]. split; [done|]. intros j Hj. destruct (Hb' j Hj) as [t' Ht'].
        destruct (probe_defined nd k (String_hash t) j Hs) as (ej & y & Hpj & _ & _).
        rewrite Hpj in *. eapply Get_insert_string; [done|lia|done].
    + done.
    + rewrite Hel. rewrite (strings_of_insert_free _ _ s x Hx'' Hfree).
      simpl. cbn [length] in Hroom. lia.
    + done.
    + exists nd'. split; [done|]. split; [done|]. split; [done|]. split; [done|].
      split; [|repeat split; congruence].
      rewrite Hperm, Hel. rewrite (strings_of_insert_free _ _ s x Hx'' Hfree).
      simpl. apply Permutation_middle.
Qed.

(** ** A fresh generation *)

Lemma strings_of_replicate n : strings_of (replicate n empty_element) = [].
Proof. induction n; simpl; auto. Qed.

Lemma count_deleted_replicate n :
  count_deleted (replicate n empty_element) = O.
Proof. induction n; simpl; auto. Qed.

Lemma New_Searchable k : 0 <= k <= 30 → Searchable (New (2 ^ k)) k.
Proof.
  intros Hk. split; [done|]. split; [done|]. simpl.
  rewrite length_replicate. pose proof (pow2_pos k ltac:(lia)). lia.
Qed.

Lemma New_PathOK capacity k : PathOK (New capacity) k.
Proof.
  intros e s Hg. unfold Get in Hg. destruct (e <? 0); [done|].
  simpl in Hg. apply lookup_replicate in Hg as [? _]. done.
Qed.

Lemma strings_of_lookup l s :
  s ∈ strings_of l ↔ ∃ i, l !! i = Some (StringElement s).
Proof.
  induction l as [|x l IH]; simpl.
  - split; [by intros ?%elem_of_nil|]. by intros [i ?].
  - destruct x as [| |t]; rewrite ?elem_of_cons, IH; split.
    + intros [i Hi]. by exists (S i).
    + intros [[|i] Hi]; [done|]. by exists i.
    + intros [i Hi]. by exists (S i).
    + intros [[|i] Hi]; [done|]. by exists i.
    + intros [->|[i Hi]]; [by exists O|by exists (S i)].
    + intros [[|i] Hi]; [left; by inversion Hi|right; by exists i].
Qed.

Lemma strings_of_Get d s :
  s ∈ strings_of (elements_ d) ↔ ∃ e, Get d (Entry e) = Some (StringElement s).
Proof.
  rewrite strings_of_lookup. split.
  - intros [i Hi]. exists (Z.of_nat i). rewrite Get_Entry by lia.
    by rewrite Nat2Z.id.
  - intros [e He]. pose proof (Get_Some_range _ _ _ He).
    rewrite Get_Entry in He by lia. eauto.
Qed.

Lemma picked_suffix (d : Data) (pre l : list Element) :
  elements_ d = pre ++ l →
  picked d (seqZ (Z.of_nat (length pre)) (Z.of_nat (length l))) = strings_of l.
Proof.
  revert pre. induction l as [|x l IH]; intros pre Hd; [done|].
  rewrite seqZ_cons by (simpl; lia). unfold picked. cbn [flat_map].
  rewrite Get_Entry by lia. rewrite Nat2Z.id, Hd.
  rewrite lookup_app_r by lia. rewrite Nat.sub_diag. cbn [lookup list_lookup].
  specialize (IH (pre ++ [x])). rewrite <- app_assoc in IH. specialize (IH Hd).
  rewrite length_app in IH. cbn [length] in IH.
  replace (Z.succ (Z.of_nat (length pre))) with (Z.of_nat (length pre + 1)) by lia.
  replace (Z.pred (Z.of_nat (length (x :: l)))) with (Z.of_nat (length l))
    by (cbn [length]; lia).
  unfold picked in IH. rewrite IH. by destruct x.
Qed.

Lemma picked_all d :
  Z.of_nat (length (elements_ d)) = capacity_ d →
  picked d (seqZ 0 (capacity_ d)) = strings_of (elements_ d).
Proof.
  intros <-. apply (picked_suffix d [] (elements_ d)). done.
Qed.

(** ** [FindEntry] reaches a string that is on its probe path *)

Lemma FindEntry_inv `{StringTableKey IsolateT K} fuel d (key : K) hash k r :
  Searchable d k →
  FindEntry fuel d key hash = Some r →
  ∃ (n : nat) e, triangular_probe hash (2 ^ k) n = Entry e ∧ (n < fuel)%nat ∧
    (∀ j : nat, (j < n)%nat →
       Get d (triangular_probe hash (2 ^ k) j) = Some deleted_element ∨
       ∃ t, Get d (triangular_probe hash (2 ^ k) j) = Some (StringElement t) ∧
            KeyIsMatch key t = false) ∧
    ((r = NotFound ∧ Get d (Entry e) = Some empty_element) ∨
     (r = Entry e ∧ ∃ s, Get d (Entry e) = Some (StringElement s) ∧
                         KeyIsMatch key s = true)).
Proof.
  intros Hs Hf. pose proof Hs as (Hk & Hc & Hl).
  rewrite (FindEntry_triangular fuel d key hash k) in Hf by assumption.
  apply ProbeWalk_unit_inv in Hf as (n & Hn & Hskip & Hstop).
  destruct (probe_defined d k hash n Hs) as (e & x & Hp & He & Hx).
  exists n, e. split; [done|]. split; [lia|]. split.
  - intros j Hj. specialize (Hskip j ltac:(lia)).
    destruct (probe_defined d k hash j Hs) as (e' & y & Hp' & _ & Hy).
    rewrite Hp' in *. unfold FindEntry_body in Hskip. rewrite Hy in Hskip.
    destruct y as [| |t]; [done|by left|]. right. exists t.
    destruct (KeyIsMatch key t); [done|auto].
  - rewrite Hp in Hstop. unfold FindEntry_body in Hstop. rewrite Hx in Hstop.
    destruct x as [| |s]; [left|done|right].
    + by inversion Hstop.
    + destruct (KeyIsMatch key s) eqn:Hm; [|done]. inversion Hstop. eauto.
Qed.

Lemma FindEntry_intro `{StringTableKey IsolateT K} fuel d (key : K) hash k
    (n : nat) r :
  Searchable d k → (n < fuel)%nat →
  (∀ j : nat, (j < n)%nat →
     Get d (triangular_probe hash (2 ^ k) j) = Some deleted_element ∨
     ∃ t, Get d (triangular_probe hash (2 ^ k) j) = Some (StringElement t) ∧
          KeyIsMatch key t = false) →
  ((r = NotFound ∧
    Get d (triangular_probe hash (2 ^ k) n) = Some empty_element) ∨
   (r = triangular_probe hash (2 ^ k) n ∧
    ∃ s, Get d (triangular_probe hash (2 ^ k) n) = Some (StringElement s) ∧
         KeyIsMatch key s = true)) →
  FindEntry fuel d key hash = Some r.
Proof.
  intros Hs Hn Hskip Hstop. pose proof Hs as (Hk & Hc & Hl).
  rewrite (FindEntry_triangular fuel d key hash k) by assumption.
  apply (ProbeWalk_unit_intro _ _ fuel 0 n); [lia| |].
  - intros j Hj. unfold FindEntry_body.
    destruct (Hskip j ltac:(lia)) as [-> | (t & -> & ->)]; done.
  - unfold FindEntry_body.
    destruct Hstop as [[-> ->] | [-> (s & -> & ->)]]; done.
Qed.

Lemma KeyIsMatch_hash `{StringTableKey IsolateT K} (key : K) s :
  KeyIsMatch key s = true → String_hash s = key_hash key.
Proof.
  unfold KeyIsMatch. destruct (String_hash s =? key_hash key) eqn:Hh; [|done].
  intros _. lia.
Qed.

Lemma FindEntry_finds `{StringTableKey IsolateT K} fuel d (key : K) k s e :
  Searchable d k → 2 ^ k <= Z.of_nat fuel →
  Get d (Entry e) = Some (StringElement s) → Reachable d k s e →
  KeyIsMatch key s = true →
  ∃ e' s', FindEntry fuel d key (key_hash key) = Some (Entry e') ∧
    Get d (Entry e') = Some (StringElement s') ∧ KeyIsMatch key s' = true.
Proof.
  intros Hs Hfuel Hg (n & Hn & Hpn & Hbefore) Hm.
  rewrite (KeyIsMatch_hash key s Hm) in *.
  pose proof Hs as (Hk & Hc & Hl).
  assert (Hret : ∃ r, FindEntry fuel d key (key_hash key) = Some r).
  { rewrite (FindEntry_triangular fuel d key _ k) by assumption.
    apply (ProbeWalk_total _ _ fuel 0 n); [lia|lia| |].
    - intros j [] _. by apply FindEntry_body_defined.
    - intros []. rewrite Hpn. unfold FindEntry_body. rewrite Hg, Hm. eauto. }
  destruct Hret as [r Hr]. rewrite Hr.
  destruct (FindEntry_inv fuel d key _ k r Hs Hr) as (n' & e' & Hpn' & Hn' & Hskip & Hstop).
  destruct Hstop as [[-> Hempty] | [-> (s' & Hs' & Hm')]]; [|eauto].
  exfalso. destruct (Nat.lt_trichotomy n' n) as [Hlt|[->|Hgt]].
  - destruct (Hbefore n' Hlt) as [t Ht]. rewrite Hpn' in Ht. congruence.
  - rewrite Hpn in Hpn'. inversion Hpn'; subst. congruence.
  - destruct (Hskip n Hgt) as [Hd | (t & Ht & Hmt)]; rewrite Hpn in *; congruence.
Qed.

(** ** [Resize] *)

Lemma Resize_spec fuel data capacity k :
  Z.of_nat (length (elements_ data)) = capacity_ data →
  0 <= k <= 30 → capacity = 2 ^ k →
  Z.of_nat (length (strings_of (elements_ data))) < capacity →
  2 ^ k <= Z.of_nat fuel →
  ∃ new_data, Resize fuel data capacity = Some new_data ∧
    Searchable new_data k ∧ PathOK new_data k ∧
    strings_of (elements_ new_data) ≡ₚ strings_of (elements_ data) ∧
    count_deleted (elements_ new_data) = O ∧
    number_of_deleted_elements_ new_data = 0 ∧
    number_of_elements_ new_data = number_of_elements_ data ∧
    capacity_ new_data = capacity ∧
    previous_data_ new_data = Some data.
Proof.
  intros Hlen Hk -> Hroom Hfuel. unfold Resize.
  destruct (Rehash_spec fuel data (seqZ 0 (capacity_ data)) (New (2 ^ k)) k)
    as (nd & Hre & Hs & Hdel & Hpath & Hperm & Hprev & Hnof & Hndel & Hcap).
  - by apply New_Searchable.
  - simpl. apply count_deleted_replicate.
  - apply New_PathOK.
  - apply Forall_forall. intros i Hi. apply elem_of_seqZ in Hi. lia.
  - rewrite picked_all by done. simpl. rewrite strings_of_replicate. simpl. lia.
  - done.
  - rewrite Hre. eexists. split; [reflexivity|]. simpl.
    rewrite picked_all in Hperm by done. simpl in Hperm.
    rewrite strings_of_replicate in Hperm. simpl in Hperm.
    destruct Hs as (? & ? & ?).
    repeat split; try done; try lia.
Qed.

(** C3: [Resize] into a generation of capacity [2 ^ k] that has room for
    the strings of the old generation returns a generation that holds
    exactly the strings of the old one (a permutation: none lost, none
    twice), has no deleted slot and a deleted-element count of zero, takes
    over the element count, and keeps the old generation as its previous
    one.  Every string of the old generation is found again by
    [FindEntry] under its hash: a key that matches it finds a string of
    the old generation that matches the key, and the string itself when
    the old generation has no other string matching the key. *)
Theorem Resize_preserves_entries `{StringTableKey IsolateT K}
    (fuel : nat) (data : Data) (capacity k : Z) :
  Z.of_nat (length (elements_ data)) = capacity_ data →
  0 <= k <= 30 → capacity = 2 ^ k →
  Z.of_nat (length (strings_of (elements_ data))) < capacity →
  capacity <= Z.of_nat fuel →
  ∃ new_data, Resize fuel data capacity = Some new_data ∧
    strings_of (elements_ new_data) ≡ₚ strings_of (elements_ data) ∧
    count_deleted (elements_ new_data) = O ∧
    number_of_deleted_elements new_data = 0 ∧
    number_of_elements new_data = number_of_elements data ∧
    StringTable.capacity new_data = capacity ∧
    PreviousData new_data = Some data ∧
    ∀ (key : K) (s : String),
      s ∈ strings_of (elements_ data) → KeyIsMatch key s = true →
      ∃ e s', FindEntry fuel new_data key (String_hash s) = Some (Entry e) ∧
        Get new_data (Entry e) = Some (StringElement s') ∧
        KeyIsMatch key s' = true ∧ s' ∈ strings_of (elements_ data) ∧
        ((∀ t, t ∈ strings_of (elements_ data) → KeyIsMatch key t = true →
               t = s) → s' = s).
Proof.
  intros Hlen Hk Hcap Hroom Hfuel.
  destruct (Resize_spec fuel data capacity k Hlen Hk Hcap Hroom ltac:(lia))
    as (nd & Hre & Hs & Hpath & Hperm & Hdel & Hndel & Hnof & Hc & Hprev).
  exists nd. repeat split; try done.
  intros key s Hin Hm.
  assert (Hin' : s ∈ strings_of (elements_ nd)) by (by rewrite Hperm).
  apply strings_of_Get in Hin' as [e He].
  destruct (FindEntry_finds fuel nd key k s e Hs ltac:(lia) He (Hpath e s He) Hm)
    as (e' & s' & Hf & Hg & Hm').
  exists e', s'. rewrite (KeyIsMatch_hash key s Hm).
  assert (Hs'in : s' ∈ strings_of (elements_ data)).
  { rewrite <- Hperm. apply strings_of_Get. eauto. }
  repeat split; try done. intros Huniq. by apply Huniq.
Qed.

Lemma Resize_preserves_entries_witness :
  ∃ new_data, Resize 4096 data3 4096 = Some new_data ∧
    strings_of (elements_ new_data) ≡ₚ strings_of (elements_ data3) ∧
    count_deleted (elements_ new_data) = O ∧
    number_of_deleted_elements new_data = 0 ∧
    number_of_elements new_data = number_of_elements data3 ∧
    StringTable.capacity new_data = 4096 ∧
    PreviousData new_data = Some data3 ∧
    ∀ (key : InternalizedStringKey) (s : String),
      s ∈ strings_of (elements_ data3) → KeyIsMatch key s = true →
      ∃ e s', FindEntry 4096 new_data key (String_hash s) = Some (Entry e) ∧
        Get new_data (Entry e) = Some (StringElement s') ∧
        KeyIsMatch key s' = true ∧ s' ∈ strings_of (elements_ data3) ∧
        ((∀ t, t ∈ strings_of (elements_ data3) → KeyIsMatch key t = true →
               t = s) → s' = s).
Proof.
  apply (Resize_preserves_entries 4096 data3 4096 12).
  - vm_compute. reflexivity.
  - lia.
  - reflexivity.
  - vm_compute. reflexivity.
  - vm_compute. discriminate.
Defined.

(** ** The capacity policy *)

Lemma RoundUpToPowerOfTwo32_spec v :
  0 <= v <= 2 ^ 30 →
  ∃ j, 0 <= j <= 30 ∧ RoundUpToPowerOfTwo32 v = 2 ^ j ∧ v <= 2 ^ j ∧
       (0 < j → 2 ^ (j - 1) < v).
Proof.
  intros Hv. exists (Z.log2_up v).
  assert (Hj : 0 <= Z.log2_up v <= 30).
  { split; [apply Z.log2_up_nonneg|].
    destruct (decide (v <= 1)) as [Hle|Hne]; [rewrite Z.log2_up_eqn0 by lia; lia|].
    apply Z.log2_up_le_pow2; lia. }
  split; [exact Hj|].
  pose proof (pow2_pos (Z.log2_up v) ltac:(lia)).
  pose proof (pow2_le_mono (Z.log2_up v) 30 ltac:(lia)).
  split; [|split].
  - unfold RoundUpToPowerOfTwo32. apply uint32_t_id. lia.
  - destruct (decide (v <= 1)) as [Hle|Hgt].
    + rewrite Z.log2_up_eqn0 by lia. simpl. lia.
    + apply Z.log2_up_spec. lia.
  - intros Hpos. destruct (decide (v <= 1)) as [Hle|Hgt].
    + rewrite Z.log2_up_eqn0 in Hpos by lia. lia.
    + rewrite Z.sub_1_r. apply Z.log2_up_spec. lia.
Qed.

Lemma ComputeStringTableCapacity_spec n :
  0 <= n → n + n / 2 <= 2 ^ 30 →
  ∃ j, 11 <= j <= 30 ∧ ComputeStringTableCapacity n = 2 ^ j ∧
       n + n / 2 <= 2 ^ j ∧ (11 < j → 2 ^ (j - 1) < n + n / 2).
Proof.
  intros Hn Hsmall. unfold ComputeStringTableCapacity.
  rewrite Z.shiftr_div_pow2 by lia. change (2 ^ 1) with 2.
  assert (H0 : 0 <= n / 2) by (apply Z.div_pos; lia).
  rewrite (int32_t_id (n + n / 2)) by lia.
  rewrite (uint32_t_id (n + n / 2)) by lia.
  destruct (RoundUpToPowerOfTwo32_spec (n + n / 2) ltac:(lia))
    as (j & Hj & -> & Hle & Hmin).
  pose proof (pow2_pos j ltac:(lia)).
  pose proof (pow2_le_mono j 30 ltac:(lia)).
  rewrite int32_t_id by lia. unfold kStringTableMinCapacity.
  destruct (decide (j <= 11)) as [Hsmallj|Hbig].
  - exists 11. pose proof (pow2_le_mono j 11 ltac:(lia)).
    change (2 ^ 11) with 2048 in *.
    split; [lia|]. split; [lia|]. split; [lia|lia].
  - exists j. pose proof (pow2_lt_mono 11 j ltac:(lia)).
    change (2 ^ 11) with 2048 in *.
    split; [lia|]. split; [lia|]. split; [lia|]. intros _. apply Hmin. lia.
Qed.

Lemma pow2_lt_inv a b : 0 <= a → 0 <= b → 2 ^ a < 2 ^ b → a < b.
Proof.
  intros Ha Hb Hlt. destruct (decide (a < b)) as [|Hge]; [done|].
  pose proof (pow2_le_mono b a ltac:(lia)). lia.
Qed.

Lemma pow2_split k : 1 <= k → 2 ^ k = 2 * 2 ^ (k - 1).
Proof.
  intros Hk. replace k with (1 + (k - 1)) at 1 by lia.
  rewrite Z.pow_add_r by lia. reflexivity.
Qed.

(** When the table shrinks. *)
Lemma ComputeStringTableCapacityWithShrink_spec k room :
  11 <= k <= 30 → 0 <= room <= 2 ^ 30 →
  let new_capacity := ComputeStringTableCapacityWithShrink (2 ^ k) room in
  (new_capacity < 2 ^ k ↔ room <= 2 ^ k / 4 ∧ 11 < k) ∧
  (new_capacity < 2 ^ k →
   new_capacity = ComputeStringTableCapacity room ∧
   ∃ j, 11 <= j < k ∧ new_capacity = 2 ^ j ∧ room + room / 2 <= 2 ^ j) ∧
  (¬ new_capacity < 2 ^ k → new_capacity = 2 ^ k).
Proof.
  intros Hk Hroom. cbv zeta. unfold ComputeStringTableCapacityWithShrink.
  unfold kStringTableMaxEmptyFactor.
  pose proof (pow2_pos k ltac:(lia)) as Hpos.
  rewrite Z.quot_div_nonneg by lia.
  assert (Hk2 : 2 ^ k = 4 * 2 ^ (k - 2)).
  { rewrite (pow2_split k) by lia. rewrite (pow2_split (k - 1)) by lia.
    replace (k - 1 - 1) with (k - 2) by lia. lia. }
  assert (Hq : 2 ^ k / 4 = 2 ^ (k - 2)).
  { rewrite Hk2. rewrite Z.mul_comm. apply Z.div_mul. lia. }
  rewrite Hq. pose proof (pow2_pos (k - 2) ltac:(lia)) as Hpos2.
  destruct (2 ^ (k - 2) <? room) eqn:Hcmp.
  - apply Z.ltb_lt in Hcmp. split; [lia|]. split; [lia|done].
  - apply Z.ltb_ge in Hcmp.
    assert (Hhalf : room / 2 <= 2 ^ (k - 2) / 2).
    { apply Z.div_le_mono; lia. }
    assert (Hk3 : 2 ^ (k - 2) = 2 * 2 ^ (k - 3)) by (rewrite (pow2_split (k - 2)) by lia; f_equal; f_equal; lia).
    assert (Hd : 2 ^ (k - 2) / 2 = 2 ^ (k - 3)).
    { rewrite Hk3, Z.mul_comm. apply Z.div_mul. lia. }
    pose proof (pow2_pos (k - 3) ltac:(lia)) as Hpos3.
    pose proof (pow2_le_mono k 30 ltac:(lia)).
    assert (H0 : 0 <= room / 2) by (apply Z.div_pos; lia).
    destruct (ComputeStringTableCapacity_spec room ltac:(lia) ltac:(lia))
      as (j & Hj & Hc & Hle & Hmin).
    rewrite Hc. pose proof (pow2_le_mono 11 j ltac:(lia)) as H11.
    change (2 ^ 11) with 2048 in H11. unfold kStringTableMinCapacity.
    destruct (2 ^ j <? 2048) eqn:Hmin'; [apply Z.ltb_lt in Hmin'; lia|].
    assert (Hjk : 11 < k → j < k).
    { intros Hk11. destruct (decide (11 < j)) as [Hbig|]; [|lia].
      apply pow2_lt_inv; [lia|lia|]. specialize (Hmin Hbig).
      rewrite (pow2_split j) by lia. lia. }
    split; [|split].
    + split.
      * intros Hlt. split; [lia|]. apply pow2_lt_inv in Hlt; lia.
      * intros [_ Hk11]. apply pow2_lt_mono. lia.
    + intros Hlt. split; [done|]. exists j. apply pow2_lt_inv in Hlt; [|lia|lia].
      split; [lia|]. split; [done|lia].
    + intros Hnlt. destruct (decide (11 < k)) as [Hk11|Hk11].
      * exfalso. apply Hnlt. apply pow2_lt_mono. lia.
      * assert (k = 11) by lia. subst k. f_equal.
        destruct (decide (j = 11)) as [|Hne]; [done|].
        exfalso. specialize (Hmin ltac:(lia)).
        pose proof (pow2_le_mono 11 (j - 1) ltac:(lia)).
        change (2 ^ (11 - 2)) with 512 in *. change (2 ^ (11 - 3)) with 256 in *.
        change (2 ^ 11) with 2048 in *. lia.
Qed.

Lemma StringTableHasSufficientCapacityToAdd_spec capacity nof ndel :
  0 <= nof < 2 ^ 30 → 0 < capacity <= 2 ^ 30 → 0 <= ndel →
  StringTableHasSufficientCapacityToAdd capacity nof ndel 1 = true ↔
  nof + 1 < capacity ∧ ndel <= (capacity - (nof + 1)) / 2 ∧
  nof + 1 + (nof + 1) / 2 <= capacity.
Proof.
  intros Hnof Hcap Hdel. unfold StringTableHasSufficientCapacityToAdd.
  rewrite (int32_t_id (nof + 1)) by lia.
  assert (H0 : 0 <= (nof + 1) / 2 <= nof + 1).
  { split; [apply Z.div_pos; lia|]. apply Z.div_le_upper_bound; lia. }
  destruct (nof + 1 <? capacity) eqn:H1; simpl.
  - apply Z.ltb_lt in H1.
    rewrite (int32_t_id (capacity - (nof + 1))) by lia.
    rewrite !Z.quot_div_nonneg by lia.
    rewrite (int32_t_id (nof + 1 + (nof + 1) / 2)) by lia.
    destruct (ndel <=? (capacity - (nof + 1)) / 2) eqn:H2.
    + apply Z.leb_le in H2.
      destruct (nof + 1 + (nof + 1) / 2 <=? capacity) eqn:H3.
      * apply Z.leb_le in H3. tauto.
      * apply Z.leb_gt in H3. split; [done|lia].
    + apply Z.leb_gt in H2. split; [done|lia].
  - apply Z.ltb_ge in H1. split; [done|lia].
Qed.

(** ** [EnsureCapacity] *)

Lemma Invariant_Searchable d :
  Invariant d → ∃ k, 11 <= k <= 30 ∧ Searchable d k.
Proof.
  intros [(k & Hk & Hc) Hlen _ _ _]. exists k. split; [done|].
  split; [lia|]. split; done.
Qed.

Lemma Invariant_bounds d :
  Invariant d →
  0 <= number_of_elements_ d ∧ 0 <= number_of_deleted_elements_ d ∧
  number_of_elements_ d + 1 <= capacity_ d ∧ 2048 <= capacity_ d <= 2 ^ 30.
Proof.
  intros [(k & Hk & Hc) Hlen Hnof Hdel Hfull].
  pose proof (pow2_le_mono 11 k ltac:(lia)). pose proof (pow2_le_mono k 30 ltac:(lia)).
  change (2 ^ 11) with 2048 in *. lia.
Qed.

(** What [EnsureCapacity] leaves behind: the generation [d'] is the
    current one, it satisfies the invariant, holds the strings of [d], and
    has room for one more element with 50% slack. *)
Lemma EnsureCapacity_spec fuel d :
  Invariant d → CanGrow d → 2 * capacity_ d <= Z.of_nat fuel →
  ∃ d', EnsureCapacity fuel (mkStringTable d) 1 = Some (mkStringTable d', d') ∧
    Invariant d' ∧
    number_of_elements_ d' = number_of_elements_ d ∧
    strings_of (elements_ d') ≡ₚ strings_of (elements_ d) ∧
    number_of_elements_ d + 1 + (number_of_elements_ d + 1) / 2 <= capacity_ d' ∧
    number_of_elements_ d + 1 + number_of_deleted_elements_ d' < capacity_ d' ∧
    capacity_ d' <= Z.of_nat fuel ∧
    let shrunk :=
      ComputeStringTableCapacityWithShrink (capacity_ d)
        (number_of_elements_ d + 1) in
    let sufficient :=
      StringTableHasSufficientCapacityToAdd (capacity_ d)
        (number_of_elements_ d) (number_of_deleted_elements_ d) 1 in
    (shrunk < capacity_ d ∧ capacity_ d' = shrunk ∧
     previous_data_ d' = Some d) ∨
    (¬ shrunk < capacity_ d ∧ sufficient = true ∧ d' = d) ∨
    (¬ shrunk < capacity_ d ∧ sufficient = false ∧
     capacity_ d' = ComputeStringTableCapacity (number_of_elements_ d + 1) ∧
     previous_data_ d' = Some d).
Proof.
  intros Hinv Hgrow Hfuel. pose proof (Invariant_bounds d Hinv) as (Hn0 & Hd0 & Hn1 & Hcap).
  pose proof Hinv as [(k & Hk & Hc) Hlen Hnof Hdel Hfull].
  unfold CanGrow in Hgrow.
  assert (Hhalf : 0 <= (number_of_elements_ d + 1) / 2) by (apply Z.div_pos; lia).
  unfold EnsureCapacity. cbv zeta. unfold capacity, number_of_elements, number_of_deleted_elements.
  cbn [data_].
  rewrite (int32_t_id (number_of_elements_ d + 1)) by lia.
  remember (number_of_elements_ d + 1) as room eqn:Hroomdef.
  destruct (ComputeStringTableCapacityWithShrink_spec k room Hk ltac:(lia))
    as (Hiff & Hshrink & Hkeep).
  rewrite <- Hc in Hiff, Hshrink, Hkeep.
  remember (ComputeStringTableCapacityWithShrink (capacity_ d) room) as shrunk eqn:Hshrunkdef.
  assert (Hresize : ∀ j, 11 <= j <= 30 → room + room / 2 <= 2 ^ j →
            2 ^ j <= Z.of_nat fuel →
            ∃ nd, Resize fuel d (2 ^ j) = Some nd ∧ Invariant nd ∧
              number_of_elements_ nd = number_of_elements_ d ∧
              strings_of (elements_ nd) ≡ₚ strings_of (elements_ d) ∧
              number_of_deleted_elements_ nd = 0 ∧ capacity_ nd = 2 ^ j ∧
              previous_data_ nd = Some d).
  { intros j Hj Hroom Hf.
    destruct (Resize_spec fuel d (2 ^ j) j Hlen ltac:(lia) eq_refl ltac:(lia) Hf)
      as (nd & Hre & Hs & Hpath & Hperm & Hcd & Hndel & Hnn & Hcc & Hprev).
    exists nd. split; [done|]. split; [|by repeat split].
    destruct Hs as (? & ? & ?). split.
    - exists j. done.
    - done.
    - rewrite Hnn, Hnof. by rewrite Hperm.
    - rewrite Hndel, Hcd. done.
    - rewrite Hnn, Hndel, Hcc. lia. }
  assert (Hrm : room <= 2 * (room / 2) + 1).
  { pose proof (Z.div_mod room 2 ltac:(lia)).
    pose proof (Z.mod_pos_bound room 2 ltac:(lia)). lia. }
  destruct (shrunk <? capacity_ d) eqn:Hcmp.
  - (* shrink *)
    apply Z.ltb_lt in Hcmp. destruct (Hshrink Hcmp) as (_ & j & Hj & Hsj & Hroom).
    pose proof (pow2_le_mono 11 j ltac:(lia)) as H11. change (2 ^ 11) with 2048 in H11.
    assert (Hne : (shrunk =? -1) = false) by (apply Z.eqb_neq; lia).
    rewrite Hne. cbn [negb].
    rewrite Hsj.
    destruct (Hresize j ltac:(lia) Hroom ltac:(lia))
      as (nd & -> & Hinv' & Hnn & Hperm & Hndel & Hcc & Hprev).
    exists nd. split; [done|]. split; [done|]. split; [done|]. split; [done|].
    split; [lia|]. split; [lia|]. split; [lia|].
    left. split; [lia|]. split; [lia|done].
  - apply Z.ltb_ge in Hcmp. rewrite (Hkeep ltac:(lia)) in *.
    destruct (StringTableHasSufficientCapacityToAdd (capacity_ d)
                (number_of_elements_ d) (number_of_deleted_elements_ d) 1) eqn:Hsuff.
    + (* no resize *)
      cbn [negb]. change (-1 =? -1) with true. cbn [negb].
      pose proof Hsuff as Hsuff0.
      apply StringTableHasSufficientCapacityToAdd_spec in Hsuff as (H1 & H2 & H3);
        [|lia|lia|lia].
      rewrite <- Hroomdef in H1, H2, H3.
      exists d. split; [done|]. split; [done|]. split; [done|]. split; [done|].
      split; [lia|]. split.
      { assert ((capacity_ d - room) / 2 < capacity_ d - room)
          by (apply Z.div_lt_upper_bound; lia). lia. }
      split; [lia|]. right. left. split; [lia|]. split; done.
    + (* grow *)
      cbn [negb].
      destruct (ComputeStringTableCapacity_spec room ltac:(lia) ltac:(lia))
        as (j & Hj & Hcj & Hroom & Hmin).
      rewrite Hcj. pose proof (pow2_pos j ltac:(lia)).
      pose proof (pow2_le_mono 11 j ltac:(lia)) as H11. change (2 ^ 11) with 2048 in H11.
      assert (Hne : (2 ^ j =? -1) = false) by (apply Z.eqb_neq; lia).
      rewrite Hne. cbn [negb].
      assert (Hj2 : 2 ^ j <= 2 * capacity_ d).
      { destruct (decide (11 < j)) as [Hbig|].
        - specialize (Hmin Hbig).
          assert (room / 2 <= room) by (apply Z.div_le_upper_bound; lia).
          assert (Hk1 : 2 ^ (k + 1) = 2 * capacity_ d).
          { rewrite Z.pow_add_r by lia. change (2 ^ 1) with 2. lia. }
          assert (j - 1 < k + 1) by (apply pow2_lt_inv; lia).
          pose proof (pow2_le_mono j (k + 1) ltac:(lia)). lia.
        - assert (j = 11) by lia. subst j. change (2 ^ 11) with 2048. lia. }
      destruct (Hresize j Hj Hroom ltac:(lia))
        as (nd & -> & Hinv' & Hnn & Hperm & Hndel & Hcc & Hprev).
      exists nd. split; [done|]. split; [done|]. split; [done|]. split; [done|].
      split; [lia|]. split; [lia|]. split; [lia|].
      right. right. split; [lia|]. split; [done|]. split; [lia|done].
Qed.

(** ** The searches agree *)

Lemma ProbeWalk_fuel_mono {R T} (body : InternalIndex → T → option (LoopStep R T))
    probe (fuel fuel' i : nat) s r :
  ProbeWalk body probe fuel i s = Some r → (fuel ≤ fuel')%nat →
  ProbeWalk body probe fuel' i s = Some r.
Proof.
  revert fuel' i s. induction fuel as [|fuel IH]; intros fuel' i s Hw Hle; [done|].
  destruct fuel' as [|fuel']; [lia|]. simpl in *.
  destruct (body (probe i) s) as [[r'|s']|]; try done. apply IH; [done|lia].
Qed.

Lemma KeyIsMatch_SameContent `{StringTableKey IsolateT K} (k1 k2 : K) s :
  SameContent k1 k2 → KeyIsMatch k1 s = KeyIsMatch k2 s.
Proof. intros (Hh & Hl & Hm). unfold KeyIsMatch. by rewrite Hh, Hl, Hm. Qed.

Lemma FindEntry_SameContent `{StringTableKey IsolateT K} fuel d (k1 k2 : K) hash :
  SameContent k1 k2 → FindEntry fuel d k1 hash = FindEntry fuel d k2 hash.
Proof.
  intros Hsame. unfold FindEntry.
  generalize (FirstProbe hash (uint32_t (capacity_ d))). generalize 1.
  induction fuel as [|fuel IH]; intros count entry; [done|].
  cbn [ProbeLoop]. unfold FindEntry_body at 1 3.
  destruct (Get d entry) as [[| |s]|].
  - done.
  - apply IH.
  - rewrite (KeyIsMatch_SameContent k1 k2 s Hsame).
    destruct (KeyIsMatch k2 s); [done|apply IH].
  - done.
Qed.

(** With enough fuel the result of [FindEntry] does not depend on the
    fuel. *)
Lemma FindEntry_fuel `{StringTableKey IsolateT K} fuel fuel' d (key : K) hash k r :
  Searchable d k → FindEntry fuel d key hash = Some r → (fuel ≤ fuel')%nat →
  FindEntry fuel' d key hash = Some r.
Proof.
  intros Hs Hf Hle. pose proof Hs as (Hk & Hc & Hl).
  rewrite (FindEntry_triangular fuel d key hash k) in Hf by assumption.
  rewrite (FindEntry_triangular fuel' d key hash k) by assumption.
  by eapply ProbeWalk_fuel_mono.
Qed.

Lemma FindEntry_any_fuel `{StringTableKey IsolateT K} fuel fuel' d (key : K) hash r :
  Invariant d → FindEntry fuel d key hash = Some r →
  capacity_ d <= Z.of_nat fuel' →
  FindEntry fuel' d key hash = Some r.
Proof.
  intros Hinv Hf Hfuel'.
  destruct (Invariant_Searchable d Hinv) as (k & Hk & Hs).
  destruct (Invariant_has_empty d Hinv) as (e & He & Hempty).
  pose proof Hs as (_ & Hc & _).
  destruct (FindEntry_returns fuel' d key hash k e Hs ltac:(lia) Hempty ltac:(lia))
    as [r' Hr'].
  pose proof (FindEntry_fuel fuel (max fuel fuel') d key hash k r Hs Hf ltac:(lia)) as H1.
  pose proof (FindEntry_fuel fuel' (max fuel fuel') d key hash k r' Hs Hr' ltac:(lia)) as H2.
  congruence.
Qed.

(** [FindEntryOrInsertionEntry] returns what [FindEntry] finds and, on a
    miss, what [FindInsertionEntry] returns. *)
Lemma FindEntryOrInsertionEntry_walk `{StringTableKey IsolateT K} d (key : K)
    probe fuel (i : nat) insertion_entry :
  (∀ j, is_found (probe j) = true) →
  ProbeWalk (FindEntryOrInsertionEntry_body d key) probe fuel i insertion_entry
  = match ProbeWalk (FindEntry_body d key) probe fuel i tt with
    | None => None
    | Some (Entry e) => Some (Entry e)
    | Some NotFound =>
        if is_found insertion_entry then Some insertion_entry
        else ProbeWalk (FindInsertionEntry_body d) probe fuel i tt
    end.
Proof.
  intros Hprobe. revert i insertion_entry.
  induction fuel as [|fuel IH]; intros i ins; [done|].
  cbn [ProbeWalk]. unfold FindEntryOrInsertionEntry_body at 1.
  unfold FindEntry_body at 1. unfold FindInsertionEntry_body at 1.
  specialize (Hprobe i). destruct (probe i) as [e|] eqn:Hp; [|done].
  destruct (Get d (Entry e)) as [[| |s]|]; [| | |done].
  - unfold is_not_found. by destruct (is_found ins).
  - unfold is_not_found. destruct (is_found ins) eqn:Hins; cbn [negb].
    + rewrite IH, Hins.
      by destruct (ProbeWalk (FindEntry_body d key) probe fuel (S i) tt) as [[e'|]|].
    + rewrite IH. cbn [is_found].
      by destruct (ProbeWalk (FindEntry_body d key) probe fuel (S i) tt) as [[e'|]|].
  - destruct (KeyIsMatch key s); [done|]. rewrite IH. done.
Qed.

Lemma FindEntryOrInsertionEntry_split `{StringTableKey IsolateT K}
    fuel d (key : K) hash k :
  Searchable d k →
  FindEntryOrInsertionEntry fuel d key hash
  = match FindEntry fuel d key hash with
    | None => None
    | Some (Entry e) => Some (Entry e)
    | Some NotFound => FindInsertionEntry fuel d hash
    end.
Proof.
  intros (Hk & Hc & Hl).
  rewrite (FindEntryOrInsertionEntry_triangular fuel d key hash k) by assumption.
  rewrite (FindEntry_triangular fuel d key hash k) by assumption.
  rewrite (FindInsertionEntry_triangular fuel d hash k) by assumption.
  by rewrite FindEntryOrInsertionEntry_walk.
Qed.

Lemma FindInsertionEntry_index fuel d hash k r :
  Searchable d k →
  FindInsertionEntry fuel d hash = Some r →
  ∃ (n : nat) e x, r = Entry e ∧ triangular_probe hash (2 ^ k) n = Entry e ∧
    Z.of_nat n < 2 ^ k ∧ 0 <= e < 2 ^ k ∧
    Get d (Entry e) = Some x ∧ (x = empty_element ∨ x = deleted_element) ∧
    ∀ j : nat, (j < n)%nat →
      ∃ t, Get d (triangular_probe hash (2 ^ k) j) = Some (StringElement t).
Proof.
  intros Hs Hf.
  destruct (FindInsertionEntry_inv fuel d hash k r Hs Hf)
    as (n & e & x & -> & Hpn & Hn & He & Hx & Hfree & Hbefore).
  exists n, e, x. repeat split; try done; try lia.
  destruct (decide (Z.of_nat n < 2 ^ k)) as [|Hge]; [done|]. exfalso.
  destruct Hs as (Hk & _).
  destruct (triangular_probe_surj hash k e ltac:(lia) He) as (m & Hm & Hpm).
  destruct (Hbefore m ltac:(lia)) as [t' Ht']. rewrite Hpm in Ht'.
  destruct Hfree; congruence.
Qed.

(** ** Inserting into the slot [FindEntryOrInsertionEntry] returns *)

Lemma insert_then_found `{StringTableKey IsolateT K} fuel d d' (key : K) hash k
    (n : nat) e x s :
  Searchable d k → 2 ^ k <= Z.of_nat fuel →
  FindEntry fuel d key hash = Some NotFound →
  triangular_probe hash (2 ^ k) n = Entry e → Z.of_nat n < 2 ^ k →
  Get d (Entry e) = Some x → x = empty_element ∨ x = deleted_element →
  (∀ j : nat, (j < n)%nat →
     ∃ t, Get d (triangular_probe hash (2 ^ k) j) = Some (StringElement t)) →
  elements_ d' = <[Z.to_nat e := StringElement s]> (elements_ d) →
  capacity_ d' = capacity_ d →
  KeyIsMatch key s = true →
  FindEntry fuel d' key hash = Some (Entry e).
Proof.
  intros Hs Hfuel Hmiss Hpn Hn Hx Hfree Hbefore Hel Hcap Hm.
  pose proof Hs as (Hk & Hc & Hl).
  pose proof (Get_Some_range _ _ _ Hx) as Hrange.
  assert (Hs' : Searchable d' k).
  { split; [done|]. split; [congruence|]. rewrite Hel, length_insert. congruence. }
  destruct (FindEntry_inv fuel d key hash k NotFound Hs Hmiss)
    as (n0 & e0 & Hpn0 & Hn0 & Hskip & Hstop).
  destruct Hstop as [[_ Hempty] | [? _]]; [|done].
  assert (Hle : (n ≤ n0)%nat).
  { destruct (decide (n ≤ n0)%nat) as [|Hgt]; [done|].
    destruct (Hbefore n0 ltac:(lia)) as [t Ht]. rewrite Hpn0 in Ht. congruence. }
  apply (FindEntry_intro fuel d' key hash k n (Entry e) Hs'); [lia| |].
  - intros j Hj. right. destruct (Hbefore j Hj) as [t Ht]. exists t.
    destruct (probe_defined d k hash j Hs) as (ej & y & Hpj & Hej & Hy).
    rewrite Hpj in *.
    assert (Hne : e ≠ ej) by (intros ->; destruct Hfree; congruence).
    rewrite (Get_insert_ne d d' e ej s Hel ltac:(lia) Hne).
    split; [done|].
    destruct (Hskip j ltac:(lia)) as [Hd | (t' & Ht' & Hmt)]; rewrite Hpj in *;
      congruence.
  - right. split; [done|]. exists s. rewrite Hpn.
    split; [|done]. by apply (Get_insert_eq d d' e s).
Qed.

Lemma Invariant_insert d d' e x s :
  Invariant d → Get d (Entry e) = Some x →
  number_of_elements_ d + 1 + number_of_deleted_elements_ d < capacity_ d →
  elements_ d' = <[Z.to_nat e := StringElement s]> (elements_ d) →
  capacity_ d' = capacity_ d →
  number_of_elements_ d' = number_of_elements_ d + 1 →
  (x = empty_element ∧
   number_of_deleted_elements_ d' = number_of_deleted_elements_ d ∨
   x = deleted_element ∧
   number_of_deleted_elements_ d' = number_of_deleted_elements_ d - 1) →
  Invariant d'.
Proof.
  intros [Hcapk Hlen Hnof Hdel Hfull] Hx Hroom Hel Hcap Hn' Hcase.
  pose proof (Get_Some_range _ _ _ Hx) as Hrange.
  assert (Hx' : elements_ d !! Z.to_nat e = Some x) by (by rewrite <- Get_Entry by lia).
  split.
  - by rewrite Hcap.
  - rewrite Hel, length_insert. congruence.
  - rewrite Hn', Hel, Hnof.
    rewrite (strings_of_insert_free _ _ s x Hx') by (destruct Hcase as [[? _]|[? _]]; auto).
    cbn [length]. lia.
  - rewrite Hel. destruct Hcase as [[-> ->]|[-> ->]].
    + by rewrite count_deleted_insert_empty.
    + pose proof (count_deleted_insert_deleted _ _ s Hx'). lia.
  - destruct Hcase as [[_ ->]|[_ ->]]; lia.
Qed.

(** ** [LookupKey] *)

(** [LookupKey] returns a string [r] that matches the key and sits in a
    slot [e] of the current generation [d'], where [FindEntry] finds it
    from then on; [d'] satisfies the invariant and either is the old
    generation or has 50% slack. *)
Lemma LookupKey_spec `{StringTableKey IsolateT K} fuel d (isolate : IsolateT)
    (key : K) :
  Invariant d → CanGrow d → 2 * capacity_ d <= Z.of_nat fuel →
  InsertsItself isolate key →
  ∃ d' isolate' r e,
    LookupKey fuel (mkStringTable d) isolate key
    = Some (mkStringTable d', isolate', r) ∧
    Invariant d' ∧ capacity_ d' <= Z.of_nat fuel ∧
    Get d' (Entry e) = Some (StringElement r) ∧ KeyIsMatch key r = true ∧
    FindEntry fuel d' key (key_hash key) = Some (Entry e) ∧
    (d' = d ∨
     number_of_elements_ d' + number_of_elements_ d' / 2 <= capacity_ d' ∧
     number_of_elements_ d <= number_of_elements_ d' <= number_of_elements_ d + 1).
Proof.
  intros Hinv Hgrow Hfuel Hins.
  pose proof (Invariant_bounds d Hinv) as (Hn0 & Hd0 & Hn1 & Hcap).
  destruct (Invariant_Searchable d Hinv) as (k & Hk & Hs).
  destruct (Invariant_has_empty d Hinv) as (e0 & He0 & Hempty0).
  pose proof Hs as (_ & Hc & _).
  unfold LookupKey. cbn [data_].
  destruct (FindEntry_returns fuel d key (key_hash key) k e0 Hs ltac:(lia) Hempty0
              ltac:(lia)) as [r0 Hr0].
  rewrite Hr0.
  destruct (FindEntry_inv fuel d key _ k r0 Hs Hr0) as (n0 & e00 & Hpn0 & _ & _ & Hstop).
  destruct Hstop as [[-> _] | [-> (s & Hg & Hm)]].
  2:{ rewrite Hg. exists d, isolate, s, e00.
      split; [done|]. split; [done|]. split; [lia|]. split; [done|].
      split; [done|]. split; [done|]. by left. }
  unfold InsertsItself in Hins.
  destruct (PrepareForInsertion isolate key) as [isolate1 key'] eqn:Hprep.
  destruct (GetHandleForInsertion isolate1 key') as [isolate2 new_string] eqn:Hget.
  destruct Hins as [Hsame Hmatch].
  pose proof Hsame as (Hhash & _ & _).
  destruct (EnsureCapacity_spec fuel d Hinv Hgrow Hfuel)
    as (d1 & -> & Hinv1 & Hnof1 & Hperm1 & Hslack & Hroom & Hfuel1 & _).
  destruct (Invariant_Searchable d1 Hinv1) as (k1 & Hk1 & Hs1).
  destruct (Invariant_has_empty d1 Hinv1) as (e1 & He1 & Hempty1).
  pose proof Hs1 as (_ & Hc1 & Hl1).
  assert (Hhalf : number_of_elements_ d / 2 <= (number_of_elements_ d + 1) / 2).
  { apply Z.div_le_mono; lia. }
  rewrite (FindEntryOrInsertionEntry_split fuel d1 key' _ k1 Hs1).
  destruct (FindEntry_returns fuel d1 key' (key_hash key') k1 e1 Hs1 ltac:(lia)
              Hempty1 ltac:(lia)) as [r1 Hr1].
  rewrite Hr1.
  destruct (FindEntry_inv fuel d1 key' _ k1 r1 Hs1 Hr1) as (n1 & e11 & Hpn1 & _ & _ & Hstop).
  destruct Hstop as [[-> _] | [-> (s & Hg & Hm)]].
  2:{ rewrite Hg. exists d1, isolate1, s, e11.
      rewrite <- (KeyIsMatch_SameContent key' key s Hsame).
      rewrite <- (FindEntry_SameContent fuel d1 key' key _ Hsame), <- Hhash.
      split; [done|]. split; [done|]. split; [lia|]. split; [done|].
      split; [done|]. split; [done|]. right. rewrite Hnof1. lia. }
  destruct (FindInsertionEntry_returns fuel d1 (key_hash key') k1 e1 Hs1 ltac:(lia)
              (or_introl Hempty1) ltac:(lia)) as [r2 Hr2].
  rewrite Hr2.
  destruct (FindInsertionEntry_index fuel d1 _ k1 r2 Hs1 Hr2)
    as (n & e & x & -> & Hpn & Hn & He & Hx & Hfree & Hbefore).
  rewrite Hx.
  destruct (Set_free d1 e new_string x Hx)
    as (d2 & Hset & Hel & Hprev & Hnof2 & Hndel2 & Hcap2).
  pose proof (Invariant_bounds d1 Hinv1) as (Hn0' & Hd0' & Hn1' & Hcap').
  assert (Hm' : KeyIsMatch key' new_string = true)
    by (by rewrite (KeyIsMatch_SameContent key' key _ Hsame)).
  assert (Hslack' : number_of_elements_ d + 1 + (number_of_elements_ d + 1) / 2
                    <= capacity_ d1) by lia.
  rewrite <- Hnof1 in Hroom.
  destruct Hfree as [-> | ->]; rewrite Hset.
  - exists (ElementAdded d2), isolate2, new_string, e.
    assert (Hnn : number_of_elements_ (ElementAdded d2) = number_of_elements_ d + 1).
    { cbn. rewrite int32_t_id; lia. }
    split; [done|]. split.
    { apply (Invariant_insert d1 (ElementAdded d2) e empty_element new_string
               Hinv1 Hx Hroom); [exact Hel|exact Hcap2| |].
      - cbn. rewrite int32_t_id; lia.
      - left. split; [done|exact Hndel2]. }
    split; [cbn; lia|]. split.
    { apply (Get_insert_eq d1 _ e new_string); [exact Hel|lia]. }
    split; [done|]. split.
    { rewrite <- (FindEntry_SameContent fuel _ key' key _ Hsame), <- Hhash.
      apply (insert_then_found fuel d1 (ElementAdded d2) key' _ k1 n e
               empty_element new_string); try done; try lia. by left. }
    right. rewrite Hnn. cbn [capacity_ ElementAdded]. rewrite Hcap2. lia.
  - exists (DeletedElementOverwritten d2), isolate2, new_string, e.
    assert (Hnn : number_of_elements_ (DeletedElementOverwritten d2)
                  = number_of_elements_ d + 1).
    { cbn. rewrite int32_t_id; lia. }
    split; [done|]. split.
    { apply (Invariant_insert d1 (DeletedElementOverwritten d2) e deleted_element
               new_string Hinv1 Hx Hroom); [exact Hel|exact Hcap2| |].
      - cbn. rewrite int32_t_id; lia.
      - right. split; [done|]. cbn. rewrite int32_t_id; lia. }
    split; [cbn; lia|]. split.
    { apply (Get_insert_eq d1 _ e new_string); [exact Hel|lia]. }
    split; [done|]. split.
    { rewrite <- (FindEntry_SameContent fuel _ key' key _ Hsame), <- Hhash.
      apply (insert_then_found fuel d1 (DeletedElementOverwritten d2) key' _ k1 n e
               deleted_element new_string); try done; try lia. by right. }
    right. rewrite Hnn. cbn [capacity_ DeletedElementOverwritten]. rewrite Hcap2. lia.
Qed.

Lemma New_Invariant k : 11 <= k <= 30 → Invariant (New (2 ^ k)).
Proof.
  intros Hk. pose proof (pow2_pos k ltac:(lia)).
  split; cbn.
  - by exists k.
  - rewrite length_replicate. lia.
  - by rewrite strings_of_replicate.
  - by rewrite count_deleted_replicate.
  - lia.
Qed.

(** C2 (as the code has it): [LookupKey] returns and leaves a table that
    satisfies the invariant; whenever it inserted an element, the
    generation it leaves has [nof + nof / 2 <= capacity] for its element
    count [nof], the division rounding down as in
    [StringTableHasSufficientCapacityToAdd]; so [3 nof <= 2 capacity + 1]. *)
Theorem LookupKey_keeps_slack `{StringTableKey IsolateT K}
    (fuel : nat) (table : StringTable) (isolate : IsolateT) (key : K) :
  Invariant (data_ table) → CanGrow (data_ table) →
  2 * capacity (data_ table) <= Z.of_nat fuel →
  InsertsItself isolate key →
  ∃ table' isolate' result,
    LookupKey fuel table isolate key = Some (table', isolate', result) ∧
    Invariant (data_ table') ∧
    (number_of_elements (data_ table') ≠ number_of_elements (data_ table) →
     let nof := number_of_elements (data_ table') in
     nof = number_of_elements (data_ table) + 1 ∧
     nof + nof / 2 <= capacity (data_ table') ∧
     3 * nof <= 2 * capacity (data_ table') + 1).
Proof.
  destruct table as [d]. cbn [data_]. intros Hinv Hgrow Hfuel Hins.
  destruct (LookupKey_spec fuel d isolate key Hinv Hgrow Hfuel Hins)
    as (d' & isolate' & r & e & Hlook & Hinv' & Hfuel' & Hg & Hm & Hfind & Hcase).
  exists (mkStringTable d'), isolate', r. split; [exact Hlook|].
  split; [exact Hinv'|]. cbn [data_]. unfold number_of_elements, capacity.
  intros Hne. cbv zeta. destruct Hcase as [-> | [Hslack Hnof]]; [done|].
  split; [lia|]. split; [done|].
  pose proof (Z.div_mod (number_of_elements_ d') 2 ltac:(lia)).
  pose proof (Z.mod_pos_bound (number_of_elements_ d') 2 ltac:(lia)). lia.
Qed.

Lemma LookupKey_keeps_slack_witness :
  ∃ table' isolate' result,
    LookupKey 4096 (mkStringTable (New 2048)) isolate3 (key_of heap3 103)
    = Some (table', isolate', result) ∧
    Invariant (data_ table') ∧
    (number_of_elements (data_ table')
     ≠ number_of_elements (data_ (mkStringTable (New 2048))) →
     let nof := number_of_elements (data_ table') in
     nof = number_of_elements (data_ (mkStringTable (New 2048))) + 1 ∧
     nof + nof / 2 <= capacity (data_ table') ∧
     3 * nof <= 2 * capacity (data_ table') + 1).
Proof.
  apply (LookupKey_keeps_slack 4096 (mkStringTable (New 2048)) isolate3
           (key_of heap3 103)).
  - apply (New_Invariant 11). lia.
  - vm_compute. discriminate.
  - vm_compute. discriminate.
  - vm_compute. split; [|reflexivity]. split; [reflexivity|].
    split; [reflexivity|]. intros s. reflexivity.
Defined.

Lemma cluttered_Invariant : Invariant cluttered.
Proof. split; [by exists 12|vm_compute; reflexivity..]. Qed.

Lemma sparse_Invariant : Invariant sparse.
Proof. split; [by exists 12|vm_compute; reflexivity..]. Qed.

(** C5 (as the code has it): [EnsureCapacity] returns.  Its shrink check
    succeeds exactly when the element count plus the pending one is at most
    a quarter of the capacity and the capacity is above the minimum of
    2048, and then the table is rebuilt with the shrunken capacity, the
    capacity [ComputeStringTableCapacity] gives for that count.  When the
    check fails, the table is left as it is if it has room for one more
    element, and is rebuilt with the capacity [ComputeStringTableCapacity]
    gives otherwise.  So the capacity goes down exactly when the shrink
    check succeeds or a table without room is rebuilt into a smaller one
    (its deleted slots go away); whenever it goes down, the new capacity
    is a power of two and not below 2048. *)
Theorem EnsureCapacity_shrinks (fuel : nat) (table : StringTable) :
  Invariant (data_ table) → CanGrow (data_ table) →
  2 * capacity (data_ table) <= Z.of_nat fuel →
  ∃ table' data',
    EnsureCapacity fuel table 1 = Some (table', data') ∧ data_ table' = data' ∧
    let nof := number_of_elements (data_ table) in
    let shrunk :=
      ComputeStringTableCapacityWithShrink (capacity (data_ table)) (nof + 1) in
    let sufficient :=
      StringTableHasSufficientCapacityToAdd (capacity (data_ table)) nof
        (number_of_deleted_elements (data_ table)) 1 in
    (shrunk < capacity (data_ table) ↔
     nof + 1 <= capacity (data_ table) / kStringTableMaxEmptyFactor ∧
     kStringTableMinCapacity < capacity (data_ table)) ∧
    (shrunk < capacity (data_ table) → capacity data' = shrunk) ∧
    (capacity data' < capacity (data_ table) →
     kStringTableMinCapacity <= capacity data' ∧ ∃ j, capacity data' = 2 ^ j) ∧
    (shrunk < capacity (data_ table) →
     shrunk = ComputeStringTableCapacity (nof + 1) ∧
     PreviousData data' = Some (data_ table)) ∧
    (¬ shrunk < capacity (data_ table) → sufficient = true →
     table' = table) ∧
    (¬ shrunk < capacity (data_ table) → sufficient = false →
     capacity data' = ComputeStringTableCapacity (nof + 1) ∧
     PreviousData data' = Some (data_ table)) ∧
    (capacity data' < capacity (data_ table) ↔
     shrunk < capacity (data_ table) ∨
     sufficient = false ∧
     ComputeStringTableCapacity (nof + 1) < capacity (data_ table)) ∧
    number_of_elements data' = nof.
Proof.
  destruct table as [d]. cbn [data_]. intros Hinv Hgrow Hfuel.
  pose proof (Invariant_bounds d Hinv) as (Hn0 & Hd0 & Hn1 & Hcap).
  destruct (EnsureCapacity_spec fuel d Hinv Hgrow Hfuel)
    as (d' & Hens & Hinv' & Hnof & _ & _ & _ & _ & Hcase).
  exists (mkStringTable d'), d'. split; [exact Hens|]. split; [reflexivity|].
  cbv zeta in *. unfold capacity, number_of_elements, number_of_deleted_elements,
    PreviousData.
  pose proof Hinv as [(k & Hk & Hc) _ _ _ _].
  destruct (ComputeStringTableCapacityWithShrink_spec k (number_of_elements_ d + 1)
              Hk ltac:(lia)) as (Hiff & Hshrink & _).
  rewrite <- Hc in Hiff, Hshrink.
  unfold kStringTableMaxEmptyFactor, kStringTableMinCapacity.
  split; [|split; [|split; [|split; [|split; [|split; [|split]]]]]].
  - rewrite Hiff. pose proof (pow2_lt_mono 11 k). pose proof (pow2_lt_inv 11 k).
    change (2 ^ 11) with 2048 in *. rewrite Hc. split; intros [? ?]; split; lia.
  - intros Hlt.
    destruct Hcase as [(_ & Hc' & _) | [(Hn & _) | (Hn & _)]]; [done|lia|lia].
  - intros _. pose proof (Invariant_bounds d' Hinv') as (_ & _ & _ & Hcap').
    split; [lia|]. destruct Hinv' as [(j & _ & Hj) _ _ _ _]. by exists j.
  - intros Hlt. split; [by apply Hshrink|].
    destruct Hcase as [(_ & _ & Hp) | [(Hn & _) | (Hn & _)]]; [done|lia|lia].
  - intros Hn Hsuff.
    destruct Hcase as [(Hlt & _) | [(_ & _ & ->) | (_ & Hs & _)]];
      [lia|done|congruence].
  - intros Hn Hsuff.
    destruct Hcase as [(Hlt & _) | [(_ & Hs & _) | (_ & _ & Hc' & Hp)]];
      [lia|congruence|done].
  - destruct Hcase as [(Hlt & Hc' & _) | [(Hn & Hs & ->) | (Hn & Hs & Hc' & _)]].
    + split; [by left|]. intros _. lia.
    + split; [lia|]. intros [?|[? _]]; [lia|congruence].
    + rewrite Hc'. split; [by right|]. intros [?|[_ ?]]; [lia|done].
  - exact Hnof.
Qed.

Lemma EnsureCapacity_shrinks_witness :
  ∃ table' data',
    EnsureCapacity (2 * 4096) (mkStringTable sparse) 1
    = Some (table', data') ∧
    data_ table' = data' ∧
    number_of_elements sparse + 1
    <= capacity sparse / kStringTableMaxEmptyFactor ∧
    capacity sparse = 4096 ∧ capacity data' = 2048 ∧
    PreviousData data' = Some sparse ∧
    number_of_elements data' = 100 ∧
    kStringTableMinCapacity <= capacity data' ∧ ∃ j, capacity data' = 2 ^ j.
Proof.
  assert (Hquarter : number_of_elements sparse + 1
                     <= capacity sparse / kStringTableMaxEmptyFactor)
    by (vm_compute; discriminate).
  destruct (EnsureCapacity_shrinks (2 * 4096) (mkStringTable sparse))
    as (table' & data' & Hensure & Htable & Hiff & Hshrunk & Hpower & Hprev
        & _ & _ & _ & Hnof).
  - exact sparse_Invariant.
  - vm_compute. discriminate.
  - vm_compute. discriminate.
  - cbn [data_] in *.
    assert (Hlt : ComputeStringTableCapacityWithShrink (capacity sparse)
                    (number_of_elements sparse + 1) < capacity sparse)
      by (apply Hiff; split; [exact Hquarter|vm_compute; reflexivity]).
    assert (Hcap : capacity data' = 2048) by (by rewrite (Hshrunk Hlt)).
    exists table', data'. split; [exact Hensure|]. split; [exact Htable|].
    split; [exact Hquarter|]. split; [reflexivity|]. split; [exact Hcap|].
    split; [exact (proj2 (Hprev Hlt))|]. split; [exact Hnof|].
    apply Hpower. rewrite Hcap. reflexivity.
Defined.

(** C2 (as the specification words it) fails: interning 2731 strings one
    after the other leaves 2731 elements in a generation of capacity 4096,
    and 1.5 * 2731 = 4096.5 exceeds 4096. *)
Lemma LookupKey_slack_is_rounded_down :
  match intern_first 2731 (many_strings 2731) return Prop with
  | Some (t, _) =>
      number_of_elements (data_ t) = 2731 ∧ capacity (data_ t) = 4096 ∧
      ¬ 3 * number_of_elements (data_ t) <= 2 * capacity (data_ t)
  | None => False
  end.
Proof. vm_compute. split; [reflexivity|]. split; [reflexivity|]. auto. Qed.

(** C5 (as the specification words it) fails in both directions: a new
    table of the minimum capacity holds no element, less than a quarter of
    its capacity, and is not shrunk; a table of capacity 4096 with 1100
    elements, more than a quarter, and 2000 deleted slots is rebuilt with
    capacity 2048. *)
Lemma shrinking_is_not_exactly_a_quarter :
  (number_of_elements (New 2048) <= capacity (New 2048) / 4 ∧
   match EnsureCapacity 4096 (mkStringTable (New 2048)) 1 return Prop with
   | Some (_, d') => ¬ capacity d' < capacity (New 2048)
   | None => False
   end) ∧
  (Invariant cluttered ∧
   ¬ number_of_elements cluttered <= capacity cluttered / 4 ∧
   match EnsureCapacity 4096 (mkStringTable cluttered) 1 return Prop with
   | Some (_, d') => capacity d' = 2048 ∧ capacity d' < capacity cluttered
   | None => False
   end).
Proof.
  split; [split|split; [|split]].
  - vm_compute. discriminate.
  - vm_compute. discriminate.
  - split.
    + by exists 12.
    + vm_compute. reflexivity.
    + vm_compute. reflexivity.
    + vm_compute. reflexivity.
    + vm_compute. reflexivity.
  - vm_compute. intros Hle. apply Hle. reflexivity.
  - vm_compute. split; reflexivity.
Qed.

(** ** [LookupString] on a string that is interned already *)

(** C10 (as the code has it): when the flattened string is interned,
    [LookupString] returns it and leaves the string table alone.  The
    isolate is the one [Flatten] left when the input is that very string
    or a thin string.  Otherwise [SetInternalizedReference] runs: for an
    input that is shared (or when the forwarding table is forced), is not
    external and has no integer index in its hash field, one record is
    added to the forwarding table; in every other case the forwarding
    table stays as it was. *)
Theorem LookupString_of_internalized `{Runtime}
    (fuel : nat) (table : StringTable) (isolate : Isolate) (string : Z) :
  IsInternalizedString (Flatten (heap isolate) string).1
    (Flatten (heap isolate) string).2 = true →
  let h := (Flatten (heap isolate) string).1 in
  let result := (Flatten (heap isolate) string).2 in
  ∃ isolate',
    LookupString fuel table isolate string = Some (table, isolate', result) ∧
    (string = result ∨ IsThinString h string = true →
     isolate' = mkIsolate h (string_forwarding_table isolate)) ∧
    string_forwarding_table isolate'
    = if NeedsForwarding h string result
      then (Add (string_forwarding_table isolate) string result).1
      else string_forwarding_table isolate.
Proof.
  intros Hint. cbv zeta. unfold LookupString, NeedsForwarding.
  destruct (Flatten (heap isolate) string) as [h result] eqn:Hflat.
  cbn [fst snd] in *. rewrite Hint. cbn [negb].
  destruct (string =? result) eqn:Heq; cbn [negb andb].
  - apply Z.eqb_eq in Heq. subst result. eexists. split; [reflexivity|].
    split; [done|reflexivity].
  - apply Z.eqb_neq in Heq. cbn [heap].
    destruct (IsThinString h string) eqn:Hthin; cbn [negb andb].
    + eexists. split; [reflexivity|]. split; [done|reflexivity].
    + eexists. split; [reflexivity|]. split.
      { intros [?|?]; [done|discriminate]. }
      unfold SetInternalizedReference. cbn [heap string_forwarding_table].
      destruct ((IsShared h string || FLAG_always_use_string_forwarding_table)
                && negb (IsExternalString h string)) eqn:Hcond; cbn [andb].
      * destruct (IsIntegerIndex (raw_hash_field h string)); reflexivity.
      * reflexivity.
Qed.

Lemma LookupString_of_internalized_witness :
  let isolate := cons_isolate in
  let h := (Flatten (heap isolate) 300).1 in
  let result := (Flatten (heap isolate) 300).2 in
  ∃ isolate',
    LookupString 2048 (mkStringTable (New 2048)) isolate 300
    = Some (mkStringTable (New 2048), isolate', result) ∧
    (300 = result ∨ IsThinString h 300 = true →
     isolate' = mkIsolate h (string_forwarding_table isolate)) ∧
    string_forwarding_table isolate'
    = if NeedsForwarding h 300 result
      then (Add (string_forwarding_table isolate) 300 result).1
      else string_forwarding_table isolate.
Proof.
  apply (LookupString_of_internalized 2048 (mkStringTable (New 2048))
           cons_isolate 300).
  vm_compute. reflexivity.
Defined.

(** C10 (as stated) fails: with the forwarding table forced, the flat
    cons string at 300 flattens to the interned string at 200;
    [LookupString] returns 200, not the input, and records the pair in the
    forwarding table, whose size goes from 0 to 1. *)
Lemma LookupString_of_internalized_may_forward :
  IsInternalizedString (Flatten (Runtime := runtime true) (heap cons_isolate) 300).1
    (Flatten (Runtime := runtime true) (heap cons_isolate) 300).2 = true ∧
  Size (string_forwarding_table cons_isolate) = 0 ∧
  match LookupString (H := runtime true) 2048 (mkStringTable (New 2048))
          cons_isolate 300 return Prop with
  | Some (_, isolate', result) =>
      result = 200 ∧ Size (string_forwarding_table isolate') = 1 ∧
      GetForwardString (string_forwarding_table isolate') 0 = Some 200
  | None => False
  end.
Proof. vm_compute. repeat split; reflexivity. Qed.

End StringTableProofs.

(** * Properties of the register allocator *)

Module MaglevProofs.
Import Maglev.

Section WithArchitecture.
Context `{Architecture}.

(** ** The binary search *)

Lemma upper_bound_loop_spec {A} (comp : A → bool) (l : list A) fuel first len :
  (len ≤ fuel)%nat → (first + len ≤ length l)%nat →
  ((first + len)%nat = length l ∨
   ∃ x, l !! (first + len)%nat = Some x ∧ comp x = true) →
  let r := upper_bound_loop comp l fuel first len in
  (first ≤ r ≤ first + len)%nat ∧
  (r = length l ∨ ∃ x, l !! r = Some x ∧ comp x = true).
Proof.
  revert first len. induction fuel as [|fuel IH]; intros first len Hfuel Hrange Hend.
  - assert (len = O) by lia. subst len. cbn. rewrite Nat.add_0_r in Hend.
    split; [lia|exact Hend].
  - cbn [upper_bound_loop]. destruct (len =? 0)%nat eqn:Hlen.
    + apply Nat.eqb_eq in Hlen. subst len. rewrite Nat.add_0_r in Hend.
      cbv zeta. split; [lia|exact Hend].
    + apply Nat.eqb_neq in Hlen. cbv zeta.
      assert (Hhalf : (len / 2 < len)%nat) by (apply Nat.div_lt; lia).
      destruct (l !! (first + len / 2)%nat) as [x|] eqn:Hx.
      2:{ apply lookup_ge_None in Hx. lia. }
      destruct (comp x) eqn:Hc.
      * destruct (IH first (len / 2)%nat) as [Hr Hm]; [lia|lia|eauto|].
        split; [lia|exact Hm].
      * destruct (IH (first + len / 2 + 1)%nat (len - len / 2 - 1)%nat)
          as [Hr Hm]; [lia|lia| |].
        { replace (first + len / 2 + 1 + (len - len / 2 - 1))%nat
            with (first + len)%nat by lia. exact Hend. }
        split; [lia|exact Hm].
Qed.

(** A slot the search returns satisfies the predicate. *)
Lemma upper_bound_found {A} (comp : A → bool) (l : list A) x :
  l !! upper_bound comp l = Some x → comp x = true.
Proof.
  intros Hx. unfold upper_bound in Hx.
  destruct (upper_bound_loop_spec comp l (length l) 0 (length l)) as [_ Hm];
    [lia|lia|by left|].
  destruct Hm as [Hend | (y & Hy & Hc)].
  - rewrite Hend in Hx. apply lookup_lt_Some in Hx. lia.
  - congruence.
Qed.

Lemma upper_bound_loop_all_false {A} (comp : A → bool) (l : list A) fuel first len :
  (len ≤ fuel)%nat → (first + len ≤ length l)%nat →
  (∀ j x, (first ≤ j < first + len)%nat → l !! j = Some x → comp x = false) →
  upper_bound_loop comp l fuel first len = (first + len)%nat.
Proof.
  revert first len. induction fuel as [|fuel IH]; intros first len Hfuel Hrange Hall.
  - cbn. lia.
  - cbn [upper_bound_loop]. destruct (len =? 0)%nat eqn:Hlen.
    + apply Nat.eqb_eq in Hlen. lia.
    + apply Nat.eqb_neq in Hlen.
      assert (Hhalf : (len / 2 < len)%nat) by (apply Nat.div_lt; lia).
      destruct (l !! (first + len / 2)%nat) as [x|] eqn:Hx.
      2:{ apply lookup_ge_None in Hx. lia. }
      rewrite (Hall (first + len / 2)%nat x ltac:(lia) Hx).
      rewrite IH.
      * lia.
      * lia.
      * lia.
      * intros j y Hj. apply Hall. lia.
Qed.

Lemma upper_bound_loop_all_true {A} (comp : A → bool) (l : list A) fuel first len :
  (first + len ≤ length l)%nat →
  (∀ j x, (first ≤ j < first + len)%nat → l !! j = Some x → comp x = true) →
  upper_bound_loop comp l fuel first len = first.
Proof.
  revert len. induction fuel as [|fuel IH]; intros len Hrange Hall; [done|].
  cbn [upper_bound_loop]. destruct (len =? 0)%nat eqn:Hlen; [done|].
  apply Nat.eqb_neq in Hlen.
  assert (Hhalf : (len / 2 < len)%nat) by (apply Nat.div_lt; lia).
  destruct (l !! (first + len / 2)%nat) as [x|] eqn:Hx; [|done].
  rewrite (Hall (first + len / 2)%nat x ltac:(lia) Hx). apply IH; [lia|].
  intros j y Hj. apply Hall. lia.
Qed.

(** No entry satisfies the predicate: the search returns the end. *)
Lemma upper_bound_none {A} (comp : A → bool) (l : list A) :
  (∀ x, x ∈ l → comp x = false) → upper_bound comp l = length l.
Proof.
  intros Hall. unfold upper_bound.
  rewrite upper_bound_loop_all_false; [lia|lia|lia|].
  intros j x _ Hx. apply Hall. by eapply list_elem_of_lookup_2.
Qed.

(** On a list where the predicate holds on a prefix only, as on the free
    list in the order the slots were freed, the search returns the first
    entry or the end. *)
Lemma upper_bound_prefix {A} (comp : A → bool) (l : list A) :
  (∀ i j x y, (i ≤ j)%nat → l !! i = Some x → l !! j = Some y →
              comp y = true → comp x = true) →
  upper_bound comp l = O ∨ upper_bound comp l = length l.
Proof.
  intros Hdown. unfold upper_bound.
  destruct (length l) as [|fuel] eqn:Hlen; [by left|].
  cbn [upper_bound_loop]. rewrite <- Hlen. set (len := length l).
  destruct (len =? 0)%nat eqn:H0; [by left|].
  apply Nat.eqb_neq in H0.
  assert (Hhalf : (len / 2 < len)%nat) by (apply Nat.div_lt; lia).
  rewrite Nat.add_0_l.
  destruct (l !! (len / 2)%nat) as [x|] eqn:Hx; [|by left].
  destruct (comp x) eqn:Hc.
  - left. apply upper_bound_loop_all_true; [lia|].
    intros j y Hj Hy. apply (Hdown j (len / 2)%nat y x); [lia|done|done|done].
  - right. rewrite upper_bound_loop_all_false.
    + lia.
    + lia.
    + lia.
    + intros j y Hj Hy. destruct (comp y) eqn:Hcy; [|done].
      rewrite (Hdown (len / 2)%nat j x y) in Hc; [done|lia|done|done|done].
Qed.

(** ** Reading a state that was written *)

Lemma slots_of_with_slots_eq s t x : slots_of (with_slots s t x) t = x.
Proof. by destruct t. Qed.

Lemma slots_of_with_slots_ne s t t' x :
  t ≠ t' → slots_of (with_slots s t x) t' = slots_of s t'.
Proof. by destruct t, t'. Qed.

Lemma slots_of_with_slots s t t' x :
  slots_of (with_slots s t x) t' = if bool_decide (t = t') then x else slots_of s t'.
Proof. by destruct t, t'. Qed.

Lemma nodes_with_slots s t x : nodes (with_slots s t x) = nodes s.
Proof. by destruct t. Qed.

Lemma slots_of_with_node s node n t :
  slots_of (with_node s node n) t = slots_of s t.
Proof. by destruct t. Qed.

Lemma nodes_with_node s node n :
  nodes (with_node s node n) = <[node := n]> (nodes s).
Proof. done. Qed.

Lemma slots_of_with_registers s c r t :
  slots_of (with_registers s c r) t = slots_of s t.
Proof. by destruct c, t. Qed.

Lemma nodes_with_registers s c r : nodes (with_registers s c r) = nodes s.
Proof. by destruct c. Qed.

Lemma tagged_iff (n : ValueNode) :
  bool_decide (GetMachineRepresentation n = kTagged)
  = bool_decide (value_representation n = ValueRepresentation_kTagged).
Proof. unfold GetMachineRepresentation. by destruct (value_representation n). Qed.

(** ** [AllocateSpillSlot] *)

Lemma AllocateSpillSlot_eq s node n :
  nodes s !! node = Some n →
  let is_tagged :=
    bool_decide (value_representation n = ValueRepresentation_kTagged) in
  let slots := slots_of s is_tagged in
  let it :=
    upper_bound (λ slot_info,
        freed_at_position slot_info <? start (live_range n))
      (free_slots slots) in
  AllocateSpillSlot s node =
    Some (with_node
            (with_slots s is_tagged
               (match free_slots slots !! it with
                | Some _ =>
                    mkSpillSlots (top slots) (delete it (free_slots slots))
                | None =>
                    mkSpillSlots (int32_t (top slots + 1)) (free_slots slots)
                end))
            node
            (set_spill_or_hint n
               (AllocatedOperand STACK_SLOT (GetMachineRepresentation n)
                  (match free_slots slots !! it with
                   | Some slot_info => slot_index slot_info
                   | None => uint32_t (top slots)
                   end)))).
Proof.
  intros Hn is_tagged slots it. unfold AllocateSpillSlot. rewrite Hn. cbn.
  fold is_tagged. fold slots.
  subst it. destruct (free_slots slots) as [|a l]; [done|].
  by destruct ((a :: l) !! _).
Qed.

(** ** The invariant of the spill slots *)

Lemma local_slot_not_loadable n : is_loadable n = false → local_slot n = None.
Proof.
  unfold is_loadable, local_slot. intros Hl.
  apply orb_false_iff in Hl as [_ Hl].
  by destruct (spill_or_hint_ n) as [| | |[] ? ?].
Qed.

Lemma local_slot_set_spill n rep index :
  0 <= index →
  local_slot (set_spill_or_hint n (AllocatedOperand STACK_SLOT rep index))
  = Some (bool_decide (rep = kTagged), index).
Proof.
  intros Hi. unfold local_slot. cbn.
  by destruct (0 <=? index) eqn:H0; [|apply Z.leb_gt in H0; lia].
Qed.

Lemma SlotsInv_ext s s' :
  nodes s' = nodes s → (∀ t, slots_of s' t = slots_of s t) →
  SlotsInv s → SlotsInv s'.
Proof.
  intros Hn Hs [H1 H2 H3 H4 H5 H7 H6]. split.
  - intros t. rewrite Hs. apply H1.
  - intros t info. rewrite Hs. apply H2.
  - intros t. rewrite Hs. apply H3.
  - intros v n t i. rewrite Hn, Hs. apply H4.
  - intros t info v n. rewrite Hn, Hs. apply H5.
  - intros t info. rewrite Hn, Hs. apply H7.
  - intros v w n m slot. rewrite Hn. apply H6.
Qed.

Lemma SlotsInv_start s : NoLocalSlots s → SlotsInv s.
Proof.
  intros (Ht & Hu & Hnone).
  assert (Hslots : ∀ t, slots_of s t = mkSpillSlots 0 []).
  { intros []; cbn; done. }
  split.
  - intros t. rewrite Hslots. cbn. lia.
  - intros t info. rewrite Hslots. cbn. by intros ?%elem_of_nil.
  - intros t. rewrite Hslots. cbn. constructor.
  - intros v n t i Hv Hl. rewrite (Hnone v n Hv) in Hl. done.
  - intros t info v n _ Hv Hl. rewrite (Hnone v n Hv) in Hl. done.
  - intros t info. rewrite Hslots. cbn. by intros ?%elem_of_nil.
  - intros v w n m slot _ Hv _ Hl. rewrite (Hnone v n Hv) in Hl. done.
Qed.

(** A live value without a slot takes a slot that no live value and no
    free entry names. *)
Lemma SlotsInv_assign s node n t slot slots' :
  SlotsInv s →
  nodes s !! node = Some n →
  is_dead n = false →
  local_slot n = None →
  bool_decide (GetMachineRepresentation n = kTagged) = t →
  0 <= slot < top slots' →
  top (slots_of s t) <= top slots' < 2 ^ 31 →
  (∀ info, info ∈ free_slots slots' → info ∈ free_slots (slots_of s t)) →
  NoDup (slot_index <$> free_slots slots') →
  (∀ info, info ∈ free_slots slots' → slot_index info ≠ slot) →
  (∀ w m, w ≠ node → nodes s !! w = Some m → local_slot m = Some (t, slot) →
     is_dead m = true ∧ end_ (live_range m) < start (live_range n)) →
  SlotsInv
    (with_node (with_slots s t slots') node
       (set_spill_or_hint n
          (AllocatedOperand STACK_SLOT (GetMachineRepresentation n) slot))).
Proof.
  intros [H1 H2 H3 H4 H5 H7 H6] Hn Hlive Hnone Ht Hslot Htop Hsub Hnodup Hfresh Hown.
  pose proof (H1 t) as Ht0.
  set (n' := set_spill_or_hint n _).
  assert (Hl' : local_slot n' = Some (t, slot)).
  { unfold n'. rewrite local_slot_set_spill by lia. by rewrite Ht. }
  clear Ht.
  assert (Hslots : ∀ t',
    slots_of (with_node (with_slots s t slots') node n') t'
    = if bool_decide (t = t') then slots' else slots_of s t').
  { intros t'. by rewrite slots_of_with_node, slots_of_with_slots. }
  assert (Hnodes : nodes (with_node (with_slots s t slots') node n')
                   = <[node := n']> (nodes s)).
  { by rewrite nodes_with_node, nodes_with_slots. }
  split.
  - intros t'. rewrite Hslots. case_bool_decide; [lia|apply H1].
  - intros t' info. rewrite Hslots. case_bool_decide as Htt.
    + subst t'. intros Hin. specialize (H2 t info (Hsub _ Hin)). lia.
    + apply H2.
  - intros t'. rewrite Hslots. case_bool_decide; [done|apply H3].
  - intros v m t' i. rewrite Hnodes, Hslots.
    destruct (decide (v = node)) as [->|Hv].
    + rewrite lookup_insert_eq. intros [= <-]. rewrite Hl'. intros [= <- <-].
      rewrite bool_decide_eq_true_2 by done. lia.
    + rewrite lookup_insert_ne by done. intros Hm Hl.
      specialize (H4 v m t' i Hm Hl). case_bool_decide; [subst; lia|done].
  - intros t' info v m. rewrite Hnodes, Hslots.
    destruct (decide (v = node)) as [->|Hv].
    + rewrite lookup_insert_eq. intros Hin [= <-]. rewrite Hl'. intros [= <- Hs].
      rewrite bool_decide_eq_true_2 in Hin by done.
      by destruct (Hfresh info Hin).
    + rewrite lookup_insert_ne by done. intros Hin Hm Hl.
      apply (H5 t' info v m); [|done|done].
      case_bool_decide; [subst; by apply Hsub|done].
  - intros t' info. rewrite Hnodes, Hslots. intros Hin.
    assert (Hin' : info ∈ free_slots (slots_of s t')).
    { case_bool_decide; [subst; by apply Hsub|done]. }
    destruct (H7 t' info Hin') as (v & m & Hm & Hl & He).
    destruct (H5 t' info v m Hin' Hm Hl) as [Hd _].
    exists v, m. rewrite lookup_insert_ne by congruence. done.
  - intros v w m1 m2 sl Hvw. rewrite Hnodes.
    destruct (decide (v = node)) as [->|Hv];
      [|destruct (decide (w = node)) as [->|Hw]].
    + rewrite lookup_insert_eq, lookup_insert_ne by done.
      intros [= <-] Hm2. rewrite Hl'. intros [= <-] Hl2. right.
      apply (Hown w m2); done.
    + rewrite lookup_insert_eq, lookup_insert_ne by done.
      intros Hm1 [= <-] Hl1. rewrite Hl'. intros [= <-]. left.
      apply (Hown v m1); done.
    + rewrite !lookup_insert_ne by done. by apply H6.
Qed.

(** A live value changes in what the slots do not depend on. *)
Lemma SlotsInv_update s node n n' :
  SlotsInv s →
  nodes s !! node = Some n →
  is_dead n = false →
  live_range n' = live_range n →
  spill_or_hint_ n' = spill_or_hint_ n →
  SlotsInv (with_node s node n').
Proof.
  intros [H1 H2 H3 H4 H5 H7 H6] Hn Hlive Hrange Hspill.
  assert (Hl : local_slot n' = local_slot n).
  { unfold local_slot. by rewrite Hspill. }
  split.
  - intros t. rewrite slots_of_with_node. apply H1.
  - intros t info. rewrite slots_of_with_node. apply H2.
  - intros t. rewrite slots_of_with_node. apply H3.
  - intros v m t i. rewrite nodes_with_node, slots_of_with_node.
    destruct (decide (v = node)) as [->|Hv].
    + rewrite lookup_insert_eq. intros [= <-]. rewrite Hl. by apply (H4 node).
    + rewrite lookup_insert_ne by done. apply H4.
  - intros t info v m. rewrite nodes_with_node, slots_of_with_node.
    destruct (decide (v = node)) as [->|Hv].
    + rewrite lookup_insert_eq. intros Hin [= <-]. rewrite Hl. intros Hs.
      destruct (H5 t info node n Hin Hn Hs) as [Hd _]. congruence.
    + rewrite lookup_insert_ne by done. apply H5.
  - intros t info. rewrite nodes_with_node, slots_of_with_node. intros Hin.
    destruct (H7 t info Hin) as (v & m & Hm & Hlm & He).
    destruct (H5 t info v m Hin Hm Hlm) as [Hd _].
    exists v, m. rewrite lookup_insert_ne by congruence. done.
  - intros v w m1 m2 sl Hvw. rewrite nodes_with_node.
    destruct (decide (v = node)) as [->|Hv];
      [|destruct (decide (w = node)) as [->|Hw]].
    + rewrite lookup_insert_eq, lookup_insert_ne by done.
      intros [= <-] Hm2. rewrite Hl. intros Hl1 Hl2.
      destruct (H6 node w n m2 sl Hvw Hn Hm2 Hl1 Hl2) as [[Hd _]|Hr];
        [congruence|]. right. by rewrite Hrange.
    + rewrite lookup_insert_eq, lookup_insert_ne by done.
      intros Hm1 [= <-]. rewrite Hl. intros Hl1 Hl2.
      destruct (H6 v node m1 n sl Hvw Hm1 Hn Hl1 Hl2) as [Hr|[Hd _]];
        [|congruence]. left. by rewrite Hrange.
    + rewrite !lookup_insert_ne by done. by apply H6.
Qed.

(** The slot of a value that died is entered in the free list. *)
Lemma SlotsInv_free s node n t index :
  SlotsInv s →
  nodes s !! node = Some n →
  is_dead n = true →
  local_slot n = Some (t, index) →
  0 < index →
  start (live_range n) <= end_ (live_range n) →
  (∀ w m, w ≠ node → nodes s !! w = Some m → local_slot m = Some (t, index) →
     is_dead m = true ∧ end_ (live_range m) < start (live_range n)) →
  (∀ info, info ∈ free_slots (slots_of s t) → slot_index info ≠ index) →
  SlotsInv
    (with_slots s t
       (mkSpillSlots (top (slots_of s t))
          (free_slots (slots_of s t)
           ++ [mkSpillSlotInfo (uint32_t index) (end_ (live_range n))]))).
Proof.
  intros [H1 H2 H3 H4 H5 H7 H6] Hn Hdead Hl Hpos Hrange Hown Hfresh.
  pose proof (H4 node n t index Hn Hl) as Hlt.
  pose proof (H1 t) as Htop.
  assert (Hu : uint32_t index = index).
  { unfold uint32_t. apply Z.mod_small. lia. }
  rewrite Hu.
  set (slots' := mkSpillSlots _ _).
  assert (Hslots : ∀ t',
    slots_of (with_slots s t slots') t'
    = if bool_decide (t = t') then slots' else slots_of s t').
  { intros t'. by rewrite slots_of_with_slots. }
  split.
  - intros t'. rewrite Hslots. case_bool_decide; [subst; apply H1|apply H1].
  - intros t' info. rewrite Hslots. case_bool_decide as Htt; [|apply H2].
    subst t'. cbn. rewrite elem_of_app. intros [Hin|Hin%list_elem_of_singleton].
    + by apply H2.
    + subst info. cbn. lia.
  - intros t'. rewrite Hslots. case_bool_decide; [|apply H3]. cbn.
    rewrite fmap_app. apply NoDup_app. split; [apply H3|]. split.
    + intros x Hx ->%list_elem_of_singleton.
      apply list_elem_of_fmap in Hx as (info & Hi & Hin).
      by apply (Hfresh info Hin).
    + cbn. apply NoDup_singleton.
  - intros v m t' i. rewrite nodes_with_slots, Hslots.
    intros Hm Hlm. specialize (H4 v m t' i Hm Hlm).
    by case_bool_decide; [subst|].
  - intros t' info v m. rewrite nodes_with_slots, Hslots.
    case_bool_decide as Htt; [|apply H5]. subst t'. cbn.
    rewrite elem_of_app. intros [Hin|Hin%list_elem_of_singleton] Hm Hlm.
    + by apply (H5 t info v m).
    + subst info. cbn in *. destruct (decide (v = node)) as [->|Hv].
      * assert (m = n) by congruence. subst m. split; [done|lia].
      * destruct (Hown v m Hv Hm Hlm). split; [done|lia].
  - intros t' info. rewrite nodes_with_slots, Hslots.
    case_bool_decide as Htt; [|apply H7]. subst t'. cbn.
    rewrite elem_of_app. intros [Hin|Hin%list_elem_of_singleton].
    + by apply H7.
    + subst info. cbn. by exists node, n.
  - intros v w m1 m2 sl Hvw. rewrite nodes_with_slots. by apply H6.
Qed.

Lemma FreeRegistersUsedBy_in_nodes s c node n s' :
  nodes s !! node = Some n →
  FreeRegistersUsedBy_in s c node = Some s' →
  nodes s' = <[node := set_registers n kEmptyRegList]> (nodes s) ∧
  ∀ t, slots_of s' t = slots_of s t.
Proof.
  unfold FreeRegistersUsedBy_in. intros -> [= <-]. cbn.
  unfold AddToFree_list, with_free. split.
  - by rewrite nodes_with_registers.
  - intros t. by rewrite slots_of_with_registers, slots_of_with_node.
Qed.

Lemma FreeRegistersUsedBy_nodes s node n s' :
  nodes s !! node = Some n →
  FreeRegistersUsedBy s node = Some s' →
  nodes s' = <[node := set_registers n kEmptyRegList]> (nodes s) ∧
  ∀ t, slots_of s' t = slots_of s t.
Proof.
  unfold FreeRegistersUsedBy. intros Hn. rewrite Hn. cbn.
  destruct (use_double_register n); by apply FreeRegistersUsedBy_in_nodes.
Qed.

Lemma NoDup_fmap_delete_ne {A B} (f : A → B) (l : list A) i x y :
  NoDup (f <$> l) → l !! i = Some x → y ∈ delete i l → f y ≠ f x.
Proof.
  revert i. induction l as [|a l IH]; intros i Hnd Hx Hy; [done|].
  cbn in Hnd. apply NoDup_cons in Hnd as [Ha Hnd].
  destruct i as [|i]; cbn in *.
  - injection Hx as ->. intros Heq. apply Ha. rewrite <- Heq.
    by apply list_elem_of_fmap_2.
  - apply elem_of_cons in Hy as [->|Hy].
    + intros Heq. apply Ha. rewrite Heq. apply list_elem_of_fmap_2.
      by eapply list_elem_of_lookup_2.
    + by eapply IH.
Qed.

Lemma elem_of_delete {A} (l : list A) i y : y ∈ delete i l → y ∈ l.
Proof.
  revert i. induction l as [|a l IH]; intros i Hy; [done|].
  destruct i as [|i]; cbn in *.
  - by apply elem_of_cons; right.
  - apply elem_of_cons in Hy as [->|Hy]; [by left|]. right. by eapply IH.
Qed.

Lemma NoDup_fmap_delete {A B} (f : A → B) (l : list A) i :
  NoDup (f <$> l) → NoDup (f <$> delete i l).
Proof.
  revert i. induction l as [|a l IH]; intros i Hnd; [done|].
  cbn in Hnd. apply NoDup_cons in Hnd as [Ha Hnd].
  destruct i as [|i]; cbn; [done|]. apply NoDup_cons. split; [|by apply IH].
  intros Hin. apply Ha. apply list_elem_of_fmap in Hin as (y & -> & Hy).
  apply list_elem_of_fmap_2. by eapply elem_of_delete.
Qed.

Lemma SlotsInv_spill s s' node n :
  SlotsInv s →
  nodes s !! node = Some n →
  is_dead n = false →
  is_loadable n = false →
  top (slots_of s
         (bool_decide (value_representation n = ValueRepresentation_kTagged)))
    < 2 ^ 31 - 1 →
  AllocateSpillSlot s node = Some s' →
  SlotsInv s'.
Proof.
  intros Hinv Hn Hlive Hload Htop. rewrite (AllocateSpillSlot_eq s node n Hn).
  cbv zeta. intros [= <-].
  set (t := bool_decide (value_representation n = ValueRepresentation_kTagged)) in *.
  set (slots := slots_of s t) in *.
  set (it := upper_bound _ _).
  pose proof (inv_top s Hinv t) as Ht. fold slots in Ht.
  destruct (free_slots slots !! it) as [info|] eqn:Hit.
  - pose proof (upper_bound_found _ _ _ Hit) as Hc. apply Z.ltb_lt in Hc.
    assert (Hin : info ∈ free_slots slots) by (by eapply list_elem_of_lookup_2).
    pose proof (inv_free_range s Hinv t info Hin) as Hr. fold slots in Hr.
    apply SlotsInv_assign; try done.
    + by apply local_slot_not_loadable.
    + apply tagged_iff.
    + cbn. lia.
    + cbn. fold slots. lia.
    + cbn. intros info' Hin'. by eapply elem_of_delete.
    + cbn. apply NoDup_fmap_delete. apply (inv_free_nodup s Hinv t).
    + cbn. intros info' Hin'.
      eapply NoDup_fmap_delete_ne; [apply (inv_free_nodup s Hinv t)|done|done].
    + intros w m Hw Hm Hl.
      destruct (inv_free_owner s Hinv t info w m Hin Hm Hl). split; [done|lia].
  - assert (Hu : uint32_t (top slots) = top slots).
    { unfold uint32_t. apply Z.mod_small. lia. }
    assert (Hi : int32_t (top slots + 1) = top slots + 1).
    { apply StringTableProofs.int32_t_id. lia. }
    rewrite Hu, Hi.
    apply SlotsInv_assign; try done.
    + by apply local_slot_not_loadable.
    + apply tagged_iff.
    + cbn. lia.
    + cbn. fold slots. lia.
    + cbn. apply (inv_free_nodup s Hinv t).
    + cbn. intros info' Hin'.
      pose proof (inv_free_range s Hinv t info' Hin') as Hr. fold slots in Hr.
      lia.
    + intros w m Hw Hm Hl.
      pose proof (inv_owner_range s Hinv w m t _ Hm Hl) as Hr.
      fold slots in Hr. lia.
Qed.

Lemma SlotsInv_use s s' node n next_use_id :
  SlotsInv s →
  nodes s !! node = Some n →
  is_dead n = false →
  start (live_range n) <= end_ (live_range n) →
  UpdateUse s node next_use_id = Some s' →
  SlotsInv s'.
Proof.
  intros Hinv Hn Hlive Hrange. unfold UpdateUse. rewrite Hn. cbn.
  set (n1 := set_next_use n next_use_id).
  destruct (is_dead n1) eqn:Hdead; cbn.
  2:{ intros [= <-]. by apply (SlotsInv_update s node n n1). }
  destruct (FreeRegistersUsedBy (with_node s node n1) node) as [s2|] eqn:Hfree;
    [|done]. cbn.
  apply FreeRegistersUsedBy_nodes with (n := n1) in Hfree as [Hnodes Hslots];
    [|by rewrite nodes_with_node, lookup_insert_eq].
  set (n2 := set_registers n1 kEmptyRegList) in *.
  rewrite nodes_with_node, insert_insert_eq in Hnodes.
  assert (Hinv2 : SlotsInv s2).
  { apply (SlotsInv_ext (with_node s node n2)); [done| |].
    - intros t. by rewrite Hslots, !slots_of_with_node.
    - by apply (SlotsInv_update s node n n2). }
  assert (Hn2 : nodes s2 !! node = Some n2).
  { by rewrite Hnodes, lookup_insert_eq. }
  rewrite Hn2. cbn. unfold is_spilled. change (spill_or_hint_ n2) with (spill_or_hint_ n).
  destruct (spill_or_hint_ n) as [| | |kind rep index] eqn:Hop;
    try (by intros [= <-]).
  destruct kind; [by intros [= <-]|]. cbn.
  destruct (0 <? index) eqn:Hpos; [|by intros [= <-]].
  apply Z.ltb_lt in Hpos. intros [= <-].
  set (t := bool_decide (rep = kTagged)).
  assert (Hl : local_slot n = Some (t, index)).
  { unfold local_slot. rewrite Hop.
    by destruct (0 <=? index) eqn:H0; [|apply Z.leb_gt in H0; lia]. }
  assert (Hl2 : local_slot n2 = Some (t, index)) by done.
  apply (SlotsInv_free s2 node n2 t index); try done.
  - intros w m Hw. rewrite Hnodes, lookup_insert_ne by done. intros Hm Hlm.
    destruct (inv_one_owner s Hinv node w n m _ (not_eq_sym Hw) Hn Hm Hl Hlm)
      as [[Hd _]|Hr]; [congruence|done].
  - intros info. rewrite Hslots, slots_of_with_node. intros Hin Hi.
    subst index.
    destruct (inv_free_owner s Hinv t info node n Hin Hn Hl) as [Hd _].
    congruence.
Qed.

Lemma SpillRun_inv s : SpillRun s → SlotsInv s.
Proof.
  induction 1 as [s Hs|s s' _ IH Hstep]; [by apply SlotsInv_start|].
  destruct Hstep as [node n Hn Hlive Hload Htop Halloc
                    |node n next_use_id Hn Hlive Hrange Huse].
  - by eapply SlotsInv_spill.
  - by eapply SlotsInv_use.
Qed.

(** ** The slot [AllocateSpillSlot] hands out *)

(** C6, as the code has it.  [AllocateSpillSlot] returns.  It searches the
    free list with [std::upper_bound] under the comparison
    [freed_at_position < start], with [start] the start of the live range of
    the value.  When the search returns an entry, that entry was freed
    strictly before [start], the value gets its slot index, the entry is
    erased and the top counter stays; on a free list in the order the
    slots were freed the entry is the first of the list.  When the search
    returns none, the value gets the slot index [top] and the counter is
    incremented; this is the case whenever no entry was freed strictly
    before [start].  The other family of slots is not touched. *)
Theorem AllocateSpillSlot_reuses_or_bumps s node n :
  nodes s !! node = Some n →
  let is_tagged :=
    bool_decide (value_representation n = ValueRepresentation_kTagged) in
  let slots := slots_of s is_tagged in
  let it :=
    upper_bound (λ slot_info,
        freed_at_position slot_info <? start (live_range n))
      (free_slots slots) in
  ∃ s' n',
    AllocateSpillSlot s node = Some s' ∧
    nodes s' !! node = Some n' ∧
    slots_of s' (negb is_tagged) = slots_of s (negb is_tagged) ∧
    match free_slots slots !! it return Prop with
    | Some slot_info =>
        freed_at_position slot_info < start (live_range n) ∧
        spill_or_hint_ n'
        = AllocatedOperand STACK_SLOT (GetMachineRepresentation n)
            (slot_index slot_info) ∧
        slots_of s' is_tagged
        = mkSpillSlots (top slots) (delete it (free_slots slots)) ∧
        (FreedInOrder (free_slots slots) → it = O)
    | None =>
        spill_or_hint_ n'
        = AllocatedOperand STACK_SLOT (GetMachineRepresentation n)
            (uint32_t (top slots)) ∧
        slots_of s' is_tagged
        = mkSpillSlots (int32_t (top slots + 1)) (free_slots slots)
    end ∧
    ((∀ slot_info, slot_info ∈ free_slots slots →
        start (live_range n) <= freed_at_position slot_info) →
     free_slots slots !! it = None).
Proof.
  intros Hn is_tagged slots it.
  rewrite (AllocateSpillSlot_eq s node n Hn). cbv zeta.
  fold is_tagged. fold slots. fold it.
  eexists _, _. split; [done|].
  rewrite nodes_with_node, nodes_with_slots, lookup_insert_eq.
  split; [done|].
  rewrite !slots_of_with_node, slots_of_with_slots_eq.
  rewrite slots_of_with_slots_ne by (by destruct is_tagged).
  split; [done|]. split.
  - destruct (free_slots slots !! it) as [info|] eqn:Hit; [|done].
    pose proof (upper_bound_found _ _ _ Hit) as Hc. apply Z.ltb_lt in Hc.
    split; [done|]. split; [done|]. split; [done|].
    intros Hord. subst it.
    destruct (upper_bound_prefix
                (λ slot_info,
                   freed_at_position slot_info <? start (live_range n))
                (free_slots slots)) as [H0|Hend]; [|done|].
    + intros i j x y Hij Hx Hy Hcy. apply Z.ltb_lt in Hcy. apply Z.ltb_lt.
      pose proof (Hord i j x y Hij Hx Hy). lia.
    + rewrite Hend in Hit. apply lookup_lt_Some in Hit. lia.
  - intros Hall. subst it. rewrite upper_bound_none.
    + by apply lookup_ge_None.
    + intros x Hx. apply Z.ltb_ge. by apply Hall.
Qed.

(** C7.  A value that [AllocateSpillSlot] gives the slot of a free-list
    entry starts after the position the slot was freed at.  Along every
    run of the bookkeeping each free entry stems from a value spilled to
    that slot whose live range ends at the entry's [freed_at_position],
    and two values that were given the same slot have disjoint live
    ranges. *)
Theorem reused_slot_owners_do_not_overlap s :
  SpillRun s →
  (∀ node n slot_info,
     nodes s !! node = Some n →
     free_slots
       (slots_of s
          (bool_decide
             (value_representation n = ValueRepresentation_kTagged)))
     !! upper_bound (λ slot_info,
          freed_at_position slot_info <? start (live_range n))
          (free_slots
             (slots_of s
                (bool_decide
                   (value_representation n = ValueRepresentation_kTagged))))
     = Some slot_info →
     freed_at_position slot_info <= start (live_range n) ∧
     ∃ s' n',
       AllocateSpillSlot s node = Some s' ∧ nodes s' !! node = Some n' ∧
       spill_or_hint_ n'
       = AllocatedOperand STACK_SLOT (GetMachineRepresentation n)
           (slot_index slot_info)) ∧
  (∀ t slot_info,
     slot_info ∈ free_slots (slots_of s t) →
     ∃ v n, nodes s !! v = Some n ∧
            local_slot n = Some (t, slot_index slot_info) ∧
            is_dead n = true ∧
            end_ (live_range n) = freed_at_position slot_info) ∧
  (∀ v w n m slot,
     v ≠ w → nodes s !! v = Some n → nodes s !! w = Some m →
     local_slot n = Some slot → local_slot m = Some slot →
     end_ (live_range n) < start (live_range m) ∨
     end_ (live_range m) < start (live_range n)).
Proof.
  intros Hrun. pose proof (SpillRun_inv s Hrun) as Hinv. split; [|split].
  - intros node n info Hn Hit.
    pose proof (upper_bound_found _ _ _ Hit) as Hc. apply Z.ltb_lt in Hc.
    split; [lia|].
    rewrite (AllocateSpillSlot_eq s node n Hn). cbv zeta. rewrite Hit.
    eexists _, _. split; [done|].
    by rewrite nodes_with_node, nodes_with_slots, lookup_insert_eq.
  - intros t info Hin.
    destruct (inv_free_from s Hinv t info Hin) as (v & n & Hn & Hl & He).
    destruct (inv_free_owner s Hinv t info v n Hin Hn Hl) as [Hd _].
    by exists v, n.
  - intros v w n m slot Hvw Hn Hm Hln Hlm.
    destruct (inv_one_owner s Hinv v w n m slot Hvw Hn Hm Hln Hlm)
      as [[_ Hlt]|[_ Hlt]]; [by left|by right].
Qed.

(** ** The register [FreeSomeRegister] gives up *)

Lemma FreeSomeRegister_loop_spec s c stage regs furthest_use best0 :
  let cands :=
    List.filter (λ reg, negb (GetValue s c reg =? kBlockedRegisterSentinel))
      regs in
  Forall (λ reg, is_Some (nodes s !! GetValue s c reg)) cands →
  ∃ best,
    FreeSomeRegister_loop s c stage regs furthest_use best0 = Some best ∧
    match List.find (λ reg, dies_here s c stage reg || has_copy s c reg) cands
          return Prop with
    | Some reg => best = reg
    | None =>
        (best = best0 ∧
         Forall (λ reg, use_of s c reg <= furthest_use) cands) ∨
        ∃ l1 l2, cands = l1 ++ best :: l2 ∧
          furthest_use < use_of s c best ∧
          Forall (λ reg, use_of s c reg < use_of s c best) l1 ∧
          Forall (λ reg, use_of s c reg <= use_of s c best) l2
    end.
Proof.
  revert furthest_use best0.
  induction regs as [|reg regs IH]; intros furthest_use best0 cands Hnodes.
  - exists best0. split; [done|]. cbn. left. by split.
  - subst cands. cbn [FreeSomeRegister_loop List.filter] in *.
    destruct (GetValue s c reg =? kBlockedRegisterSentinel) eqn:Hblocked.
    + cbn [negb] in *. by apply IH.
    + cbn [negb] in *. apply Forall_cons in Hnodes as [[n Hn] Hnodes].
      cbn [List.find]. unfold dies_here at 1, has_copy at 1.
      rewrite Hn. cbn.
      destruct (bool_decide (stage = kAtEnd)
                && (end_ (live_range n) =? current_node_id s)) eqn:Hdies.
      { cbn. by exists reg. }
      destruct (1 <? num_registers n) eqn:Hcopy.
      { cbn. by exists reg. }
      cbn [orb].
      assert (Huse : use_of s c reg = int32_t (next_use n)).
      { unfold use_of. by rewrite Hn. }
      rewrite <- Huse.
      destruct (furthest_use <? use_of s c reg) eqn:Hlt.
      * apply Z.ltb_lt in Hlt.
        destruct (IH (use_of s c reg) reg Hnodes) as (best & Hloop & Hbest).
        exists best. split; [done|].
        destruct (List.find _ _) as [r|]; [done|]. right.
        destruct Hbest as [[-> Hall]|(l1 & l2 & Hl & Hfu & H1 & H2)].
        -- exists [], (List.filter
                        (λ reg, negb (GetValue s c reg =? kBlockedRegisterSentinel))
                        regs).
           split; [done|]. split; [done|]. split; [constructor|done].
        -- exists (reg :: l1), l2. rewrite Hl. split; [done|].
           split; [lia|]. split; [|done]. constructor; [lia|done].
      * apply Z.ltb_ge in Hlt.
        destruct (IH furthest_use best0 Hnodes) as (best & Hloop & Hbest).
        exists best. split; [done|].
        destruct (List.find _ _) as [r|]; [done|].
        destruct Hbest as [[-> Hall]|(l1 & l2 & Hl & Hfu & H1 & H2)].
        -- left. split; [done|]. by constructor.
        -- right. exists (reg :: l1), l2. rewrite Hl. split; [done|].
           split; [lia|]. split; [|done]. constructor; [lia|done].
Qed.

(** C8, as the code has it.  [FreeSomeRegister] walks the used registers
    that are not blocked in register order and gives up the first one
    whose value either dies at the current node, when the allocation is
    at the end of the node, or sits in more than one register, whichever
    of the two comes first.  Only if there is no such register it gives
    up the first register whose value has the furthest next use, after
    position 0. *)
Theorem FreeSomeRegister_takes_first_cheap s c stage :
  Forall (λ reg, is_Some (nodes s !! GetValue s c reg)) (candidates s c) →
  ∃ best,
    FreeSomeRegister_loop s c stage (registers_of (used s c)) 0 no_reg
    = Some best ∧
    FreeSomeRegister s c stage
    = (s' ← DropRegisterValue s c best stage;
       Some (AddToFree s' c best, best)) ∧
    match List.find (λ reg, dies_here s c stage reg || has_copy s c reg)
            (candidates s c) return Prop with
    | Some reg => best = reg
    | None =>
        (best = no_reg ∧
         Forall (λ reg, use_of s c reg <= 0) (candidates s c)) ∨
        ∃ l1 l2, candidates s c = l1 ++ best :: l2 ∧
          0 < use_of s c best ∧
          Forall (λ reg, use_of s c reg < use_of s c best) l1 ∧
          Forall (λ reg, use_of s c reg <= use_of s c best) l2
    end.
Proof.
  intros Hnodes.
  destruct (FreeSomeRegister_loop_spec s c stage (registers_of (used s c))
              0 no_reg Hnodes) as (best & Hloop & Hbest).
  exists best. split; [done|]. split; [|done].
  unfold FreeSomeRegister. by rewrite Hloop.
Qed.

End WithArchitecture.

Import MaglevConcrete.

Lemma AllocateSpillSlot_reuses_or_bumps_witness :
  nodes one_slot_freed !! 40
  = Some (tagged_value 6 6 12 7 InvalidOperand 0) ∧
  ∃ s' n',
    AllocateSpillSlot one_slot_freed 40 = Some s' ∧
    nodes s' !! 40 = Some n' ∧
    slots_of s' false = slots_of one_slot_freed false ∧
    (5 < 6 ∧
     spill_or_hint_ n' = AllocatedOperand STACK_SLOT kTagged 1 ∧
     slots_of s' true = mkSpillSlots 2 [] ∧
     (FreedInOrder [mkSpillSlotInfo 1 5] → O = O)) ∧
    ((∀ slot_info, slot_info ∈ [mkSpillSlotInfo 1 5] →
        6 <= freed_at_position slot_info) →
     [mkSpillSlotInfo 1 5] !! O = None).
Proof.
  split; [reflexivity|].
  apply (AllocateSpillSlot_reuses_or_bumps one_slot_freed 40
           (tagged_value 6 6 12 7 InvalidOperand 0)).
  reflexivity.
Defined.

(** C6 as it is worded fails: the one entry of the free list was freed at
    position 5 and the value to spill starts at 5, so the entry has
    [freed_at_position <= start]; [AllocateSpillSlot] leaves it in the
    list and takes the fresh slot 2, where the worded allocation reuses
    slot 1. *)
Lemma AllocateSpillSlot_skips_slot_freed_at_start :
  match AllocateSpillSlot one_slot_freed 30,
        spec_AllocateSpillSlot one_slot_freed 30 return Prop with
  | Some code, Some spec =>
      tagged_ one_slot_freed = mkSpillSlots 2 [mkSpillSlotInfo 1 5] ∧
      start ∘ live_range <$> nodes one_slot_freed !! 30 = Some 5 ∧
      spill_or_hint_ <$> nodes code !! 30
      = Some (AllocatedOperand STACK_SLOT kTagged 2) ∧
      tagged_ code = mkSpillSlots 3 [mkSpillSlotInfo 1 5] ∧
      spill_or_hint_ <$> nodes spec !! 30
      = Some (AllocatedOperand STACK_SLOT kTagged 1) ∧
      tagged_ spec = mkSpillSlots 2 []
  | _, _ => False
  end.
Proof. vm_compute. repeat split. Qed.

Lemma SpillRun_slot_reused : SpillRun slot_reused.
Proof.
  apply (run_step one_slot_freed); [apply (run_step two_spilled);
    [apply (run_step first_spilled); [apply (run_step four_values);
      [apply run_start|]|]|]|].
  - split; [reflexivity|]. split; [reflexivity|].
    apply (bool_decide_unpack _). vm_compute. exact I.
  - apply (step_spill _ _ 10 (tagged_value 1 1 20 2 InvalidOperand 0));
      [reflexivity|reflexivity|reflexivity|reflexivity|reflexivity].
  - eapply (step_spill _ _ 20);
      [reflexivity|reflexivity|reflexivity|reflexivity|reflexivity].
  - eapply (step_use _ _ 20 _ kInvalidNodeId);
      [reflexivity|reflexivity|vm_compute; discriminate|reflexivity].
  - eapply (step_spill _ _ 40);
      [reflexivity|reflexivity|reflexivity|reflexivity|reflexivity].
Qed.

Lemma reused_slot_owners_do_not_overlap_witness :
  SpillRun slot_reused ∧
  local_slot <$> nodes slot_reused !! 20 = Some (Some (true, 1)) ∧
  local_slot <$> nodes slot_reused !! 40 = Some (Some (true, 1)) ∧
  (5 < 6 ∨ 12 < 2).
Proof.
  pose proof SpillRun_slot_reused as Hrun.
  split; [exact Hrun|]. split; [reflexivity|]. split; [reflexivity|].
  destruct (reused_slot_owners_do_not_overlap slot_reused Hrun)
    as (_ & _ & Hdisjoint).
  refine (Hdisjoint 20 40
            (tagged_value 2 2 5 0 (AllocatedOperand STACK_SLOT kTagged 1) 0)
            (tagged_value 6 6 12 7 (AllocatedOperand STACK_SLOT kTagged 1) 0)
            (true, 1) _ _ _ _ _);
    [discriminate|reflexivity|reflexivity|reflexivity|reflexivity].
Defined.

Lemma FreeSomeRegister_takes_first_cheap_witness :
  Forall (λ reg, is_Some (nodes registers_full !! GetValue registers_full General reg))
    (candidates registers_full General) ∧
  ∃ best,
    FreeSomeRegister_loop registers_full General kAtStart
      (registers_of (used registers_full General)) 0 no_reg
    = Some best ∧
    FreeSomeRegister registers_full General kAtStart
    = (s' ← DropRegisterValue registers_full General best kAtStart;
       Some (AddToFree s' General best, best)) ∧
    best = 0.
Proof.
  assert (Hnodes :
    Forall (λ reg, is_Some (nodes registers_full !! GetValue registers_full General reg))
      (candidates registers_full General)).
  { apply (bool_decide_unpack _). vm_compute. exact I. }
  split; [exact Hnodes|].
  exact (FreeSomeRegister_takes_first_cheap registers_full General kAtStart
           Hnodes).
Defined.

(** C8 as it is worded fails: at the end of node 5 register 2 holds a
    value whose live range ends at node 5, and register 0 holds a value
    that is in register 1 as well; the worded order prefers register 2,
    [FreeSomeRegister] gives up register 0, which its loop meets first. *)
Lemma FreeSomeRegister_prefers_register_order :
  candidates registers_full General = [0; 1; 2; 3] ∧
  dies_here registers_full General kAtEnd 2 = true ∧
  dies_here registers_full General kAtEnd 0 = false ∧
  has_copy registers_full General 0 = true ∧
  spec_FreeSomeRegister registers_full General kAtEnd = 2 ∧
  snd <$> FreeSomeRegister registers_full General kAtEnd = Some 0.
Proof. vm_compute. repeat split. Qed.

End MaglevProofs.

(** * Properties of the allocation of a call *)

Module MaglevCallProofs.
Import Maglev MaglevProofs.

Section WithArchitecture.
Context `{Architecture}.

(** ** Register lists *)

Lemma has_neg regs reg : reg < 0 → has regs reg = false.
Proof. intros Hr. unfold has. by apply Z.testbit_neg_r. Qed.

Lemma has_nonneg regs reg : has regs reg = true → 0 <= reg.
Proof.
  intros Hr. destruct (Z.neg_nonneg_cases reg) as [Hneg|]; [|done].
  rewrite has_neg in Hr; done.
Qed.

Lemma has_empty reg : has kEmptyRegList reg = false.
Proof. unfold has, kEmptyRegList. apply Z.bits_0. Qed.

Lemma has_bound regs k reg :
  0 <= k → 0 <= regs < 2 ^ k → has regs reg = true → 0 <= reg < k.
Proof.
  intros Hk Hregs Hr. split; [by eapply has_nonneg|].
  destruct (Z.lt_ge_cases reg k) as [|Hge]; [done|].
  unfold has in Hr. rewrite <- (Z.mod_small regs (2 ^ k)) in Hr by lia.
  rewrite Z.mod_pow2_bits_high in Hr; [done|lia].
Qed.

Lemma has_set regs r reg :
  0 <= r → has (set regs r) reg = has regs reg || (reg =? r).
Proof.
  intros Hr. unfold has, set. rewrite Z.lor_spec, Z.shiftl_1_l.
  rewrite Z.pow2_bits_eqb by done. by rewrite (Z.eqb_sym r reg).
Qed.

Lemma has_clear regs r reg :
  0 <= r → has (clear regs r) reg = has regs reg && negb (reg =? r).
Proof.
  intros Hr. unfold has, clear. rewrite Z.ldiff_spec, Z.shiftl_1_l.
  rewrite Z.pow2_bits_eqb by done. by rewrite (Z.eqb_sym r reg).
Qed.

Lemma has_lor regs regs' reg :
  has (Z.lor regs regs') reg = has regs reg || has regs' reg.
Proof. unfold has. apply Z.lor_spec. Qed.

Lemma has_land_incl regs regs' reg :
  Z.land regs regs' = regs → has regs reg = true → has regs' reg = true.
Proof.
  intros Hl Hr. unfold has in *. rewrite <- Hl, Z.land_spec in Hr.
  by apply andb_true_iff in Hr as [_ ?].
Qed.

Lemma empty_iff regs : regs = kEmptyRegList ↔ ∀ reg, has regs reg = false.
Proof.
  split.
  - intros -> reg. apply has_empty.
  - intros Hall. apply Z.bits_inj'. intros reg _. rewrite Z.bits_0.
    apply Hall.
Qed.

Lemma elem_of_registers_of regs reg :
  reg ∈ registers_of regs ↔ 0 <= reg < kNumRegisters ∧ has regs reg = true.
Proof.
  unfold registers_of. rewrite list_elem_of_In, filter_In, <- list_elem_of_In.
  rewrite elem_of_seqZ. split; intros []; split; try done; lia.
Qed.

Lemma first_registers_of regs :
  registers_of regs ≠ [] → first regs ∈ registers_of regs.
Proof.
  unfold first. destruct (registers_of regs); [done|]. intros _. by left.
Qed.

Lemma used_has s c reg :
  has (used s c) reg
  = xorb (has (kAllocatableRegisters c) reg) (has (free s c) reg).
Proof. unfold used, has. apply Z.lxor_spec. Qed.

(** With the free registers among the allocatable ones, the used
    registers are the allocatable registers that are not free. *)
Lemma used_iff s c reg :
  (∀ reg, has (free s c) reg = true →
          has (kAllocatableRegisters c) reg = true) →
  has (used s c) reg = true ↔
  has (kAllocatableRegisters c) reg = true ∧ has (free s c) reg = false.
Proof.
  intros Hfree. rewrite used_has. specialize (Hfree reg).
  destruct (has (kAllocatableRegisters c) reg), (has (free s c) reg);
    cbn; intuition congruence.
Qed.

Lemma used_bound s c reg :
  ArchitectureOK →
  (∀ reg, has (free s c) reg = true →
          has (kAllocatableRegisters c) reg = true) →
  has (used s c) reg = true → 0 <= reg < kNumRegisters.
Proof.
  intros [Hk Halloc] Hfree Hu. apply used_iff in Hu as [Ha _]; [|done].
  by eapply has_bound.
Qed.

Lemma used_first s c :
  ArchitectureOK →
  (∀ reg, has (free s c) reg = true →
          has (kAllocatableRegisters c) reg = true) →
  used s c ≠ kEmptyRegList →
  has (used s c) (first (used s c)) = true.
Proof.
  intros Harch Hfree Hne.
  assert (Hex : ∃ reg, has (used s c) reg = true).
  { destruct (registers_of (used s c)) as [|reg l] eqn:Hl.
    - destruct Hne. apply empty_iff. intros reg.
      destruct (has (used s c) reg) eqn:Hr; [|done].
      assert (Hin : reg ∈ registers_of (used s c)).
      { apply elem_of_registers_of. split; [by eapply used_bound|done]. }
      rewrite Hl in Hin. by apply elem_of_nil in Hin.
    - exists reg. assert (Hin : reg ∈ registers_of (used s c)).
      { rewrite Hl. by left. }
      by apply elem_of_registers_of in Hin as [_ ?]. }
  destruct Hex as [reg Hr].
  assert (Hin : reg ∈ registers_of (used s c)).
  { apply elem_of_registers_of. split; [by eapply used_bound|done]. }
  assert (Hnil : registers_of (used s c) ≠ []).
  { intros Hnil. rewrite Hnil in Hin. by apply elem_of_nil in Hin. }
  by apply first_registers_of, elem_of_registers_of in Hnil as [_ ?].
Qed.

(** ** Reading the registers of a state that was written *)

Lemma registers_with_node s v n c :
  registers (with_node s v n) c = registers s c.
Proof. by destruct c. Qed.

Lemma registers_with_slots s t x c :
  registers (with_slots s t x) c = registers s c.
Proof. by destruct t, c. Qed.

Lemma registers_with_registers s c r c' :
  registers (with_registers s c r) c'
  = if decide (c = c') then r else registers s c'.
Proof. by destruct c, c'. Qed.

Lemma registers_with_registers_eq s c r :
  registers (with_registers s c r) c = r.
Proof. by destruct c. Qed.

Lemma registers_with_registers_ne s c r c' :
  c ≠ c' → registers (with_registers s c r) c' = registers s c'.
Proof. by destruct c, c'. Qed.

Lemma registers_AddMove s v a b c :
  registers (AddMoveBeforeCurrentNode s v a b) c = registers s c.
Proof. by destruct c. Qed.

Lemma free_eq s s' c : registers s' c = registers s c → free s' c = free s c.
Proof. unfold free. by intros ->. Qed.

Lemma used_eq s s' c : registers s' c = registers s c → used s' c = used s c.
Proof. unfold used, free. by intros ->. Qed.

Lemma GetValue_eq s s' c reg :
  registers s' c = registers s c → GetValue s' c reg = GetValue s c reg.
Proof. unfold GetValue. by intros ->. Qed.

Lemma register_class_eq n n' :
  value_representation n' = value_representation n →
  register_class n' = register_class n.
Proof. unfold register_class, use_double_register. by intros ->. Qed.

Lemma Kept_refl n : Kept n n.
Proof. by split; [|split]. Qed.

Lemma Kept_trans n1 n2 n3 : Kept n1 n2 → Kept n2 n3 → Kept n1 n3.
Proof.
  intros (H1 & H2 & H3) (H4 & H5 & H6). split; [congruence|].
  split; [congruence|]. intros Hl. by apply H6, H3.
Qed.






(** ** [Spill] and [FreeRegistersUsedBy] *)

Lemma Spill_spec s node n :
  nodes s !! node = Some n →
  ∃ s' n',
    Spill s node = Some s' ∧
    nodes s' = <[node := n']> (nodes s) ∧
    (∀ c, registers s' c = registers s c) ∧
    current_node_id s' = current_node_id s ∧
    registers_with_result_ n' = registers_with_result_ n ∧
    Kept n n' ∧
    is_loadable n' = true.
Proof.
  intros Hn. unfold Spill. rewrite Hn. cbn.
  destruct (is_loadable n) eqn:Hload.
  - exists s, n. split; [done|]. split; [by rewrite insert_id|].
    split; [done|]. split; [done|]. split; [done|]. split; [apply Kept_refl|done].
  - rewrite (AllocateSpillSlot_eq s node n Hn). cbv zeta.
    eexists _, _. split; [done|].
    split; [by rewrite nodes_with_node, nodes_with_slots|].
    split; [intros c; by rewrite registers_with_node, registers_with_slots|].
    split; [by destruct (bool_decide _)|].
    split; [done|]. split; [|done]. split; [done|]. split; [done|].
    by rewrite Hload.
Qed.

Lemma FreeRegistersUsedBy_in_spec s c node n :
  nodes s !! node = Some n →
  ∃ s',
    FreeRegistersUsedBy_in s c node = Some s' ∧
    nodes s' = <[node := set_registers n kEmptyRegList]> (nodes s) ∧
    registers s' c
    = mkRegisterFrameState (values_ (registers s c))
        (Z.lor (free s c) (registers_with_result_ n)) ∧
    (∀ c', c ≠ c' → registers s' c' = registers s c') ∧
    current_node_id s' = current_node_id s.
Proof.
  intros Hn. unfold FreeRegistersUsedBy_in. rewrite Hn. cbn.
  eexists. split; [done|]. unfold AddToFree_list, with_free.
  split; [by rewrite nodes_with_registers|].
  split; [|split].
  - rewrite registers_with_registers_eq. unfold free.
    by rewrite !registers_with_node.
  - intros c' Hc. by rewrite registers_with_registers_ne, registers_with_node.
  - by destruct c.
Qed.

(** ** Counting the used registers *)

Lemma filter_length_le {A} (P Q : A → bool) (l : list A) :
  (∀ y, P y = true → Q y = true) →
  (length (List.filter P l) ≤ length (List.filter Q l))%nat.
Proof.
  intros HPQ. induction l as [|a l IH]; [done|]. cbn.
  destruct (P a) eqn:HP.
  - rewrite (HPQ a HP). cbn. lia.
  - destruct (Q a); cbn; lia.
Qed.

Lemma filter_length_lt {A} (P Q : A → bool) (l : list A) x :
  (∀ y, P y = true → Q y = true) →
  x ∈ l → Q x = true → P x = false →
  (length (List.filter P l) < length (List.filter Q l))%nat.
Proof.
  intros HPQ Hx HQ HP. induction l as [|a l IH]; [by apply elem_of_nil in Hx|].
  cbn. apply elem_of_cons in Hx as [<-|Hx].
  - rewrite HP, HQ. cbn. pose proof (filter_length_le P Q l HPQ). lia.
  - specialize (IH Hx). destruct (P a) eqn:HPa.
    + rewrite (HPQ a HPa). cbn. lia.
    + destruct (Q a); cbn; lia.
Qed.

Lemma registers_of_length regs :
  (length (registers_of regs) ≤ Z.to_nat kNumRegisters)%nat.
Proof.
  unfold registers_of.
  etrans; [apply (filter_length_le _ (λ _, true)); done|].
  rewrite List.filter_true. by rewrite length_seqZ.
Qed.

Lemma registers_of_length_lt regs regs' reg :
  (∀ r, has regs' r = true → has regs r = true) →
  0 <= reg < kNumRegisters → has regs reg = true → has regs' reg = false →
  (length (registers_of regs') < length (registers_of regs))%nat.
Proof.
  intros Hsub Hreg Hin Hout. unfold registers_of.
  apply (filter_length_lt _ _ _ reg); [done| |done|done].
  apply elem_of_seqZ. lia.
Qed.

(** ** One round of [SpillAndClearRegisters] *)

Lemma node_not_sentinel s v n :
  RegistersOK s → nodes s !! v = Some n → v ≠ kBlockedRegisterSentinel.
Proof. intros Hok Hn ->. rewrite (ok_sentinel s Hok) in Hn. done. Qed.



(** ** [SpillAndClearRegisters] *)



(** ** After the registers were cleared *)






Lemma FreeRegistersUsedBy_spec s w n :
  nodes s !! w = Some n →
  ∃ s',
    FreeRegistersUsedBy s w = Some s' ∧
    nodes s' = <[w := set_registers n kEmptyRegList]> (nodes s) ∧
    registers s' (register_class n)
    = mkRegisterFrameState (values_ (registers s (register_class n)))
        (Z.lor (free s (register_class n)) (registers_with_result_ n)) ∧
    (∀ c', register_class n ≠ c' → registers s' c' = registers s c') ∧
    current_node_id s' = current_node_id s.
Proof.
  intros Hn. unfold FreeRegistersUsedBy. rewrite Hn. cbn.
  unfold register_class.
  destruct (use_double_register n); by apply FreeRegistersUsedBy_in_spec.
Qed.







(** ** The result takes a free register *)

Lemma first_has regs :
  (∀ r, has regs r = true → 0 <= r < kNumRegisters) →
  regs ≠ kEmptyRegList →
  has regs (first regs) = true.
Proof.
  intros Hbound Hne.
  destruct (registers_of regs) as [|reg l] eqn:Hl.
  - destruct Hne. apply empty_iff. intros reg.
    destruct (has regs reg) eqn:Hr; [|done].
    assert (Hin : reg ∈ registers_of regs).
    { apply elem_of_registers_of. split; [by apply Hbound|done]. }
    rewrite Hl in Hin. by apply elem_of_nil in Hin.
  - assert (Hin : first regs ∈ registers_of regs).
    { apply first_registers_of. by rewrite Hl. }
    by apply elem_of_registers_of in Hin as [_ ?].
Qed.







(** ** The checks as a function *)

Lemma register_state_ok_sound s :
  ArchitectureOK → register_state_ok s = true → RegistersOK s.
Proof.
  intros Harch Hcheck. unfold register_state_ok in Hcheck.
  apply andb_true_iff in Hcheck as [Hcheck Hsentinel].
  apply andb_true_iff in Hcheck as [Hfiles Hnodes].
  apply bool_decide_eq_true in Hsentinel, Hnodes.
  assert (Hfile : ∀ c,
    Z.land (free s c) (kAllocatableRegisters c) = free s c ∧
    forallb (holds_its_value s c) (registers_of (used s c)) = true).
  { intros c. rewrite forallb_forall in Hfiles.
    assert (Hc : List.In c [General; Double]) by (destruct c; cbn; tauto).
    apply Hfiles in Hc. apply andb_true_iff in Hc as [Hl Hf].
    by apply Z.eqb_eq in Hl. }
  assert (Hfree : ∀ c reg, has (free s c) reg = true →
                           has (kAllocatableRegisters c) reg = true).
  { intros c reg. apply has_land_incl. apply Hfile. }
  split.
  - done.
  - intros c reg Hu Hv. destruct (Hfile c) as [_ Hall].
    rewrite forallb_forall in Hall.
    assert (Hin : List.In reg (registers_of (used s c))).
    { apply list_elem_of_In, elem_of_registers_of.
      split; [exact (used_bound s c reg Harch (Hfree c) Hu)|done]. }
    apply Hall in Hin. unfold holds_its_value in Hin.
    apply orb_true_iff in Hin as [Hs%Z.eqb_eq|Hin]; [done|].
    destruct (nodes s !! GetValue s c reg) as [n|]; [|done].
    apply andb_true_iff in Hin as [Hc%bool_decide_eq_true Hr]. by exists n.
  - intros v n reg Hn Hin. specialize (Hnodes v n Hn). cbn in Hnodes.
    unfold is_in_its_registers in Hnodes.
    apply andb_true_iff in Hnodes as [Hl%Z.eqb_eq Hall].
    assert (Hu : has (used s (register_class n)) reg = true).
    { by apply (has_land_incl (registers_with_result_ n)). }
    split; [done|]. rewrite forallb_forall in Hall.
    assert (Hr : List.In reg (registers_of (registers_with_result_ n))).
    { apply list_elem_of_In, elem_of_registers_of.
      split; [exact (used_bound s _ reg Harch (Hfree _) Hu)|done]. }
    apply Hall in Hr. by apply Z.eqb_eq in Hr.
  - done.
Qed.

(** ** [AllocateNode] on a call *)





End WithArchitecture.

Import MaglevConcrete.



End MaglevCallProofs.

(** * More properties of the string table *)

Module StringTableInterning.
Import StringTable Concrete StringTableProofs.

(** ** Findable strings *)

Lemma PathOK_Findable d k : PathOK d k → Findable d k.
Proof.
  intros Hpath e s Hs. destruct (Hpath e s Hs) as (n & Hn & Hp & Hbefore).
  exists n. split; [done|]. split; [done|]. intros j Hj.
  destruct (Hbefore j Hj) as [t ->]. done.
Qed.

Lemma pow2_inj k k' : 0 <= k → 0 <= k' → 2 ^ k = 2 ^ k' → k = k'.
Proof. intros Hk Hk' Heq. apply (Z.pow_inj_r 2); lia. Qed.

Lemma Set_capacity d i s d' : Set_ d i s = Some d' → capacity_ d' = capacity_ d.
Proof.
  unfold Set_. destruct i as [raw|]; [|done].
  destruct (_ && _); [|done]. by intros [= <-].
Qed.

Lemma Rehash_capacity fuel data range : ∀ nd nd',
  Rehash fuel data range nd = Some nd' → capacity_ nd' = capacity_ nd.
Proof.
  induction range as [|i range IH]; intros nd nd'; cbn [Rehash].
  - by intros [= <-].
  - destruct (Get data (Entry i)) as [[| |string]|]; [apply IH|apply IH| |done].
    destruct (FindInsertionEntry fuel nd (String_hash string)) as [ix|];
      [|done].
    destruct (Set_ nd ix string) as [nd1|] eqn:Hset; [|done].
    intros Hrest. rewrite (IH nd1 nd' Hrest). by eapply Set_capacity.
Qed.

Lemma Resize_capacity fuel d cap d' :
  Resize fuel d cap = Some d' → capacity_ d' = cap.
Proof.
  unfold Resize.
  destruct (Rehash fuel d (seqZ 0 (capacity_ d)) (New cap)) as [nd|] eqn:Hre;
    [|done].
  intros [= <-]. cbn. by rewrite (Rehash_capacity _ _ _ _ _ Hre).
Qed.

Lemma EnsureCapacity_cases fuel d t' d' :
  EnsureCapacity fuel (mkStringTable d) 1 = Some (t', d') →
  t' = mkStringTable d' ∧
  (d' = d ∨ ∃ cap, Resize fuel d cap = Some d').
Proof.
  unfold EnsureCapacity. cbn [data_].
  destruct (negb (_ =? -1)).
  - match goal with
    | |- context [Resize fuel d ?c] =>
        destruct (Resize fuel d c) as [nd|] eqn:Hres; [|done]
    end.
    intros [= <- <-]. split; [done|]. right. eauto.
  - intros [= <- <-]. split; [done|]. by left.
Qed.

(** A generation [EnsureCapacity] returns is the old one or a rehashed
    one. *)
Lemma EnsureCapacity_findable fuel d t' d' :
  Invariant d → Invariant d' → capacity_ d' <= Z.of_nat fuel →
  strings_of (elements_ d') ≡ₚ strings_of (elements_ d) →
  (∀ k, capacity_ d = 2 ^ k → Findable d k) →
  EnsureCapacity fuel (mkStringTable d) 1 = Some (t', d') →
  ∀ k, capacity_ d' = 2 ^ k → Findable d' k.
Proof.
  intros Hinv Hinv' Hfuel Hperm Hfind Hensure k Hk.
  destruct (EnsureCapacity_cases fuel d t' d' Hensure) as [_ [->|[cap Hres]]];
    [by apply Hfind|].
  destruct (Invariant_Searchable d' Hinv') as (k' & Hk' & Hs').
  pose proof Hs' as (_ & Hc' & _).
  assert (k = k') as ->.
  { destruct (Z.neg_nonneg_cases k) as [Hneg|Hpos].
    - rewrite Z.pow_neg_r in Hk by done.
      pose proof (Invariant_bounds d' Hinv'). lia.
    - apply pow2_inj; [done|lia|congruence]. }
  pose proof (Resize_capacity fuel d cap d' Hres) as Hcap.
  destruct (Resize_spec fuel d cap k')
    as (nd & Hres' & _ & Hpath & _); [apply Hinv|lia|congruence| |lia|].
  { rewrite <- Hcap. apply Permutation_length in Hperm. rewrite <- Hperm.
    pose proof (inv_elements d' Hinv'). pose proof (inv_not_full d' Hinv').
    pose proof (Invariant_bounds d' Hinv'). lia. }
  rewrite Hres in Hres'. injection Hres' as <-. by apply PathOK_Findable.
Qed.

(** ** A search that fails *)

Lemma NotFound_no_match `{StringTableKey IsolateT K} fuel d (key : K) k e s :
  Searchable d k → Findable d k →
  FindEntry fuel d key (key_hash key) = Some NotFound →
  Get d (Entry e) = Some (StringElement s) →
  KeyIsMatch key s = false.
Proof.
  intros Hs Hfind Hnot Hget.
  destruct (KeyIsMatch key s) eqn:Hmatch; [|done]. exfalso.
  pose proof (KeyIsMatch_hash key s Hmatch) as Hhash.
  destruct (FindEntry_inv fuel d key _ k NotFound Hs Hnot)
    as (n0 & e0 & Hp0 & _ & Hbefore0 & Hstop).
  destruct Hstop as [[_ Hempty]|[? _]]; [|done].
  destruct (Hfind e s Hget) as (m & Hm & Hpm & Hbefore).
  rewrite Hhash in Hpm, Hbefore.
  destruct (Nat.lt_trichotomy m n0) as [Hlt|[->|Hgt]].
  - destruct (Hbefore0 m Hlt) as [Hdel|(t & Ht & Hno)].
    + rewrite Hpm, Hget in Hdel. done.
    + rewrite Hpm, Hget in Ht. injection Ht as <-. congruence.
  - rewrite Hp0 in Hpm. injection Hpm as <-. congruence.
  - apply (Hbefore n0 Hgt). by rewrite Hp0.
Qed.

(** X5.  On an interning table [FindEntry] returns with as much fuel as
    the table has slots.  It returns a slot only if the slot holds a
    string the key matches, and it returns [NotFound] only if the key
    matches no string of the table. *)
Theorem FindEntry_decides_membership `{StringTableKey IsolateT K}
    (fuel : nat) (d : Data) (key : K) :
  Interned d → capacity d <= Z.of_nat fuel →
  ∃ r, FindEntry fuel d key (key_hash key) = Some r ∧
    match r return Prop with
    | Entry e =>
        ∃ s, Get d (Entry e) = Some (StringElement s) ∧
             KeyIsMatch key s = true
    | NotFound =>
        ∀ s, s ∈ strings_of (elements_ d) → KeyIsMatch key s = false
    end.
Proof.
  intros [Hinv Hfind _] Hfuel. unfold capacity in Hfuel.
  destruct (Invariant_Searchable d Hinv) as (k & Hk & Hs).
  destruct (Invariant_has_empty d Hinv) as (e0 & He0 & Hempty0).
  pose proof Hs as (_ & Hc & _).
  destruct (FindEntry_returns fuel d key (key_hash key) k e0 Hs ltac:(lia)
              Hempty0 ltac:(lia)) as [r Hr].
  exists r. split; [done|].
  destruct (FindEntry_inv fuel d key _ k r Hs Hr) as (n & e & _ & _ & _ & Hstop).
  destruct Hstop as [[-> _]|[-> Hfound]]; [|done].
  intros s [e' He']%strings_of_Get.
  by apply (NotFound_no_match fuel d key k e' s Hs (Hfind k Hc) Hr).
Qed.

(** ** An insertion keeps the strings findable *)

Lemma Findable_insert d d' k e x s (n : nat) :
  Findable d k →
  Get d (Entry e) = Some x →
  elements_ d' = <[Z.to_nat e := StringElement s]> (elements_ d) →
  Z.of_nat n < 2 ^ k →
  triangular_probe (String_hash s) (2 ^ k) n = Entry e →
  (∀ j : nat, (j < n)%nat →
     ∃ t, Get d (triangular_probe (String_hash s) (2 ^ k) j)
          = Some (StringElement t)) →
  Findable d' k.
Proof.
  intros Hfind Hx Hel Hn Hpn Hbefore.
  pose proof (Get_Some_range d e x Hx) as He.
  assert (Hkeep : ∀ i, Get d (Entry i) ≠ Some empty_element →
                       Get d' (Entry i) ≠ Some empty_element).
  { intros i Hi. destruct (decide (i = e)) as [->|Hne].
    - by rewrite (Get_insert_eq d d' e s Hel He).
    - by rewrite (Get_insert_ne d d' e i s Hel) by (lia || done). }
  intros e' s' Hget'. destruct (decide (e' = e)) as [->|Hne].
  - rewrite (Get_insert_eq d d' e s Hel He) in Hget'. injection Hget' as <-.
    exists n. split; [done|]. split; [done|]. intros j Hj.
    destruct (Hbefore j Hj) as [t Ht]. unfold triangular_probe in *.
    apply Hkeep. by rewrite Ht.
  - rewrite (Get_insert_ne d d' e e' s Hel) in Hget' by (lia || done).
    destruct (Hfind e' s' Hget') as (m & Hm & Hpm & Hpath).
    exists m. split; [done|]. split; [done|]. intros j Hj.
    unfold triangular_probe in *. apply Hkeep. by apply Hpath.
Qed.

Lemma NoDup_content_inj l s t :
  NoDup (content <$> l) → s ∈ l → t ∈ l → content s = content t → s = t.
Proof.
  induction l as [|a l IH]; intros Hnd Hs Ht Heq; [by apply elem_of_nil in Hs|].
  cbn in Hnd. apply NoDup_cons in Hnd as [Ha Hnd].
  apply elem_of_cons in Hs as [->|Hs], Ht as [->|Ht].
  - done.
  - destruct Ha. rewrite Heq. by apply list_elem_of_fmap_2.
  - destruct Ha. rewrite <- Heq. by apply list_elem_of_fmap_2.
  - by apply IH.
Qed.

(** ** [LookupKey] keeps the table an interning table *)

Lemma LookupKey_interned `{StringTableKey IsolateT K} fuel d
    (isolate : IsolateT) (key : K) c :
  Interned d → CanGrow d → 2 * capacity_ d <= Z.of_nat fuel →
  InsertsItself isolate key → MatchesContent key c →
  ∃ d' isolate' r,
    LookupKey fuel (mkStringTable d) isolate key
    = Some (mkStringTable d', isolate', r) ∧
    Interned d' ∧
    r ∈ strings_of (elements_ d') ∧
    content r = (key_hash key, c) ∧
    (∀ s, s ∈ strings_of (elements_ d) → s ∈ strings_of (elements_ d')) ∧
    (∀ s, s ∈ strings_of (elements_ d') →
          s = r ∨ s ∈ strings_of (elements_ d)) ∧
    number_of_elements_ d <= number_of_elements_ d'
      <= number_of_elements_ d + 1 ∧
    capacity_ d'
      <= Z.max (capacity_ d)
           (ComputeStringTableCapacity (number_of_elements_ d + 1)) ∧
    (isolate' = isolate ∨
     isolate' = (PrepareForInsertion isolate key).1 ∨
     isolate' = (GetHandleForInsertion (PrepareForInsertion isolate key).1
                   (PrepareForInsertion isolate key).2).1).
Proof.
  intros [Hinv Hfind Huniq] Hgrow Hfuel Hins Hcontent.
  pose proof (Invariant_bounds d Hinv) as (Hn0 & Hd0 & Hn1 & Hcap).
  destruct (Invariant_Searchable d Hinv) as (k & Hk & Hs).
  destruct (Invariant_has_empty d Hinv) as (e0 & He0 & Hempty0).
  pose proof Hs as (_ & Hc & _).
  unfold LookupKey. cbn [data_].
  destruct (FindEntry_returns fuel d key (key_hash key) k e0 Hs ltac:(lia)
              Hempty0 ltac:(lia)) as [r0 Hr0].
  rewrite Hr0.
  destruct (FindEntry_inv fuel d key _ k r0 Hs Hr0)
    as (n0 & e00 & Hpn0 & _ & _ & Hstop).
  destruct Hstop as [[-> _] | [-> (s & Hg & Hm)]].
  2:{ rewrite Hg. exists d, isolate, s.
      assert (Hin : s ∈ strings_of (elements_ d)).
      { apply strings_of_Get. eauto. }
      split; [done|]. split; [done|]. split; [done|].
      split; [by apply Hcontent|]. split; [done|]. split; [by right|].
      split; [lia|]. split; [lia|]. by left. }
  unfold InsertsItself in Hins.
  destruct (PrepareForInsertion isolate key) as [isolate1 key'] eqn:Hprep.
  destruct (GetHandleForInsertion isolate1 key') as [isolate2 new_string]
    eqn:Hget.
  cbn [fst snd]. rewrite Hget. cbn [fst].
  destruct Hins as [Hsame Hmatch].
  pose proof Hsame as (Hhash & _ & _).
  destruct (EnsureCapacity_spec fuel d Hinv Hgrow Hfuel)
    as (d1 & Hensure & Hinv1 & Hnof1 & Hperm1 & Hslack & Hroom & Hfuel1
        & Hcases).
  rewrite Hensure.
  assert (Hbound1 : capacity_ d1
                    <= Z.max (capacity_ d)
                         (ComputeStringTableCapacity
                            (number_of_elements_ d + 1))).
  { cbv zeta in Hcases.
    destruct Hcases as [(? & -> & _)|[(_ & _ & ->)|(_ & _ & -> & _)]]; lia. }
  pose proof (EnsureCapacity_findable fuel d _ d1 Hinv Hinv1 Hfuel1 Hperm1
                Hfind Hensure) as Hfind1.
  assert (Huniq1 : NoDup (content <$> strings_of (elements_ d1))).
  { by rewrite Hperm1. }
  assert (Hsub1 : ∀ s, s ∈ strings_of (elements_ d) ↔
                       s ∈ strings_of (elements_ d1)).
  { intros s. by rewrite Hperm1. }
  assert (Hint1 : Interned d1) by (by split).
  destruct (Invariant_Searchable d1 Hinv1) as (k1 & Hk1 & Hs1).
  destruct (Invariant_has_empty d1 Hinv1) as (e1 & He1 & Hempty1).
  pose proof Hs1 as (_ & Hc1 & Hl1).
  assert (Hhalf : number_of_elements_ d / 2 <= (number_of_elements_ d + 1) / 2).
  { apply Z.div_le_mono; lia. }
  rewrite (FindEntryOrInsertionEntry_split fuel d1 key' _ k1 Hs1).
  destruct (FindEntry_returns fuel d1 key' (key_hash key') k1 e1 Hs1 ltac:(lia)
              Hempty1 ltac:(lia)) as [r1 Hr1].
  rewrite Hr1.
  destruct (FindEntry_inv fuel d1 key' _ k1 r1 Hs1 Hr1)
    as (n1 & e11 & Hpn1 & _ & _ & Hstop).
  destruct Hstop as [[-> _] | [-> (s & Hg & Hm)]].
  2:{ rewrite Hg. exists d1, isolate1, s.
      rewrite (KeyIsMatch_SameContent key' key s Hsame) in Hm.
      assert (Hin : s ∈ strings_of (elements_ d1)).
      { apply strings_of_Get. eauto. }
      split; [done|]. split; [done|]. split; [done|].
      split; [by apply Hcontent|]. split; [by intros t ?%Hsub1|].
      split; [intros t ?%Hsub1; by right|]. split; [lia|].
      split; [done|]. right. by left. }
  destruct (FindInsertionEntry_returns fuel d1 (key_hash key') k1 e1 Hs1
              ltac:(lia) (or_introl Hempty1) ltac:(lia)) as [r2 Hr2].
  rewrite Hr2.
  destruct (FindInsertionEntry_index fuel d1 _ k1 r2 Hs1 Hr2)
    as (n & e & x & -> & Hpn & Hn & He & Hx & Hfree & Hbefore).
  rewrite Hx.
  destruct (Set_free d1 e new_string x Hx)
    as (d2 & Hset & Hel & Hprev & Hnof2 & Hndel2 & Hcap2).
  pose proof (Invariant_bounds d1 Hinv1) as (Hn0' & Hd0' & Hn1' & Hcap').
  assert (Hm' : KeyIsMatch key' new_string = true)
    by (by rewrite (KeyIsMatch_SameContent key' key _ Hsame)).
  pose proof (KeyIsMatch_hash key' new_string Hm') as Hnew_hash.
  rewrite <- Hnof1 in Hroom.
  assert (Hx' : elements_ d1 !! Z.to_nat e = Some x).
  { by rewrite <- Get_Entry by lia. }
  assert (Hperm2 : strings_of (elements_ d2)
                   ≡ₚ new_string :: strings_of (elements_ d1)).
  { rewrite Hel. by apply (strings_of_insert_free _ _ new_string x). }
  assert (Hnew : content new_string ∉ content <$> strings_of (elements_ d1)).
  { intros (t & Heq & Ht)%list_elem_of_fmap.
    apply strings_of_Get in Ht as [et Het].
    assert (KeyIsMatch key' t = true); [|
      by rewrite (NotFound_no_match fuel d1 key' k1 et t Hs1 (Hfind1 k1 Hc1)
                    Hr1 Het) in *].
    rewrite (KeyIsMatch_SameContent key' key t Hsame). apply Hcontent.
    rewrite <- Heq. by apply Hcontent. }
  assert (Huniq2 : NoDup (content <$> strings_of (elements_ d2))).
  { rewrite Hperm2. cbn. by apply NoDup_cons. }
  assert (Hfind2 : ∀ k2, capacity_ d2 = 2 ^ k2 → Findable d2 k2).
  { intros k2 Hk2. assert (k2 = k1) as ->.
    { destruct (Z.neg_nonneg_cases k2) as [Hneg|Hpos].
      - rewrite Z.pow_neg_r in Hk2 by done. lia.
      - apply pow2_inj; [done|lia|congruence]. }
    apply (Findable_insert d1 d2 k1 e x new_string n); try done.
    + by apply Hfind1.
    + by rewrite Hnew_hash.
    + by rewrite Hnew_hash. }
  assert (Hin2 : new_string ∈ strings_of (elements_ d2)).
  { rewrite Hperm2. by left. }
  assert (Hsub2 : ∀ s, s ∈ strings_of (elements_ d) →
                       s ∈ strings_of (elements_ d2)).
  { intros s Hs2%Hsub1. rewrite Hperm2. by right. }
  assert (Hsup2 : ∀ s, s ∈ strings_of (elements_ d2) →
                       s = new_string ∨ s ∈ strings_of (elements_ d)).
  { intros s. rewrite Hperm2. intros [->|Hs2]%elem_of_cons; [by left|].
    right. by apply Hsub1. }
  destruct Hfree as [-> | ->]; rewrite Hset.
  - exists (ElementAdded d2), isolate2, new_string.
    assert (Hnn : number_of_elements_ (ElementAdded d2)
                  = number_of_elements_ d + 1).
    { cbn. rewrite int32_t_id; lia. }
    split; [done|]. split; [split|].
    + apply (Invariant_insert d1 (ElementAdded d2) e empty_element new_string
               Hinv1 Hx Hroom); [exact Hel|exact Hcap2| |].
      * cbn. rewrite int32_t_id; lia.
      * left. split; [done|exact Hndel2].
    + exact Hfind2.
    + exact Huniq2.
    + split; [done|]. split; [by apply Hcontent|]. split; [done|].
      split; [done|]. split; [lia|]. split; [cbn; lia|]. right. by right.
  - exists (DeletedElementOverwritten d2), isolate2, new_string.
    assert (Hnn : number_of_elements_ (DeletedElementOverwritten d2)
                  = number_of_elements_ d + 1).
    { cbn. rewrite int32_t_id; lia. }
    split; [done|]. split; [split|].
    + apply (Invariant_insert d1 (DeletedElementOverwritten d2) e
               deleted_element new_string Hinv1 Hx Hroom);
        [exact Hel|exact Hcap2| |].
      * cbn. rewrite int32_t_id; lia.
      * right. split; [done|]. cbn. rewrite int32_t_id; lia.
    + exact Hfind2.
    + exact Huniq2.
    + split; [done|]. split; [by apply Hcontent|]. split; [done|].
      split; [done|]. split; [lia|]. split; [cbn; lia|]. right. by right.
Qed.

(** X6.  [LookupKey] on an interning table returns a string of the
    content of the key and leaves an interning table.  The table loses no
    string, and gains at most the string returned. *)
Theorem LookupKey_keeps_interning `{StringTableKey IsolateT K}
    (fuel : nat) (table : StringTable) (isolate : IsolateT) (key : K)
    (c : list Z) :
  Interned (data_ table) → CanGrow (data_ table) →
  2 * capacity (data_ table) <= Z.of_nat fuel →
  InsertsItself isolate key → MatchesContent key c →
  ∃ table' isolate' result,
    LookupKey fuel table isolate key = Some (table', isolate', result) ∧
    Interned (data_ table') ∧
    result ∈ strings_of (elements_ (data_ table')) ∧
    content result = (key_hash key, c) ∧
    (∀ s, s ∈ strings_of (elements_ (data_ table)) →
          s ∈ strings_of (elements_ (data_ table'))) ∧
    (∀ s, s ∈ strings_of (elements_ (data_ table')) →
          s = result ∨ s ∈ strings_of (elements_ (data_ table))).
Proof.
  destruct table as [d]. cbn [data_]. intros Hint Hgrow Hfuel Hins Hcontent.
  destruct (LookupKey_interned fuel d isolate key c Hint Hgrow Hfuel Hins
              Hcontent)
    as (d' & isolate' & r & Hlook & Hint' & Hin & Hc & Hsub & Hsup & _).
  by exists (mkStringTable d'), isolate', r.
Qed.

(** ** Interning a list of keys *)

Lemma ComputeStringTableCapacity_mono a b :
  0 <= a <= b → b + b / 2 <= 2 ^ 30 →
  ComputeStringTableCapacity a <= ComputeStringTableCapacity b.
Proof.
  intros Hab Hb.
  assert (Hdiv : a / 2 <= b / 2) by (apply Z.div_le_mono; lia).
  destruct (ComputeStringTableCapacity_spec a) as (ja & Hja & -> & _ & Hmina);
    [lia|lia|].
  destruct (ComputeStringTableCapacity_spec b) as (jb & Hjb & -> & Hfitb & _);
    [lia|lia|].
  destruct (Z.le_gt_cases ja jb) as [Hle|Hgt].
  - apply Z.pow_le_mono_r; lia.
  - assert (2 ^ jb <= 2 ^ (ja - 1)) by (apply Z.pow_le_mono_r; lia).
    specialize (Hmina ltac:(lia)). lia.
Qed.

Lemma LookupKeys_interned `{StringTableKey IsolateT K} fuel
    (good : IsolateT → Prop) (c : K → list Z) (keys : list K) :
  ∀ d isolate N,
    Interned d →
    number_of_elements_ d + Z.of_nat (length keys) <= N →
    N + N / 2 <= 2 ^ 30 →
    2 * Z.max (capacity_ d) (ComputeStringTableCapacity N) <= Z.of_nat fuel →
    good isolate →
    InsertingKeys good keys c →
    ∃ d' isolate' results,
      LookupKeys fuel (mkStringTable d) isolate keys
      = Some (mkStringTable d', isolate', results) ∧
      Interned d' ∧
      (∀ s, s ∈ strings_of (elements_ d) → s ∈ strings_of (elements_ d')) ∧
      Forall2 (λ key r, r ∈ strings_of (elements_ d') ∧
                        content r = (key_hash key, c key)) keys results.
Proof.
  induction keys as [|key keys IH];
    intros d isolate N Hint HN Hbound Hfuel Hgood Hkeys.
  - exists d, isolate, []. split; [done|]. split; [done|]. split; [done|].
    constructor.
  - cbn [LookupKeys]. cbn [length] in HN.
    pose proof (Invariant_bounds d (interned_invariant d Hint))
      as (Hn0 & _ & _ & _).
    destruct (Hkeys isolate key Hgood ltac:(by left))
      as (Hcontent & Hins & Hgood1 & Hgood2).
    assert (Hdiv : (number_of_elements_ d + 1) / 2 <= N / 2).
    { apply Z.div_le_mono; lia. }
    destruct (LookupKey_interned fuel d isolate key (c key) Hint)
      as (d1 & isolate1 & r & -> & Hint1 & Hin1 & Hc1 & Hsub1 & _ & Hnof1
          & Hcap1 & Hiso); [unfold CanGrow; lia|lia|done|done|].
    assert (Hmono : ComputeStringTableCapacity (number_of_elements_ d + 1)
                    <= ComputeStringTableCapacity N).
    { apply ComputeStringTableCapacity_mono; lia. }
    destruct (IH d1 isolate1 N Hint1)
      as (d' & isolate' & results & -> & Hint' & Hsub' & Hall);
      [lia|done|lia| |..].
    { destruct Hiso as [->|[->| ->]]; done. }
    { intros i k' Hi Hk'. apply Hkeys; [done|by right]. }
    exists d', isolate', (r :: results). split; [done|]. split; [done|].
    split; [intros s Hs; by apply Hsub', Hsub1|].
    constructor; [|done]. split; [by apply Hsub'|done].
Qed.

(** X7.  Interning a list of keys into an interning table, with fuel for
    the largest capacity the table can reach, returns one string per key:
    a string of the content of its key, and the same string object for
    two keys exactly when the keys have the same hash and characters. *)
Theorem LookupKeys_canonical `{StringTableKey IsolateT K} (fuel : nat)
    (good : IsolateT → Prop) (c : K → list Z) (table : StringTable)
    (isolate : IsolateT) (keys : list K) :
  Interned (data_ table) →
  (let N := number_of_elements (data_ table) + Z.of_nat (length keys) in
   N + N / 2 <= 2 ^ 30 ∧
   2 * Z.max (capacity (data_ table)) (ComputeStringTableCapacity N)
   <= Z.of_nat fuel) →
  good isolate →
  InsertingKeys good keys c →
  ∃ table' isolate' results,
    LookupKeys fuel table isolate keys = Some (table', isolate', results) ∧
    Interned (data_ table') ∧
    length results = length keys ∧
    ∀ (i j : nat) ki kj ri rj,
      keys !! i = Some ki → keys !! j = Some kj →
      results !! i = Some ri → results !! j = Some rj →
      content ri = (key_hash ki, c ki) ∧
      (ri = rj ↔ key_hash ki = key_hash kj ∧ c ki = c kj).
Proof.
  destruct table as [d]. cbn [data_]. intros Hint [Hbound Hfuel] Hgood Hkeys.
  destruct (LookupKeys_interned fuel good c keys d isolate _ Hint
              ltac:(reflexivity) Hbound Hfuel Hgood Hkeys)
    as (d' & isolate' & results & Hrun & Hint' & _ & Hall).
  exists (mkStringTable d'), isolate', results. split; [done|].
  split; [done|]. split; [symmetry; by eapply Forall2_length|].
  intros i j ki kj ri rj Hki Hkj Hri Hrj.
  destruct (Forall2_lookup_lr _ _ _ _ _ _ Hall Hki Hri) as [Hini Hci].
  destruct (Forall2_lookup_lr _ _ _ _ _ _ Hall Hkj Hrj) as [Hinj Hcj].
  split; [done|]. split.
  - intros ->. rewrite Hci in Hcj. by injection Hcj.
  - intros [Hh Hc]. cbn [data_] in *.
    apply (NoDup_content_inj (strings_of (elements_ d'))); try done.
    + apply Hint'.
    + rewrite Hci, Hcj. by rewrite Hh, Hc.
Qed.

(** The keys of strings that exist already. *)
Lemma StringTableInsertionKey_matches (key s : String) :
  KeyIsMatch key s = true ↔ content s = (key_hash key, chars key).
Proof.
  unfold KeyIsMatch, content. cbn. unfold SlowEquals, String_length.
  destruct (String_hash s =? String_hash key) eqn:Hh; cbn.
  - apply Z.eqb_eq in Hh.
    destruct (Z.of_nat (length (chars s)) =? Z.of_nat (length (chars key)))
      eqn:Hl; cbn.
    + rewrite bool_decide_eq_true. split; [intros ->; by rewrite Hh|].
      by intros [= _ ->].
    + apply Z.eqb_neq in Hl. split; [done|]. intros [= _ Hc].
      by rewrite Hc in Hl.
  - apply Z.eqb_neq in Hh. split; [done|]. by intros [= ? _].
Qed.

Lemma StringTableInsertionKey_inserting (keys : list String) :
  InsertingKeys (λ _ : unit, True) keys chars.
Proof.
  intros isolate key _ _.
  split; [intros s; apply StringTableInsertionKey_matches|].
  split; [|done]. unfold InsertsItself. cbn.
  split; [by split; [|split]|]. by apply StringTableInsertionKey_matches.
Qed.

Lemma New_Interned k : 11 <= k <= 30 → Interned (New (2 ^ k)).
Proof.
  intros Hk. split.
  - by apply New_Invariant.
  - intros k' _ e s Hget. unfold Get, New in Hget. cbn in Hget.
    destruct (e <? 0); [done|].
    apply lookup_replicate in Hget as [? _]. done.
  - cbn. rewrite strings_of_replicate. constructor.
Qed.

(** ** Concrete interning tables *)

Lemma InternalizedStringKey_matches `{Runtime} (key : InternalizedStringKey) :
  length_ key = String_length (string_ key) →
  MatchesContent key (chars (string_ key)).
Proof.
  intros Hlen s. unfold KeyIsMatch, content. cbn. unfold SlowEquals.
  rewrite Hlen. unfold String_length.
  destruct (String_hash s =? hash_ key) eqn:Hh; cbn.
  - apply Z.eqb_eq in Hh.
    destruct (Z.of_nat (length (chars s))
              =? Z.of_nat (length (chars (string_ key)))) eqn:Hl; cbn.
    + rewrite bool_decide_eq_true. split; [intros <-; by rewrite Hh|].
      by intros [= _ ->].
    + apply Z.eqb_neq in Hl. split; [done|]. intros [= _ Hc].
      by rewrite Hc in Hl.
  - apply Z.eqb_neq in Hh. split; [done|]. by intros [= ? _].
Qed.

Lemma LookupKey_Interned_step `{StringTableKey IsolateT K} fuel table
    (isolate : IsolateT) (key : K) c :
  Interned (data_ table) → CanGrow (data_ table) →
  2 * capacity_ (data_ table) <= Z.of_nat fuel →
  InsertsItself isolate key → MatchesContent key c →
  match LookupKey fuel table isolate key return Prop with
  | Some (t, _, _) => Interned (data_ t)
  | None => False
  end.
Proof.
  destruct table as [d]. cbn [data_]. intros Hint Hgrow Hfuel Hins Hm.
  destruct (LookupKey_interned fuel d isolate key c Hint Hgrow Hfuel Hins Hm)
    as (d' & isolate' & r & -> & Hint' & _). exact Hint'.
Qed.

Ltac inserts_itself :=
  vm_compute; split; [|reflexivity]; split; [reflexivity|];
  split; [reflexivity|]; intros ?; reflexivity.

(** One interning step of a concrete run: the table the call leaves is
    an interning table again. *)
Local Ltac interning_step Hint c :=
  match goal with
  | |- context [LookupKey ?fuel ?t ?i ?k] =>
      let H := fresh "H" in
      let E := fresh "E" in
      pose proof (LookupKey_Interned_step fuel t i k c Hint
                    ltac:(vm_compute; discriminate)
                    ltac:(vm_compute; discriminate)
                    ltac:(inserts_itself)
                    ltac:(by apply (InternalizedStringKey_matches k))) as H;
      clear Hint;
      destruct (LookupKey fuel t i k) as [[[? ?] ?]|] eqn:E; [|done];
      vm_compute in E; injection E as <- <- <-;
      cbn [mbind option_bind]; rename H into Hint
  end.

Lemma data2_data3_Interned : Interned data2 ∧ Interned data3.
Proof.
  cut (match table2 return Prop with
       | Some (t, i) =>
           Interned (data_ t) ∧
           match LookupKey 4096 t i (key_of (heap i) 103) return Prop with
           | Some (t', _, _) => Interned (data_ t')
           | None => False
           end
       | None => False
       end).
  { intros Hcut. split.
    - unfold data2. destruct table2 as [[t i]|]; [|done]. exact (proj1 Hcut).
    - replace data3
        with (match table2 with
              | Some (t, i) =>
                  match LookupKey 4096 t i (key_of (heap i) 103) with
                  | Some (t', _, _) => data_ t'
                  | None => New kStringTableMinCapacity
                  end
              | None => New kStringTableMinCapacity
              end) by (vm_compute; reflexivity).
      destruct table2 as [[t i]|]; [|done]. destruct Hcut as [_ Hcut].
      by destruct (LookupKey 4096 t i (key_of (heap i) 103))
        as [[[t' ?] ?]|]. }
  pose proof (New_Interned 11 ltac:(lia)) as Hint.
  change (2 ^ 11) with kStringTableMinCapacity in Hint.
  change (New kStringTableMinCapacity)
    with (data_ (mkStringTable (New kStringTableMinCapacity))) in Hint.
  unfold table2.
  interning_step Hint [97]. interning_step Hint [98].
  split; [exact Hint|].
  match goal with
  | |- context [LookupKey ?fuel ?t ?i ?k] =>
      exact (LookupKey_Interned_step fuel t i k [99] Hint
               ltac:(vm_compute; discriminate)
               ltac:(vm_compute; discriminate)
               ltac:(inserts_itself)
               ltac:(by apply (InternalizedStringKey_matches k)))
  end.
Qed.

Lemma data2_Interned : Interned data2.
Proof. apply data2_data3_Interned. Qed.

Lemma data3_Interned : Interned data3.
Proof. apply data2_data3_Interned. Qed.

Lemma data3_Invariant : Invariant data3.
Proof. apply data3_Interned. Qed.

Lemma FindEntry_decides_membership_witness :
  (∃ s, FindEntry 2048 data3 (key_of heap3 104) 0 = Some (Entry 3) ∧
        Get data3 (Entry 3) = Some (StringElement s) ∧
        KeyIsMatch (key_of heap3 104) s = true) ∧
  FindEntry 2048 data3 (mkInternalizedStringKey 0 1 (mkString 105 0 [100])
                          false) 0 = Some NotFound ∧
  ∀ s, s ∈ strings_of (elements_ data3) →
       KeyIsMatch (mkInternalizedStringKey 0 1 (mkString 105 0 [100]) false) s
       = false.
Proof.
  assert (Hfound : FindEntry 2048 data3 (key_of heap3 104) 0
                   = Some (Entry 3)) by (vm_compute; reflexivity).
  assert (Hnone : FindEntry 2048 data3
                    (mkInternalizedStringKey 0 1 (mkString 105 0 [100]) false)
                    0 = Some NotFound) by (vm_compute; reflexivity).
  split.
  - destruct (FindEntry_decides_membership 2048 data3 (key_of heap3 104))
      as (r & Hfind & Hr).
    + exact data3_Interned.
    + vm_compute. discriminate.
    + change (key_hash (key_of heap3 104)) with 0 in Hfind.
      rewrite Hfound in Hfind. injection Hfind as <-.
      destruct Hr as (s & Hget & Hmatch). exists s.
      split; [exact Hfound|]. split; [exact Hget|exact Hmatch].
  - destruct (FindEntry_decides_membership 2048 data3
                (mkInternalizedStringKey 0 1 (mkString 105 0 [100]) false))
      as (r & Hfind & Hr).
    + exact data3_Interned.
    + vm_compute. discriminate.
    + cbn [key_hash InternalizedStringKey_key hash_] in Hfind.
      rewrite Hnone in Hfind. injection Hfind as <-.
      split; [exact Hnone|exact Hr].
Defined.

Lemma LookupKey_keeps_interning_witness :
  ∃ table' isolate' result,
    LookupKey 4096 (mkStringTable (New 2048)) tt (mkString 201 7 [97; 98])
    = Some (table', isolate', result) ∧
    Interned (data_ table') ∧
    result ∈ strings_of (elements_ (data_ table')) ∧
    content result = (7, [97; 98]) ∧
    (∀ s, s ∈ strings_of (elements_ (New 2048)) →
          s ∈ strings_of (elements_ (data_ table'))) ∧
    (∀ s, s ∈ strings_of (elements_ (data_ table')) →
          s = result ∨ s ∈ strings_of (elements_ (New 2048))).
Proof.
  refine (LookupKey_keeps_interning 4096 (mkStringTable (New 2048)) tt
            (mkString 201 7 [97; 98]) [97; 98] _ _ _ _ _).
  - apply (New_Interned 11). lia.
  - vm_compute. discriminate.
  - vm_compute. discriminate.
  - apply (StringTableInsertionKey_inserting [mkString 201 7 [97; 98]] tt);
      [exact I|by left].
  - intros s. apply StringTableInsertionKey_matches.
Defined.

Lemma LookupKeys_canonical_witness :
  ∃ table' isolate' results,
    LookupKeys 4096 (mkStringTable (New 2048)) tt three_keys
    = Some (table', isolate', results) ∧
    Interned (data_ table') ∧
    length results = length three_keys ∧
    ∀ (i j : nat) ki kj ri rj,
      three_keys !! i = Some ki → three_keys !! j = Some kj →
      results !! i = Some ri → results !! j = Some rj →
      content ri = (key_hash ki, chars ki) ∧
      (ri = rj ↔ key_hash ki = key_hash kj ∧ chars ki = chars kj).
Proof.
  refine (LookupKeys_canonical 4096 (λ _ : unit, True) chars
            (mkStringTable (New 2048)) tt three_keys _ _ _ _).
  - apply (New_Interned 11). lia.
  - vm_compute. split; discriminate.
  - exact I.
  - apply StringTableInsertionKey_inserting.
Defined.

(** ** The capacity policy, the probes and the searches *)

(** X1.  [ComputeStringTableCapacity] yields a power of two that is at
    least the minimum capacity and leaves the requested elements half as
    much room again; above the minimum it is the least such power of
    two. *)
Theorem ComputeStringTableCapacity_least_power_of_two (n : Z) :
  0 <= n → n + n / 2 <= 2 ^ 30 →
  let cap := ComputeStringTableCapacity n in
  kStringTableMinCapacity <= cap ∧
  (∃ j, 0 <= j ∧ cap = 2 ^ j) ∧
  n + n / 2 <= cap ∧
  (kStringTableMinCapacity < cap → cap / 2 < n + n / 2).
Proof.
  intros Hn Hbound cap.
  destruct (ComputeStringTableCapacity_spec n Hn Hbound)
    as (j & Hj & Hcap & Hfit & Hmin).
  unfold cap, kStringTableMinCapacity. rewrite Hcap.
  assert (2 ^ 11 <= 2 ^ j) by (apply Z.pow_le_mono_r; lia).
  split; [lia|]. split; [exists j; split; [lia|done]|]. split; [done|].
  intros Hbig.
  assert (11 < j).
  { destruct (Z.eq_dec j 11) as [->|]; [lia|lia]. }
  assert (Hj2 : 2 ^ j = 2 ^ (j - 1) * 2).
  { rewrite Z.mul_comm, <- Z.pow_succ_r by lia. f_equal. lia. }
  rewrite Hj2, Z.div_mul by lia. by apply Hmin.
Qed.

Lemma ComputeStringTableCapacity_least_power_of_two_witness :
  let cap := ComputeStringTableCapacity 3000 in
  kStringTableMinCapacity <= cap ∧
  (∃ j, 0 <= j ∧ cap = 2 ^ j) ∧
  3000 + 3000 / 2 <= cap ∧
  (kStringTableMinCapacity < cap → cap / 2 < 3000 + 3000 / 2).
Proof.
  apply (ComputeStringTableCapacity_least_power_of_two 3000).
  - lia.
  - vm_compute. discriminate.
Defined.

(** X2.  In a table of [2 ^ k] slots the probes of a hash visit every
    slot exactly once in their first [2 ^ k] steps: [FirstProbe] and
    [NextProbe] enumerate the table. *)
Theorem probes_visit_every_slot_once (hash k e : Z) :
  0 <= k <= 31 → 0 <= e < 2 ^ k →
  ∃ i : nat, Z.of_nat i < 2 ^ k ∧
    (ProbeState hash (2 ^ k) i).1 = Entry e ∧
    ∀ j : nat, Z.of_nat j < 2 ^ k →
      (ProbeState hash (2 ^ k) j).1 = Entry e → j = i.
Proof.
  intros Hk He.
  destruct (triangular_probe_surj hash k e ltac:(lia) He) as (i & Hi & Hp).
  exists i. split; [done|]. rewrite ProbeState_pow2 by done.
  split; [done|]. intros j Hj. rewrite ProbeState_pow2 by done. cbn.
  intros Hpj. apply (triangular_probe_inj hash k); [lia|done|done|].
  congruence.
Qed.

Lemma probes_visit_every_slot_once_witness :
  ∃ i : nat, Z.of_nat i < 2 ^ 11 ∧
    (ProbeState 5 (2 ^ 11) i).1 = Entry 100 ∧
    ∀ j : nat, Z.of_nat j < 2 ^ 11 →
      (ProbeState 5 (2 ^ 11) j).1 = Entry 100 → j = i.
Proof. apply (probes_visit_every_slot_once 5 11 100); lia. Defined.

(** X3.  On a table that satisfies the invariant [FindInsertionEntry]
    returns, with as much fuel as the table has slots, a slot of the
    table that is empty or deleted: the first such slot on the probe
    sequence of the hash, the slots before it holding strings. *)
Theorem FindInsertionEntry_returns_free_slot (fuel : nat) (d : Data)
    (hash : Z) :
  Invariant d → capacity d <= Z.of_nat fuel →
  ∃ (n : nat) e,
    FindInsertionEntry fuel d hash = Some (Entry e) ∧
    0 <= e < capacity d ∧
    (Get d (Entry e) = Some empty_element ∨
     Get d (Entry e) = Some deleted_element) ∧
    (ProbeState hash (capacity d) n).1 = Entry e ∧
    ∀ j : nat, (j < n)%nat →
      ∃ t, Get d (ProbeState hash (capacity d) j).1 = Some (StringElement t).
Proof.
  intros Hinv Hfuel. unfold capacity in *.
  destruct (Invariant_Searchable d Hinv) as (k & Hk & Hs).
  destruct (Invariant_has_empty d Hinv) as (e0 & He0 & Hempty0).
  pose proof Hs as (_ & Hc & _).
  destruct (FindInsertionEntry_returns fuel d hash k e0 Hs ltac:(lia)
              (or_introl Hempty0) ltac:(lia)) as [r Hr].
  destruct (FindInsertionEntry_index fuel d hash k r Hs Hr)
    as (n & e & x & -> & Hpn & Hn & He & Hx & Hfree & Hbefore).
  exists n, e. split; [done|]. split; [lia|]. split.
  { destruct Hfree as [-> | ->]; [by left|by right]. }
  rewrite Hc. split.
  - by rewrite ProbeState_pow2 by lia.
  - intros j Hj. rewrite ProbeState_pow2 by lia. by apply Hbefore.
Qed.

Lemma FindInsertionEntry_returns_free_slot_witness :
  ∃ n : nat,
    FindInsertionEntry 2048 data3 0 = Some (Entry 6) ∧
    Get data3 (Entry 6) = Some empty_element ∧
    (ProbeState 0 (capacity data3) n).1 = Entry 6 ∧
    ∀ j : nat, (j < n)%nat →
      ∃ t, Get data3 (ProbeState 0 (capacity data3) j).1
           = Some (StringElement t).
Proof.
  assert (Hcomputed : FindInsertionEntry 2048 data3 0 = Some (Entry 6))
    by (vm_compute; reflexivity).
  destruct (FindInsertionEntry_returns_free_slot 2048 data3 0)
    as (n & e & Hfind & _ & _ & Hprobe & Hbefore).
  - exact data3_Invariant.
  - vm_compute. discriminate.
  - rewrite Hcomputed in Hfind. injection Hfind as <-. exists n.
    split; [exact Hcomputed|]. split; [vm_compute; reflexivity|].
    split; [exact Hprobe|exact Hbefore].
Defined.

(** X4.  On a table that satisfies the invariant
    [FindEntryOrInsertionEntry] returns a slot, never [NotFound]: the slot
    [FindEntry] returns when that finds a string the key matches, and
    else the free slot [FindInsertionEntry] returns. *)
Theorem FindEntryOrInsertionEntry_finds_or_offers
    `{StringTableKey IsolateT K} (fuel : nat) (d : Data) (key : K)
    (hash : Z) :
  Invariant d → capacity d <= Z.of_nat fuel →
  ∃ e,
    FindEntryOrInsertionEntry fuel d key hash = Some (Entry e) ∧
    0 <= e < capacity d ∧
    ((FindEntry fuel d key hash = Some (Entry e) ∧
      ∃ s, Get d (Entry e) = Some (StringElement s) ∧
           KeyIsMatch key s = true) ∨
     (FindEntry fuel d key hash = Some NotFound ∧
      FindInsertionEntry fuel d hash = Some (Entry e) ∧
      (Get d (Entry e) = Some empty_element ∨
       Get d (Entry e) = Some deleted_element))).
Proof.
  intros Hinv Hfuel. unfold capacity in *.
  destruct (Invariant_Searchable d Hinv) as (k & Hk & Hs).
  destruct (Invariant_has_empty d Hinv) as (e0 & He0 & Hempty0).
  pose proof Hs as (_ & Hc & Hl).
  rewrite (FindEntryOrInsertionEntry_split fuel d key hash k Hs).
  destruct (FindEntry_returns fuel d key hash k e0 Hs ltac:(lia) Hempty0
              ltac:(lia)) as [r Hr].
  rewrite Hr.
  destruct (FindEntry_inv fuel d key hash k r Hs Hr)
    as (n0 & e1 & _ & _ & _ & Hstop).
  destruct Hstop as [[-> _]|[-> (s & Hget & Hmatch)]].
  - destruct (FindInsertionEntry_returns fuel d hash k e0 Hs ltac:(lia)
                (or_introl Hempty0) ltac:(lia)) as [r2 Hr2].
    destruct (FindInsertionEntry_index fuel d hash k r2 Hs Hr2)
      as (n & e & x & -> & _ & _ & He & Hx & Hfree & _).
    exists e. split; [done|]. split; [lia|]. right. split; [done|].
    split; [done|]. destruct Hfree as [-> | ->]; [by left|by right].
  - exists e1. split; [done|].
    pose proof (Get_Some_range d e1 _ Hget). split; [lia|]. left.
    split; [done|]. by exists s.
Qed.

Lemma FindEntryOrInsertionEntry_finds_or_offers_witness :
  FindEntryOrInsertionEntry 2048 data3 (key_of heap3 104) 0
  = Some (Entry 3) ∧
  FindEntry 2048 data3 (key_of heap3 104) 0 = Some (Entry 3) ∧
  ∃ s, Get data3 (Entry 3) = Some (StringElement s) ∧
       KeyIsMatch (key_of heap3 104) s = true.
Proof.
  assert (Hcomputed : FindEntryOrInsertionEntry 2048 data3 (key_of heap3 104) 0
                      = Some (Entry 3)) by (vm_compute; reflexivity).
  assert (Hfound : FindEntry 2048 data3 (key_of heap3 104) 0
                   = Some (Entry 3)) by (vm_compute; reflexivity).
  destruct (FindEntryOrInsertionEntry_finds_or_offers 2048 data3
              (key_of heap3 104) 0)
    as (e & Hfind & _ & [(Hentry & s & Hget & Hmatch) | (Hnone & _)]).
  - exact data3_Invariant.
  - vm_compute. discriminate.
  - rewrite Hcomputed in Hfind. injection Hfind as <-.
    split; [exact Hcomputed|]. split; [exact Hentry|].
    exists s. split; [exact Hget|exact Hmatch].
  - rewrite Hfound in Hnone. discriminate.
Defined.

(** ** A new table *)

Lemma Get_New capacity i x : Get (New capacity) i = Some x → x = empty_element.
Proof.
  unfold Get, New. cbn. destruct i as [raw|]; [|done].
  destruct (raw <? 0); [done|]. by intros [? _]%lookup_replicate.
Qed.

(** X8.  A new table of [2 ^ k] slots is an interning table without
    strings: every search fails at its first probe, and the slot offered
    for an insertion is the first probe of the hash. *)
Theorem New_is_an_empty_interning_table `{StringTableKey IsolateT K}
    (fuel : nat) (k : Z) (key : K) (hash : Z) :
  11 <= k <= 30 → (0 < fuel)%nat →
  Interned (New (2 ^ k)) ∧
  strings_of (elements_ (New (2 ^ k))) = [] ∧
  FindEntry fuel (New (2 ^ k)) key hash = Some NotFound ∧
  FindInsertionEntry fuel (New (2 ^ k)) hash = Some (FirstProbe hash (2 ^ k)) ∧
  FindEntryOrInsertionEntry fuel (New (2 ^ k)) key hash
  = Some (FirstProbe hash (2 ^ k)).
Proof.
  intros Hk Hfuel.
  assert (Hs : Searchable (New (2 ^ k)) k) by (apply New_Searchable; lia).
  destruct (probe_defined (New (2 ^ k)) k hash 0 Hs) as (e & x & Hp & He & Hx).
  pose proof (Get_New _ _ _ Hx) as ->.
  assert (Hfirst : FirstProbe hash (2 ^ k) = Entry e).
  { rewrite FirstProbe_pow2 by lia. rewrite <- Hp. unfold triangular_probe.
    change (triangular (Z.of_nat 0)) with 0. by rewrite Z.add_0_r. }
  assert (Hfind : FindEntry fuel (New (2 ^ k)) key hash = Some NotFound).
  { apply (FindEntry_intro fuel _ key hash k 0 NotFound Hs Hfuel); [lia|].
    left. by rewrite Hp. }
  assert (Hins : FindInsertionEntry fuel (New (2 ^ k)) hash = Some (Entry e)).
  { unfold FindInsertionEntry. cbn [capacity_ New].
    rewrite uint32_t_id by (split; [lia|];
      apply Z.pow_lt_mono_r; lia).
    rewrite Hfirst. destruct fuel as [|fuel]; [lia|]. cbn [ProbeLoop].
    unfold FindInsertionEntry_body. by rewrite Hx. }
  split; [by apply New_Interned|]. split; [apply strings_of_replicate|].
  split; [done|]. rewrite Hfirst. split; [done|].
  by rewrite (FindEntryOrInsertionEntry_split fuel _ key hash k Hs), Hfind.
Qed.

Lemma New_is_an_empty_interning_table_witness :
  Interned (New (2 ^ 11)) ∧
  strings_of (elements_ (New (2 ^ 11))) = [] ∧
  FindEntry 1 (New (2 ^ 11)) (mkString 201 7 [97; 98]) 7 = Some NotFound ∧
  FindInsertionEntry 1 (New (2 ^ 11)) 7 = Some (FirstProbe 7 (2 ^ 11)) ∧
  FindEntryOrInsertionEntry 1 (New (2 ^ 11)) (mkString 201 7 [97; 98]) 7
  = Some (FirstProbe 7 (2 ^ 11)).
Proof.
  refine (New_is_an_empty_interning_table (IsolateT := unit) 1 11
            (mkString 201 7 [97; 98]) 7 _ _); lia.
Defined.

(** ** [EnsureCapacity] leaves room *)

Lemma EnsureCapacity_unfold fuel d t' d' :
  EnsureCapacity fuel (mkStringTable d) 1 = Some (t', d') →
  (d' = d ∧
   StringTableHasSufficientCapacityToAdd (capacity_ d)
     (number_of_elements_ d) (number_of_deleted_elements_ d) 1 = true) ∨
  ∃ cap, Resize fuel d cap = Some d'.
Proof.
  unfold EnsureCapacity. cbn [data_]. unfold capacity, number_of_elements,
    number_of_deleted_elements.
  set (shrunk := ComputeStringTableCapacityWithShrink _ _).
  set (sufficient := StringTableHasSufficientCapacityToAdd _ _ _ _).
  set (grown := ComputeStringTableCapacity _).
  assert (Hgrown : kStringTableMinCapacity <= grown).
  { unfold grown, ComputeStringTableCapacity. lia. }
  assert (Hshrunk : shrunk < capacity_ d → kStringTableMinCapacity <= shrunk).
  { unfold shrunk, ComputeStringTableCapacityWithShrink.
    destruct (_ <? _); [lia|].
    destruct (ComputeStringTableCapacity _ <? kStringTableMinCapacity) eqn:Hlt;
      [lia|]. apply Z.ltb_ge in Hlt. lia. }
  unfold kStringTableMinCapacity in *.
  destruct (shrunk <? capacity_ d) eqn:Hs.
  - apply Z.ltb_lt in Hs. specialize (Hshrunk Hs).
    destruct (shrunk =? -1) eqn:He; [apply Z.eqb_eq in He; lia|]. cbn.
    destruct (Resize fuel d shrunk) as [nd|] eqn:Hres; [|done].
    intros [= _ <-]. right. eauto.
  - destruct sufficient; cbn.
    + intros [= _ <-]. by left.
    + destruct (grown =? -1) eqn:He; [apply Z.eqb_eq in He; lia|]. cbn.
      destruct (Resize fuel d grown) as [nd|] eqn:Hres; [|done].
      intros [= _ <-]. right. eauto.
Qed.

(** X9.  [EnsureCapacity] returns a generation with the strings of the
    old one and the same element count, in which one more element fits
    by the test of [StringTableHasSufficientCapacityToAdd].  It is the old
    generation itself, or a rehashed one without deleted slots that keeps
    the old generation as its previous data. *)
Theorem EnsureCapacity_makes_room (fuel : nat) (table : StringTable) :
  Invariant (data_ table) → CanGrow (data_ table) →
  2 * capacity (data_ table) <= Z.of_nat fuel →
  ∃ table' data',
    EnsureCapacity fuel table 1 = Some (table', data') ∧
    data_ table' = data' ∧
    Invariant data' ∧
    strings_of (elements_ data') ≡ₚ strings_of (elements_ (data_ table)) ∧
    number_of_elements data' = number_of_elements (data_ table) ∧
    StringTableHasSufficientCapacityToAdd (capacity data')
      (number_of_elements data') (number_of_deleted_elements data') 1 = true ∧
    (data' = data_ table ∨
     PreviousData data' = Some (data_ table) ∧
     number_of_deleted_elements data' = 0).
Proof.
  destruct table as [d]. cbn [data_]. intros Hinv Hgrow Hfuel.
  unfold capacity, number_of_elements, number_of_deleted_elements in *.
  destruct (EnsureCapacity_spec fuel d Hinv Hgrow Hfuel)
    as (d' & Hensure & Hinv' & Hnof & Hperm & Hslack & Hroom & Hfuel' & _).
  exists (mkStringTable d'), d'. split; [done|]. split; [done|].
  split; [done|]. split; [done|]. split; [done|].
  pose proof (Invariant_bounds d Hinv) as (Hn0 & Hd0 & Hn1 & Hcap).
  pose proof (Invariant_bounds d' Hinv') as (Hn0' & Hd0' & Hn1' & Hcap').
  destruct (EnsureCapacity_unfold fuel d _ d' Hensure)
    as [[-> Hsuff]|[cap Hres]].
  { split; [done|]. by left. }
  destruct (Invariant_Searchable d' Hinv') as (k' & Hk' & Hs').
  pose proof Hs' as (_ & Hc' & _).
  pose proof (Resize_capacity fuel d cap d' Hres) as Hcapeq.
  destruct (Resize_spec fuel d cap k')
    as (nd & Hres' & _ & _ & _ & _ & Hndel & _ & _ & Hprev);
    [apply Hinv|lia|congruence| |lia|].
  { rewrite <- Hcapeq. apply Permutation_length in Hperm. rewrite <- Hperm.
    pose proof (inv_elements d' Hinv'). lia. }
  rewrite Hres in Hres'. injection Hres' as <-.
  split; [|by right].
  apply StringTableHasSufficientCapacityToAdd_spec; [unfold CanGrow in Hgrow; lia|lia|lia|].
  rewrite Hndel, Hnof. split; [lia|]. split; [|lia].
  apply Z.div_pos; lia.
Qed.

Lemma EnsureCapacity_makes_room_witness :
  ∃ table' data',
    EnsureCapacity (2 * 4096) (mkStringTable cluttered) 1
    = Some (table', data') ∧
    data_ table' = data' ∧
    Invariant data' ∧
    strings_of (elements_ data') ≡ₚ strings_of (elements_ cluttered) ∧
    number_of_elements data' = number_of_elements cluttered ∧
    StringTableHasSufficientCapacityToAdd (capacity data')
      (number_of_elements data') (number_of_deleted_elements data') 1 = true ∧
    PreviousData data' = Some cluttered ∧
    number_of_deleted_elements data' = 0 ∧
    number_of_deleted_elements cluttered = 2000 ∧
    capacity cluttered = 4096 ∧ capacity data' = 2048.
Proof.
  assert (Hcomputed :
            match EnsureCapacity (2 * 4096) (mkStringTable cluttered) 1
                  return Prop with
            | Some (_, d) => capacity d = 2048
            | None => False
            end) by (vm_compute; reflexivity).
  destruct (EnsureCapacity_makes_room (2 * 4096) (mkStringTable cluttered))
    as (table' & data' & Hensure & Htable & Hinv & Hperm & Hnof & Hroom
        & Hcase).
  - exact cluttered_Invariant.
  - vm_compute. discriminate.
  - vm_compute. discriminate.
  - exists table', data'. rewrite Hensure in Hcomputed.
    split; [exact Hensure|]. split; [exact Htable|]. split; [exact Hinv|].
    split; [exact Hperm|]. split; [exact Hnof|]. split; [exact Hroom|].
    destruct Hcase as [Hsame | [Hprev Hdel]].
    + rewrite Hsame in Hcomputed. discriminate Hcomputed.
    + split; [exact Hprev|]. split; [exact Hdel|].
      split; [reflexivity|]. split; [reflexivity|exact Hcomputed].
Defined.

End StringTableInterning.

(** * The canonical string of a content *)

Module StringTableCanonical.
Import StringTable Concrete StringTableProofs StringTableInterning.

(** ** Two lookups of the same content *)

Lemma LookupString_through_key `{Runtime} fuel table isolate string
    isolate1 key :
  LookupString_key isolate string = Some (isolate1, key) →
  LookupString fuel table isolate string
  = match LookupKey fuel table isolate1 key with
    | None => None
    | Some (table', isolate', found) =>
        if negb (string =? ptr found)
           && negb (IsThinString (heap isolate') string)
        then Some (table',
                   SetInternalizedReference isolate' string (ptr found),
                   ptr found)
        else Some (table', isolate', ptr found)
    end.
Proof.
  unfold LookupString_key, LookupString.
  destruct (Flatten (heap isolate) string) as [h result].
  destruct (negb (IsInternalizedString h result)); [|done].
  cbv zeta. cbn [string_forwarding_table].
  destruct (IsForwardingIndex (raw_hash_field (EnsureHash h result) result));
    [done|].
  intros [= <- <-].
  by destruct (LookupKey fuel table _ _) as [[[table' isolate'] found]|].
Qed.

Lemma LookupString_key_matches `{Runtime} isolate string isolate1 key :
  LookupString_key isolate string = Some (isolate1, key) →
  MatchesContent key (chars (string_ key)).
Proof.
  unfold LookupString_key.
  destruct (Flatten (heap isolate) string) as [h result].
  destruct (negb (IsInternalizedString h result)); [|done].
  cbv zeta.
  destruct (IsForwardingIndex (raw_hash_field (EnsureHash h result) result));
    [done|].
  intros [= <- <-]. by apply InternalizedStringKey_matches.
Qed.

Lemma Interned_lookup `{StringTableKey IsolateT K} fuel d
    (isolate : IsolateT) (key : K) c r :
  Interned d → capacity_ d <= Z.of_nat fuel →
  r ∈ strings_of (elements_ d) → content r = (key_hash key, c) →
  MatchesContent key c →
  LookupKey fuel (mkStringTable d) isolate key
  = Some (mkStringTable d, isolate, r).
Proof.
  intros [Hinv Hfind Huniq] Hfuel Hin Hcontent Hmatches.
  destruct (Invariant_Searchable d Hinv) as (k & Hk & Hs).
  destruct (Invariant_has_empty d Hinv) as (e0 & He0 & Hempty0).
  pose proof Hs as (_ & Hc & _).
  unfold LookupKey. cbn [data_].
  destruct (FindEntry_returns fuel d key (key_hash key) k e0 Hs ltac:(lia)
              Hempty0 ltac:(lia)) as [r0 Hr0].
  rewrite Hr0.
  destruct (FindEntry_inv fuel d key _ k r0 Hs Hr0)
    as (n0 & e00 & _ & _ & _ & Hstop).
  destruct Hstop as [[-> _] | [-> (s & Hg & Hm)]].
  - apply strings_of_Get in Hin as [e He].
    pose proof (NotFound_no_match fuel d key k e r Hs (Hfind k Hc) Hr0 He)
      as Hno.
    apply Hmatches in Hcontent. congruence.
  - rewrite Hg. do 2 f_equal.
    apply (NoDup_content_inj (strings_of (elements_ d))); try done.
    + apply strings_of_Get. eauto.
    + apply Hmatches in Hm. congruence.
Qed.

Lemma Interned_Canonical `{Runtime} fuel d hash c r :
  Interned d → capacity_ d <= Z.of_nat fuel →
  r ∈ strings_of (elements_ d) → content r = (hash, c) →
  Canonical fuel (mkStringTable d) hash c r.
Proof.
  intros Hint Hfuel Hin Hcontent. split.
  - intros IsolateT K key_kind isolate key <- Hmatches.
    by apply (Interned_lookup fuel d isolate key c).
  - intros isolate string isolate1 key Hkey <- <-.
    rewrite (LookupString_through_key fuel _ isolate string isolate1 key Hkey).
    rewrite (Interned_lookup fuel d isolate1 key (chars (string_ key)) r);
      try done.
    + destruct (negb (string =? ptr r) && negb (IsThinString (heap isolate1) string));
        eauto.
    + by apply (LookupString_key_matches isolate string isolate1).
Qed.

Lemma LookupKey_interned_cases `{StringTableKey IsolateT K} fuel d
    (isolate : IsolateT) (key : K) c :
  Interned d → CanGrow d → 2 * capacity_ d <= Z.of_nat fuel →
  InsertsItself isolate key → MatchesContent key c →
  ∃ d' isolate' r,
    LookupKey fuel (mkStringTable d) isolate key
    = Some (mkStringTable d', isolate', r) ∧
    content r = (key_hash key, c) ∧
    r ∈ strings_of (elements_ d') ∧
    Interned d' ∧
    capacity_ d' <= Z.of_nat fuel ∧
    (r ∈ strings_of (elements_ d) → d' = d ∧ isolate' = isolate) ∧
    (r ∉ strings_of (elements_ d) →
     (∀ s, s ∈ strings_of (elements_ d) → content s ≠ (key_hash key, c)) ∧
     strings_of (elements_ d') ≡ₚ r :: strings_of (elements_ d) ∧
     number_of_elements_ d' = number_of_elements_ d + 1).
Proof.
  intros Hint Hgrow Hfuel Hins Hmatches.
  pose proof (Invariant_bounds d (interned_invariant d Hint))
    as (_ & _ & _ & Hcap).
  destruct (LookupKey_interned fuel d isolate key c Hint Hgrow Hfuel Hins
              Hmatches)
    as (d' & isolate' & r & Hlook & Hint' & Hin & Hcontent & Hold & Hnew & _).
  destruct (LookupKey_spec fuel d isolate key (interned_invariant d Hint)
              Hgrow Hfuel Hins)
    as (d2 & isolate2 & r2 & e2 & Hlook2 & _ & Hfuel' & _).
  rewrite Hlook in Hlook2. injection Hlook2 as <- <- <-.
  exists d', isolate', r. do 5 (split; [done|]). split.
  - intros Hin0.
    rewrite (Interned_lookup fuel d isolate key c r Hint ltac:(lia) Hin0
               Hcontent Hmatches) in Hlook.
    by injection Hlook as <- <-.
  - intros Hnotin.
    assert (Hnone : ∀ s, s ∈ strings_of (elements_ d) →
                         content s ≠ (key_hash key, c)).
    { intros s Hs Hc. destruct Hnotin.
      replace r with s; [done|].
      apply (NoDup_content_inj (strings_of (elements_ d'))); try done.
      - apply Hint'.
      - by apply Hold.
      - congruence. }
    assert (Hperm : strings_of (elements_ d') ≡ₚ r :: strings_of (elements_ d)).
    { apply list.NoDup_Permutation.
      - apply (NoDup_fmap_1 content). apply Hint'.
      - apply NoDup_cons. split; [done|].
        apply (NoDup_fmap_1 content). apply Hint.
      - intros s. rewrite elem_of_cons. split; [apply Hnew|].
        intros [-> | Hs]; [done|by apply Hold]. }
    split; [done|]. split; [done|].
    rewrite (inv_elements d' (interned_invariant d' Hint')).
    rewrite (inv_elements d (interned_invariant d Hint)).
    rewrite Hperm. cbn [length]. lia.
Qed.

(** C1: on an interning table, [LookupKey] with a key of the content
    [(hash, c)] returns a string of that content that is in the table it
    leaves.  If the string was in the table before, the table is left as
    it was; otherwise no string of the table had that content, and the
    returned string is the one string added.  From then on the returned
    string is the canonical one: every later [LookupKey] with a key of
    that content, of whatever kind, and every later [LookupString] on a
    string that it looks up under that content, returns this very string
    (the same [ptr]) and leaves the table as the first call left it, so
    nothing is inserted again.  The same holds when the first call is a
    [LookupString] that reaches [LookupKey]. *)
Theorem LookupKey_twice_same_string `{Runtime} `{StringTableKey IsolateT K}
    (fuel : nat) (table : StringTable) (c : list Z) :
  Interned (data_ table) → CanGrow (data_ table) →
  2 * capacity (data_ table) <= Z.of_nat fuel →
  (∀ (isolate : IsolateT) (k1 : K),
     InsertsItself isolate k1 → MatchesContent k1 c →
     ∃ table' isolate' result,
       LookupKey fuel table isolate k1 = Some (table', isolate', result) ∧
       content result = (key_hash k1, c) ∧
       result ∈ strings_of (elements_ (data_ table')) ∧
       Interned (data_ table') ∧
       (result ∈ strings_of (elements_ (data_ table)) →
        table' = table ∧ isolate' = isolate) ∧
       (result ∉ strings_of (elements_ (data_ table)) →
        (∀ s, s ∈ strings_of (elements_ (data_ table)) →
              content s ≠ (key_hash k1, c)) ∧
        strings_of (elements_ (data_ table'))
        ≡ₚ result :: strings_of (elements_ (data_ table)) ∧
        number_of_elements (data_ table')
        = number_of_elements (data_ table) + 1) ∧
       Canonical fuel table' (key_hash k1) c result) ∧
  (∀ (isolate : Isolate) (string : Z) isolate1 k1,
     LookupString_key isolate string = Some (isolate1, k1) →
     InsertsItself isolate1 k1 → chars (string_ k1) = c →
     ∃ table' isolate' result,
       LookupString fuel table isolate string
       = Some (table', isolate', ptr result) ∧
       content result = (hash_ k1, c) ∧
       result ∈ strings_of (elements_ (data_ table')) ∧
       Interned (data_ table') ∧
       (result ∈ strings_of (elements_ (data_ table)) → table' = table) ∧
       (result ∉ strings_of (elements_ (data_ table)) →
        (∀ s, s ∈ strings_of (elements_ (data_ table)) →
              content s ≠ (hash_ k1, c)) ∧
        strings_of (elements_ (data_ table'))
        ≡ₚ result :: strings_of (elements_ (data_ table)) ∧
        number_of_elements (data_ table')
        = number_of_elements (data_ table) + 1) ∧
       Canonical fuel table' (hash_ k1) c result).
Proof.
  destruct table as [d]. cbn [data_]. intros Hint Hgrow Hfuel. split.
  - intros isolate k1 Hins Hmatches.
    destruct (LookupKey_interned_cases fuel d isolate k1 c Hint Hgrow Hfuel
                Hins Hmatches)
      as (d' & isolate' & r & Hlook & Hcontent & Hin & Hint' & Hfuel' & Hfound
          & Hnew).
    exists (mkStringTable d'), isolate', r. cbn [data_].
    do 4 (split; [done|]). split; [|split; [done|]].
    + intros Hin0. by destruct (Hfound Hin0) as [-> ->].
    + by apply Interned_Canonical.
  - intros isolate string isolate1 k1 Hkey Hins Hc.
    pose proof (LookupString_key_matches isolate string isolate1 k1 Hkey)
      as Hmatches.
    rewrite Hc in Hmatches.
    destruct (LookupKey_interned_cases fuel d isolate1 k1 c Hint Hgrow Hfuel
                Hins Hmatches)
      as (d' & isolate' & r & Hlook & Hcontent & Hin & Hint' & Hfuel' & Hfound
          & Hnew).
    rewrite (LookupString_through_key fuel _ isolate string isolate1 k1 Hkey).
    rewrite Hlook.
    assert (Hrest :
      content r = (hash_ k1, c) ∧
      r ∈ strings_of (elements_ d') ∧ Interned d' ∧
      (r ∈ strings_of (elements_ d) → mkStringTable d' = mkStringTable d) ∧
      (r ∉ strings_of (elements_ d) →
       (∀ s, s ∈ strings_of (elements_ d) → content s ≠ (hash_ k1, c)) ∧
       strings_of (elements_ d') ≡ₚ r :: strings_of (elements_ d) ∧
       number_of_elements d' = number_of_elements d + 1) ∧
      Canonical fuel (mkStringTable d') (hash_ k1) c r).
    { do 3 (split; [done|]). split; [|split; [done|]].
      - intros Hin0. by destruct (Hfound Hin0) as [-> _].
      - by apply Interned_Canonical. }
    destruct (negb (string =? ptr r)
              && negb (IsThinString (heap isolate') string));
      by eexists (mkStringTable d'), _, r.
Qed.

Lemma LookupKey_twice_same_string_witness :
  ∃ table' isolate' result,
    LookupString 4096 (mkStringTable data2) isolate2 103
    = Some (table', isolate', ptr result) ∧
    content result = (0, [99]) ∧
    strings_of (elements_ data2)
    = [mkString 101 0 [97]; mkString 102 0 [98]] ∧
    strings_of (elements_ (data_ table'))
    ≡ₚ result :: strings_of (elements_ data2) ∧
    number_of_elements (data_ table') = number_of_elements data2 + 1 ∧
    (∃ isolate'',
       LookupString 4096 table' isolate' 104
       = Some (table', isolate'', ptr result)) ∧
    LookupKey 4096 table' isolate' (key_of (heap isolate') 104)
    = Some (table', isolate', result) ∧
    LookupKey 4096 table' tt (mkString 105 0 [99]) = Some (table', tt, result).
Proof.
  assert (Hkey : LookupString_key isolate2 103
                 = Some (isolate2, key_of (heap isolate2) 103))
    by (vm_compute; reflexivity).
  assert (Hdata : data_ (mkStringTable data2) = data2) by reflexivity.
  assert (Hhash : hash_ (key_of (heap isolate2) 103) = 0)
    by (vm_compute; reflexivity).
  assert (Hstrings : strings_of (elements_ data2)
                     = [mkString 101 0 [97]; mkString 102 0 [98]])
    by (vm_compute; reflexivity).
  assert (Hnext :
            match LookupString 4096 (mkStringTable data2) isolate2 103
                  return Prop with
            | Some (_, i, _) =>
                LookupString_key i 104 = Some (i, key_of (heap i) 104) ∧
                hash_ (key_of (heap i) 104) = 0 ∧
                chars (string_ (key_of (heap i) 104)) = [99]
            | None => False
            end) by (vm_compute; auto).
  destruct (LookupKey_twice_same_string (IsolateT:=Isolate)
              (K:=InternalizedStringKey) 4096 (mkStringTable data2) [99])
    as [_ Hstring].
  - exact data2_Interned.
  - vm_compute. discriminate.
  - vm_compute. discriminate.
  - destruct (Hstring isolate2 103 isolate2 (key_of (heap isolate2) 103) Hkey)
      as (table' & isolate' & result & Hlook & Hcontent & _ & _ & _ & Hnew
          & [Hbykey Hbystring]).
    + inserts_itself.
    + vm_compute. reflexivity.
    + rewrite Hlook in Hnext. destruct Hnext as (Hkey' & Hhash' & Hchars').
      rewrite Hhash in Hcontent, Hnew, Hbykey, Hbystring.
      rewrite Hdata in Hnew.
      destruct Hnew as (_ & Hperm & Hnof).
      { rewrite Hstrings. intros Hin.
        apply elem_of_cons in Hin as [Heq | Hin];
          [rewrite Heq in Hcontent; discriminate Hcontent|].
        apply elem_of_cons in Hin as [Heq | Hin];
          [rewrite Heq in Hcontent; discriminate Hcontent|].
        by apply elem_of_nil in Hin. }
      exists table', isolate', result.
      split; [exact Hlook|]. split; [exact Hcontent|].
      split; [exact Hstrings|]. split; [exact Hperm|]. split; [exact Hnof|].
      split; [|split].
      * exact (Hbystring isolate' 104 isolate' (key_of (heap isolate') 104)
                 Hkey' Hhash' Hchars').
      * apply Hbykey; [exact Hhash'|]. rewrite <- Hchars'.
        by apply InternalizedStringKey_matches.
      * apply Hbykey; [reflexivity|].
        intros s. apply (StringTableInsertionKey_matches (mkString 105 0 [99])).
Defined.

End StringTableCanonical.

(** * Properties of the register state *)

Module MaglevRegisterProofs.
Import Maglev MaglevProofs MaglevCallProofs.

Section WithArchitecture.
Context `{Architecture}.

(** ** The register state with and without a register in transit *)

Lemma RegistersOK_But s : RegistersOK s ↔ RegistersOKBut s None.
Proof.
  split.
  - intros [H1 H2 H3 H4]. split; try done.
    + intros c reg Hu _. by apply H2.
    + intros v n reg Hn Hin. destruct (H3 v n reg Hn Hin). done.
  - intros [H1 _ H2 H3 H4]. split; try done.
    + intros c reg Hu. by apply H2.
    + intros v n reg Hn Hin. destruct (H3 v n reg Hn Hin) as (? & ? & _).
      done.
Qed.

Lemma But_used_iff s hole c reg :
  RegistersOKBut s hole →
  has (used s c) reg = true ↔
  has (kAllocatableRegisters c) reg = true ∧ has (free s c) reg = false.
Proof. intros Hok. apply used_iff. apply (but_free s hole Hok). Qed.

Lemma But_node_not_sentinel s hole v n :
  RegistersOKBut s hole → nodes s !! v = Some n →
  v ≠ kBlockedRegisterSentinel.
Proof. intros Hok Hn ->. rewrite (but_sentinel s hole Hok) in Hn. done. Qed.

Lemma RegistersOKBut_ext s s' hole :
  nodes s' = nodes s → (∀ c, registers s' c = registers s c) →
  RegistersOKBut s hole → RegistersOKBut s' hole.
Proof.
  intros Hn Hr [H1 H2 H3 H4 H5]. split.
  - intros c reg. rewrite (free_eq s s' c (Hr c)). apply H1.
  - intros c reg. rewrite (used_eq s s' c (Hr c)). apply H2.
  - intros c reg. rewrite (used_eq s s' c (Hr c)), Hn.
    rewrite (GetValue_eq s s' c reg (Hr c)). apply H3.
  - intros v n reg. rewrite Hn. intros Hv Hin.
    rewrite (used_eq s s' _ (Hr _)), (GetValue_eq s s' _ reg (Hr _)).
    by apply H4.
  - by rewrite Hn.
Qed.

(** A value changes in what the registers do not depend on. *)
Lemma RegistersOKBut_update s s' hole w n n' :
  RegistersOKBut s hole →
  nodes s !! w = Some n →
  nodes s' = <[w := n']> (nodes s) →
  (∀ c, registers s' c = registers s c) →
  registers_with_result_ n' = registers_with_result_ n →
  value_representation n' = value_representation n →
  RegistersOKBut s' hole.
Proof.
  intros Hok Hn Hnodes Hr Hregs Hrep.
  pose proof (But_node_not_sentinel s hole w n Hok Hn) as Hw.
  destruct Hok as [H1 H2 H3 H4 H5].
  pose proof (register_class_eq n n' Hrep) as Hclass. split.
  - intros c reg. rewrite (free_eq s s' c (Hr c)). apply H1.
  - intros c reg. rewrite (used_eq s s' c (Hr c)). apply H2.
  - intros c reg. rewrite (used_eq s s' c (Hr c)), Hnodes.
    rewrite (GetValue_eq s s' c reg (Hr c)). intros Hu Hh Hv.
    destruct (H3 c reg Hu Hh Hv) as (m & Hm & Hc & Hin).
    destruct (decide (GetValue s c reg = w)) as [Heq|Hne].
    + rewrite Heq in *. rewrite lookup_insert_eq. exists n'.
      assert (m = n) as -> by congruence.
      unfold is_in_register in *. by rewrite Hregs, Hclass.
    + rewrite lookup_insert_ne by done. by exists m.
  - intros v m reg. rewrite Hnodes.
    destruct (decide (v = w)) as [->|Hv].
    + rewrite lookup_insert_eq. intros [= <-]. unfold is_in_register.
      rewrite Hregs, Hclass. intros Hin.
      rewrite (used_eq s s' _ (Hr _)), (GetValue_eq s s' _ reg (Hr _)).
      by apply (H4 w n).
    + rewrite lookup_insert_ne by done. intros Hm Hin.
      rewrite (used_eq s s' _ (Hr _)), (GetValue_eq s s' _ reg (Hr _)).
      by apply H4.
  - rewrite Hnodes, lookup_insert_ne; done.
Qed.

(** The value of a used register stops listing the register. *)
Lemma make_hole s c reg n :
  RegistersOKBut s None →
  has (used s c) reg = true →
  nodes s !! GetValue s c reg = Some n →
  RegistersOKBut (with_node s (GetValue s c reg) (RemoveRegister n reg))
    (Some (c, reg)).
Proof.
  intros Hok Hused Hn. set (v := GetValue s c reg) in *.
  pose proof (But_node_not_sentinel s None v n Hok Hn) as Hv.
  pose proof (proj1 (But_used_iff s None c reg Hok) Hused) as [Hal _].
  pose proof (has_nonneg _ _ Hal) as Hreg.
  destruct (but_used s None Hok c reg Hused ltac:(done) Hv)
    as (n0 & Hn0 & Hclass & Hin).
  fold v in Hn0. assert (n0 = n) as -> by congruence.
  destruct Hok as [H1 H2 H3 H4 H5].
  set (s' := with_node s v (RemoveRegister n reg)).
  assert (Hr : ∀ c', registers s' c' = registers s c').
  { intros c'. apply registers_with_node. }
  assert (Hin' : ∀ r, is_in_register (RemoveRegister n reg) r
                      = is_in_register n r && negb (r =? reg)).
  { intros r. unfold is_in_register, RemoveRegister. cbn. by apply has_clear. }
  split.
  - intros c' r. rewrite (free_eq s s' c' (Hr c')). apply H1.
  - intros c' r [= <- <-]. by rewrite (used_eq s s' c (Hr c)).
  - intros c' r. rewrite (used_eq s s' c' (Hr c')).
    rewrite (GetValue_eq s s' c' r (Hr c')). intros Hu Hh Hval.
    destruct (H3 c' r Hu ltac:(done) Hval) as (m & Hm & Hc & Hinm).
    unfold s'. rewrite nodes_with_node.
    destruct (decide (GetValue s c' r = v)) as [Heq|Hne].
    + rewrite Heq in *. rewrite lookup_insert_eq.
      assert (m = n) as -> by congruence.
      exists (RemoveRegister n reg). split; [done|]. split; [done|].
      rewrite Hin', Hinm. cbn. apply negb_true_iff, Z.eqb_neq.
      intros ->. apply Hh. congruence.
    + rewrite lookup_insert_ne by done. by exists m.
  - intros w m r. unfold s'. rewrite nodes_with_node.
    destruct (decide (w = v)) as [->|Hw].
    + rewrite lookup_insert_eq. intros [= <-]. rewrite Hin'.
      intros [Hinr Hne]%andb_true_iff.
      apply negb_true_iff, Z.eqb_neq in Hne.
      destruct (H4 v n r Hn Hinr) as (Hu & Hg & _).
      change (register_class (RemoveRegister n reg)) with (register_class n).
      split; [done|]. split; [done|]. congruence.
    + rewrite lookup_insert_ne by done. intros Hm Hinr.
      destruct (H4 w m r Hm Hinr) as (Hu & Hg & _).
      split; [done|]. split; [done|]. intros [= Hc ->].
      rewrite <- Hc in Hg. unfold v in Hw. congruence.
  - unfold s'. rewrite nodes_with_node, lookup_insert_ne; done.
Qed.

(** A value takes a register that is free or in transit. *)
Lemma assign_register s s' hole hole' c r v n :
  RegistersOKBut s hole →
  has (kAllocatableRegisters c) r = true →
  (has (free s c) r = true ∧ hole' = hole) ∨
  (hole = Some (c, r) ∧ hole' = None) →
  nodes s !! v = Some n →
  register_class n = c →
  nodes s' = <[v := AddRegister n r]> (nodes s) →
  values_ (registers s' c) = <[r := v]> (values_ (registers s c)) →
  (∀ x, has (free s' c) x = has (free s c) x && negb (x =? r)) →
  (∀ c', c ≠ c' → registers s' c' = registers s c') →
  RegistersOKBut s' hole'.
Proof.
  intros Hok Hal Hcase Hn Hclass Hnodes Hvals Hfree Hother.
  pose proof (But_node_not_sentinel s hole v n Hok Hn) as Hv.
  pose proof (has_nonneg _ _ Hal) as Hr.
  assert (Hused_s : ∀ c' x, has (used s c') x = true ↔
            has (kAllocatableRegisters c') x = true ∧
            has (free s c') x = false).
  { intros c' x. by apply (But_used_iff s hole). }
  destruct Hok as [H1 H2 H3 H4 H5].
  assert (Hfree_ok : ∀ c' x, has (free s' c') x = true →
                             has (kAllocatableRegisters c') x = true).
  { intros c' x. destruct (decide (c = c')) as [<-|Hc].
    - rewrite Hfree. intros [? _]%andb_true_iff. by apply H1.
    - rewrite (free_eq s s' c' (Hother c' Hc)). apply H1. }
  assert (Hnotfree : ∀ x, has (used s c) x = true → x ≠ r ∨ hole = Some (c, r)).
  { intros x Hu. destruct Hcase as [[Hf _]|[Hh _]]; [|by right].
    left. intros ->. apply Hused_s in Hu as [_ ?]. congruence. }
  assert (Hused' : ∀ x, has (used s' c) x = true ↔
                        has (used s c) x = true ∨ x = r).
  { intros x. rewrite (used_iff s' c x (Hfree_ok c)), Hused_s, Hfree.
    rewrite andb_false_iff, negb_false_iff, Z.eqb_eq. split.
    - intros [Ha [Hf|Hx]]; [left; by split|by right].
    - intros [[Ha Hf] | ->].
      + split; [done|by left].
      + split; [done|by right]. }
  assert (HGet : ∀ x, GetValue s' c x
                      = if decide (x = r) then v else GetValue s c x).
  { intros x. unfold GetValue. rewrite Hvals. case_decide as Hx.
    - subst x. by rewrite lookup_insert_eq.
    - by rewrite lookup_insert_ne. }
  assert (Hin' : ∀ x, is_in_register (AddRegister n r) x
                      = is_in_register n x || (x =? r)).
  { intros x. unfold is_in_register, AddRegister. cbn. by apply has_set. }
  assert (Hhole_r : hole' ≠ Some (c, r)).
  { destruct Hcase as [[Hf ->]|[_ ->]]; [|done].
    intros Hh. apply H2, Hused_s in Hh as [_ ?]. congruence. }
  assert (Hhole_sub : ∀ c' x, hole' = Some (c', x) → hole = Some (c', x)).
  { intros c' x. destruct Hcase as [[_ ->]|[_ ->]]; done. }
  assert (Hhole_keep : ∀ c' x, hole' ≠ Some (c', x) → (c', x) ≠ (c, r) →
                               hole ≠ Some (c', x)).
  { intros c' x Hh Hne. destruct Hcase as [[_ ->]|[-> _]]; [done|].
    congruence. }
  split.
  - done.
  - intros c' x Hh. pose proof (H2 c' x (Hhole_sub c' x Hh)) as Hu.
    destruct (decide (c = c')) as [<-|Hc].
    + apply Hused'. by left.
    + by rewrite (used_eq s s' c' (Hother c' Hc)).
  - intros c' x Hu Hh Hval. rewrite Hnodes.
    destruct (decide (c = c')) as [<-|Hc].
    + rewrite HGet in Hval |- *. case_decide as Hx.
      * subst x. rewrite lookup_insert_eq. exists (AddRegister n r).
        split; [done|]. split; [done|]. rewrite Hin', Z.eqb_refl.
        apply orb_true_r.
      * apply Hused' in Hu as [Hu|?]; [|done].
        destruct (H3 c x Hu) as (m & Hm & Hc & Hinm);
          [apply Hhole_keep; congruence|done|].
        destruct (decide (GetValue s c x = v)) as [Heq|Hne].
        -- rewrite Heq in *. rewrite lookup_insert_eq.
           assert (m = n) as -> by congruence.
           exists (AddRegister n r). split; [done|]. split; [done|].
           by rewrite Hin', Hinm.
        -- rewrite lookup_insert_ne by done. by exists m.
    + rewrite (used_eq s s' c' (Hother c' Hc)) in Hu.
      rewrite (GetValue_eq s s' c' x (Hother c' Hc)) in Hval |- *.
      destruct (H3 c' x Hu) as (m & Hm & Hcm & Hinm);
        [apply Hhole_keep; congruence|done|].
      rewrite lookup_insert_ne; [by exists m|].
      intros Heq. rewrite <- Heq, Hn in Hm. injection Hm as <-. congruence.
  - intros w m x. rewrite Hnodes. destruct (decide (w = v)) as [->|Hw].
    + rewrite lookup_insert_eq. intros [= <-]. rewrite Hin'.
      change (register_class (AddRegister n r)) with (register_class n).
      rewrite Hclass. intros [Hinx|Hx%Z.eqb_eq]%orb_true_iff.
      * destruct (H4 v n x Hn Hinx) as (Hu & Hg & Hh).
        rewrite Hclass in Hu, Hg, Hh.
        split; [apply Hused'; by left|]. rewrite HGet. split.
        -- by case_decide.
        -- intros Hh'. by apply Hh, Hhole_sub.
      * subst x. split; [apply Hused'; by right|]. rewrite HGet.
        split; [by case_decide|done].
    + rewrite lookup_insert_ne by done. intros Hm Hinx.
      destruct (H4 w m x Hm Hinx) as (Hu & Hg & Hh).
      destruct (decide (c = register_class m)) as [Hc|Hc].
      * rewrite <- Hc in *. split; [apply Hused'; by left|].
        rewrite HGet. split.
        -- case_decide as Hx; [|done]. subst x.
           destruct (Hnotfree r Hu) as [?|Hhole]; [done|congruence].
        -- intros Hh'. by apply Hh, Hhole_sub.
      * rewrite (used_eq s s' _ (Hother _ Hc)).
        rewrite (GetValue_eq s s' _ x (Hother _ Hc)).
        split; [done|]. split; [done|]. intros Hh'. by apply Hh, Hhole_sub.
  - rewrite Hnodes, lookup_insert_ne; done.
Qed.

(** A register that is free or in transit gets blocked. *)
Lemma block_register s s' hole hole' c r :
  RegistersOKBut s hole →
  has (kAllocatableRegisters c) r = true →
  (has (free s c) r = true ∧ hole' = hole) ∨
  (hole = Some (c, r) ∧ hole' = None) →
  nodes s' = nodes s →
  values_ (registers s' c)
  = <[r := kBlockedRegisterSentinel]> (values_ (registers s c)) →
  (∀ x, has (free s' c) x = has (free s c) x && negb (x =? r)) →
  (∀ c', c ≠ c' → registers s' c' = registers s c') →
  RegistersOKBut s' hole'.
Proof.
  intros Hok Hal Hcase Hnodes Hvals Hfree Hother.
  assert (Hused_s : ∀ c' x, has (used s c') x = true ↔
            has (kAllocatableRegisters c') x = true ∧
            has (free s c') x = false).
  { intros c' x. by apply (But_used_iff s hole). }
  destruct Hok as [H1 H2 H3 H4 H5].
  assert (Hfree_ok : ∀ c' x, has (free s' c') x = true →
                             has (kAllocatableRegisters c') x = true).
  { intros c' x. destruct (decide (c = c')) as [<-|Hc].
    - rewrite Hfree. intros [? _]%andb_true_iff. by apply H1.
    - rewrite (free_eq s s' c' (Hother c' Hc)). apply H1. }
  assert (Hnotfree : ∀ x, has (used s c) x = true → x ≠ r ∨ hole = Some (c, r)).
  { intros x Hu. destruct Hcase as [[Hf _]|[Hh _]]; [|by right].
    left. intros ->. apply Hused_s in Hu as [_ ?]. congruence. }
  assert (Hused' : ∀ x, has (used s' c) x = true ↔
                        has (used s c) x = true ∨ x = r).
  { intros x. rewrite (used_iff s' c x (Hfree_ok c)), Hused_s, Hfree.
    rewrite andb_false_iff, negb_false_iff, Z.eqb_eq. split.
    - intros [Ha [Hf|Hx]]; [left; by split|by right].
    - intros [[Ha Hf] | ->].
      + split; [done|by left].
      + split; [done|by right]. }
  assert (HGet : ∀ x, GetValue s' c x
                      = if decide (x = r) then kBlockedRegisterSentinel
                        else GetValue s c x).
  { intros x. unfold GetValue. rewrite Hvals. case_decide as Hx.
    - subst x. by rewrite lookup_insert_eq.
    - by rewrite lookup_insert_ne. }
  assert (Hhole_sub : ∀ c' x, hole' = Some (c', x) → hole = Some (c', x)).
  { intros c' x. destruct Hcase as [[_ ->]|[_ ->]]; done. }
  assert (Hhole_keep : ∀ c' x, hole' ≠ Some (c', x) → (c', x) ≠ (c, r) →
                               hole ≠ Some (c', x)).
  { intros c' x Hh Hne. destruct Hcase as [[_ ->]|[-> _]]; [done|].
    congruence. }
  split.
  - done.
  - intros c' x Hh. pose proof (H2 c' x (Hhole_sub c' x Hh)) as Hu.
    destruct (decide (c = c')) as [<-|Hc].
    + apply Hused'. by left.
    + by rewrite (used_eq s s' c' (Hother c' Hc)).
  - intros c' x Hu Hh Hval. rewrite Hnodes.
    destruct (decide (c = c')) as [<-|Hc].
    + rewrite HGet in Hval |- *. case_decide as Hx; [done|].
      apply Hused' in Hu as [Hu|?]; [|done].
      apply H3; [done| |done]. apply Hhole_keep; congruence.
    + rewrite (used_eq s s' c' (Hother c' Hc)) in Hu.
      rewrite (GetValue_eq s s' c' x (Hother c' Hc)) in Hval |- *.
      apply H3; [done| |done]. apply Hhole_keep; congruence.
  - intros w m x. rewrite Hnodes. intros Hm Hinx.
    destruct (H4 w m x Hm Hinx) as (Hu & Hg & Hh).
    destruct (decide (c = register_class m)) as [Hc|Hc].
    + rewrite <- Hc in *. split; [apply Hused'; by left|].
      rewrite HGet. split.
      * case_decide as Hx; [|done]. subst x.
        destruct (Hnotfree r Hu) as [?|Hhole]; [done|congruence].
      * intros Hh'. by apply Hh, Hhole_sub.
    + rewrite (used_eq s s' _ (Hother _ Hc)).
      rewrite (GetValue_eq s s' _ x (Hother _ Hc)).
      split; [done|]. split; [done|]. intros Hh'. by apply Hh, Hhole_sub.
  - by rewrite Hnodes.
Qed.

(** The register in transit becomes free. *)
Lemma free_hole s c reg :
  RegistersOKBut s (Some (c, reg)) → RegistersOKBut (AddToFree s c reg) None.
Proof.
  intros Hok.
  assert (Hused_s : ∀ c' x, has (used s c') x = true ↔
            has (kAllocatableRegisters c') x = true ∧
            has (free s c') x = false).
  { intros c' x. by apply (But_used_iff s (Some (c, reg))). }
  destruct Hok as [H1 H2 H3 H4 H5].
  pose proof (proj1 (Hused_s c reg) (H2 c reg eq_refl)) as [Hal Hnf].
  pose proof (has_nonneg _ _ Hal) as Hreg.
  set (s' := AddToFree s c reg).
  assert (Hother : ∀ c', c ≠ c' → registers s' c' = registers s c').
  { intros c' Hc. by apply registers_with_registers_ne. }
  assert (Hfree : ∀ x, has (free s' c) x = has (free s c) x || (x =? reg)).
  { intros x. unfold s', AddToFree, with_free, free at 1.
    rewrite registers_with_registers_eq. cbn. by apply has_set. }
  assert (HGet : ∀ c' x, GetValue s' c' x = GetValue s c' x).
  { intros c' x. unfold GetValue, s', AddToFree, with_free.
    rewrite registers_with_registers. by case_decide; subst. }
  assert (Hnodes : nodes s' = nodes s) by by destruct c.
  assert (Hfree_ok : ∀ c' x, has (free s' c') x = true →
                             has (kAllocatableRegisters c') x = true).
  { intros c' x. destruct (decide (c = c')) as [<-|Hc].
    - rewrite Hfree. intros [?|Hx%Z.eqb_eq]%orb_true_iff; [by apply H1|by subst x].
    - rewrite (free_eq s s' c' (Hother c' Hc)). apply H1. }
  assert (Hused' : ∀ x, has (used s' c) x = true ↔
                        has (used s c) x = true ∧ x ≠ reg).
  { intros x. rewrite (used_iff s' c x (Hfree_ok c)), Hused_s, Hfree.
    rewrite orb_false_iff, Z.eqb_neq. tauto. }
  split.
  - done.
  - done.
  - intros c' x Hu _ Hval. rewrite Hnodes, HGet in *.
    destruct (decide (c = c')) as [<-|Hc].
    + apply Hused' in Hu as [Hu Hx]. apply H3; [done| |done]. congruence.
    + rewrite (used_eq s s' c' (Hother c' Hc)) in Hu.
      apply H3; [done| |done]. congruence.
  - intros w m x. rewrite Hnodes, HGet. intros Hm Hinx.
    destruct (H4 w m x Hm Hinx) as (Hu & Hg & Hh).
    split; [|done]. destruct (decide (c = register_class m)) as [Hc|Hc].
    + rewrite <- Hc in *. apply Hused'. split; [done|]. congruence.
    + by rewrite (used_eq s s' _ (Hother _ Hc)).
  - by rewrite Hnodes.
Qed.

(** ** Writing a register *)

Lemma SetValue_spec s c r v n :
  nodes s !! v = Some n →
  ∃ s',
    SetValue s c r v = Some s' ∧
    nodes s' = <[v := AddRegister n r]> (nodes s) ∧
    values_ (registers s' c) = <[r := v]> (values_ (registers s c)) ∧
    free s' c = free s c ∧
    (∀ c', c ≠ c' → registers s' c' = registers s c') ∧
    current_node_id s' = current_node_id s.
Proof.
  intros Hn. unfold SetValue. rewrite Hn. cbn. eexists. split; [done|].
  split; [by destruct c|]. split; [by destruct c|]. split; [by destruct c|].
  split; [|by destruct c]. intros c' Hc. rewrite registers_with_node.
  by apply registers_with_registers_ne.
Qed.

Lemma RemoveFromFree_spec s c r :
  0 <= r →
  let s' := RemoveFromFree s c r in
  nodes s' = nodes s ∧
  values_ (registers s' c) = values_ (registers s c) ∧
  (∀ x, has (free s' c) x = has (free s c) x && negb (x =? r)) ∧
  (∀ c', c ≠ c' → registers s' c' = registers s c') ∧
  current_node_id s' = current_node_id s.
Proof.
  intros Hr s'. split; [by destruct c|]. split; [by destruct c|].
  split; [|split; [|by destruct c]].
  - intros x. unfold s', RemoveFromFree, with_free, free at 1.
    rewrite registers_with_registers_eq. cbn. by apply has_clear.
  - intros c' Hc. by apply registers_with_registers_ne.
Qed.

Lemma SetSentinelValue_spec s c r v :
  let s' := SetSentinelValue s c r v in
  nodes s' = nodes s ∧
  values_ (registers s' c) = <[r := v]> (values_ (registers s c)) ∧
  free s' c = free s c ∧
  (∀ c', c ≠ c' → registers s' c' = registers s c') ∧
  current_node_id s' = current_node_id s.
Proof.
  intros s'. split; [by destruct c|]. split; [by destruct c|].
  split; [by destruct c|]. split; [|by destruct c].
  intros c' Hc. by apply registers_with_registers_ne.
Qed.

(** ** No value is lost *)

Lemma StillAtHand_eq s s' stage n :
  current_node_id s' = current_node_id s →
  StillAtHand s stage n → StillAtHand s' stage n.
Proof. unfold StillAtHand. intros ->. done. Qed.

Lemma NothingLost_refl stage s : NothingLost stage s s.
Proof. split; [done|]. intros w n Hn. by exists n. Qed.

Lemma NothingLost_trans stage s1 s2 s3 :
  NothingLost stage s1 s2 → NothingLost stage s2 s3 → NothingLost stage s1 s3.
Proof.
  intros [Hc1 H1] [Hc2 H2]. split; [congruence|]. intros w n Hn.
  destruct (H1 w n Hn) as (n2 & Hn2 & Hrep2 & Hat2).
  destruct (H2 w n2 Hn2) as (n3 & Hn3 & Hrep3 & Hat3).
  exists n3. split; [done|]. split; [congruence|]. auto.
Qed.

Lemma NothingLost_nodes stage s s' :
  nodes s' = nodes s → current_node_id s' = current_node_id s →
  NothingLost stage s s'.
Proof.
  intros Hn Hc. split; [done|]. intros w n Hw. exists n. rewrite Hn.
  split; [done|]. split; [done|]. by apply StillAtHand_eq.
Qed.

Lemma NothingLost_insert stage s s' v n n' :
  nodes s !! v = Some n →
  nodes s' = <[v := n']> (nodes s) →
  current_node_id s' = current_node_id s →
  value_representation n' = value_representation n →
  (StillAtHand s stage n → StillAtHand s' stage n') →
  NothingLost stage s s'.
Proof.
  intros Hn Hnodes Hc Hrep Hat. split; [done|]. intros w m Hm.
  rewrite Hnodes. destruct (decide (w = v)) as [->|Hw].
  - rewrite lookup_insert_eq. exists n'. split; [done|].
    assert (m = n) as -> by congruence. done.
  - rewrite lookup_insert_ne by done. exists m. split; [done|].
    split; [done|]. by apply StillAtHand_eq.
Qed.

Lemma has_register_AddRegister n r :
  0 <= r → has_register (AddRegister n r) = true.
Proof.
  intros Hr. unfold has_register, AddRegister. cbn.
  apply negb_true_iff, Z.eqb_neq. intros Hempty.
  pose proof (proj1 (empty_iff _) Hempty r) as Hhas.
  rewrite has_set, Z.eqb_refl, orb_true_r in Hhas; done.
Qed.


Lemma free_bound s hole c reg :
  ArchitectureOK → RegistersOKBut s hole →
  has (free s c) reg = true → 0 <= reg < kNumRegisters.
Proof.
  intros [Hk Hal] Hok Hf.
  apply (has_bound (kAllocatableRegisters c)); [done|apply Hal|].
  by apply (but_free s hole Hok).
Qed.

Lemma first_free s hole c :
  ArchitectureOK → RegistersOKBut s hole →
  free s c ≠ kEmptyRegList →
  has (free s c) (first (free s c)) = true.
Proof.
  intros Harch Hok Hne. apply first_has; [|done].
  intros r Hr. by apply (free_bound s hole c).
Qed.


(** ** Taking a register *)

Lemma take_free s hole c r v n :
  RegistersOKBut s hole →
  has (free s c) r = true →
  nodes s !! v = Some n →
  register_class n = c →
  ∃ s',
    SetValue (RemoveFromFree s c r) c r v = Some s' ∧
    RegistersOKBut s' hole ∧
    nodes s' = <[v := AddRegister n r]> (nodes s) ∧
    current_node_id s' = current_node_id s ∧
    values_ (registers s' c) = <[r := v]> (values_ (registers s c)) ∧
    (∀ x, has (free s' c) x = has (free s c) x && negb (x =? r)) ∧
    (∀ c', c ≠ c' → registers s' c' = registers s c').
Proof.
  intros Hok Hf Hn Hc.
  pose proof (but_free s hole Hok c r Hf) as Hal.
  pose proof (has_nonneg _ _ Hal) as Hr.
  destruct (RemoveFromFree_spec s c r Hr) as (Hn1 & Hv1 & Hf1 & Ho1 & Hc1).
  set (s1 := RemoveFromFree s c r) in *.
  destruct (SetValue_spec s1 c r v n) as (s' & Hset & Hn2 & Hv2 & Hf2 & Ho2 & Hc2).
  { by rewrite Hn1. }
  assert (Hother : ∀ c', c ≠ c' → registers s' c' = registers s c').
  { intros c' Hne. by rewrite Ho2, Ho1. }
  assert (Hfree : ∀ x, has (free s' c) x = has (free s c) x && negb (x =? r)).
  { intros x. by rewrite Hf2, Hf1. }
  exists s'. split; [done|]. split; [|rewrite Hn2, Hn1, Hv2, Hv1, Hc2, Hc1; done].
  apply (assign_register s s' hole hole c r v n); try done.
  - by left.
  - by rewrite Hn2, Hn1.
  - by rewrite Hv2, Hv1.
Qed.

Lemma fill_hole s c r v n :
  RegistersOKBut s (Some (c, r)) →
  nodes s !! v = Some n →
  register_class n = c →
  ∃ s',
    SetValue s c r v = Some s' ∧
    RegistersOKBut s' None ∧
    nodes s' = <[v := AddRegister n r]> (nodes s) ∧
    current_node_id s' = current_node_id s ∧
    values_ (registers s' c) = <[r := v]> (values_ (registers s c)) ∧
    free s' c = free s c ∧
    (∀ c', c ≠ c' → registers s' c' = registers s c').
Proof.
  intros Hok Hn Hc.
  pose proof (but_hole s _ Hok c r eq_refl) as Hu.
  apply (But_used_iff s _ c r Hok) in Hu as [Hal Hnf].
  destruct (SetValue_spec s c r v n Hn)
    as (s' & Hset & Hn2 & Hv2 & Hf2 & Ho2 & Hc2).
  exists s'. split; [done|]. split; [|done].
  apply (assign_register s s' (Some (c, r)) None c r v n); try done.
  - by right.
  - intros x. rewrite Hf2. destruct (Z.eqb_spec x r) as [->|Hx].
    + by rewrite Hnf.
    + by rewrite andb_true_r.
Qed.

(** ** [DropRegisterValue] *)

Lemma DropRegisterValue_spec s c reg stage :
  ArchitectureOK →
  RegistersOK s →
  has (used s c) reg = true →
  GetValue s c reg ≠ kBlockedRegisterSentinel →
  ∃ s',
    DropRegisterValue s c reg stage = Some s' ∧
    RegistersOKBut s' (Some (c, reg)) ∧
    NothingLost stage s s' ∧
    (∀ c' x, has (used s c') x = true →
       has (used s' c') x = true ∧ GetValue s' c' x = GetValue s c' x) ∧
    (∀ c' x, has (used s' c') x = true →
       has (used s c') x = true ∨
       (c' = c ∧ GetValue s' c x = GetValue s c reg)).
Proof.
  intros Harch Hok Hused Hval.
  destruct (ok_used s Hok c reg Hused Hval) as (n & Hn & Hclass & Hin).
  apply RegistersOK_But in Hok.
  pose proof (make_hole s c reg n Hok Hused Hn) as Hhole.
  unfold DropRegisterValue. rewrite Hn. cbn [mbind option_bind].
  set (v := GetValue s c reg) in *.
  set (n1 := RemoveRegister n reg) in *.
  set (s1 := with_node s v n1) in *.
  assert (Hnodes1 : nodes s1 = <[v := n1]> (nodes s)) by done.
  assert (Hregs1 : ∀ c', registers s1 c' = registers s c').
  { intros c'. apply registers_with_node. }
  assert (Hcur1 : current_node_id s1 = current_node_id s) by done.
  assert (Hsame : ∀ s',
            (∀ c', registers s' c' = registers s c') →
            (∀ c' x, has (used s c') x = true →
               has (used s' c') x = true ∧
               GetValue s' c' x = GetValue s c' x) ∧
            (∀ c' x, has (used s' c') x = true →
               has (used s c') x = true ∨
               (c' = c ∧ GetValue s' c x = v))).
  { intros s' Hr. split.
    - intros c' x. rewrite (used_eq s s' c' (Hr c')).
      rewrite (GetValue_eq s s' c' x (Hr c')). done.
    - intros c' x. rewrite (used_eq s s' c' (Hr c')). by left. }
  destruct (has_register n1 || is_loadable n1) eqn:Hkeeps.
  { exists s1. split; [done|]. split; [done|]. split; [|by apply Hsame].
    apply (NothingLost_insert stage s s1 v n n1); try done.
    intros _. apply orb_true_iff in Hkeeps as [?|?]; [by left|by right; left]. }
  destruct (bool_decide (stage = kAtEnd)
            && (end_ (live_range n1) =? current_node_id s1)) eqn:Hdies.
  { exists s1. split; [done|]. split; [done|]. split; [|by apply Hsame].
    apply (NothingLost_insert stage s s1 v n n1); try done.
    intros _. apply andb_true_iff in Hdies as [Hs He].
    apply bool_decide_eq_true in Hs. apply Z.eqb_eq in He.
    right; right. done. }
  destruct (negb (FreeIsEmpty s1 c)) eqn:Hfree.
  - apply negb_true_iff, Z.eqb_neq in Hfree.
    pose proof (first_free s1 _ c Harch Hhole Hfree) as Hf.
    set (target := first (free s1 c)) in *.
    destruct (take_free s1 (Some (c, reg)) c target v n1 Hhole Hf)
      as (s2 & Hset & Hok2 & Hn2 & Hc2 & Hv2 & Hf2 & Ho2); [|done|].
    { rewrite Hnodes1. apply lookup_insert_eq. }
    rewrite Hset. cbn [mbind option_bind]. eexists. split; [done|].
    pose proof (has_nonneg _ _ Hf) as Htarget.
    assert (Hfree_ok : ∀ a c' x, RegistersOKBut a (Some (c, reg)) →
              has (free a c') x = true →
              has (kAllocatableRegisters c') x = true).
    { intros a c' x Ha. apply (but_free a _ Ha). }
    split; [|split; [|split]].
    + apply (RegistersOKBut_ext s2); [done| |done].
      intros c'. apply registers_AddMove.
    + apply (NothingLost_insert stage s _ v n (AddRegister n1 target));
        try done.
      * cbn [nodes AddMoveBeforeCurrentNode]. rewrite Hn2, Hnodes1.
        apply insert_insert_eq.
      * intros _. left. by apply has_register_AddRegister.
    + intros c' x Hu.
      rewrite (used_eq s2 _ c' (registers_AddMove s2 _ _ _ c')).
      rewrite (GetValue_eq s2 _ c' x (registers_AddMove s2 _ _ _ c')).
      rewrite <- (used_eq s s1 c' (Hregs1 c')) in Hu.
      rewrite <- (GetValue_eq s s1 c' x (Hregs1 c')).
      destruct (decide (c = c')) as [<-|Hc].
      * apply (But_used_iff s1 _ c x Hhole) in Hu as [Hal Hnf].
        assert (x ≠ target) by congruence.
        split.
        -- apply (But_used_iff s2 _ c x Hok2). split; [done|].
           by rewrite Hf2, Hnf.
        -- unfold GetValue. by rewrite Hv2, lookup_insert_ne.
      * rewrite (used_eq s1 s2 c' (Ho2 c' Hc)).
        by rewrite (GetValue_eq s1 s2 c' x (Ho2 c' Hc)).
    + intros c' x.
      rewrite (used_eq s2 _ c' (registers_AddMove s2 _ _ _ c')).
      rewrite (GetValue_eq s2 _ c x (registers_AddMove s2 _ _ _ c)).
      rewrite <- (used_eq s s1 c' (Hregs1 c')).
      destruct (decide (c = c')) as [<-|Hc].
      * intros [Hal Hnf]%(But_used_iff s2 _ c x Hok2).
        destruct (decide (x = target)) as [->|Hx].
        -- right. split; [done|]. unfold GetValue.
           by rewrite Hv2, lookup_insert_eq.
        -- left. apply (But_used_iff s1 _ c x Hhole). split; [done|].
           rewrite Hf2 in Hnf. apply andb_false_iff in Hnf as [?|Hnf]; [done|].
           apply negb_false_iff, Z.eqb_eq in Hnf. done.
      * rewrite (used_eq s1 s2 c' (Ho2 c' Hc)). by left.
  - destruct (Spill_spec s1 v n1) as (s' & n' & Hspill & Hn' & Hr' & Hc' & Hrr' & Hkept & Hload).
    { rewrite Hnodes1. apply lookup_insert_eq. }
    exists s'. split; [done|]. destruct Hkept as (Hrep & _ & _).
    split; [|split].
    + apply (RegistersOKBut_update s1 s' _ v n1 n'); try done.
      rewrite Hnodes1. apply lookup_insert_eq.
    + apply (NothingLost_insert stage s s' v n n'); try done.
      * rewrite Hn', Hnodes1. apply insert_insert_eq.
      * intros _. right; left. done.
    + apply Hsame. intros c'. by rewrite Hr', Hregs1.
Qed.


(** ** [FreeSomeRegister] *)

Lemma candidates_spec s c reg :
  ArchitectureOK → RegistersOK s →
  reg ∈ candidates s c →
  has (used s c) reg = true ∧ GetValue s c reg ≠ kBlockedRegisterSentinel ∧
  is_Some (nodes s !! GetValue s c reg).
Proof.
  intros Harch Hok Hreg. unfold candidates in Hreg.
  apply list_elem_of_In, filter_In in Hreg as [Hreg Hval].
  apply list_elem_of_In, elem_of_registers_of in Hreg as [_ Hu].
  apply negb_true_iff, Z.eqb_neq in Hval.
  split; [done|]. split; [done|].
  destruct (ok_used s Hok c reg Hu Hval) as (n & Hn & _). by exists n.
Qed.

(** The loop chooses a register when one can be given up. *)
Lemma FreeSomeRegister_loop_valid s c stage :
  ArchitectureOK → RegistersOK s →
  (∃ reg, reg ∈ candidates s c ∧
          dies_here s c stage reg || has_copy s c reg
          || (0 <? use_of s c reg) = true) →
  ∃ best,
    FreeSomeRegister_loop s c stage (registers_of (used s c)) 0 no_reg
    = Some best ∧
    best ∈ candidates s c.
Proof.
  intros Harch Hok (reg & Hreg & Hcheap).
  destruct (FreeSomeRegister_loop_spec s c stage (registers_of (used s c))
              0 no_reg) as (best & Hloop & Hbest).
  { apply Forall_forall. intros r Hr.
    by apply (candidates_spec s c r Harch Hok). }
  exists best. split; [done|]. fold (candidates s c) in Hbest.
  destruct (List.find _ (candidates s c)) as [r|] eqn:Hfind.
  - subst r. apply find_some in Hfind as [Hin _]. by apply list_elem_of_In.
  - destruct Hbest as [[_ Hall]|(l1 & l2 & -> & _)].
    + exfalso. pose proof (find_none _ _ Hfind reg) as Hnone. cbn in Hnone.
      rewrite Hnone in Hcheap by by apply list_elem_of_In.
      cbn in Hcheap. apply Z.ltb_lt in Hcheap.
      rewrite Forall_forall in Hall. specialize (Hall reg Hreg). lia.
    + apply elem_of_app. right. apply elem_of_cons. by left.
Qed.

(** X11.  In a consistent register state where some register in use can
    be given up (its value dies at the current node at the end stage, is
    in another register, or has a next use), [FreeSomeRegister] returns a
    register that was in use and not blocked.  Afterwards the register is
    free, the register state is consistent again and no value is lost:
    the value the register held is in another register or loadable,
    unless it dies at the current node. *)
Theorem FreeSomeRegister_frees_used_register s c stage :
  ArchitectureOK →
  RegistersOK s →
  (∃ reg, reg ∈ candidates s c ∧
          dies_here s c stage reg || has_copy s c reg
          || (0 <? use_of s c reg) = true) →
  ∃ s' best,
    FreeSomeRegister s c stage = Some (s', best) ∧
    has (used s c) best = true ∧
    GetValue s c best ≠ kBlockedRegisterSentinel ∧
    has (free s' c) best = true ∧
    RegistersOK s' ∧
    NothingLost stage s s'.
Proof.
  intros Harch Hok Hcheap.
  destruct (FreeSomeRegister_loop_valid s c stage Harch Hok Hcheap)
    as (best & Hloop & Hbest).
  destruct (candidates_spec s c best Harch Hok Hbest) as (Hu & Hval & _).
  destruct (DropRegisterValue_spec s c best stage Harch Hok Hu Hval)
    as (s1 & Hdrop & Hbut & Hlost & _).
  exists (AddToFree s1 c best), best. unfold FreeSomeRegister.
  rewrite Hloop. cbn [mbind option_bind]. rewrite Hdrop.
  cbn [mbind option_bind]. split; [done|]. split; [done|]. split; [done|].
  split; [|split].
  - unfold AddToFree, with_free, free at 1.
    rewrite registers_with_registers_eq. cbn [free_].
    rewrite has_set, Z.eqb_refl, orb_true_r; [done|].
    by apply (has_nonneg (used s c)).
  - apply RegistersOK_But. by apply free_hole.
  - apply (NothingLost_trans stage s s1); [done|].
    apply NothingLost_nodes; by destruct c.
Qed.

(** ** [ForceAllocate] *)

Lemma GetMachineRepresentation_eq n n' :
  value_representation n' = value_representation n →
  GetMachineRepresentation n' = GetMachineRepresentation n.
Proof. unfold GetMachineRepresentation. by intros ->. Qed.

Lemma is_in_register_AddRegister n r :
  0 <= r → is_in_register (AddRegister n r) r = true.
Proof.
  intros Hr. unfold is_in_register, AddRegister. cbn.
  by rewrite has_set, Z.eqb_refl, orb_true_r.
Qed.

Lemma ForceAllocate_spec s c reg node n stage :
  ArchitectureOK →
  RegistersOK s →
  nodes s !! node = Some n →
  register_class n = c →
  has (kAllocatableRegisters c) reg = true →
  (has (used s c) reg = true →
   GetValue s c reg ≠ kBlockedRegisterSentinel) →
  ∃ s' n',
    ForceAllocate s c reg node stage
    = Some (s', AllocatedOperand REGISTER (GetMachineRepresentation n) reg) ∧
    RegistersOK s' ∧
    NothingLost stage s s' ∧
    nodes s' !! node = Some n' ∧
    is_in_register n' reg = true.
Proof.
  intros Harch Hok Hn Hclass Hal Hblocked.
  pose proof (has_nonneg _ _ Hal) as Hreg.
  unfold ForceAllocate. rewrite Hn. cbn [mbind option_bind].
  destruct (has (free s c) reg) eqn:Hfree.
  - destruct (take_free s None c reg node n) as (s' & Hset & Hok' & Hn' & Hc' & _);
      [by apply RegistersOK_But|done|done|done|].
    rewrite Hset. cbn [mbind option_bind].
    exists s', (AddRegister n reg). split; [done|].
    split; [by apply RegistersOK_But|]. split; [|split].
    + apply (NothingLost_insert stage s s' node n (AddRegister n reg));
        try done.
      intros _. left. by apply has_register_AddRegister.
    + rewrite Hn'. apply lookup_insert_eq.
    + by apply is_in_register_AddRegister.
  - assert (Hu : has (used s c) reg = true).
    { apply used_iff; [apply (ok_free s Hok)|done]. }
    specialize (Hblocked Hu).
    destruct (ok_used s Hok c reg Hu Hblocked) as (m & Hm & Hcm & Hin).
    destruct (GetValue s c reg =? node) eqn:Hsame.
    + apply Z.eqb_eq in Hsame. rewrite Hsame in Hm.
      assert (m = n) as -> by congruence.
      exists s, n. split; [done|]. split; [done|].
      split; [apply NothingLost_refl|done].
    + destruct (DropRegisterValue_spec s c reg stage Harch Hok Hu Hblocked)
        as (s1 & Hdrop & Hbut & Hlost & _).
      rewrite Hdrop. cbn [mbind option_bind].
      destruct (proj2 Hlost node n Hn) as (n1 & Hn1 & Hrep1 & _).
      destruct (fill_hole s1 c reg node n1 Hbut Hn1)
        as (s' & Hset & Hok' & Hn' & Hc' & _).
      { by rewrite (register_class_eq n n1 Hrep1). }
      rewrite Hset. cbn [mbind option_bind].
      exists s', (AddRegister n1 reg). split; [done|].
      split; [by apply RegistersOK_But|]. split; [|split].
      * apply (NothingLost_trans stage s s1); [done|].
        apply (NothingLost_insert stage s1 s' node n1 (AddRegister n1 reg));
          try done.
        intros _. left. by apply has_register_AddRegister.
      * rewrite Hn'. apply lookup_insert_eq.
      * by apply is_in_register_AddRegister.
Qed.

(** X12.  [ForceAllocate] of a value into an allocatable register of its
    class that is not blocked, in a consistent register state, returns
    that register.  Afterwards the register is in use and holds the
    value, the value lists it, the register state is consistent and no
    value is lost: what the register held before is in another register
    or loadable, unless it dies at the current node. *)
Theorem ForceAllocate_puts_value_in_register s c reg node n stage :
  ArchitectureOK →
  RegistersOK s →
  nodes s !! node = Some n →
  register_class n = c →
  has (kAllocatableRegisters c) reg = true →
  (has (used s c) reg = true →
   GetValue s c reg ≠ kBlockedRegisterSentinel) →
  ∃ s' n',
    ForceAllocate s c reg node stage
    = Some (s', AllocatedOperand REGISTER (GetMachineRepresentation n) reg) ∧
    nodes s' !! node = Some n' ∧
    is_in_register n' reg = true ∧
    has (used s' c) reg = true ∧
    GetValue s' c reg = node ∧
    RegistersOK s' ∧
    NothingLost stage s s'.
Proof.
  intros Harch Hok Hn Hclass Hal Hblocked.
  destruct (ForceAllocate_spec s c reg node n stage)
    as (s' & n' & Hforce & Hok' & Hlost & Hn' & Hin); try done.
  exists s', n'. split; [done|]. split; [done|]. split; [done|].
  destruct (proj2 Hlost node n Hn) as (n2 & Hn2 & Hrep & _).
  assert (n2 = n') as -> by congruence.
  destruct (ok_node s' Hok' node n' reg Hn' Hin) as [Hu Hg].
  rewrite (register_class_eq n n' Hrep), Hclass in Hu, Hg. done.
Qed.

(** ** [AllocateRegister] *)

Lemma TryAllocateRegister_spec s c node n stage :
  ArchitectureOK →
  RegistersOK s →
  nodes s !! node = Some n →
  register_class n = c →
  free s c ≠ kEmptyRegList →
  ∃ s',
    TryAllocateRegister s c node
    = Some (s', AllocatedOperand REGISTER (GetMachineRepresentation n)
                  (first (free s c))) ∧
    has (free s c) (first (free s c)) = true ∧
    RegistersOK s' ∧
    NothingLost stage s s' ∧
    nodes s' = <[node := AddRegister n (first (free s c))]> (nodes s).
Proof.
  intros Harch Hok Hn Hclass Hfree. apply RegistersOK_But in Hok.
  pose proof (first_free s None c Harch Hok Hfree) as Hf.
  unfold TryAllocateRegister. apply Z.eqb_neq in Hfree. rewrite Hfree.
  set (reg := first (free s c)) in *.
  assert (Hn1 : nodes (RemoveFromFree s c reg) !! node = Some n)
    by by destruct c.
  rewrite Hn1. cbn [mbind option_bind].
  destruct (take_free s None c reg node n Hok Hf Hn Hclass)
    as (s' & Hset & Hok' & Hn' & Hc' & _).
  rewrite Hset. cbn [mbind option_bind]. exists s'. split; [done|].
  split; [done|]. split; [by apply RegistersOK_But|]. split; [|done].
  apply (NothingLost_insert stage s s' node n (AddRegister n reg)); try done.
  intros _. left. apply has_register_AddRegister.
  by apply (has_nonneg (free s c)).
Qed.

Lemma AllocateRegister_spec s node n stage :
  ArchitectureOK →
  RegistersOK s →
  nodes s !! node = Some n →
  (free s (register_class n) = kEmptyRegList →
   ∃ reg, reg ∈ candidates s (register_class n) ∧
          dies_here s (register_class n) stage reg
          || has_copy s (register_class n) reg
          || (0 <? use_of s (register_class n) reg) = true) →
  ∃ s' reg n',
    AllocateRegister s node stage
    = Some (s', AllocatedOperand REGISTER (GetMachineRepresentation n) reg) ∧
    nodes s' !! node = Some n' ∧
    is_in_register n' reg = true ∧
    RegistersOK s' ∧
    NothingLost stage s s' ∧
    (free s (register_class n) ≠ kEmptyRegList →
     reg = first (free s (register_class n)) ∧
     nodes s' = <[node := AddRegister n reg]> (nodes s)).
Proof.
  intros Harch Hok Hn Hcheap. unfold AllocateRegister. rewrite Hn.
  cbn [mbind option_bind]. set (c := register_class n) in *.
  destruct (FreeIsEmpty s c) eqn:Hempty.
  - apply Z.eqb_eq in Hempty.
    destruct (FreeSomeRegister_loop_valid s c stage Harch Hok (Hcheap Hempty))
      as (best & Hloop & Hbest).
    destruct (candidates_spec s c best Harch Hok Hbest) as (Hu & Hval & _).
    destruct (DropRegisterValue_spec s c best stage Harch Hok Hu Hval)
      as (s1 & Hdrop & Hbut & Hlost & _).
    unfold FreeSomeRegister. rewrite Hloop. cbn [mbind option_bind].
    rewrite Hdrop. cbn [mbind option_bind fmap option_fmap option_map fst].
    set (s2 := AddToFree s1 c best).
    assert (Hok2 : RegistersOK s2).
    { apply RegistersOK_But. by apply free_hole. }
    assert (Hlost2 : NothingLost stage s s2).
    { apply (NothingLost_trans stage s s1); [done|].
      apply NothingLost_nodes; by destruct c. }
    destruct (proj2 Hlost2 node n Hn) as (n2 & Hn2 & Hrep & _).
    assert (Hfree2 : free s2 c ≠ kEmptyRegList).
    { intros Hfree. pose proof (proj1 (empty_iff _) Hfree best) as Hb.
      unfold s2, AddToFree, with_free, free at 1 in Hb.
      rewrite registers_with_registers_eq in Hb. cbn [free_] in Hb.
      rewrite has_set, Z.eqb_refl, orb_true_r in Hb; [done|].
      by apply (has_nonneg (used s c)). }
    destruct (TryAllocateRegister_spec s2 c node n2 stage Harch Hok2 Hn2)
      as (s' & Htry & Hf & Hok' & Hlost' & Hn'); [|done|].
    { by rewrite (register_class_eq n n2 Hrep). }
    rewrite Htry. cbn [mbind option_bind IsAllocated].
    rewrite (GetMachineRepresentation_eq n n2 Hrep).
    exists s', (first (free s2 c)), (AddRegister n2 (first (free s2 c))).
    split; [done|]. split; [rewrite Hn'; apply lookup_insert_eq|].
    split; [apply is_in_register_AddRegister; by apply (has_nonneg (free s2 c))|].
    split; [done|].
    split; [by apply (NothingLost_trans stage s s2)|]. done.
  - apply Z.eqb_neq in Hempty.
    destruct (TryAllocateRegister_spec s c node n stage Harch Hok Hn)
      as (s' & Htry & Hf & Hok' & Hlost' & Hn'); [done|done|].
    cbn [mbind option_bind]. rewrite Htry. cbn [mbind option_bind IsAllocated].
    exists s', (first (free s c)), (AddRegister n (first (free s c))).
    split; [done|]. split; [rewrite Hn'; apply lookup_insert_eq|].
    split; [apply is_in_register_AddRegister; by apply (has_nonneg (free s c))|].
    done.
Qed.

(** X13.  [AllocateRegister] of a value, in a consistent register state
    where a register of its class is free or can be given up, returns a
    register.  Afterwards the value lists the register, the register is
    in use and holds the value, the register state is consistent and no
    value is lost.  When a register is free the first free one is taken
    and no other value changes. *)
Theorem AllocateRegister_gives_register s node n stage :
  ArchitectureOK →
  RegistersOK s →
  nodes s !! node = Some n →
  (free s (register_class n) = kEmptyRegList →
   ∃ reg, reg ∈ candidates s (register_class n) ∧
          dies_here s (register_class n) stage reg
          || has_copy s (register_class n) reg
          || (0 <? use_of s (register_class n) reg) = true) →
  ∃ s' reg n',
    AllocateRegister s node stage
    = Some (s', AllocatedOperand REGISTER (GetMachineRepresentation n) reg) ∧
    nodes s' !! node = Some n' ∧
    is_in_register n' reg = true ∧
    has (used s' (register_class n)) reg = true ∧
    GetValue s' (register_class n) reg = node ∧
    RegistersOK s' ∧
    NothingLost stage s s' ∧
    (free s (register_class n) ≠ kEmptyRegList →
     reg = first (free s (register_class n)) ∧
     nodes s' = <[node := AddRegister n reg]> (nodes s)).
Proof.
  intros Harch Hok Hn Hcheap.
  destruct (AllocateRegister_spec s node n stage Harch Hok Hn Hcheap)
    as (s' & reg & n' & Hrun & Hn' & Hin & Hok' & Hlost & Hfirst).
  exists s', reg, n'. split; [done|]. split; [done|]. split; [done|].
  destruct (proj2 Hlost node n Hn) as (n2 & Hn2 & Hrep & _).
  assert (n2 = n') as -> by congruence.
  destruct (ok_node s' Hok' node n' reg Hn' Hin) as [Hu Hg].
  rewrite (register_class_eq n n' Hrep) in Hu, Hg. done.
Qed.

(** ** [UpdateUse] *)

(** A value gives up all its registers. *)
Lemma release_registers s s' w n :
  RegistersOK s →
  nodes s !! w = Some n →
  nodes s' = <[w := set_registers n kEmptyRegList]> (nodes s) →
  registers s' (register_class n)
  = mkRegisterFrameState (values_ (registers s (register_class n)))
      (Z.lor (free s (register_class n)) (registers_with_result_ n)) →
  (∀ c', register_class n ≠ c' → registers s' c' = registers s c') →
  RegistersOK s'.
Proof.
  intros Hok Hn Hnodes Hregs Hother.
  pose proof (node_not_sentinel s w n Hok Hn) as Hw.
  assert (Hused_s : ∀ c' x, has (used s c') x = true ↔
            has (kAllocatableRegisters c') x = true ∧
            has (free s c') x = false).
  { intros c' x. apply used_iff. apply (ok_free s Hok). }
  destruct Hok as [H1 H2 H3 H4].
  set (c := register_class n) in *.
  assert (Hfree : ∀ x, has (free s' c) x
                       = has (free s c) x || is_in_register n x).
  { intros x. unfold free at 1. rewrite Hregs. cbn [free_]. apply has_lor. }
  assert (HGet : ∀ c' x, GetValue s' c' x = GetValue s c' x).
  { intros c' x. destruct (decide (c = c')) as [<-|Hc].
    - unfold GetValue. by rewrite Hregs.
    - by apply GetValue_eq, Hother. }
  assert (Hfree_ok : ∀ c' x, has (free s' c') x = true →
                             has (kAllocatableRegisters c') x = true).
  { intros c' x. destruct (decide (c = c')) as [<-|Hc].
    - rewrite Hfree. intros [?|Hin]%orb_true_iff; [by apply H1|].
      destruct (H3 w n x Hn Hin) as [Hu _]. by apply Hused_s in Hu as [? _].
    - rewrite (free_eq s s' c' (Hother c' Hc)). apply H1. }
  assert (Hused' : ∀ x, has (used s' c) x = true ↔
                        has (used s c) x = true ∧ is_in_register n x = false).
  { intros x. rewrite (used_iff s' c x (Hfree_ok c)), Hused_s, Hfree.
    rewrite orb_false_iff. tauto. }
  split.
  - done.
  - intros c' x Hu Hval. rewrite Hnodes, HGet in *.
    destruct (decide (c = c')) as [<-|Hc].
    + apply Hused' in Hu as [Hu Hnin].
      destruct (H2 c x Hu Hval) as (m & Hm & Hcm & Hin).
      rewrite lookup_insert_ne; [by exists m|].
      intros Heq. rewrite <- Heq, Hn in Hm. injection Hm as <-. congruence.
    + rewrite (used_eq s s' c' (Hother c' Hc)) in Hu.
      destruct (H2 c' x Hu Hval) as (m & Hm & Hcm & Hin).
      rewrite lookup_insert_ne; [by exists m|].
      intros Heq. rewrite <- Heq, Hn in Hm. injection Hm as <-. done.
  - intros v m x. rewrite Hnodes, HGet.
    destruct (decide (v = w)) as [->|Hv].
    + rewrite lookup_insert_eq. intros [= <-]. unfold is_in_register.
      cbn. by rewrite has_empty.
    + rewrite lookup_insert_ne by done. intros Hm Hin.
      destruct (H3 v m x Hm Hin) as [Hu Hg]. split; [|done].
      destruct (decide (c = register_class m)) as [Hc|Hc].
      * rewrite <- Hc in *. apply Hused'. split; [done|].
        destruct (is_in_register n x) eqn:Hinn; [|done].
        destruct (H3 w n x Hn Hinn) as [_ Hgw]. fold c in Hgw. congruence.
      * by rewrite (used_eq s s' _ (Hother _ Hc)).
  - rewrite Hnodes, lookup_insert_ne; done.
Qed.

(** X14.  [UpdateUse] on a value, in a consistent register state, returns
    and records the next use.  When there is a next use the registers do
    not change.  At the last use the value gives up its registers: it
    lists none, and the free registers of its class are those that were
    free and those it was in.  No other value changes and the register
    state stays consistent. *)
Theorem UpdateUse_frees_registers_at_last_use s node n next_use_id :
  RegistersOK s →
  nodes s !! node = Some n →
  ∃ s' n',
    UpdateUse s node next_use_id = Some s' ∧
    RegistersOK s' ∧
    nodes s' = <[node := n']> (nodes s) ∧
    next_use n' = next_use_id ∧
    (next_use_id ≠ kInvalidNodeId →
     registers_with_result_ n' = registers_with_result_ n ∧
     ∀ c, registers s' c = registers s c) ∧
    (next_use_id = kInvalidNodeId →
     has_register n' = false ∧
     ∀ reg, has (free s' (register_class n)) reg
            = has (free s (register_class n)) reg || is_in_register n reg).
Proof.
  intros Hok Hn. unfold UpdateUse. rewrite Hn. cbn [mbind option_bind].
  set (n1 := set_next_use n next_use_id).
  set (s1 := with_node s node n1).
  assert (Hok1 : RegistersOK s1).
  { apply RegistersOK_But.
    apply (RegistersOKBut_update s s1 None node n n1); try done.
    by apply RegistersOK_But. }
  assert (Hdead : is_dead n1 = (next_use_id =? kInvalidNodeId)) by done.
  rewrite Hdead. destruct (Z.eqb_spec next_use_id kInvalidNodeId) as [Hid|Hid].
  - cbn [negb].
    destruct (FreeRegistersUsedBy_spec s1 node n1)
      as (s2 & Hfree & Hn2 & Hr2 & Ho2 & _).
    { apply lookup_insert_eq. }
    rewrite Hfree. cbn [mbind option_bind].
    set (n2 := set_registers n1 kEmptyRegList) in *.
    assert (Hnode2 : nodes s2 !! node = Some n2).
    { rewrite Hn2. apply lookup_insert_eq. }
    rewrite Hnode2. cbn [mbind option_bind].
    assert (Hok2 : RegistersOK s2).
    { apply (release_registers s1 s2 node n1); try done.
      apply lookup_insert_eq. }
    assert (Hany : ∀ s',
              nodes s' = nodes s2 →
              (∀ c, registers s' c = registers s2 c) →
              RegistersOK s' ∧
              nodes s' = <[node := n2]> (nodes s) ∧
              next_use n2 = next_use_id ∧
              (next_use_id ≠ kInvalidNodeId →
               registers_with_result_ n2 = registers_with_result_ n ∧
               ∀ c, registers s' c = registers s c) ∧
              (next_use_id = kInvalidNodeId →
               has_register n2 = false ∧
               ∀ reg, has (free s' (register_class n)) reg
                      = has (free s (register_class n)) reg
                        || is_in_register n reg)).
    { intros s' Hnodes' Hregs'. split; [|split; [|split; [|split]]].
      - apply RegistersOK_But.
        apply (RegistersOKBut_ext s2 s'); [done|done|].
        by apply RegistersOK_But.
      - rewrite Hnodes', Hn2. apply insert_insert_eq.
      - done.
      - done.
      - intros _. split; [done|]. intros reg. unfold free at 1.
        rewrite Hregs'.
        change (register_class n) with (register_class n1).
        rewrite Hr2. cbn [free_]. rewrite has_lor.
        by rewrite <- (free_eq s s1 _ (registers_with_node s node n1 _)). }
    destruct (is_spilled n2).
    + destruct (spill_or_hint_ n2) as [| | |kind rep index];
        try (exists s2, n2; split; [done|]; by apply Hany).
      destruct (0 <? index).
      * eexists _, n2. split; [done|]. apply Hany.
        -- by destruct (bool_decide (rep = kTagged)).
        -- intros c. apply registers_with_slots.
      * exists s2, n2. split; [done|]. by apply Hany.
    + exists s2, n2. split; [done|]. by apply Hany.
  - cbn [negb]. exists s1, n1. split; [done|]. split; [done|].
    split; [done|]. split; [done|]. split; [|done].
    intros _. split; [done|]. intros c. apply registers_with_node.
Qed.

(** ** [AssignFixedTemporaries] *)

(** One round of the loop: the register is emptied or taken from the free
    registers, and blocked. *)
Lemma block_temporary s reg :
  ArchitectureOK →
  RegistersOK s →
  has (kAllocatableRegisters General) reg = true →
  (has (used s General) reg = true →
   GetValue s General reg ≠ kBlockedRegisterSentinel) →
  ∃ s1,
    (if negb (has (free s General) reg) then
       DropRegisterValue s General reg kAtStart
     else Some (RemoveFromFree s General reg)) = Some s1 ∧
    let s2 := SetSentinelValue s1 General reg kBlockedRegisterSentinel in
    RegistersOK s2 ∧
    NothingLost kAtStart s s2 ∧
    (has (used s2 General) reg = true ∧
     GetValue s2 General reg = kBlockedRegisterSentinel) ∧
    (∀ c x, has (used s c) x = true → (c, x) ≠ (General, reg) →
       has (used s2 c) x = true ∧ GetValue s2 c x = GetValue s c x) ∧
    (∀ x, x ≠ reg → has (used s2 General) x = true →
       GetValue s2 General x = kBlockedRegisterSentinel →
       has (used s General) x = true ∧
       GetValue s General x = kBlockedRegisterSentinel).
Proof.
  intros Harch Hok Hal Hblocked.
  pose proof (has_nonneg _ _ Hal) as Hreg.
  pose proof (proj1 (RegistersOK_But s) Hok) as Hbut0.
  destruct (has (free s General) reg) eqn:Hfree; cbn [negb].
  - exists (RemoveFromFree s General reg). split; [done|]. cbv zeta.
    set (s2 := SetSentinelValue _ General reg kBlockedRegisterSentinel).
    destruct (RemoveFromFree_spec s General reg Hreg)
      as (Hn1 & Hv1 & Hf1 & Ho1 & Hc1).
    set (s1 := RemoveFromFree s General reg) in *.
    destruct (SetSentinelValue_spec s1 General reg kBlockedRegisterSentinel)
      as (Hn2 & Hv2 & Hf2 & Ho2 & Hc2).
    fold s2 in Hn2, Hv2, Hf2, Ho2, Hc2.
    assert (Hfree2 : ∀ x, has (free s2 General) x
                          = has (free s General) x && negb (x =? reg)).
    { intros x. by rewrite Hf2, Hf1. }
    assert (Hother : ∀ c', General ≠ c' → registers s2 c' = registers s c').
    { intros c' Hc. by rewrite Ho2, Ho1. }
    assert (HGet : ∀ x, x ≠ reg →
              GetValue s2 General x = GetValue s General x).
    { intros x Hx. unfold GetValue. by rewrite Hv2, Hv1, lookup_insert_ne. }
    assert (Hbut2 : RegistersOKBut s2 None).
    { refine (block_register s s2 None None General reg Hbut0 Hal
                (or_introl (conj Hfree eq_refl)) _ _ Hfree2 Hother).
      - by rewrite Hn2, Hn1.
      - by rewrite Hv2, Hv1. }
    split; [by apply RegistersOK_But|]. split; [|split; [|split]].
    + apply NothingLost_nodes; [by rewrite Hn2, Hn1|by rewrite Hc2, Hc1].
    + split.
      * apply (But_used_iff s2 None General reg Hbut2). split; [done|].
        by rewrite Hfree2, Z.eqb_refl, andb_false_r.
      * unfold GetValue. by rewrite Hv2, lookup_insert_eq.
    + intros c x Hu Hne. destruct c.
      * assert (x ≠ reg) by congruence.
        apply (But_used_iff s None General x Hbut0) in Hu as [Ha Hf].
        split; [|by apply HGet].
        apply (But_used_iff s2 None General x Hbut2). split; [done|].
        by rewrite Hfree2, Hf.
      * rewrite (used_eq s s2 Double (Hother Double ltac:(done))).
        by rewrite (GetValue_eq s s2 Double x (Hother Double ltac:(done))).
    + intros x Hx Hu Hval. rewrite (HGet x Hx) in Hval. split; [|done].
      apply (But_used_iff s2 None General x Hbut2) in Hu as [Ha Hf].
      apply (But_used_iff s None General x Hbut0). split; [done|].
      rewrite Hfree2 in Hf. apply andb_false_iff in Hf as [?|Hf]; [done|].
      apply negb_false_iff, Z.eqb_eq in Hf. done.
  - assert (Hu : has (used s General) reg = true).
    { apply (But_used_iff s None General reg Hbut0). done. }
    specialize (Hblocked Hu).
    destruct (DropRegisterValue_spec s General reg kAtStart Harch Hok Hu
                Hblocked) as (s1 & Hdrop & Hbut & Hlost & Hkeep & Hnew).
    exists s1. split; [done|]. cbv zeta.
    set (s2 := SetSentinelValue s1 General reg kBlockedRegisterSentinel).
    destruct (SetSentinelValue_spec s1 General reg kBlockedRegisterSentinel)
      as (Hn2 & Hv2 & Hf2 & Ho2 & Hc2).
    fold s2 in Hn2, Hv2, Hf2, Ho2, Hc2.
    pose proof (but_hole s1 _ Hbut General reg eq_refl) as Hu1.
    apply (But_used_iff s1 _ General reg Hbut) in Hu1 as [_ Hnf1].
    assert (HGet : ∀ x, x ≠ reg →
              GetValue s2 General x = GetValue s1 General x).
    { intros x Hx. unfold GetValue. by rewrite Hv2, lookup_insert_ne. }
    assert (Hbut2 : RegistersOKBut s2 None).
    { refine (block_register s1 s2 (Some (General, reg)) None General reg
                Hbut Hal (or_intror (conj eq_refl eq_refl)) Hn2 Hv2 _ Ho2).
      intros x. rewrite Hf2. destruct (Z.eqb_spec x reg) as [->|Hx].
      - by rewrite Hnf1.
      - by rewrite andb_true_r. }
    assert (Hused2 : ∀ x, has (used s2 General) x = true ↔
                          has (used s1 General) x = true).
    { intros x. rewrite (But_used_iff s2 None General x Hbut2).
      rewrite (But_used_iff s1 _ General x Hbut). by rewrite Hf2. }
    split; [by apply RegistersOK_But|]. split; [|split; [|split]].
    + apply (NothingLost_trans kAtStart s s1); [done|].
      by apply NothingLost_nodes.
    + split.
      * apply Hused2. by apply (but_hole s1 _ Hbut).
      * unfold GetValue. by rewrite Hv2, lookup_insert_eq.
    + intros c x Hux Hne. destruct (Hkeep c x Hux) as [Hu1 Hg1].
      destruct c.
      * assert (x ≠ reg) by congruence.
        split; [by apply Hused2|]. by rewrite HGet.
      * rewrite (used_eq s1 s2 Double (Ho2 Double ltac:(done))).
        by rewrite (GetValue_eq s1 s2 Double x (Ho2 Double ltac:(done))).
    + intros x Hx Hux Hval. rewrite (HGet x Hx) in Hval.
      apply Hused2 in Hux.
      destruct (Hnew General x Hux) as [Hus|[_ Heq]].
      * split; [done|]. destruct (Hkeep General x Hus) as [_ Hg].
        congruence.
      * congruence.
Qed.

Lemma AssignFixedTemporaries_loop_spec regs : ∀ s,
  ArchitectureOK →
  NoDup regs →
  RegistersOK s →
  (∀ reg, reg ∈ regs →
     has (kAllocatableRegisters General) reg = true ∧
     (has (used s General) reg = true →
      GetValue s General reg ≠ kBlockedRegisterSentinel)) →
  ∃ s',
    AssignFixedTemporaries_loop s regs = Some s' ∧
    RegistersOK s' ∧
    NothingLost kAtStart s s' ∧
    (∀ reg, reg ∈ regs →
       has (used s' General) reg = true ∧
       GetValue s' General reg = kBlockedRegisterSentinel) ∧
    (∀ c x, has (used s c) x = true → (c = General → x ∉ regs) →
       has (used s' c) x = true ∧ GetValue s' c x = GetValue s c x).
Proof.
  induction regs as [|reg regs IH]; intros s Harch Hnodup Hok Hregs.
  - exists s. split; [done|]. split; [done|].
    split; [apply NothingLost_refl|]. split; [|done].
    intros reg Hreg. by apply elem_of_nil in Hreg.
  - apply NoDup_cons in Hnodup as [Hnotin Hnodup].
    destruct (Hregs reg) as [Hal Hblocked]; [by left|].
    destruct (block_temporary s reg Harch Hok Hal Hblocked)
      as (s1 & Hstep & Hok2 & Hlost2 & Hreg2 & Hkeep2 & Hnew2).
    cbn [AssignFixedTemporaries_loop]. rewrite Hstep.
    cbn [mbind option_bind].
    set (s2 := SetSentinelValue s1 General reg kBlockedRegisterSentinel) in *.
    destruct (IH s2 Harch Hnodup Hok2)
      as (s' & Hloop & Hok' & Hlost' & Hblock' & Hkeep').
    { intros x Hx. destruct (Hregs x) as [Hax Hbx]; [by right|].
      split; [done|]. intros Hux Hval.
      assert (Hne : x ≠ reg) by by intros ->.
      destruct (Hnew2 x Hne Hux Hval) as [Hus Hvs]. by apply Hbx. }
    exists s'. split; [done|]. split; [done|].
    split; [by apply (NothingLost_trans kAtStart s s2)|]. split.
    + intros x [->|Hx]%elem_of_cons; [|by apply Hblock'].
      destruct Hreg2 as [Hu2 Hg2].
      destruct (Hkeep' General reg Hu2) as [Hu' Hg']; [done|].
      split; [done|]. congruence.
    + intros c x Hux Hnot.
      destruct (Hkeep2 c x Hux) as [Hu2 Hg2].
      { intros [= -> ->]. apply Hnot; [done|]. by left. }
      destruct (Hkeep' c x Hu2) as [Hu' Hg'].
      { intros Hc Hin. apply Hnot; [done|]. by right. }
      split; [done|]. congruence.
Qed.

Lemma NoDup_registers_of regs : NoDup (registers_of regs).
Proof.
  unfold registers_of. generalize (NoDup_seqZ 0 kNumRegisters).
  induction (seqZ 0 kNumRegisters) as [|x l IH]; [done|].
  intros [Hx Hl]%NoDup_cons. cbn [List.filter].
  destruct (has regs x); [|by apply IH].
  apply NoDup_cons. split; [|by apply IH].
  intros Hin%list_elem_of_In%filter_In. apply Hx, list_elem_of_In.
  by destruct Hin.
Qed.

(** X15.  [AssignFixedTemporaries] on a node whose fixed temporaries are
    allocatable general registers, none of them blocked, in a consistent
    register state, returns.  Afterwards every temporary is in use and
    blocked, the registers in use that are no temporaries hold what they
    held, the register state is consistent and no value is lost: a value
    that was in a register or loadable still is. *)
Theorem AssignFixedTemporaries_blocks_temporaries s node :
  ArchitectureOK →
  RegistersOK s →
  (∀ reg, has (temporaries node) reg = true →
     has (kAllocatableRegisters General) reg = true ∧
     (has (used s General) reg = true →
      GetValue s General reg ≠ kBlockedRegisterSentinel)) →
  ∃ s',
    AssignFixedTemporaries s node = Some s' ∧
    RegistersOK s' ∧
    NothingLost kAtStart s s' ∧
    (∀ reg, has (temporaries node) reg = true →
       has (used s' General) reg = true ∧
       GetValue s' General reg = kBlockedRegisterSentinel) ∧
    (∀ c x, has (used s c) x = true →
       (c = General → has (temporaries node) x = false) →
       has (used s' c) x = true ∧ GetValue s' c x = GetValue s c x).
Proof.
  intros Harch Hok Htemps.
  destruct (AssignFixedTemporaries_loop_spec
              (registers_of (temporaries node)) s Harch
              (NoDup_registers_of _) Hok)
    as (s' & Hloop & Hok' & Hlost & Hblock & Hkeep).
  { intros reg [_ Hreg]%elem_of_registers_of. by apply Htemps. }
  exists s'. split; [done|]. split; [done|]. split; [done|]. split.
  - intros reg Hreg. apply Hblock, elem_of_registers_of. split; [|done].
    destruct Harch as [Hk Hal].
    apply (has_bound (kAllocatableRegisters General)); [done|apply Hal|].
    by apply Htemps.
  - intros c x Hux Hnot. apply Hkeep; [done|].
    intros Hc [_ Hin]%elem_of_registers_of. rewrite Hnot in Hin; done.
Qed.

(** ** [SpillRegisters] *)

Lemma Spill_loadable s node n :
  nodes s !! node = Some n → is_loadable n = true → Spill s node = Some s.
Proof.
  intros Hn Hload. unfold Spill. rewrite Hn. cbn [mbind option_bind].
  by rewrite Hload.
Qed.

Lemma ForEachUsedRegister_Spill_loadable c regs s :
  (∀ reg, reg ∈ regs →
     ∃ n, nodes s !! GetValue s c reg = Some n ∧ is_loadable n = true) →
  ForEachUsedRegister_Spill s c regs = Some s.
Proof.
  induction regs as [|reg regs IH]; intros Hregs; [done|].
  cbn [ForEachUsedRegister_Spill].
  destruct (Hregs reg) as (n & Hn & Hload); [by left|].
  rewrite (Spill_loadable s _ n Hn Hload). cbn [mbind option_bind].
  apply IH. intros x Hx. apply Hregs. by right.
Qed.

Lemma ForEachUsedRegister_Spill_spec c regs : ∀ s,
  RegistersOK s →
  (∀ reg, reg ∈ regs →
     has (used s c) reg = true ∧
     GetValue s c reg ≠ kBlockedRegisterSentinel) →
  ∃ s',
    ForEachUsedRegister_Spill s c regs = Some s' ∧
    RegistersOK s' ∧
    (∀ c', registers s' c' = registers s c') ∧
    (∀ w n, nodes s !! w = Some n →
       ∃ n', nodes s' !! w = Some n' ∧
             registers_with_result_ n' = registers_with_result_ n ∧
             Kept n n') ∧
    (∀ reg, reg ∈ regs →
       ∃ n', nodes s' !! GetValue s c reg = Some n' ∧
             is_loadable n' = true).
Proof.
  induction regs as [|reg regs IH]; intros s Hok Hregs.
  - exists s. split; [done|]. split; [done|]. split; [done|]. split.
    + intros w n Hn. exists n. split; [done|]. split; [done|].
      apply Kept_refl.
    + intros reg Hreg. by apply elem_of_nil in Hreg.
  - destruct (Hregs reg) as [Hu Hval]; [by left|].
    destruct (ok_used s Hok c reg Hu Hval) as (n & Hn & _).
    destruct (Spill_spec s _ n Hn)
      as (s1 & n1 & Hspill & Hn1 & Hr1 & _ & Hrr1 & Hkept1 & Hload1).
    cbn [ForEachUsedRegister_Spill]. rewrite Hspill.
    cbn [mbind option_bind].
    assert (Hok1 : RegistersOK s1).
    { apply RegistersOK_But.
      refine (RegistersOKBut_update s s1 None (GetValue s c reg) n n1
                _ Hn Hn1 Hr1 Hrr1 _).
      - by apply RegistersOK_But.
      - by destruct Hkept1. }
    assert (Hstep : ∀ w m, nodes s !! w = Some m →
              ∃ m', nodes s1 !! w = Some m' ∧
                    registers_with_result_ m' = registers_with_result_ m ∧
                    Kept m m').
    { intros w m Hm. rewrite Hn1.
      destruct (decide (w = GetValue s c reg)) as [->|Hw].
      - rewrite lookup_insert_eq. exists n1.
        assert (m = n) as -> by congruence. done.
      - rewrite lookup_insert_ne by done. exists m. split; [done|].
        split; [done|]. apply Kept_refl. }
    destruct (IH s1 Hok1) as (s' & Hloop & Hok' & Hr' & Hkept' & Hload').
    { intros x Hx. rewrite (used_eq s s1 c (Hr1 c)).
      rewrite (GetValue_eq s s1 c x (Hr1 c)). apply Hregs. by right. }
    exists s'. split; [done|]. split; [done|].
    split; [intros c'; by rewrite Hr', Hr1|]. split.
    + intros w m Hm. destruct (Hstep w m Hm) as (m1 & Hm1 & Hrr & Hk).
      destruct (Hkept' w m1 Hm1) as (m' & Hm' & Hrr' & Hk').
      exists m'. split; [done|]. split; [congruence|].
      by apply (Kept_trans m m1 m').
    + intros x [->|Hx]%elem_of_cons.
      * destruct (Hkept' (GetValue s c reg) n1) as (n' & Hn' & _ & Hk).
        { rewrite Hn1. apply lookup_insert_eq. }
        exists n'. split; [done|]. destruct Hk as (_ & _ & Hl). by apply Hl.
      * destruct (Hload' x Hx) as (n' & Hn' & Hl).
        rewrite (GetValue_eq s s1 c x (Hr1 c)) in Hn'. by exists n'.
Qed.

(** X16.  [SpillRegisters], in a consistent register state with no
    blocked register, returns.  Afterwards every value that is in a
    register is loadable as well, the registers hold what they held, every
    value lists the registers it listed, and the register state is
    consistent.  Spilling the registers again changes nothing. *)
Theorem SpillRegisters_makes_values_loadable s :
  ArchitectureOK →
  RegistersOK s →
  (∀ c reg, has (used s c) reg = true →
            GetValue s c reg ≠ kBlockedRegisterSentinel) →
  ∃ s',
    SpillRegisters s = Some s' ∧
    (∀ c, registers s' c = registers s c) ∧
    RegistersOK s' ∧
    (∀ c reg, has (used s c) reg = true →
       ∃ n', nodes s' !! GetValue s c reg = Some n' ∧
             is_loadable n' = true ∧ is_in_register n' reg = true) ∧
    (∀ w n, nodes s !! w = Some n →
       ∃ n', nodes s' !! w = Some n' ∧
             registers_with_result_ n' = registers_with_result_ n ∧
             Kept n n') ∧
    SpillRegisters s' = Some s'.
Proof.
  intros Harch Hok Hblocked.
  assert (Hin : ∀ a c reg, RegistersOK a →
            reg ∈ registers_of (used a c) ↔ has (used a c) reg = true).
  { intros a c reg Ha. rewrite elem_of_registers_of. split; [tauto|].
    intros Hu. split; [|done].
    apply (used_bound a c reg Harch); [apply (ok_free a Ha)|done]. }
  destruct (ForEachUsedRegister_Spill_spec General
              (registers_of (used s General)) s Hok)
    as (s1 & Hrun1 & Hok1 & Hr1 & Hkept1 & Hload1).
  { intros reg Hreg%Hin; [|done]. split; [done|]. by apply Hblocked. }
  destruct (ForEachUsedRegister_Spill_spec Double
              (registers_of (used s1 Double)) s1 Hok1)
    as (s' & Hrun2 & Hok' & Hr2 & Hkept2 & Hload2).
  { intros reg Hreg%Hin; [|done]. split; [done|].
    rewrite (used_eq s s1 Double (Hr1 Double)) in Hreg.
    rewrite (GetValue_eq s s1 Double reg (Hr1 Double)). by apply Hblocked. }
  assert (Hregs : ∀ c, registers s' c = registers s c).
  { intros c. by rewrite Hr2, Hr1. }
  assert (Hloadable : ∀ c reg, has (used s c) reg = true →
            ∃ n', nodes s' !! GetValue s c reg = Some n' ∧
                  is_loadable n' = true ∧ is_in_register n' reg = true).
  { intros c reg Hu.
    assert (Hu' : has (used s' c) reg = true)
      by by rewrite (used_eq s s' c (Hregs c)).
    destruct (ok_used s' Hok' c reg Hu') as (n' & Hn' & _ & Hinr).
    { rewrite (GetValue_eq s s' c reg (Hregs c)). by apply Hblocked. }
    rewrite (GetValue_eq s s' c reg (Hregs c)) in Hn'.
    exists n'. split; [done|]. split; [|done]. destruct c.
    - destruct (Hload1 reg) as (m1 & Hm1 & Hl1); [by apply Hin|].
      destruct (Hkept2 _ m1 Hm1) as (m' & Hm' & _ & _ & _ & Hl).
      assert (m' = n') as -> by congruence. by apply Hl.
    - destruct (Hload2 reg) as (m' & Hm' & Hl).
      { apply Hin; [done|]. by rewrite (used_eq s s1 Double (Hr1 Double)). }
      rewrite (GetValue_eq s s1 Double reg (Hr1 Double)) in Hm'.
      assert (m' = n') as -> by congruence. done. }
  exists s'. unfold SpillRegisters at 1. rewrite Hrun1.
  cbn [mbind option_bind]. split; [done|]. split; [done|]. split; [done|].
  split; [done|]. split.
  - intros w n Hn. destruct (Hkept1 w n Hn) as (n1 & Hn1 & Hrr1 & Hk1).
    destruct (Hkept2 w n1 Hn1) as (n' & Hn' & Hrr2 & Hk2).
    exists n'. split; [done|]. split; [congruence|].
    by apply (Kept_trans n n1 n').
  - assert (Hagain : ∀ c reg, reg ∈ registers_of (used s' c) →
              ∃ n, nodes s' !! GetValue s' c reg = Some n ∧
                   is_loadable n = true).
    { intros c reg Hreg%Hin; [|done].
      rewrite (used_eq s s' c (Hregs c)) in Hreg.
      rewrite (GetValue_eq s s' c reg (Hregs c)).
      destruct (Hloadable c reg Hreg) as (n' & Hn' & Hl & _). by exists n'. }
    unfold SpillRegisters.
    rewrite (ForEachUsedRegister_Spill_loadable General _ s' (Hagain General)).
    cbn [mbind option_bind].
    apply (ForEachUsedRegister_Spill_loadable Double _ s' (Hagain Double)).
Qed.

(** ** [AssignArbitraryTemporaries] *)

Lemma next_use_insert s s' v n n' :
  nodes s !! v = Some n →
  nodes s' = <[v := n']> (nodes s) →
  next_use n' = next_use n →
  ∀ w m, nodes s !! w = Some m →
    ∃ m', nodes s' !! w = Some m' ∧ next_use m' = next_use m.
Proof.
  intros Hn Hnodes Huse w m Hm. rewrite Hnodes.
  destruct (decide (w = v)) as [->|Hw].
  - rewrite lookup_insert_eq. exists n'. split; [done|]. congruence.
  - rewrite lookup_insert_ne by done. by exists m.
Qed.

Lemma Spill_next_use s node s' :
  Spill s node = Some s' →
  ∀ w m, nodes s !! w = Some m →
    ∃ m', nodes s' !! w = Some m' ∧ next_use m' = next_use m.
Proof.
  unfold Spill. destruct (nodes s !! node) as [n|] eqn:Hn; [|done].
  cbn [mbind option_bind]. destruct (is_loadable n).
  - intros [= <-] w m Hm. by exists m.
  - rewrite (AllocateSpillSlot_eq s node n Hn). cbv zeta. intros [= <-].
    eapply (next_use_insert s _ node n); [exact Hn| |].
    + by rewrite nodes_with_node, nodes_with_slots.
    + done.
Qed.

Lemma DropRegisterValue_next_use s c reg stage s' :
  DropRegisterValue s c reg stage = Some s' →
  ∀ w m, nodes s !! w = Some m →
    ∃ m', nodes s' !! w = Some m' ∧ next_use m' = next_use m.
Proof.
  unfold DropRegisterValue.
  destruct (nodes s !! GetValue s c reg) as [n|] eqn:Hn; [|done].
  cbn [mbind option_bind].
  set (v := GetValue s c reg) in *.
  set (n1 := RemoveRegister n reg).
  set (s1 := with_node s v n1).
  assert (Hstep : ∀ w m, nodes s !! w = Some m →
            ∃ m', nodes s1 !! w = Some m' ∧ next_use m' = next_use m).
  { by apply (next_use_insert s s1 v n n1). }
  destruct (has_register n1 || is_loadable n1); [by intros [= <-]|].
  destruct (bool_decide (stage = kAtEnd)
            && (end_ (live_range n1) =? current_node_id s1));
    [by intros [= <-]|].
  destruct (negb (FreeIsEmpty s1 c)).
  - set (target := first (free s1 c)). unfold SetValue.
    assert (Hn1 : nodes (RemoveFromFree s1 c target) !! v = Some n1).
    { destruct c; apply lookup_insert_eq. }
    rewrite Hn1. cbn [mbind option_bind]. intros [= <-].
    eapply (next_use_insert s _ v n (AddRegister n1 target)); [exact Hn| |done].
    cbn [nodes AddMoveBeforeCurrentNode]. rewrite nodes_with_node.
    destruct c; apply insert_insert_eq.
  - intros Hspill w m Hm. destruct (Hstep w m Hm) as (m1 & Hm1 & Huse1).
    destruct (Spill_next_use s1 v s' Hspill w m1 Hm1) as (m' & Hm' & Huse').
    exists m'. split; [done|]. congruence.
Qed.

(** A free register gets blocked. *)
Lemma block_free_register s reg :
  RegistersOK s →
  has (free s General) reg = true →
  let s2 :=
    SetSentinelValue (RemoveFromFree s General reg) General reg
      kBlockedRegisterSentinel in
  RegistersOK s2 ∧
  nodes s2 = nodes s ∧
  current_node_id s2 = current_node_id s ∧
  has (used s2 General) reg = true ∧
  GetValue s2 General reg = kBlockedRegisterSentinel ∧
  (∀ x, x ≠ reg →
     has (free s2 General) x = has (free s General) x ∧
     GetValue s2 General x = GetValue s General x) ∧
  registers s2 Double = registers s Double.
Proof.
  intros Hok Hfree s2.
  pose proof (ok_free s Hok General reg Hfree) as Hal.
  pose proof (has_nonneg _ _ Hal) as Hreg.
  pose proof (proj1 (RegistersOK_But s) Hok) as Hbut0.
  destruct (RemoveFromFree_spec s General reg Hreg)
    as (Hn1 & Hv1 & Hf1 & Ho1 & Hc1).
  set (s1 := RemoveFromFree s General reg) in *.
  destruct (SetSentinelValue_spec s1 General reg kBlockedRegisterSentinel)
    as (Hn2 & Hv2 & Hf2 & Ho2 & Hc2).
  fold s2 in Hn2, Hv2, Hf2, Ho2, Hc2.
  assert (Hfree2 : ∀ x, has (free s2 General) x
                        = has (free s General) x && negb (x =? reg)).
  { intros x. by rewrite Hf2, Hf1. }
  assert (Hother : ∀ c', General ≠ c' → registers s2 c' = registers s c').
  { intros c' Hc. by rewrite Ho2, Ho1. }
  assert (Hbut2 : RegistersOKBut s2 None).
  { refine (block_register s s2 None None General reg Hbut0 Hal
              (or_introl (conj Hfree eq_refl)) _ _ Hfree2 Hother).
    - by rewrite Hn2, Hn1.
    - by rewrite Hv2, Hv1. }
  split; [by apply RegistersOK_But|]. split; [by rewrite Hn2, Hn1|].
  split; [by rewrite Hc2, Hc1|]. split; [|split; [|split]].
  - apply (But_used_iff s2 None General reg Hbut2). split; [done|].
    by rewrite Hfree2, Z.eqb_refl, andb_false_r.
  - unfold GetValue. by rewrite Hv2, lookup_insert_eq.
  - intros x Hx. split.
    + rewrite Hfree2. apply Z.eqb_neq in Hx. by rewrite Hx, andb_true_r.
    + unfold GetValue. by rewrite Hv2, Hv1, lookup_insert_ne.
  - by apply Hother.
Qed.

Lemma filter_length_add (P Q : Z → bool) (l : list Z) r :
  NoDup l → r ∈ l → P r = false → Q r = true →
  (∀ x, x ≠ r → Q x = P x) →
  length (List.filter Q l) = S (length (List.filter P l)).
Proof.
  intros Hnodup Hr HP HQ Hsame.
  induction l as [|x l IH]; [by apply elem_of_nil in Hr|].
  apply NoDup_cons in Hnodup as [Hx Hnodup]. cbn [List.filter].
  destruct (decide (x = r)) as [->|Hne].
  - rewrite HP, HQ. cbn [length]. f_equal. f_equal.
    apply List.filter_ext_in. intros y Hy%list_elem_of_In.
    apply Hsame. by intros ->.
  - rewrite (Hsame x Hne). apply elem_of_cons in Hr as [->|Hr]; [done|].
    destruct (P x); cbn [length]; rewrite (IH Hnodup Hr); done.
Qed.

Lemma filter_length_le_in (P Q : Z → bool) (l : list Z) :
  (∀ y, y ∈ l → P y = true → Q y = true) →
  (length (List.filter P l) ≤ length (List.filter Q l))%nat.
Proof.
  induction l as [|x l IH]; intros Hsub; [done|]. cbn [List.filter].
  assert (IH' : (length (List.filter P l) ≤ length (List.filter Q l))%nat).
  { apply IH. intros y Hy. apply Hsub. by right. }
  destruct (P x) eqn:HP.
  - rewrite (Hsub x); [cbn [length]; lia|by left|done].
  - destruct (Q x); cbn [length]; lia.
Qed.

Lemma filter_length_drop (P Q : Z → bool) (l : list Z) r :
  NoDup l →
  (∀ x, x ∈ l → x ≠ r → P x = true → Q x = true) →
  (length (List.filter P l) ≤ S (length (List.filter Q l)))%nat.
Proof.
  intros Hnodup Hsub. induction l as [|x l IH]; [cbn; lia|].
  apply NoDup_cons in Hnodup as [Hx Hnodup]. cbn [List.filter].
  destruct (decide (x = r)) as [->|Hne].
  - assert (Hle : (length (List.filter P l) ≤ length (List.filter Q l))%nat).
    { apply filter_length_le_in. intros y Hy. apply Hsub; [by right|].
      by intros ->. }
    destruct (P r), (Q r); cbn [length]; lia.
  - assert (IH' : (length (List.filter P l)
                   ≤ S (length (List.filter Q l)))%nat).
    { apply IH; [done|]. intros y Hy. apply Hsub. by right. }
    destruct (P x) eqn:HP.
    + rewrite (Hsub x); [cbn [length]; lia|by left|done|done].
    + destruct (Q x); cbn [length]; lia.
Qed.

Lemma candidates_filter s c :
  candidates s c
  = List.filter
      (λ x, has (used s c) x
            && negb (GetValue s c x =? kBlockedRegisterSentinel))
      (seqZ 0 kNumRegisters).
Proof.
  unfold candidates, registers_of.
  induction (seqZ 0 kNumRegisters) as [|x l IH]; [done|].
  cbn [List.filter]. destruct (has (used s c) x); cbn [andb List.filter].
  - by rewrite IH.
  - done.
Qed.

Lemma elem_of_candidates s c x :
  x ∈ candidates s c ↔
  0 <= x < kNumRegisters ∧ has (used s c) x = true ∧
  GetValue s c x ≠ kBlockedRegisterSentinel.
Proof.
  unfold candidates. rewrite list_elem_of_In, filter_In, <- list_elem_of_In.
  rewrite elem_of_registers_of, negb_true_iff, Z.eqb_neq. tauto.
Qed.

Lemma Count_set regs r :
  0 <= r < kNumRegisters → has regs r = false →
  Count (set regs r) = Count regs + 1.
Proof.
  intros Hr Hnot. unfold Count, registers_of.
  rewrite (filter_length_add (has regs) (has (set regs r)) _ r).
  - lia.
  - apply NoDup_seqZ.
  - apply elem_of_seqZ. lia.
  - done.
  - rewrite has_set, Z.eqb_refl, orb_true_r; [done|lia].
  - intros x Hx. rewrite has_set by lia. apply Z.eqb_neq in Hx.
    by rewrite Hx, orb_false_r.
Qed.

Lemma use_of_preserved s s' c x y :
  (∀ w m, nodes s !! w = Some m →
     ∃ m', nodes s' !! w = Some m' ∧ next_use m' = next_use m) →
  GetValue s' c x = GetValue s c y →
  0 < use_of s c y →
  use_of s' c x = use_of s c y.
Proof.
  intros Hkeep Hg Hpos. unfold use_of in *. rewrite Hg.
  destruct (nodes s !! GetValue s c y) as [m|] eqn:Hm; [|lia].
  destruct (Hkeep _ m Hm) as (m' & -> & ->). done.
Qed.

(** A register gives up its value and is blocked. *)
Lemma evict_and_block s best :
  ArchitectureOK →
  RegistersOK s →
  best ∈ candidates s General →
  (∀ x, x ∈ candidates s General → 0 < use_of s General x) →
  ∃ s1,
    DropRegisterValue s General best kAtStart = Some s1 ∧
    let s4 :=
      SetSentinelValue
        (RemoveFromFree (AddToFree s1 General best) General best)
        General best kBlockedRegisterSentinel in
    RegistersOK s4 ∧
    NothingLost kAtStart s s4 ∧
    has (used s4 General) best = true ∧
    GetValue s4 General best = kBlockedRegisterSentinel ∧
    (∀ x, has (used s General) x = true → x ≠ best →
       has (used s4 General) x = true ∧
       GetValue s4 General x = GetValue s General x) ∧
    (∀ x, x ∈ candidates s4 General → 0 < use_of s4 General x) ∧
    (length (candidates s General)
     ≤ S (length (candidates s4 General)))%nat.
Proof.
  intros Harch Hok Hbest Hpos.
  pose proof (proj1 (elem_of_candidates s General best) Hbest)
    as (Hbound & Hu & Hval).
  destruct (DropRegisterValue_spec s General best kAtStart Harch Hok Hu Hval)
    as (s1 & Hdrop & Hbut & Hlost & Hkeep & Hnew).
  pose proof (DropRegisterValue_next_use s General best kAtStart s1 Hdrop)
    as Huse.
  exists s1. split; [done|]. cbv zeta.
  set (s2 := AddToFree s1 General best).
  assert (Hok2 : RegistersOK s2).
  { apply RegistersOK_But. by apply free_hole. }
  assert (Hfree2 : ∀ x, has (free s2 General) x
                        = has (free s1 General) x || (x =? best)).
  { intros x. unfold s2, AddToFree, with_free, free at 1.
    rewrite registers_with_registers_eq. cbn [free_]. apply has_set. lia. }
  assert (HGet2 : ∀ x, GetValue s2 General x = GetValue s1 General x)
    by done.
  destruct (block_free_register s2 best Hok2)
    as (Hok4 & Hn4 & Hc4 & Hu4 & Hg4 & Hrest4 & _).
  { by rewrite Hfree2, Z.eqb_refl, orb_true_r. }
  set (s4 := SetSentinelValue (RemoveFromFree s2 General best) General best
               kBlockedRegisterSentinel) in *.
  assert (Hused4 : ∀ x, x ≠ best →
            has (used s4 General) x = has (used s1 General) x).
  { intros x Hx. rewrite !used_has.
    destruct (Hrest4 x Hx) as [-> _]. rewrite Hfree2.
    apply Z.eqb_neq in Hx. by rewrite Hx, orb_false_r. }
  assert (HGet4 : ∀ x, x ≠ best →
            GetValue s4 General x = GetValue s1 General x).
  { intros x Hx. destruct (Hrest4 x Hx) as [_ ->]. done. }
  assert (Hkeep4 : ∀ x, has (used s General) x = true → x ≠ best →
            has (used s4 General) x = true ∧
            GetValue s4 General x = GetValue s General x).
  { intros x Hux Hx. destruct (Hkeep General x Hux) as [Hu1 Hg1].
    by rewrite Hused4, HGet4. }
  assert (Huse4 : ∀ w m, nodes s !! w = Some m →
            ∃ m', nodes s4 !! w = Some m' ∧ next_use m' = next_use m).
  { intros w m Hm. rewrite Hn4. by apply Huse. }
  split; [done|]. split; [|split; [done|split; [done|split; [done|split]]]].
  - apply (NothingLost_trans kAtStart s s1); [done|].
    apply NothingLost_nodes; [by rewrite Hn4|by rewrite Hc4].
  - intros x (Hbx & Hux & Hvx)%elem_of_candidates.
    assert (Hx : x ≠ best) by (intros ->; congruence).
    rewrite Hused4 in Hux by done.
    destruct (Hnew General x Hux) as [Hus|[_ Heq]].
    + destruct (Hkeep General x Hus) as [_ Hg1].
      assert (Hcand : x ∈ candidates s General).
      { apply elem_of_candidates. split; [done|]. split; [done|].
        rewrite <- Hg1, <- HGet4; done. }
      rewrite (use_of_preserved s s4 General x x Huse4);
        [by apply Hpos| |by apply Hpos].
      by rewrite HGet4, Hg1.
    + rewrite (use_of_preserved s s4 General x best Huse4);
        [by apply Hpos| |by apply Hpos].
      by rewrite HGet4.
  - rewrite !candidates_filter.
    apply (filter_length_drop _ _ _ best); [apply NoDup_seqZ|].
    intros x _ Hx [Hux Hvx]%andb_true_iff.
    destruct (Hkeep4 x Hux Hx) as [-> ->]. by rewrite Hvx.
Qed.

Lemma FreeMoreTemporaries_spec n : ∀ s temps,
  ArchitectureOK →
  RegistersOK s →
  (∀ x, x ∈ candidates s General → 0 < use_of s General x) →
  (n ≤ length (candidates s General))%nat →
  (∀ x, has temps x = true →
     has (used s General) x = true ∧
     GetValue s General x = kBlockedRegisterSentinel) →
  ∃ s' temps',
    FreeMoreTemporaries s n temps = Some (s', temps') ∧
    RegistersOK s' ∧
    NothingLost kAtStart s s' ∧
    (∀ x, has temps' x = true →
       has (used s' General) x = true ∧
       GetValue s' General x = kBlockedRegisterSentinel) ∧
    (∀ x, has temps x = true → has temps' x = true) ∧
    Count temps' = Count temps + Z.of_nat n.
Proof.
  induction n as [|n IH]; intros s temps Harch Hok Hpos Hlen Hblocked.
  - exists s, temps. split; [done|]. split; [done|].
    split; [apply NothingLost_refl|]. split; [done|]. split; [done|]. lia.
  - assert (Hsome : ∃ reg, reg ∈ candidates s General ∧
              dies_here s General kAtStart reg || has_copy s General reg
              || (0 <? use_of s General reg) = true).
    { destruct (candidates s General) as [|reg l] eqn:Hcands;
        [cbn in Hlen; lia|].
      exists reg. split; [by left|].
      assert (Hreg : 0 < use_of s General reg).
      { apply Hpos. by left. }
      apply Z.ltb_lt in Hreg. rewrite Hreg. apply orb_true_r. }
    destruct (FreeSomeRegister_loop_valid s General kAtStart Harch Hok Hsome)
      as (best & Hloop & Hbest).
    destruct (evict_and_block s best Harch Hok Hbest Hpos)
      as (s1 & Hdrop & Hok4 & Hlost4 & Hu4 & Hg4 & Hkeep4 & Hpos4 & Hlen4).
    cbn [FreeMoreTemporaries]. unfold FreeSomeRegister.
    rewrite Hloop. cbn [mbind option_bind]. rewrite Hdrop.
    cbn [mbind option_bind].
    set (s4 := SetSentinelValue
                 (RemoveFromFree (AddToFree s1 General best) General best)
                 General best kBlockedRegisterSentinel) in *.
    pose proof (proj1 (elem_of_candidates s General best) Hbest)
      as (Hbound & Hub & Hvb).
    assert (Hnot : has temps best = false).
    { destruct (has temps best) eqn:Ht; [|done].
      destruct (Hblocked best Ht) as [_ ?]. done. }
    destruct (IH s4 (set temps best) Harch Hok4 Hpos4)
      as (s' & temps' & Hrun & Hok' & Hlost' & Hblocked' & Hsub' & Hcount').
    { lia. }
    { intros x. rewrite has_set by lia.
      intros [Hx|Hx%Z.eqb_eq]%orb_true_iff; [|by subst x].
      destruct (Hblocked x Hx) as [Hux Hvx].
      assert (x ≠ best) by (intros ->; congruence).
      destruct (Hkeep4 x Hux) as [? ?]; [done|]. split; [done|]. congruence. }
    exists s', temps'. split; [done|]. split; [done|].
    split; [by apply (NothingLost_trans kAtStart s s4)|].
    split; [done|]. split.
    + intros x Hx. apply Hsub'. rewrite has_set by lia. by rewrite Hx.
    + rewrite Hcount', Count_set by done. lia.
Qed.

Lemma TakeFreeTemporaries_spec regs : ∀ s temps needed,
  ArchitectureOK →
  RegistersOK s →
  NoDup regs →
  (∀ x, x ∈ regs → has (free s General) x = true) →
  0 < needed < 2 ^ 31 →
  (∀ x, has temps x = true →
     has (used s General) x = true ∧
     GetValue s General x = kBlockedRegisterSentinel) →
  ∃ s' temps',
    TakeFreeTemporaries s regs temps needed
    = (s', temps', Z.max 0 (needed - Z.of_nat (length regs))) ∧
    RegistersOK s' ∧
    nodes s' = nodes s ∧
    current_node_id s' = current_node_id s ∧
    (∀ x, has temps' x = true →
       has (used s' General) x = true ∧
       GetValue s' General x = kBlockedRegisterSentinel) ∧
    (∀ x, has temps x = true → has temps' x = true) ∧
    Count temps'
    = Count temps + (needed - Z.max 0 (needed - Z.of_nat (length regs))) ∧
    (∀ x, has (used s General) x = true →
       has (used s' General) x = true ∧
       GetValue s' General x = GetValue s General x) ∧
    candidates s' General = candidates s General.
Proof.
  induction regs as [|reg regs IH];
    intros s temps needed Harch Hok Hnodup Hfree Hneeded Hblocked.
  - exists s, temps. cbn [TakeFreeTemporaries length].
    split; [do 2 f_equal; lia|]. split; [done|]. split; [done|].
    split; [done|]. split; [done|]. split; [done|]. split; [lia|done].
  - apply NoDup_cons in Hnodup as [Hnotin Hnodup].
    assert (Hf : has (free s General) reg = true) by (apply Hfree; by left).
    destruct (block_free_register s reg Hok Hf)
      as (Hok2 & Hn2 & Hc2 & Hu2 & Hg2 & Hrest2 & _).
    set (s2 := SetSentinelValue (RemoveFromFree s General reg) General reg
                 kBlockedRegisterSentinel) in *.
    pose proof (free_bound s None General reg Harch
                  (proj1 (RegistersOK_But s) Hok) Hf) as Hbound.
    assert (Hnot : has temps reg = false).
    { destruct (has temps reg) eqn:Ht; [|done].
      destruct (Hblocked reg Ht) as [Hur _].
      apply (used_iff s General reg (ok_free s Hok General)) in Hur as [_ ?].
      congruence. }
    assert (Hkeep2 : ∀ x, has (used s General) x = true →
              has (used s2 General) x = true ∧
              GetValue s2 General x = GetValue s General x).
    { intros x Hux.
      assert (Hx : x ≠ reg).
      { intros ->.
        apply (used_iff s General reg (ok_free s Hok General)) in Hux as [_ ?].
        congruence. }
      destruct (Hrest2 x Hx) as [Hfx Hgx]. split; [|done].
      rewrite used_has, Hfx, <- used_has. done. }
    assert (Hblocked2 : ∀ x, has (set temps reg) x = true →
              has (used s2 General) x = true ∧
              GetValue s2 General x = kBlockedRegisterSentinel).
    { intros x. rewrite has_set by lia.
      intros [Hx|Hx%Z.eqb_eq]%orb_true_iff; [|by subst x].
      destruct (Hblocked x Hx) as [Hux Hvx].
      destruct (Hkeep2 x Hux) as [? ?]. split; [done|]. congruence. }
    assert (Hcands2 : candidates s2 General = candidates s General).
    { rewrite !candidates_filter. apply List.filter_ext. intros x.
      destruct (decide (x = reg)) as [->|Hx].
      - rewrite Hg2, Z.eqb_refl, andb_false_r.
        rewrite used_has, Hf, (ok_free s Hok General reg Hf). done.
      - destruct (Hrest2 x Hx) as [Hfx Hgx].
        by rewrite !used_has, Hfx, Hgx. }
    cbn [TakeFreeTemporaries]. fold s2.
    rewrite (StringTableProofs.int32_t_id (needed - 1)) by lia.
    destruct (Z.eqb_spec (needed - 1) 0) as [Hlast|Hmore].
    + exists s2, (set temps reg). cbn [length].
      split; [do 2 f_equal; lia|]. split; [done|]. split; [done|].
      split; [done|]. split; [done|]. split.
      { intros x Hx. rewrite has_set by lia. by rewrite Hx. }
      split; [rewrite Count_set by done; lia|]. done.
    + destruct (IH s2 (set temps reg) (needed - 1) Harch Hok2 Hnodup)
        as (s' & temps' & Hrun & Hok' & Hn' & Hc' & Hblocked' & Hsub'
            & Hcount' & Hkeep' & Hcands'); [|lia|done|].
      { intros x Hx. assert (x ≠ reg) by (by intros ->).
        destruct (Hrest2 x) as [-> _]; [done|]. apply Hfree. by right. }
      exists s', temps'. cbn [length].
      split; [rewrite Hrun; do 2 f_equal; lia|]. split; [done|].
      split; [congruence|]. split; [congruence|]. split; [done|]. split.
      { intros x Hx. apply Hsub'. rewrite has_set by lia. by rewrite Hx. }
      split; [rewrite Hcount', Count_set by done; lia|]. split.
      * intros x Hux. destruct (Hkeep2 x Hux) as [Hu2x Hg2x].
        destruct (Hkeep' x Hu2x) as [? ?]. split; [done|]. congruence.
      * congruence.
Qed.

(** X17.  [AssignArbitraryTemporaries] on a node whose temporaries so far
    are blocked, in a consistent register state where the registers in
    use that are not blocked hold values with a next use and, with the
    free registers, are as many as the temporaries needed, returns.  The
    node gets that many temporaries more, all of them in use and
    blocked; the register state is consistent and no value is lost: a
    value that was in a register or loadable still is. *)
Theorem AssignArbitraryTemporaries_blocks_registers s node :
  ArchitectureOK →
  RegistersOK s →
  0 <= num_temporaries_needed node < 2 ^ 31 →
  (∀ x, has (temporaries node) x = true →
     has (used s General) x = true ∧
     GetValue s General x = kBlockedRegisterSentinel) →
  (∀ x, x ∈ candidates s General → 0 < use_of s General x) →
  num_temporaries_needed node
  <= Count (free s General) + Z.of_nat (length (candidates s General)) →
  ∃ s' node',
    AssignArbitraryTemporaries s node = Some (s', node') ∧
    node' = assign_temporaries node (temporaries node') ∧
    Count (temporaries node')
    = Count (temporaries node) + num_temporaries_needed node ∧
    (∀ x, has (temporaries node) x = true →
          has (temporaries node') x = true) ∧
    (∀ x, has (temporaries node') x = true →
       has (used s' General) x = true ∧
       GetValue s' General x = kBlockedRegisterSentinel) ∧
    RegistersOK s' ∧
    NothingLost kAtStart s s'.
Proof.
  intros Harch Hok Hneeded Hblocked Hpos Henough.
  unfold AssignArbitraryTemporaries.
  destruct (Z.eqb_spec (num_temporaries_needed node) 0) as [Hzero|Hsome].
  - exists s, node. split; [done|]. split; [by destruct node|].
    split; [lia|]. split; [done|]. split; [done|]. split; [done|].
    apply NothingLost_refl.
  - destruct (TakeFreeTemporaries_spec (registers_of (free s General)) s
                (temporaries node) (num_temporaries_needed node) Harch Hok)
      as (s1 & temps1 & Htake & Hok1 & Hn1 & Hc1 & Hblocked1 & Hsub1
          & Hcount1 & Hkeep1 & Hcands1).
    { apply NoDup_registers_of. }
    { by intros x [_ Hx]%elem_of_registers_of. }
    { lia. }
    { done. }
    rewrite Htake.
    set (rest := Z.max 0 (num_temporaries_needed node
                          - Z.of_nat (length (registers_of (free s General)))))
      in *.
    assert (Hpos1 : ∀ x, x ∈ candidates s1 General →
              0 < use_of s1 General x).
    { intros x Hx. rewrite Hcands1 in Hx.
      pose proof (proj1 (elem_of_candidates s General x) Hx) as (_ & Hux & _).
      rewrite (use_of_preserved s s1 General x x);
        [by apply Hpos| | |by apply Hpos].
      - intros w m Hm. exists m. by rewrite Hn1.
      - by destruct (Hkeep1 x Hux). }
    destruct (FreeMoreTemporaries_spec (Z.to_nat rest) s1 temps1 Harch Hok1
                Hpos1)
      as (s' & temps' & Hmore & Hok' & Hlost' & Hblocked' & Hsub' & Hcount');
      [|done|].
    { rewrite Hcands1. unfold Count in Henough. lia. }
    rewrite Hmore. cbn [mbind option_bind].
    exists s', (assign_temporaries node temps'). split; [done|].
    split; [done|]. cbn [temporaries assign_temporaries].
    split; [rewrite Hcount', Hcount1; lia|]. split; [by auto|].
    split; [done|]. split; [done|].
    apply (NothingLost_trans kAtStart s s1); [|done].
    by apply NothingLost_nodes.
Qed.

Lemma used_registers_of s c reg :
  ArchitectureOK → RegistersOK s →
  has (used s c) reg = true → reg ∈ registers_of (used s c).
Proof.
  intros Harch Hok Hu. apply elem_of_registers_of. split; [|done].
  apply (used_bound s c reg Harch); [apply (ok_free s Hok)|done].
Qed.

End WithArchitecture.

(** ** Concrete register states *)

Import MaglevConcrete.

Lemma four_registers_ok : ArchitectureOK.
Proof.
  split; [vm_compute; discriminate|].
  intros []; (vm_compute; split; [discriminate|reflexivity]).
Qed.

Lemma before_call_ok : RegistersOK before_call.
Proof.
  apply register_state_ok_sound; [exact four_registers_ok|].
  vm_compute. reflexivity.
Qed.

Lemma registers_full_ok : RegistersOK registers_full.
Proof.
  apply register_state_ok_sound; [exact four_registers_ok|].
  vm_compute. reflexivity.
Qed.


Lemma FreeSomeRegister_frees_used_register_witness :
  ∃ s' best,
    FreeSomeRegister registers_full General kAtEnd = Some (s', best) ∧
    has (used registers_full General) best = true ∧
    GetValue registers_full General best ≠ kBlockedRegisterSentinel ∧
    has (free s' General) best = true ∧
    RegistersOK s' ∧
    NothingLost kAtEnd registers_full s'.
Proof.
  apply FreeSomeRegister_frees_used_register.
  - exact four_registers_ok.
  - exact registers_full_ok.
  - exists 2. split; [|reflexivity].
    vm_compute. do 2 (apply elem_of_cons; right). apply elem_of_cons. by left.
Defined.

Lemma ForceAllocate_puts_value_in_register_witness :
  ∃ s' n',
    ForceAllocate registers_full General 3 10 kAtStart
    = Some (s', AllocatedOperand REGISTER
                  (GetMachineRepresentation (in_registers 1 9 9 3)) 3) ∧
    nodes s' !! 10 = Some n' ∧
    is_in_register n' 3 = true ∧
    has (used s' General) 3 = true ∧
    GetValue s' General 3 = 10 ∧
    RegistersOK s' ∧
    NothingLost kAtStart registers_full s'.
Proof.
  apply ForceAllocate_puts_value_in_register.
  - exact four_registers_ok.
  - exact registers_full_ok.
  - reflexivity.
  - reflexivity.
  - reflexivity.
  - intros _. vm_compute. discriminate.
Defined.

Lemma AllocateRegister_gives_register_witness :
  ∃ s' reg n',
    AllocateRegister registers_full 30 kAtEnd
    = Some (s', AllocatedOperand REGISTER kTagged reg) ∧
    nodes s' !! 30 = Some n' ∧
    is_in_register n' reg = true ∧
    has (used s' General) reg = true ∧
    GetValue s' General reg = 30 ∧
    RegistersOK s' ∧
    NothingLost kAtEnd registers_full s'.
Proof.
  destruct (AllocateRegister_gives_register registers_full 30
              (in_registers 3 7 7 8) kAtEnd)
    as (s' & reg & n' & Hrun & Hn' & Hin & Hu & Hg & Hok & Hlost & _).
  - exact four_registers_ok.
  - exact registers_full_ok.
  - reflexivity.
  - intros _. exists 0. split; [|reflexivity].
    vm_compute. apply elem_of_cons. by left.
  - exists s', reg, n'. split; [exact Hrun|]. split; [exact Hn'|].
    split; [exact Hin|]. split; [exact Hu|]. split; [exact Hg|].
    split; [exact Hok|exact Hlost].
Defined.

Lemma UpdateUse_frees_registers_at_last_use_witness :
  ∃ s' n',
    UpdateUse registers_full 20 kInvalidNodeId = Some s' ∧
    RegistersOK s' ∧
    nodes s' = <[20 := n']> (nodes registers_full) ∧
    next_use n' = kInvalidNodeId ∧
    has_register n' = false ∧
    ∀ reg, has (free s' General) reg
           = has (free registers_full General) reg
             || is_in_register (in_registers 2 5 5 4) reg.
Proof.
  destruct (UpdateUse_frees_registers_at_last_use registers_full 20
              (in_registers 2 5 5 4) kInvalidNodeId)
    as (s' & n' & Hrun & Hok & Hnodes & Huse & _ & Hlast).
  - exact registers_full_ok.
  - reflexivity.
  - destruct (Hlast eq_refl) as [Hnone Hfree].
    exists s', n'. split; [exact Hrun|]. split; [exact Hok|].
    split; [exact Hnodes|]. split; [exact Huse|]. split; [exact Hnone|].
    exact Hfree.
Defined.

Lemma AssignFixedTemporaries_blocks_temporaries_witness :
  ∃ s',
    AssignFixedTemporaries before_call (assign_temporaries call 3) = Some s' ∧
    RegistersOK s' ∧
    NothingLost kAtStart before_call s' ∧
    (∀ reg, has (temporaries (assign_temporaries call 3)) reg = true →
       has (used s' General) reg = true ∧
       GetValue s' General reg = kBlockedRegisterSentinel) ∧
    (∀ c x, has (used before_call c) x = true →
       (c = General →
        has (temporaries (assign_temporaries call 3)) x = false) →
       has (used s' c) x = true ∧
       GetValue s' c x = GetValue before_call c x).
Proof.
  apply AssignFixedTemporaries_blocks_temporaries.
  - exact four_registers_ok.
  - exact before_call_ok.
  - intros reg Hreg.
    assert (Hin : reg ∈ registers_of (temporaries (assign_temporaries call 3))).
    { apply elem_of_registers_of. split; [|done].
      refine (has_bound 3 4 reg _ _ Hreg); lia. }
    vm_compute in Hin.
    apply elem_of_cons in Hin as [->|Hin];
      [vm_compute; split; [reflexivity|intros _; discriminate]|].
    apply elem_of_cons in Hin as [->|Hin];
      [vm_compute; split; [reflexivity|intros _; discriminate]|].
    by apply elem_of_nil in Hin.
Defined.

Lemma SpillRegisters_makes_values_loadable_witness :
  ∃ s',
    SpillRegisters registers_full = Some s' ∧
    (∀ c, registers s' c = registers registers_full c) ∧
    RegistersOK s' ∧
    (∀ c reg, has (used registers_full c) reg = true →
       ∃ n', nodes s' !! GetValue registers_full c reg = Some n' ∧
             is_loadable n' = true ∧ is_in_register n' reg = true) ∧
    (∀ w n, nodes registers_full !! w = Some n →
       ∃ n', nodes s' !! w = Some n' ∧
             registers_with_result_ n' = registers_with_result_ n ∧
             Kept n n') ∧
    SpillRegisters s' = Some s'.
Proof.
  apply SpillRegisters_makes_values_loadable.
  - exact four_registers_ok.
  - exact registers_full_ok.
  - intros c reg Hu.
    pose proof (used_registers_of registers_full c reg four_registers_ok
                  registers_full_ok Hu) as Hin.
    destruct c; vm_compute in Hin.
    + repeat (apply elem_of_cons in Hin as [->|Hin];
              [vm_compute; discriminate|]).
      by apply elem_of_nil in Hin.
    + by apply elem_of_nil in Hin.
Defined.

Lemma AssignArbitraryTemporaries_blocks_registers_witness :
  ∃ s' node',
    AssignArbitraryTemporaries before_call four_temporaries
    = Some (s', node') ∧
    node' = assign_temporaries four_temporaries (temporaries node') ∧
    Count (temporaries node')
    = Count (temporaries four_temporaries)
      + num_temporaries_needed four_temporaries ∧
    (∀ x, has (temporaries four_temporaries) x = true →
          has (temporaries node') x = true) ∧
    (∀ x, has (temporaries node') x = true →
       has (used s' General) x = true ∧
       GetValue s' General x = kBlockedRegisterSentinel) ∧
    RegistersOK s' ∧
    NothingLost kAtStart before_call s'.
Proof.
  apply AssignArbitraryTemporaries_blocks_registers.
  - exact four_registers_ok.
  - exact before_call_ok.
  - vm_compute. split; [discriminate|reflexivity].
  - intros x Hx. change (has kEmptyRegList x = true) in Hx.
    rewrite has_empty in Hx. discriminate.
  - intros x Hx. vm_compute in Hx.
    apply elem_of_cons in Hx as [->|Hx]; [reflexivity|].
    by apply elem_of_nil in Hx.
  - vm_compute. discriminate.
Defined.

End MaglevRegisterProofs.

(** * Properties of the inputs of a node *)

Module MaglevInputProofs.
Import Maglev MaglevProofs MaglevCallProofs MaglevRegisterProofs.

Section WithArchitecture.
Context `{Architecture}.

Lemma IsRegister_class n reg :
  IsRegister (AllocatedOperand REGISTER (GetMachineRepresentation n) reg)
  = bool_decide (register_class n = General).
Proof.
  unfold IsRegister, GetMachineRepresentation, register_class,
    use_double_register.
  by destruct (value_representation n).
Qed.

Lemma IsDoubleRegister_class n reg :
  IsDoubleRegister (AllocatedOperand REGISTER (GetMachineRepresentation n) reg)
  = bool_decide (register_class n = Double).
Proof.
  unfold GetMachineRepresentation, register_class, use_double_register.
  by destruct (value_representation n).
Qed.

(** A register operand of a value verifies when the register holds the
    value. *)
Lemma VerifyInput_register s input n reg :
  operand input
  = AllocatedOperand REGISTER (GetMachineRepresentation n) reg →
  GetValue s (register_class n) reg = input_node input →
  VerifyInput s input = true.
Proof.
  intros Hop Hg. unfold VerifyInput. rewrite Hop.
  rewrite IsRegister_class, IsDoubleRegister_class.
  destruct (register_class n); cbn; by apply Z.eqb_eq.
Qed.

Lemma first_register s v n :
  ArchitectureOK → RegistersOK s →
  nodes s !! v = Some n → has_register n = true →
  is_in_register n (first (registers_with_result_ n)) = true.
Proof.
  intros Harch Hok Hn Hhas. apply first_has.
  - intros r Hr. destruct (ok_node s Hok v n r Hn Hr) as [Hu _].
    apply (used_bound s (register_class n) r Harch);
      [apply (ok_free s Hok)|done].
  - by apply negb_true_iff, Z.eqb_neq in Hhas.
Qed.

Lemma RegistersOK_ext s s' :
  nodes s' = nodes s → (∀ c, registers s' c = registers s c) →
  RegistersOK s → RegistersOK s'.
Proof.
  intros Hn Hr Hok. apply RegistersOK_But.
  apply (RegistersOKBut_ext s s' None Hn Hr). by apply RegistersOK_But.
Qed.

(** X19.  [AssignArbitraryRegisterInput] on an input that is not
    allocated yet, in a consistent register state, returns and allocates
    the input to a register; when the call returns, that register is in
    use and holds the value of the input.  A value that is in a register
    keeps its first register and nothing changes.  A value that is in no
    register is loadable, from its stack slot or as a constant; it gets
    a register by [AllocateRegister], which needs a register that is
    free or can be given up, and a gap move from the slot or constant to
    the register is added.  The register state stays consistent and no
    value is lost.  All this is about the state in which the call
    returns: a later step of [AssignInputs] can take the register again
    when no register is free. *)
Theorem AssignArbitraryRegisterInput_allocates_register s input n :
  ArchitectureOK →
  RegistersOK s →
  nodes s !! input_node input = Some n →
  IsUnallocated (operand input) = true →
  (has_register n = false →
   is_loadable n = true ∧ CanAllocate s n kAtStart) →
  ∃ s' input' reg,
    AssignArbitraryRegisterInput s input = Some (s', input') ∧
    operand input'
    = AllocatedOperand REGISTER (GetMachineRepresentation n) reg ∧
    input_node input' = input_node input ∧
    has (used s' (register_class n)) reg = true ∧
    GetValue s' (register_class n) reg = input_node input ∧
    RegistersOK s' ∧
    NothingLost kAtStart s s' ∧
    (has_register n = true →
     s' = s ∧ reg = first (registers_with_result_ n)) ∧
    (has_register n = false →
     IsAnyRegister (spill_or_hint_ n) = false ∧
     last (gap_moves s')
     = Some (mkGapMove (input_node input) (spill_or_hint_ n)
               (AllocatedOperand REGISTER (GetMachineRepresentation n) reg))).
Proof.
  intros Harch Hok Hn Hun Hnone. unfold AssignArbitraryRegisterInput.
  rewrite Hun, Hn. cbn [negb mbind option_bind]. unfold allocation.
  destruct (has_register n) eqn:Hhas.
  - cbn [IsAnyRegister].
    pose proof (first_register s _ n Harch Hok Hn Hhas) as Hfirst.
    destruct (ok_node s Hok _ n _ Hn Hfirst) as [Hu Hg].
    exists s, (SetAllocated input
                 (AllocatedOperand REGISTER (GetMachineRepresentation n)
                    (first (registers_with_result_ n)))),
      (first (registers_with_result_ n)).
    split; [done|]. split; [done|]. split; [done|]. split; [done|].
    split; [done|]. split; [done|]. split; [apply NothingLost_refl|]. done.
  - destruct (Hnone eq_refl) as [Hload Hcheap].
    assert (Hhint : IsAnyRegister (spill_or_hint_ n) = false).
    { unfold is_loadable in Hload.
      by destruct (spill_or_hint_ n) as [| | |[] ? ?]. }
    rewrite Hhint.
    destruct (AllocateRegister_spec s (input_node input) n kAtStart Harch Hok
                Hn Hcheap)
      as (s1 & reg & n' & Hrun & Hn' & Hin & Hok1 & Hlost & _).
    rewrite Hrun. cbn [mbind option_bind].
    destruct (proj2 Hlost _ n Hn) as (n2 & Hn2 & Hrep & _).
    assert (n2 = n') as -> by congruence.
    destruct (ok_node s1 Hok1 _ n' reg Hn' Hin) as [Hu1 Hg1].
    rewrite (register_class_eq n n' Hrep) in Hu1, Hg1.
    set (s2 := AddMoveBeforeCurrentNode s1 (input_node input)
                 (spill_or_hint_ n)
                 (AllocatedOperand REGISTER (GetMachineRepresentation n) reg)).
    assert (Hregs : ∀ c, registers s2 c = registers s1 c).
    { intros c. apply registers_AddMove. }
    eexists s2, _, reg. split; [done|]. split; [done|]. split; [done|].
    split; [by rewrite (used_eq s1 s2 _ (Hregs _))|].
    split; [by rewrite (GetValue_eq s1 s2 _ reg (Hregs _))|].
    split; [by apply (RegistersOK_ext s1)|].
    split.
    { apply (NothingLost_trans kAtStart s s1); [done|].
      by apply NothingLost_nodes. }
    split; [done|]. intros _. split; [done|].
    cbn [gap_moves AddMoveBeforeCurrentNode s2]. apply last_snoc.
Qed.

End WithArchitecture.

Import MaglevConcrete.

Lemma no_register_free_ok : RegistersOK no_register_free.
Proof.
  apply register_state_ok_sound; [exact four_registers_ok|].
  vm_compute. reflexivity.
Qed.

Lemma AssignArbitraryRegisterInput_allocates_register_witness :
  ∃ s' input' n40,
    AssignArbitraryRegisterInput no_register_free
      (mkInput 60 (UnallocatedOperand MUST_HAVE_REGISTER) 8)
    = Some (s', input') ∧
    free no_register_free General = kEmptyRegList ∧
    operand input' = AllocatedOperand REGISTER kTagged 3 ∧
    has (used s' General) 3 = true ∧
    GetValue s' General 3 = 60 ∧
    GetValue no_register_free General 3 = 40 ∧
    nodes s' !! 40 = Some n40 ∧ is_loadable n40 = true ∧
    RegistersOK s' ∧
    NothingLost kAtStart no_register_free s' ∧
    last (gap_moves s')
    = Some (mkGapMove 60 (AllocatedOperand STACK_SLOT kTagged 0)
              (AllocatedOperand REGISTER kTagged 3)).
Proof.
  assert (Hcomputed :
            match AssignArbitraryRegisterInput no_register_free
                    (mkInput 60 (UnallocatedOperand MUST_HAVE_REGISTER) 8)
                  return Prop with
            | Some (s', input') =>
                operand input' = AllocatedOperand REGISTER kTagged 3 ∧
                ∃ n40, nodes s' !! 40 = Some n40 ∧ is_loadable n40 = true
            | None => False
            end).
  { vm_compute. split; [reflexivity|]. eexists. split; reflexivity. }
  destruct (AssignArbitraryRegisterInput_allocates_register no_register_free
              (mkInput 60 (UnallocatedOperand MUST_HAVE_REGISTER) 8)
              (spilled_value 6 6 8 8 0))
    as (s' & input' & reg & Hrun & Hop & _ & Hu & Hg & Hok & Hlost & _
        & Hmove).
  - exact four_registers_ok.
  - exact no_register_free_ok.
  - reflexivity.
  - reflexivity.
  - intros _. split; [reflexivity|]. intros _. exists 0. split.
    + apply elem_of_candidates.
      split; [split; [vm_compute; discriminate|reflexivity]|].
      split; [reflexivity|]. vm_compute. discriminate.
    + reflexivity.
  - rewrite Hrun in Hcomputed.
    destruct Hcomputed as (Hop3 & n40 & Hn40 & Hload).
    rewrite Hop in Hop3. injection Hop3 as ->.
    exists s', input', n40. split; [exact Hrun|]. split; [reflexivity|].
    split; [exact Hop|]. split; [exact Hu|]. split; [exact Hg|].
    split; [reflexivity|]. split; [exact Hn40|]. split; [exact Hload|].
    split; [exact Hok|]. split; [exact Hlost|].
    by destruct (Hmove eq_refl) as [_ ->].
Defined.

End MaglevInputProofs.

(** * Properties of the result of a node *)

Module MaglevResultProofs.
Import Maglev MaglevProofs MaglevCallProofs MaglevRegisterProofs.

Section WithArchitecture.
Context `{Architecture}.

(** ** What the allocation of a register leaves alone *)

Section Keeps.
Context {A : Type} (f : ValueNode → A).
Hypothesis f_registers : ∀ n regs, f (set_registers n regs) = f n.
Hypothesis f_spill : ∀ n op, f (set_spill_or_hint n op) = f n.

Lemma keeps_refl s :
  ∀ w m, nodes s !! w = Some m →
    ∃ m', nodes s !! w = Some m' ∧ f m' = f m.
Proof. intros w m Hm. by exists m. Qed.

Lemma keeps_trans s1 s2 s3 :
  (∀ w m, nodes s1 !! w = Some m →
     ∃ m', nodes s2 !! w = Some m' ∧ f m' = f m) →
  (∀ w m, nodes s2 !! w = Some m →
     ∃ m', nodes s3 !! w = Some m' ∧ f m' = f m) →
  ∀ w m, nodes s1 !! w = Some m →
    ∃ m', nodes s3 !! w = Some m' ∧ f m' = f m.
Proof.
  intros H1 H2 w m Hm. destruct (H1 w m Hm) as (m2 & Hm2 & Hf2).
  destruct (H2 w m2 Hm2) as (m3 & Hm3 & Hf3). exists m3.
  split; [done|]. congruence.
Qed.

Lemma keeps_insert s s' v n n' :
  nodes s !! v = Some n →
  nodes s' = <[v := n']> (nodes s) →
  f n' = f n →
  ∀ w m, nodes s !! w = Some m →
    ∃ m', nodes s' !! w = Some m' ∧ f m' = f m.
Proof.
  intros Hn Hnodes Hf w m Hm. rewrite Hnodes.
  destruct (decide (w = v)) as [->|Hw].
  - rewrite lookup_insert_eq. exists n'. split; [done|]. congruence.
  - rewrite lookup_insert_ne by done. by exists m.
Qed.

Lemma Spill_keeps s node s' :
  Spill s node = Some s' →
  ∀ w m, nodes s !! w = Some m →
    ∃ m', nodes s' !! w = Some m' ∧ f m' = f m.
Proof.
  unfold Spill. destruct (nodes s !! node) as [n|] eqn:Hn; [|done].
  cbn [mbind option_bind]. destruct (is_loadable n).
  - intros [= <-]. apply keeps_refl.
  - rewrite (AllocateSpillSlot_eq s node n Hn). cbv zeta. intros [= <-].
    eapply (keeps_insert s _ node n); [exact Hn| |].
    + by rewrite nodes_with_node, nodes_with_slots.
    + apply f_spill.
Qed.

Lemma SetValue_keeps s c reg v s' :
  SetValue s c reg v = Some s' →
  ∀ w m, nodes s !! w = Some m →
    ∃ m', nodes s' !! w = Some m' ∧ f m' = f m.
Proof.
  unfold SetValue. destruct (nodes s !! v) as [n|] eqn:Hn; [|done].
  cbn [mbind option_bind]. intros [= <-].
  eapply (keeps_insert s _ v n); [exact Hn| |].
  - by destruct c.
  - apply f_registers.
Qed.

Lemma DropRegisterValue_keeps s c reg stage s' :
  DropRegisterValue s c reg stage = Some s' →
  ∀ w m, nodes s !! w = Some m →
    ∃ m', nodes s' !! w = Some m' ∧ f m' = f m.
Proof.
  unfold DropRegisterValue.
  destruct (nodes s !! GetValue s c reg) as [n|] eqn:Hn; [|done].
  cbn [mbind option_bind].
  set (v := GetValue s c reg) in *.
  set (n1 := RemoveRegister n reg).
  set (s1 := with_node s v n1).
  assert (Hstep : ∀ w m, nodes s !! w = Some m →
            ∃ m', nodes s1 !! w = Some m' ∧ f m' = f m).
  { apply (keeps_insert s s1 v n n1); [done|done|apply f_registers]. }
  destruct (has_register n1 || is_loadable n1); [by intros [= <-]|].
  destruct (bool_decide (stage = kAtEnd)
            && (end_ (live_range n1) =? current_node_id s1));
    [by intros [= <-]|].
  destruct (negb (FreeIsEmpty s1 c)).
  - set (target := first (free s1 c)).
    destruct (SetValue (RemoveFromFree s1 c target) c target v)
      as [s2|] eqn:Hset; [|done].
    cbn [mbind option_bind]. intros [= <-].
    apply (keeps_trans s s1 _ Hstep). intros w m Hm.
    apply (SetValue_keeps _ c target v s2 Hset). by destruct c.
  - intros Hspill. apply (keeps_trans s s1 s' Hstep).
    by apply (Spill_keeps s1 v).
Qed.

Lemma ForceAllocate_keeps s c reg v stage s' op :
  ForceAllocate s c reg v stage = Some (s', op) →
  ∀ w m, nodes s !! w = Some m →
    ∃ m', nodes s' !! w = Some m' ∧ f m' = f m.
Proof.
  unfold ForceAllocate. destruct (nodes s !! v) as [n|] eqn:Hn; [|done].
  cbn [mbind option_bind]. destruct (has (free s c) reg).
  - destruct (SetValue (RemoveFromFree s c reg) c reg v) as [s1|] eqn:Hset;
      [|done].
    cbn [mbind option_bind]. intros [= <- _]. intros w m Hm.
    apply (SetValue_keeps _ c reg v s1 Hset). by destruct c.
  - destruct (GetValue s c reg =? v); [intros [= <- _]; apply keeps_refl|].
    destruct (DropRegisterValue s c reg stage) as [s1|] eqn:Hdrop; [|done].
    cbn [mbind option_bind].
    destruct (SetValue s1 c reg v) as [s2|] eqn:Hset; [|done].
    cbn [mbind option_bind]. intros [= <- _].
    apply (keeps_trans s s1 s2).
    + by apply (DropRegisterValue_keeps s c reg stage).
    + by apply (SetValue_keeps s1 c reg v).
Qed.

Lemma AllocateRegister_keeps s v stage s' op :
  AllocateRegister s v stage = Some (s', op) →
  ∀ w m, nodes s !! w = Some m →
    ∃ m', nodes s' !! w = Some m' ∧ f m' = f m.
Proof.
  unfold AllocateRegister. destruct (nodes s !! v) as [n|] eqn:Hn; [|done].
  cbn [mbind option_bind]. set (c := register_class n).
  assert (Htry : ∀ s1 s2 op2,
            TryAllocateRegister s1 c v = Some (s2, op2) →
            ∀ w m, nodes s1 !! w = Some m →
              ∃ m', nodes s2 !! w = Some m' ∧ f m' = f m).
  { intros s1 s2 op2. unfold TryAllocateRegister.
    destruct (free s1 c =? kEmptyRegList);
      [intros [= <- _]; apply keeps_refl|].
    destruct (nodes (RemoveFromFree s1 c (first (free s1 c))) !! v)
      as [n1|]; [|done].
    cbn [mbind option_bind].
    destruct (SetValue _ c (first (free s1 c)) v) as [s3|] eqn:Hset; [|done].
    cbn [mbind option_bind]. intros [= <- _] w m Hm.
    apply (SetValue_keeps _ c _ v s3 Hset). by destruct c. }
  destruct (FreeIsEmpty s c).
  - unfold FreeSomeRegister.
    destruct (FreeSomeRegister_loop _ _ _ _ _ _) as [best|]; [|done].
    cbn [mbind option_bind].
    destruct (DropRegisterValue s c best stage) as [s1|] eqn:Hdrop; [|done].
    cbn [mbind option_bind fmap option_fmap option_map fst].
    destruct (TryAllocateRegister (AddToFree s1 c best) c v)
      as [[s2 op2]|] eqn:Hrun; [|done].
    cbn [mbind option_bind]. destruct (IsAllocated op2); [|done].
    intros [= <- _]. apply (keeps_trans s s1 s2).
    + by apply (DropRegisterValue_keeps s c best stage).
    + intros w m Hm. apply (Htry _ _ _ Hrun). by destruct c.
  - cbn [mbind option_bind].
    destruct (TryAllocateRegister s c v) as [[s2 op2]|] eqn:Hrun; [|done].
    cbn [mbind option_bind]. destruct (IsAllocated op2); [|done].
    intros [= <- _]. by apply (Htry _ _ _ Hrun).
Qed.

End Keeps.

(** ** [AllocateNodeResult] *)

(** Forgetting the spill slot of a value changes no register and no
    choice of [FreeSomeRegister]. *)
Lemma CanForce_forget s v n c reg :
  CanForce s n c reg →
  CanForce (with_node s v (set_spill_or_hint n InvalidOperand))
    (set_spill_or_hint n InvalidOperand) c reg.
Proof. done. Qed.

Lemma CanAllocate_forget s v n stage :
  nodes s !! v = Some n →
  CanAllocate s n stage →
  CanAllocate (with_node s v (set_spill_or_hint n InvalidOperand))
    (set_spill_or_hint n InvalidOperand) stage.
Proof.
  intros Hn Hcan Hfree. destruct (Hcan Hfree) as (reg & Hreg & Hcheap).
  exists reg. split; [done|].
  set (s0 := with_node s v (set_spill_or_hint n InvalidOperand)).
  change (register_class (set_spill_or_hint n InvalidOperand))
    with (register_class n).
  set (c := register_class n) in *.
  assert (Hsame : dies_here s0 c stage reg = dies_here s c stage reg ∧
                  has_copy s0 c reg = has_copy s c reg ∧
                  use_of s0 c reg = use_of s c reg).
  { unfold dies_here, has_copy, use_of.
    change (GetValue s0 c reg) with (GetValue s c reg).
    change (nodes s0) with (<[v := set_spill_or_hint n InvalidOperand]>
                              (nodes s)).
    destruct (decide (GetValue s c reg = v)) as [->|Hv].
    - by rewrite lookup_insert_eq, Hn.
    - by rewrite lookup_insert_ne. }
  destruct Hsame as (-> & -> & ->). done.
Qed.

(** The result operand is written, and a value without a live range
    gives its registers back. *)
Lemma allocated_ok s1 node n1 reg :
  RegistersOK s1 →
  nodes s1 !! node = Some n1 →
  is_in_register n1 reg = true →
  let op := AllocatedOperand REGISTER (GetMachineRepresentation n1) reg in
  ∃ s' n',
    (s ← set_node_result s1 node op;
     n ← nodes s !! node;
     if negb (has_valid_live_range n) && IsAnyRegister (result n) then
       FreeRegistersUsedBy s node
     else Some s) = Some s' ∧
    nodes s' = <[node := n']> (nodes s1) ∧
    result n' = op ∧
    value_representation n' = value_representation n1 ∧
    RegistersOK s' ∧
    current_node_id s' = current_node_id s1 ∧
    (has_valid_live_range n1 = true →
     is_in_register n' reg = true) ∧
    (has_valid_live_range n1 = false →
     has_register n' = false ∧
     has (free s' (register_class n1)) reg = true).
Proof.
  intros Hok Hn Hin op. unfold set_node_result. rewrite Hn.
  cbn [mbind option_bind].
  set (n2 := set_result n1 op). set (s2 := with_node s1 node n2).
  assert (Hn2 : nodes s2 !! node = Some n2) by apply lookup_insert_eq.
  rewrite Hn2. cbn [mbind option_bind].
  assert (Hok2 : RegistersOK s2).
  { apply RegistersOK_But.
    refine (RegistersOKBut_update s1 s2 None node n1 n2 _ Hn eq_refl _
              eq_refl eq_refl).
    - by apply RegistersOK_But.
    - intros c. apply registers_with_node. }
  change (has_valid_live_range n2) with (has_valid_live_range n1).
  change (IsAnyRegister (result n2)) with true. rewrite andb_true_r.
  destruct (has_valid_live_range n1) eqn:Hvalid; cbn [negb].
  - exists s2, n2. split; [done|]. split; [done|]. split; [done|].
    split; [done|]. split; [done|]. split; [done|]. done.
  - destruct (FreeRegistersUsedBy_spec s2 node n2 Hn2)
      as (s' & Hfree & Hn' & Hr' & Ho' & Hc').
    exists s', (set_registers n2 kEmptyRegList). split; [done|].
    split; [rewrite Hn'; apply insert_insert_eq|]. split; [done|].
    split; [done|].
    split; [by apply (release_registers s2 s' node n2)|].
    split; [done|]. split; [done|]. intros _. split; [done|].
    change (register_class n1) with (register_class n2).
    unfold free. rewrite Hr'. cbn [free_]. rewrite has_lor.
    change (has (registers_with_result_ n2) reg) with (is_in_register n1 reg).
    by rewrite Hin, orb_true_r.
Qed.

(** X20.  [AllocateNodeResult] on a value whose result asks for a
    register that can be had, in a consistent register state, returns
    and writes that register as the result operand of the value.  A
    value with a valid live range is then in the register: it lists the
    register, and the register is in use and holds it.  A value without
    one gives the register back: it lists no register and the register
    is free.  The register state is consistent, and every other value
    that was in a register or loadable still is, unless it dies at the
    current node. *)
Theorem AllocateNodeResult_allocates_register s node n l :
  ArchitectureOK →
  RegistersOK s →
  nodes s !! node = Some n →
  ResultReady s n l →
  ∃ s' n' reg,
    AllocateNodeResult s node l = Some s' ∧
    nodes s' !! node = Some n' ∧
    result n'
    = AllocatedOperand REGISTER (GetMachineRepresentation n) reg ∧
    RegistersOK s' ∧
    (has_valid_live_range n = true →
     is_in_register n' reg = true ∧
     has (used s' (register_class n)) reg = true ∧
     GetValue s' (register_class n) reg = node) ∧
    (has_valid_live_range n = false →
     has_register n' = false ∧
     has (free s' (register_class n)) reg = true) ∧
    ∀ w m, w ≠ node → nodes s !! w = Some m →
      ∃ m', nodes s' !! w = Some m' ∧
            (StillAtHand s kAtEnd m → StillAtHand s' kAtEnd m').
Proof.
  intros Harch Hok Hn Hready.
  set (n0 := set_spill_or_hint n InvalidOperand).
  set (s0 := with_node s node n0).
  assert (Hn0 : nodes s0 !! node = Some n0) by apply lookup_insert_eq.
  assert (Hok0 : RegistersOK s0).
  { apply RegistersOK_But.
    refine (RegistersOKBut_update s s0 None node n n0 _ Hn eq_refl _
              eq_refl eq_refl).
    - by apply RegistersOK_But.
    - intros c. apply registers_with_node. }
  (* What is left once a register holds the value. *)
  assert (Hfinish : ∀ s1 n1 reg,
            RegistersOK s1 →
            NothingLost kAtEnd s0 s1 →
            (∀ w m, nodes s0 !! w = Some m →
               ∃ m', nodes s1 !! w = Some m' ∧
                     live_range m' = live_range m) →
            nodes s1 !! node = Some n1 →
            is_in_register n1 reg = true →
            ∃ s' n',
              (s ← set_node_result s1 node
                     (AllocatedOperand REGISTER (GetMachineRepresentation n)
                        reg);
               n ← nodes s !! node;
               if negb (has_valid_live_range n) && IsAnyRegister (result n)
               then FreeRegistersUsedBy s node
               else Some s) = Some s' ∧
              nodes s' !! node = Some n' ∧
              result n'
              = AllocatedOperand REGISTER (GetMachineRepresentation n) reg ∧
              RegistersOK s' ∧
              (has_valid_live_range n = true →
               is_in_register n' reg = true ∧
               has (used s' (register_class n)) reg = true ∧
               GetValue s' (register_class n) reg = node) ∧
              (has_valid_live_range n = false →
               has_register n' = false ∧
               has (free s' (register_class n)) reg = true) ∧
              ∀ w m, w ≠ node → nodes s !! w = Some m →
                ∃ m', nodes s' !! w = Some m' ∧
                      (StillAtHand s kAtEnd m → StillAtHand s' kAtEnd m')).
  { intros s1 n1 reg Hok1 Hlost1 Hrange1 Hn1 Hin1.
    destruct (proj2 Hlost1 node n0 Hn0) as (n1a & Hn1a & Hrep1 & _).
    assert (n1a = n1) as -> by congruence.
    destruct (Hrange1 node n0 Hn0) as (n1b & Hn1b & Hlr1).
    assert (n1b = n1) as -> by congruence.
    assert (Hrep : GetMachineRepresentation n1 = GetMachineRepresentation n).
    { by rewrite (GetMachineRepresentation_eq n0 n1 Hrep1). }
    assert (Hclass : register_class n1 = register_class n).
    { by rewrite (register_class_eq n0 n1 Hrep1). }
    assert (Hvalid : has_valid_live_range n1 = has_valid_live_range n).
    { unfold has_valid_live_range. by rewrite Hlr1. }
    destruct (allocated_ok s1 node n1 reg Hok1 Hn1 Hin1)
      as (s' & n' & Hrun & Hn' & Hres & Hrep' & Hok' & Hc' & Hlive & Hdead).
    rewrite Hrep in Hrun, Hres. rewrite Hvalid in Hlive, Hdead.
    rewrite Hclass in Hdead.
    assert (Hnode' : nodes s' !! node = Some n').
    { rewrite Hn'. apply lookup_insert_eq. }
    exists s', n'. split; [done|]. split; [done|]. split; [done|].
    split; [done|]. split; [|split; [done|]].
    - intros Hv. specialize (Hlive Hv). split; [done|].
      destruct (ok_node s' Hok' node n' reg Hnode' Hlive) as [Hu Hg].
      rewrite (register_class_eq n1 n' Hrep'), Hclass in Hu, Hg. done.
    - intros w m Hw Hm.
      assert (Hm0 : nodes s0 !! w = Some m).
      { unfold s0. by rewrite nodes_with_node, lookup_insert_ne. }
      destruct (proj2 Hlost1 w m Hm0) as (m1 & Hm1 & _ & Hat).
      exists m1. split; [by rewrite Hn', lookup_insert_ne|].
      intros Hhand. apply (StillAtHand_eq s1); [done|]. apply Hat.
      by apply (StillAtHand_eq s). }
  (* The value is forced into a register. *)
  assert (Hforce : ∀ c reg,
            CanForce s n c reg →
            ∃ s1 n1,
              ForceAllocate s0 c reg node kAtEnd
              = Some (s1, AllocatedOperand REGISTER
                            (GetMachineRepresentation n) reg) ∧
              RegistersOK s1 ∧
              NothingLost kAtEnd s0 s1 ∧
              (∀ w m, nodes s0 !! w = Some m →
                 ∃ m', nodes s1 !! w = Some m' ∧
                       live_range m' = live_range m) ∧
              nodes s1 !! node = Some n1 ∧
              is_in_register n1 reg = true).
  { intros c reg (Hclass & Hal & Hblocked).
    destruct (ForceAllocate_spec s0 c reg node n0 kAtEnd Harch Hok0 Hn0)
      as (s1 & n1 & Hrun & Hok1 & Hlost1 & Hn1 & Hin1); [done|done|done|].
    exists s1, n1. split; [done|]. split; [done|]. split; [done|].
    split; [|done].
    by apply (ForceAllocate_keeps live_range) with (c := c) (reg := reg)
      (v := node) (stage := kAtEnd)
      (op := AllocatedOperand REGISTER (GetMachineRepresentation n0) reg). }
  unfold AllocateNodeResult. rewrite Hn. cbn [mbind option_bind].
  fold n0. fold s0. change (result n0) with (result n).
  unfold ResultReady in Hready.
  destruct (result n) as [|policy| |]; try done.
  destruct policy as [slot| | | |reg|reg| | |index]; try done.
  - destruct (Hforce General reg Hready)
      as (s1 & n1 & Hrun & Hok1 & Hlost1 & Hrange1 & Hn1 & Hin1).
    rewrite Hrun. cbn [mbind option_bind].
    destruct (Hfinish s1 n1 reg Hok1 Hlost1 Hrange1 Hn1 Hin1)
      as (s' & n' & Hdone & Hrest).
    by exists s', n', reg.
  - destruct (Hforce Double reg Hready)
      as (s1 & n1 & Hrun & Hok1 & Hlost1 & Hrange1 & Hn1 & Hin1).
    rewrite Hrun. cbn [mbind option_bind].
    destruct (Hfinish s1 n1 reg Hok1 Hlost1 Hrange1 Hn1 Hin1)
      as (s' & n' & Hdone & Hrest).
    by exists s', n', reg.
  - destruct (AllocateRegister_spec s0 node n0 kAtEnd Harch Hok0 Hn0)
      as (s1 & reg & n1 & Hrun & Hn1 & Hin1 & Hok1 & Hlost1 & _).
    { by apply CanAllocate_forget. }
    change (GetMachineRepresentation n0) with (GetMachineRepresentation n)
      in Hrun.
    rewrite Hrun. cbn [mbind option_bind].
    destruct (Hfinish s1 n1 reg Hok1 Hlost1) as (s' & n' & Hdone & Hrest);
      [|done|done|].
    { by apply (AllocateRegister_keeps live_range) with (v := node)
        (stage := kAtEnd)
        (op := AllocatedOperand REGISTER (GetMachineRepresentation n) reg). }
    by exists s', n', reg.
  - destruct Hready as [Hindex Hready].
    destruct (Z.ltb_spec index 0) as [?|_]; [lia|].
    destruct (l !! Z.to_nat index) as [input|]; [|done].
    cbn [mbind option_bind]. unfold ForceAllocate_input.
    destruct (operand input) as [| | |kind rep reg] eqn:Hop; try done.
    destruct kind; [|done].
    assert (Hrun : ∃ s1 n1,
              (if IsDoubleRegister (AllocatedOperand REGISTER rep reg) then
                 ForceAllocate s0 Double reg node kAtEnd
               else ForceAllocate s0 General reg node kAtEnd)
              = Some (s1, AllocatedOperand REGISTER
                            (GetMachineRepresentation n) reg) ∧
              RegistersOK s1 ∧
              NothingLost kAtEnd s0 s1 ∧
              (∀ w m, nodes s0 !! w = Some m →
                 ∃ m', nodes s1 !! w = Some m' ∧
                       live_range m' = live_range m) ∧
              nodes s1 !! node = Some n1 ∧
              is_in_register n1 reg = true).
    { destruct (IsDoubleRegister (AllocatedOperand REGISTER rep reg));
        by apply Hforce. }
    destruct Hrun as (s1 & n1 & Hrun & Hok1 & Hlost1 & Hrange1 & Hn1 & Hin1).
    rewrite Hrun. cbn [mbind option_bind].
    destruct (Hfinish s1 n1 reg Hok1 Hlost1 Hrange1 Hn1 Hin1)
      as (s' & n' & Hdone & Hrest).
    by exists s', n', reg.
Qed.

End WithArchitecture.

Import MaglevConcrete.

Lemma AllocateNodeResult_allocates_register_witness :
  ∃ s' n' reg,
    AllocateNodeResult before_call 50 [] = Some s' ∧
    nodes s' !! 50 = Some n' ∧
    result n' = AllocatedOperand REGISTER kTagged reg ∧
    RegistersOK s' ∧
    is_in_register n' reg = true ∧
    has (used s' General) reg = true ∧
    GetValue s' General reg = 50.
Proof.
  destruct (AllocateNodeResult_allocates_register before_call 50
              (mkValueNode 5 (mkLiveRange 5 8) 8 ValueRepresentation_kTagged
                 false InvalidOperand 0
                 (UnallocatedOperand (FIXED_REGISTER 0))) [])
    as (s' & n' & reg & Hrun & Hn' & Hres & Hok & Hlive & _).
  - exact four_registers_ok.
  - exact before_call_ok.
  - reflexivity.
  - split; [reflexivity|]. split; [reflexivity|]. intros _.
    vm_compute. discriminate.
  - destruct (Hlive eq_refl) as (Hin & Hu & Hg).
    exists s', n', reg. split; [exact Hrun|]. split; [exact Hn'|].
    split; [exact Hres|]. split; [exact Hok|]. split; [exact Hin|].
    split; [exact Hu|exact Hg].
Defined.

End MaglevResultProofs.

(** * Properties of [ClearRegisterState] *)

Module MaglevClearProofs.
Import Maglev MaglevProofs MaglevCallProofs MaglevRegisterProofs.

Section WithArchitecture.
Context `{Architecture}.

Lemma set_registers_empty n :
  registers_with_result_ n = kEmptyRegList →
  set_registers n kEmptyRegList = n.
Proof. destruct n. cbn. by intros ->. Qed.

Lemma ClearRegisterState_spec fuel : ∀ s c,
  ArchitectureOK →
  RegistersOK s →
  (∀ reg, has (used s c) reg = true →
          GetValue s c reg ≠ kBlockedRegisterSentinel) →
  (length (registers_of (used s c)) < fuel)%nat →
  ∃ s',
    ClearRegisterState fuel s c = Some s' ∧
    used s' c = kEmptyRegList ∧
    RegistersOK s' ∧
    (∀ c', c ≠ c' → registers s' c' = registers s c') ∧
    current_node_id s' = current_node_id s ∧
    ∀ w n, nodes s !! w = Some n →
      ∃ n', nodes s' !! w = Some n' ∧
            (n' = n ∨
             register_class n = c ∧ n' = set_registers n kEmptyRegList).
Proof.
  induction fuel as [|fuel IH]; intros s c Harch Hok Hblocked Hfuel; [lia|].
  cbn [ClearRegisterState].
  destruct (used s c =? kEmptyRegList) eqn:Hempty.
  { apply Z.eqb_eq in Hempty. exists s. split; [done|]. split; [done|].
    split; [done|]. split; [done|]. split; [done|].
    intros w n Hn. exists n. split; [done|]. by left. }
  apply Z.eqb_neq in Hempty. cbv zeta.
  set (reg := first (used s c)).
  pose proof (used_first s c Harch (ok_free s Hok c) Hempty) as Hreg.
  fold reg in Hreg.
  pose proof (used_bound s c reg Harch (ok_free s Hok c) Hreg) as Hbound.
  destruct (ok_used s Hok c reg Hreg (Hblocked reg Hreg))
    as (n & Hn & Hclass & Hin).
  set (node := GetValue s c reg) in *.
  destruct (FreeRegistersUsedBy_in_spec s c node n Hn)
    as (s1 & Hfree & Hnodes1 & Hregs1 & Hother1 & Hc1).
  rewrite Hfree. cbn [mbind option_bind].
  assert (Hok1 : RegistersOK s1).
  { apply (release_registers s s1 node n Hok Hn Hnodes1).
    - by rewrite Hclass.
    - by rewrite Hclass. }
  assert (Hfree1 : ∀ r, has (free s1 c) r
                        = has (free s c) r || is_in_register n r).
  { intros r. unfold free at 1. rewrite Hregs1. cbn [free_]. apply has_lor. }
  assert (HGet1 : ∀ r, GetValue s1 c r = GetValue s c r).
  { intros r. unfold GetValue. by rewrite Hregs1. }
  assert (Hused1 : ∀ r, has (used s1 c) r = true →
                        has (used s c) r = true ∧ is_in_register n r = false).
  { intros r Hr.
    apply (used_iff s1 c r (ok_free s1 Hok1 c)) in Hr as [Ha Hf].
    rewrite Hfree1 in Hf. apply orb_false_iff in Hf as [Hf Hnin].
    split; [|done]. by apply (used_iff s c r (ok_free s Hok c)). }
  destruct (IH s1 c Harch Hok1)
    as (s' & Hloop & Hnone & Hok' & Hother & Hc' & Hvalues).
  { intros r Hr. rewrite HGet1. apply Hblocked. by apply Hused1. }
  { assert (length (registers_of (used s1 c))
            < length (registers_of (used s c)))%nat; [|lia].
    apply (registers_of_length_lt _ _ reg); [|done|done|].
    - intros r Hr. by apply Hused1 in Hr as [? _].
    - destruct (has (used s1 c) reg) eqn:Hr; [|done].
      apply Hused1 in Hr as [_ ?]. congruence. }
  exists s'. split; [done|]. split; [done|]. split; [done|].
  split; [intros c' Hc; by rewrite Hother, Hother1|]. split; [congruence|].
  intros w m Hm. destruct (decide (w = node)) as [->|Hw].
  - assert (m = n) as -> by congruence.
    destruct (Hvalues node (set_registers n kEmptyRegList))
      as (n' & Hn' & Hcase).
    { rewrite Hnodes1. apply lookup_insert_eq. }
    exists n'. split; [done|]. right. split; [done|].
    destruct Hcase as [->| [_ ->]]; done.
  - apply Hvalues. by rewrite Hnodes1, lookup_insert_ne.
Qed.

(** X21.  [ClearRegisterState] on a register class without blocked
    registers, in a consistent register state and with fuel for one
    round per register, returns.  Afterwards every allocatable register
    of the class is free, no value of the class lists a register and
    nothing else about any value has changed (none was spilled), the
    registers of the other class are as they were, and the register state
    is consistent. *)
Theorem ClearRegisterState_frees_every_register fuel s c :
  ArchitectureOK →
  RegistersOK s →
  (∀ reg, has (used s c) reg = true →
          GetValue s c reg ≠ kBlockedRegisterSentinel) →
  (Z.to_nat kNumRegisters < fuel)%nat →
  ∃ s',
    ClearRegisterState fuel s c = Some s' ∧
    free s' c = kAllocatableRegisters c ∧
    RegistersOK s' ∧
    (∀ c', c ≠ c' → registers s' c' = registers s c') ∧
    ∀ w n, nodes s !! w = Some n →
      nodes s' !! w
      = Some (if bool_decide (register_class n = c) then
                set_registers n kEmptyRegList
              else n).
Proof.
  intros Harch Hok Hblocked Hfuel.
  destruct (ClearRegisterState_spec fuel s c Harch Hok Hblocked)
    as (s' & Hrun & Hnone & Hok' & Hother & _ & Hvalues).
  { pose proof (registers_of_length (used s c)). lia. }
  exists s'. split; [done|]. split; [|split; [done|split; [done|]]].
  - unfold used in Hnone. apply Z.lxor_eq in Hnone. done.
  - intros w n Hn. destruct (Hvalues w n Hn) as (n' & Hn' & Hcase).
    rewrite Hn'. f_equal. case_bool_decide as Hc.
    + destruct Hcase as [->|[_ ->]]; [|done].
      symmetry. apply set_registers_empty. apply empty_iff. intros r.
      destruct (has (registers_with_result_ n) r) eqn:Hr; [|done].
      destruct (ok_node s' Hok' w n r Hn' Hr) as [Hu _].
      rewrite Hc, Hnone, has_empty in Hu. done.
    + destruct Hcase as [->|[? _]]; done.
Qed.

End WithArchitecture.

Import MaglevConcrete.

Lemma ClearRegisterState_frees_every_register_witness :
  ∃ s',
    ClearRegisterState 5 registers_full General = Some s' ∧
    free s' General = kAllocatableRegisters General ∧
    RegistersOK s' ∧
    (∀ c', General ≠ c' → registers s' c' = registers registers_full c') ∧
    ∀ w n, nodes registers_full !! w = Some n →
      nodes s' !! w
      = Some (if bool_decide (register_class n = General) then
                set_registers n kEmptyRegList
              else n).
Proof.
  apply ClearRegisterState_frees_every_register.
  - exact four_registers_ok.
  - exact registers_full_ok.
  - intros reg Hu.
    pose proof (used_registers_of registers_full General reg
                  four_registers_ok registers_full_ok Hu) as Hin.
    vm_compute in Hin.
    repeat (apply elem_of_cons in Hin as [->|Hin];
            [vm_compute; discriminate|]).
    by apply elem_of_nil in Hin.
  - vm_compute. lia.
Defined.

End MaglevClearProofs.

(** * Properties of the inputs of a node *)

Module MaglevAssignProofs.
Import Maglev MaglevProofs MaglevCallProofs MaglevRegisterProofs.
Import MaglevInputProofs MaglevResultProofs.

Section WithArchitecture.
Context `{Architecture}.

(** ** Counting the free registers *)

Lemma clear_negative regs r : r < 0 → clear regs r = regs.
Proof.
  intros Hr. unfold clear. rewrite Z.shiftl_1_l.
  rewrite Z.pow_neg_r by done. apply Z.ldiff_0_r.
Qed.

Lemma Count_clear regs r : Count regs <= Count (clear regs r) + 1.
Proof.
  destruct (Z.neg_nonneg_cases r) as [Hneg|Hpos].
  { rewrite clear_negative by done. lia. }
  unfold Count, registers_of.
  pose proof (filter_length_drop (has regs) (has (clear regs r))
                (seqZ 0 kNumRegisters) r (NoDup_seqZ _ _)) as Hle.
  cut (length (List.filter (has regs) (seqZ 0 kNumRegisters))
       ≤ S (length (List.filter (has (clear regs r))
                      (seqZ 0 kNumRegisters))))%nat; [lia|].
  apply Hle. intros x _ Hx Hp. rewrite has_clear by done.
  apply Z.eqb_neq in Hx. by rewrite Hp, Hx.
Qed.

Lemma Count_empty : Count kEmptyRegList = 0.
Proof.
  unfold Count, registers_of.
  induction (seqZ 0 kNumRegisters) as [|x l IH]; [done|].
  cbn [List.filter]. by rewrite has_empty.
Qed.

Lemma Count_positive regs : 0 < Count regs → regs ≠ kEmptyRegList.
Proof. intros Hpos ->. rewrite Count_empty in Hpos. lia. Qed.

(** Dropping the value of a register takes at most one free register,
    the one the value moves to. *)
Lemma DropRegisterValue_free s c reg stage s' :
  DropRegisterValue s c reg stage = Some s' →
  ∀ c', Count (free s c') <= Count (free s' c') + 1.
Proof.
  unfold DropRegisterValue.
  destruct (nodes s !! GetValue s c reg) as [n|] eqn:Hn; [|done].
  cbn [mbind option_bind].
  set (v := GetValue s c reg) in *.
  set (n1 := RemoveRegister n reg).
  set (s1 := with_node s v n1).
  assert (Hfree1 : ∀ c', free s1 c' = free s c').
  { intros c'. apply free_eq, registers_with_node. }
  destruct (has_register n1 || is_loadable n1).
  { intros [= <-] c'. rewrite Hfree1. lia. }
  destruct (bool_decide (stage = kAtEnd)
            && (end_ (live_range n1) =? current_node_id s1)).
  { intros [= <-] c'. rewrite Hfree1. lia. }
  destruct (negb (FreeIsEmpty s1 c)).
  - set (target := first (free s1 c)).
    unfold SetValue.
    destruct (nodes (RemoveFromFree s1 c target) !! v) as [n2|]; [|done].
    cbn [mbind option_bind]. intros [= <-] c'.
    rewrite (free_eq _ _ c' (registers_AddMove _ _ _ _ c')).
    rewrite (free_eq _ _ c' (registers_with_node _ _ _ c')).
    rewrite <- (Hfree1 c').
    destruct c, c'; unfold free; cbn; try lia; apply Count_clear.
  - intros Hspill c'.
    destruct (Spill_spec s1 v n1) as (s2 & n2 & Hrun & _ & Hregs & _).
    { apply lookup_insert_eq. }
    rewrite Hrun in Hspill. injection Hspill as <-.
    rewrite (free_eq _ _ c' (Hregs c')), Hfree1. lia.
Qed.

Lemma Count_drop regs regs' r :
  (∀ x, x ≠ r → has regs x = true → has regs' x = true) →
  Count regs <= Count regs' + 1.
Proof.
  intros Hsub. unfold Count, registers_of.
  pose proof (filter_length_drop (has regs) (has regs')
                (seqZ 0 kNumRegisters) r (NoDup_seqZ _ _)) as Hle.
  cut (length (List.filter (has regs) (seqZ 0 kNumRegisters))
       ≤ S (length (List.filter (has regs') (seqZ 0 kNumRegisters))))%nat;
    [lia|].
  apply Hle. intros x _ Hx. by apply Hsub.
Qed.

Lemma used_free_eq s s' c : free s' c = free s c → used s' c = used s c.
Proof. unfold used. by intros ->. Qed.

(** ** What [ForceAllocate] leaves alone *)

Lemma ForceAllocate_frame s c reg node n stage :
  ArchitectureOK →
  RegistersOK s →
  nodes s !! node = Some n →
  register_class n = c →
  has (kAllocatableRegisters c) reg = true →
  (has (used s c) reg = true →
   GetValue s c reg ≠ kBlockedRegisterSentinel) →
  ∃ s' n',
    ForceAllocate s c reg node stage
    = Some (s', AllocatedOperand REGISTER (GetMachineRepresentation n) reg) ∧
    RegistersOK s' ∧
    NothingLost stage s s' ∧
    nodes s' !! node = Some n' ∧
    is_in_register n' reg = true ∧
    (∀ c' x, has (used s c') x = true → (c', x) ≠ (c, reg) →
       has (used s' c') x = true ∧ GetValue s' c' x = GetValue s c' x) ∧
    (NoneBlocked s → NoneBlocked s') ∧
    (∀ c', Count (free s c') <= Count (free s' c') + 1).
Proof.
  intros Harch Hok Hn Hclass Hal Hblocked.
  pose proof (has_nonneg _ _ Hal) as Hreg.
  pose proof (But_node_not_sentinel s None node n
                (proj1 (RegistersOK_But s) Hok) Hn) as Hnode.
  unfold ForceAllocate. rewrite Hn. cbn [mbind option_bind].
  destruct (has (free s c) reg) eqn:Hfree.
  - destruct (take_free s None c reg node n)
      as (s' & Hset & Hok' & Hn' & Hc' & Hv & Hf & Ho);
      [by apply RegistersOK_But|done|done|done|].
    rewrite Hset. cbn [mbind option_bind].
    assert (Hkeep : ∀ c' x, (c', x) ≠ (c, reg) →
              has (used s' c') x = has (used s c') x ∧
              GetValue s' c' x = GetValue s c' x).
    { intros c' x Hne. destruct (decide (c = c')) as [<-|Hc].
      - assert (x ≠ reg) as Hx by congruence.
        split.
        + rewrite !used_has, Hf. apply Z.eqb_neq in Hx.
          by rewrite Hx, andb_true_r.
        + unfold GetValue. by rewrite Hv, lookup_insert_ne.
      - by rewrite (used_eq s s' c' (Ho c' Hc)),
          (GetValue_eq s s' c' x (Ho c' Hc)). }
    exists s', (AddRegister n reg). split; [done|].
    split; [by apply RegistersOK_But|]. split; [|split; [|split; [|split; [|split]]]].
    + apply (NothingLost_insert stage s s' node n (AddRegister n reg));
        try done.
      intros _. left. by apply has_register_AddRegister.
    + rewrite Hn'. apply lookup_insert_eq.
    + by apply is_in_register_AddRegister.
    + intros c' x Hu Hne. destruct (Hkeep c' x Hne) as [-> ->]. done.
    + intros Hnone c' x Hu.
      destruct (decide ((c', x) = (c, reg))) as [[= -> ->]|Hne].
      * unfold GetValue. by rewrite Hv, lookup_insert_eq.
      * destruct (Hkeep c' x Hne) as [Hu' ->]. apply Hnone. by rewrite <- Hu'.
    + intros c'. destruct (decide (c = c')) as [<-|Hc].
      * apply (Count_drop _ _ reg). intros x Hx Hfx. rewrite Hf, Hfx.
        apply Z.eqb_neq in Hx. by rewrite Hx.
      * rewrite (free_eq s s' c' (Ho c' Hc)). lia.
  - assert (Hu : has (used s c) reg = true).
    { apply used_iff; [apply (ok_free s Hok)|done]. }
    specialize (Hblocked Hu).
    destruct (ok_used s Hok c reg Hu Hblocked) as (m & Hm & Hcm & Hin).
    destruct (GetValue s c reg =? node) eqn:Hsame.
    + apply Z.eqb_eq in Hsame. rewrite Hsame in Hm.
      assert (m = n) as -> by congruence.
      exists s, n. split; [done|]. split; [done|].
      split; [apply NothingLost_refl|]. split; [done|]. split; [done|].
      split; [done|]. split; [done|]. intros c'. lia.
    + destruct (DropRegisterValue_spec s c reg stage Harch Hok Hu Hblocked)
        as (s1 & Hdrop & Hbut & Hlost & Hkept & Hfrom).
      rewrite Hdrop. cbn [mbind option_bind].
      destruct (proj2 Hlost node n Hn) as (n1 & Hn1 & Hrep1 & _).
      destruct (fill_hole s1 c reg node n1 Hbut Hn1)
        as (s' & Hset & Hok' & Hn' & Hc' & Hv & Hf & Ho).
      { by rewrite (register_class_eq n n1 Hrep1). }
      rewrite Hset. cbn [mbind option_bind].
      assert (Hfree' : ∀ c', free s' c' = free s1 c').
      { intros c'. destruct (decide (c = c')) as [<-|Hc]; [done|].
        apply free_eq. by apply Ho. }
      assert (Hkeep : ∀ c' x, (c', x) ≠ (c, reg) →
                GetValue s' c' x = GetValue s1 c' x).
      { intros c' x Hne. destruct (decide (c = c')) as [<-|Hc].
        - assert (x ≠ reg) as Hx by congruence.
          unfold GetValue. by rewrite Hv, lookup_insert_ne.
        - by rewrite (GetValue_eq s1 s' c' x (Ho c' Hc)). }
      exists s', (AddRegister n1 reg). split; [done|].
      split; [by apply RegistersOK_But|].
      split; [|split; [|split; [|split; [|split]]]].
      * apply (NothingLost_trans stage s s1); [done|].
        apply (NothingLost_insert stage s1 s' node n1 (AddRegister n1 reg));
          try done.
        intros _. left. by apply has_register_AddRegister.
      * rewrite Hn'. apply lookup_insert_eq.
      * by apply is_in_register_AddRegister.
      * intros c' x Hux Hne. destruct (Hkept c' x Hux) as [Hu1 Hg1].
        rewrite (used_free_eq s1 s' c' (Hfree' c')).
        by rewrite (Hkeep c' x Hne).
      * intros Hnone c' x Hux.
        rewrite (used_free_eq s1 s' c' (Hfree' c')) in Hux.
        destruct (decide ((c', x) = (c, reg))) as [[= -> ->]|Hne].
        { unfold GetValue. by rewrite Hv, lookup_insert_eq. }
        rewrite (Hkeep c' x Hne).
        destruct (Hfrom c' x Hux) as [Hus | [-> Hg]].
        -- destruct (Hkept c' x Hus) as [_ ->]. by apply Hnone.
        -- by rewrite Hg.
      * intros c'. rewrite Hfree'.
        by apply (DropRegisterValue_free s c reg stage).
Qed.

(** ** Inputs across a step of the allocation *)

Lemma InputReady_later s s' input :
  NothingLost kAtStart s s' → InputReady s input → InputReady s' input.
Proof.
  intros [_ Hlost] (n & Hn & Hat & Hpolicy).
  destruct (Hlost _ n Hn) as (n' & Hn' & Hrep & Hat').
  exists n'. split; [done|]. split; [by apply Hat'|].
  by rewrite (register_class_eq n n' Hrep).
Qed.

Lemma InputIn_later stage s s' input c reg :
  NothingLost stage s s' →
  (has (used s c) reg = true →
   has (used s' c) reg = true ∧ GetValue s' c reg = GetValue s c reg) →
  InputIn s input c reg → InputIn s' input c reg.
Proof.
  intros [_ Hlost] Hkeep (n & Hn & Hclass & Hop & Hu & Hg).
  destruct (Hlost _ n Hn) as (n' & Hn' & Hrep & _).
  destruct (Hkeep Hu) as [Hu' Hg'].
  exists n'. rewrite (GetMachineRepresentation_eq n n' Hrep).
  rewrite (register_class_eq n n' Hrep). split; [done|]. split; [done|].
  split; [done|]. split; [done|]. congruence.
Qed.

Lemma InputAssigned_later stage s s' input :
  NothingLost stage s s' →
  (∀ c x, has (used s c) x = true →
     has (used s' c) x = true ∧ GetValue s' c x = GetValue s c x) →
  InputAssigned s input → InputAssigned s' input.
Proof.
  intros Hlost Hkeep (c & reg & Hin). exists c, reg.
  apply (InputIn_later stage s s'); [done| |done]. apply Hkeep.
Qed.

Lemma InputIn_VerifyInput s input c reg :
  InputIn s input c reg → VerifyInput s input = true.
Proof.
  intros (n & Hn & <- & Hop & Hu & Hg).
  by apply (VerifyInput_register s input n reg).
Qed.

(** A state that differs by gap moves only. *)
Lemma with_gap_move (b : bool) s v a t :
  let s' := if b then AddMoveBeforeCurrentNode s v a t else s in
  nodes s' = nodes s ∧ (∀ c, registers s' c = registers s c) ∧
  current_node_id s' = current_node_id s.
Proof.
  destruct b; cbn; [|done]. split; [done|]. split; [|done].
  intros c. apply registers_AddMove.
Qed.

(** ** The inputs with a fixed register *)

Lemma AssignFixedInput_step s input :
  ArchitectureOK → RegistersOK s → NoneBlocked s → InputReady s input →
  ∃ s' input',
    AssignFixedInput s input = Some (s', input') ∧
    RegistersOK s' ∧ NothingLost kAtStart s s' ∧ NoneBlocked s' ∧
    (∀ c, Count (free s c) <= Count (free s' c) + 1) ∧
    input_node input' = input_node input ∧
    (∀ c x, has (used s c) x = true → fixed_register input ≠ Some (c, x) →
       has (used s' c) x = true ∧ GetValue s' c x = GetValue s c x) ∧
    match fixed_register input with
    | Some (c, reg) => InputIn s' input' c reg
    | None =>
        s' = s ∧ input' = input ∧
        operand input = UnallocatedOperand MUST_HAVE_REGISTER
    end.
Proof.
  intros Harch Hok Hnone (n & Hn & Hat & Hpolicy).
  assert (Hforced : ∀ c reg,
            fixed_register input = Some (c, reg) →
            register_class n = c →
            has (kAllocatableRegisters c) reg = true →
            ∃ s' input',
              (let allocated :=
                 AllocatedOperand REGISTER (GetMachineRepresentation n) reg in
               '(s1, allocated) ← ForceAllocate s c reg (input_node input)
                                   kAtStart;
               Some (if bool_decide (allocation n ≠ allocated) then
                       AddMoveBeforeCurrentNode s1 (input_node input)
                         (allocation n) allocated
                     else s1,
                     SetAllocated input allocated)) = Some (s', input') ∧
              RegistersOK s' ∧ NothingLost kAtStart s s' ∧ NoneBlocked s' ∧
              (∀ c, Count (free s c) <= Count (free s' c) + 1) ∧
              input_node input' = input_node input ∧
              (∀ c x, has (used s c) x = true →
                 fixed_register input ≠ Some (c, x) →
                 has (used s' c) x = true ∧
                 GetValue s' c x = GetValue s c x) ∧
              InputIn s' input' c reg).
  { intros c reg Hfixed Hclass Hal.
    destruct (ForceAllocate_frame s c reg (input_node input) n kAtStart)
      as (s1 & n' & Hforce & Hok1 & Hlost & Hn' & Hin & Hkeep & Hnb & Hcount);
      try done.
    { intros Hu. by apply Hnone. }
    cbv zeta. rewrite Hforce. cbn [mbind option_bind].
    set (allocated :=
           AllocatedOperand REGISTER (GetMachineRepresentation n) reg).
    destruct (with_gap_move (bool_decide (allocation n ≠ allocated)) s1
                (input_node input) (allocation n) allocated)
      as (Hnodes & Hregs & Hcur).
    set (s2 := if bool_decide (allocation n ≠ allocated) then _ else s1) in *.
    exists s2, (SetAllocated input allocated). split; [done|].
    split; [by apply (RegistersOK_ext s1)|].
    split.
    { apply (NothingLost_trans kAtStart s s1); [done|].
      by apply NothingLost_nodes. }
    split.
    { intros c' x. rewrite (used_eq s1 s2 c' (Hregs c')).
      rewrite (GetValue_eq s1 s2 c' x (Hregs c')). by apply Hnb. }
    split.
    { intros c'. rewrite (free_eq s1 s2 c' (Hregs c')). apply Hcount. }
    split; [done|]. split.
    { intros c' x Hu Hne. rewrite (used_eq s1 s2 c' (Hregs c')).
      rewrite (GetValue_eq s1 s2 c' x (Hregs c')). apply Hkeep; [done|].
      congruence. }
    destruct (proj2 Hlost _ n Hn) as (n2 & Hn2 & Hrep & _).
    assert (n2 = n') as -> by congruence.
    destruct (ok_node s1 Hok1 _ n' reg Hn' Hin) as [Hu1 Hg1].
    rewrite (register_class_eq n n' Hrep), Hclass in Hu1, Hg1.
    exists n'. rewrite Hnodes. split; [done|].
    split; [by rewrite (register_class_eq n n' Hrep)|].
    split; [by rewrite (GetMachineRepresentation_eq n n' Hrep)|].
    rewrite (used_eq s1 s2 c (Hregs c)).
    by rewrite (GetValue_eq s1 s2 c reg (Hregs c)). }
  unfold AssignFixedInput, fixed_register in *.
  destruct (operand input) as [|policy| |] eqn:Hop; try done.
  rewrite Hn. cbn [mbind option_bind].
  destruct policy; try done.
  - destruct Hpolicy as [Hclass Hal].
    by apply (Hforced General fixed_register_index).
  - destruct Hpolicy as [Hclass Hal].
    by apply (Hforced Double fixed_register_index).
  - exists s, input. split; [done|]. split; [done|].
    split; [apply NothingLost_refl|]. split; [done|].
    split; [intros c; lia|]. done.
Qed.

Lemma fixed_inputs_loop l : ∀ s,
  ArchitectureOK → RegistersOK s → NoneBlocked s →
  Forall (InputReady s) l →
  NoDup (omap fixed_register l) →
  ∃ s' l',
    for_each_input AssignFixedInput s l = Some (s', l') ∧
    RegistersOK s' ∧ NothingLost kAtStart s s' ∧ NoneBlocked s' ∧
    (∀ c, Count (free s c)
          <= Count (free s' c) + Z.of_nat (length (omap fixed_register l))) ∧
    (∀ c x, has (used s c) x = true → (c, x) ∉ omap fixed_register l →
       has (used s' c) x = true ∧ GetValue s' c x = GetValue s c x) ∧
    Forall2 (λ input input',
       input_node input' = input_node input ∧
       match fixed_register input with
       | Some (c, reg) => InputIn s' input' c reg
       | None =>
           input' = input ∧
           operand input = UnallocatedOperand MUST_HAVE_REGISTER
       end) l l'.
Proof.
  induction l as [|input l IH]; intros s Harch Hok Hnone Hready Hnodup.
  { exists s, []. split; [done|]. split; [done|].
    split; [apply NothingLost_refl|]. split; [done|].
    split; [intros c; cbn; lia|]. split; [done|]. constructor. }
  apply Forall_cons in Hready as [Hready Hreadys].
  destruct (AssignFixedInput_step s input Harch Hok Hnone Hready)
    as (s1 & input1 & Hstep & Hok1 & Hlost1 & Hnone1 & Hcount1 & Hnode1
        & Hkeep1 & Hhead).
  assert (Hnodup' : NoDup (omap fixed_register l)).
  { cbn [omap list_omap] in Hnodup.
    destruct (fixed_register input); [by apply NoDup_cons in Hnodup as [_ ?]|done]. }
  destruct (IH s1 Harch Hok1 Hnone1) as
    (s' & l' & Hloop & Hok' & Hlost' & Hnone' & Hcount' & Hkeep' & Hall);
    [|done|].
  { eapply Forall_impl; [exact Hreadys|]. intros i.
    by apply InputReady_later. }
  exists s', (input1 :: l'). cbn [for_each_input]. rewrite Hstep.
  cbn [mbind option_bind]. rewrite Hloop. cbn [mbind option_bind].
  split; [done|]. split; [done|].
  split; [by apply (NothingLost_trans kAtStart s s1)|]. split; [done|].
  split.
  { intros c. specialize (Hcount1 c). specialize (Hcount' c).
    cbn [omap list_omap].
    destruct (fixed_register input); [cbn [length]; lia|].
    destruct Hhead as (-> & _). lia. }
  split.
  { intros c x Hu Hnot. cbn [omap list_omap] in Hnot.
    destruct (Hkeep1 c x Hu) as [Hu1 Hg1].
    { intros Hf. rewrite Hf in Hnot. apply Hnot. by left. }
    destruct (Hkeep' c x Hu1) as [Hu' Hg'].
    { intros Hin. apply Hnot. destruct (fixed_register input); [by right|done]. }
    split; [done|]. congruence. }
  constructor; [|done]. split; [done|].
  destruct (fixed_register input) as [[c reg]|] eqn:Hfixed.
  - apply (InputIn_later kAtStart s1 s'); [done| |done].
    intros Hu. apply Hkeep'; [done|].
    cbn [omap list_omap] in Hnodup. rewrite Hfixed in Hnodup.
    by apply NoDup_cons in Hnodup as [? _].
  - by destruct Hhead as (_ & -> & ?).
Qed.

(** ** The fixed temporaries *)

Lemma AssignFixedTemporaries_loop_free regs : ∀ s s',
  AssignFixedTemporaries_loop s regs = Some s' →
  ∀ c, Count (free s c) <= Count (free s' c) + Z.of_nat (length regs).
Proof.
  induction regs as [|reg regs IH]; intros s s'.
  { intros [= <-] c. cbn. lia. }
  cbn [AssignFixedTemporaries_loop].
  destruct (if negb (has (free s General) reg) then _ else _)
    as [s1|] eqn:Hstep; [|done].
  cbn [mbind option_bind]. intros Hloop c.
  specialize (IH _ _ Hloop c).
  assert (Hone : Count (free s c) <= Count (free s1 c) + 1).
  { destruct (negb (has (free s General) reg)).
    - by apply (DropRegisterValue_free s General reg kAtStart).
    - injection Hstep as <-. destruct c; unfold free; cbn; [|lia].
      apply Count_clear. }
  assert (Hsame : free (SetSentinelValue s1 General reg
                          kBlockedRegisterSentinel) c = free s1 c).
  { by destruct c. }
  rewrite Hsame in IH. cbn [length]. lia.
Qed.

(** ** The inputs that take any register *)

Lemma AssignArbitraryRegisterInput_step s input :
  ArchitectureOK → RegistersOK s →
  (IsUnallocated (operand input) = true → ∀ c, 0 < Count (free s c)) →
  InputAssigned s input ∨
  (operand input = UnallocatedOperand MUST_HAVE_REGISTER ∧
   InputReady s input) →
  ∃ s' input',
    AssignArbitraryRegisterInput s input = Some (s', input') ∧
    RegistersOK s' ∧ NothingLost kAtStart s s' ∧
    (∀ c, Count (free s c) <= Count (free s' c) + 1) ∧
    (∀ c x, has (used s c) x = true →
       has (used s' c) x = true ∧ GetValue s' c x = GetValue s c x) ∧
    input_node input' = input_node input ∧
    InputAssigned s' input' ∧
    (IsUnallocated (operand input) = false → s' = s ∧ input' = input).
Proof.
  intros Harch Hok Hspare [Hassigned | [Hop (n & Hn & Hat & _)]].
  { exists s, input. unfold AssignArbitraryRegisterInput.
    destruct Hassigned as (c & reg & n & Hn & Hclass & Hop & Hu & Hg).
    rewrite Hop. cbn [IsUnallocated negb]. split; [done|]. split; [done|].
    split; [apply NothingLost_refl|]. split; [intros c'; lia|].
    split; [done|]. split; [done|]. split; [|done].
    exists c, reg, n. by rewrite Hop. }
  assert (Hspare' : ∀ c, 0 < Count (free s c)).
  { apply Hspare. by rewrite Hop. }
  clear Hspare. rename Hspare' into Hspare.
  unfold AssignArbitraryRegisterInput. rewrite Hop, Hn.
  cbn [IsUnallocated negb mbind option_bind]. unfold allocation.
  destruct (has_register n) eqn:Hhas.
  - cbn [IsAnyRegister].
    pose proof (first_register s _ n Harch Hok Hn Hhas) as Hfirst.
    destruct (ok_node s Hok _ n _ Hn Hfirst) as [Hu Hg].
    eexists s, _. split; [done|]. split; [done|].
    split; [apply NothingLost_refl|]. split; [intros c'; lia|].
    split; [done|]. split; [done|]. split; [|done].
    exists (register_class n), (first (registers_with_result_ n)), n.
    done.
  - assert (Hload : is_loadable n = true).
    { destruct Hat as [?|[?|[? _]]]; [congruence|done|done]. }
    assert (Hnoreg : IsAnyRegister (spill_or_hint_ n) = false).
    { unfold is_loadable in Hload.
      by destruct (spill_or_hint_ n) as [| | |[] ? ?]. }
    rewrite Hnoreg. set (c := register_class n).
    pose proof (Count_positive _ (Hspare c)) as Hfree.
    unfold AllocateRegister. rewrite Hn. cbn [mbind option_bind].
    fold c. unfold FreeIsEmpty.
    pose proof Hfree as Hfreeb. apply Z.eqb_neq in Hfreeb. rewrite Hfreeb.
    cbn [mbind option_bind]. unfold TryAllocateRegister. rewrite Hfreeb.
    apply RegistersOK_But in Hok.
    pose proof (first_free s None c Harch Hok Hfree) as Hf.
    set (reg := first (free s c)) in *.
    pose proof (has_nonneg _ _ Hf) as Hreg.
    assert (Hn1 : nodes (RemoveFromFree s c reg) !! input_node input = Some n)
      by by destruct c.
    rewrite Hn1. cbn [mbind option_bind].
    destruct (take_free s None c reg (input_node input) n Hok Hf Hn eq_refl)
      as (s1 & Hset & Hok1 & Hnodes1 & Hcur1 & Hv & Hf1 & Ho).
    rewrite Hset. cbn [mbind option_bind IsAllocated].
    set (allocated :=
           AllocatedOperand REGISTER (GetMachineRepresentation n) reg).
    set (s2 := AddMoveBeforeCurrentNode s1 (input_node input)
                 (spill_or_hint_ n) allocated).
    assert (Hregs : ∀ c', registers s2 c' = registers s1 c').
    { intros c'. apply registers_AddMove. }
    assert (Hkeep : ∀ c' x, has (used s c') x = true →
              has (used s1 c') x = true ∧
              GetValue s1 c' x = GetValue s c' x).
    { intros c' x Hu. destruct (decide (c = c')) as [<-|Hc].
      - assert (x ≠ reg) as Hx.
        { intros ->. apply (But_used_iff s None c reg Hok) in Hu as [_ Hu].
          congruence. }
        split.
        + rewrite used_has, Hf1. rewrite used_has in Hu.
          apply Z.eqb_neq in Hx. by rewrite Hx, andb_true_r.
        + unfold GetValue. by rewrite Hv, lookup_insert_ne.
      - by rewrite (used_eq s s1 c' (Ho c' Hc)),
          (GetValue_eq s s1 c' x (Ho c' Hc)). }
    exists s2, (SetAllocated input allocated). split; [done|].
    split.
    { apply (RegistersOK_ext s1); [done|done|]. by apply RegistersOK_But. }
    split.
    { apply (NothingLost_trans kAtStart s s1); [|by apply NothingLost_nodes].
      apply (NothingLost_insert kAtStart s s1 (input_node input) n
               (AddRegister n reg)); try done.
      intros _. left. by apply has_register_AddRegister. }
    split.
    { intros c'. rewrite (free_eq s1 s2 c' (Hregs c')).
      destruct (decide (c = c')) as [<-|Hc].
      - apply (Count_drop _ _ reg). intros x Hx Hfx. rewrite Hf1, Hfx.
        apply Z.eqb_neq in Hx. by rewrite Hx.
      - rewrite (free_eq s s1 c' (Ho c' Hc)). lia. }
    split.
    { intros c' x Hu. rewrite (used_eq s1 s2 c' (Hregs c')).
      rewrite (GetValue_eq s1 s2 c' x (Hregs c')). by apply Hkeep. }
    split; [done|]. split; [|done].
    exists c, reg, (AddRegister n reg).
    split; [cbn [nodes AddMoveBeforeCurrentNode s2];
            rewrite Hnodes1; apply lookup_insert_eq|].
    split; [done|]. split; [done|].
    rewrite (used_eq s1 s2 c (Hregs c)).
    rewrite (GetValue_eq s1 s2 c reg (Hregs c)). split.
    + apply (But_used_iff s1 None c reg Hok1).
      split; [by apply (but_free s None Hok)|].
      by rewrite Hf1, Z.eqb_refl, andb_false_r.
    + unfold GetValue. by rewrite Hv, lookup_insert_eq.
Qed.

Lemma arbitrary_inputs_loop l : ∀ s,
  ArchitectureOK → RegistersOK s →
  (∀ c, Z.of_nat (length (List.filter (λ input, IsUnallocated (operand input))
                            l))
        <= Count (free s c)) →
  Forall (λ input,
            InputAssigned s input ∨
            (operand input = UnallocatedOperand MUST_HAVE_REGISTER ∧
             InputReady s input)) l →
  ∃ s' l',
    for_each_input AssignArbitraryRegisterInput s l = Some (s', l') ∧
    RegistersOK s' ∧ NothingLost kAtStart s s' ∧
    (∀ c, Count (free s c)
          <= Count (free s' c)
             + Z.of_nat (length (List.filter
                                   (λ input, IsUnallocated (operand input))
                                   l))) ∧
    (∀ c x, has (used s c) x = true →
       has (used s' c) x = true ∧ GetValue s' c x = GetValue s c x) ∧
    Forall2 (λ input input',
       input_node input' = input_node input ∧
       InputAssigned s' input' ∧
       ∀ c reg, InputIn s input c reg → InputIn s' input' c reg) l l'.
Proof.
  induction l as [|input l IH]; intros s Harch Hok Hspare Hall.
  { exists s, []. split; [done|]. split; [done|].
    split; [apply NothingLost_refl|]. split; [intros c; cbn; lia|].
    split; [done|]. constructor. }
  apply Forall_cons in Hall as [Hhead Hall]. cbn [List.filter] in Hspare.
  destruct (AssignArbitraryRegisterInput_step s input Harch Hok)
    as (s1 & input1 & Hstep & Hok1 & Hlost1 & Hcount1 & Hkeep1 & Hnode1
        & Hassigned1 & Hsame1); [|done|].
  { intros Hun c. specialize (Hspare c). rewrite Hun in Hspare.
    cbn [length] in Hspare. lia. }
  assert (Hcount1' : ∀ c,
            Count (free s c)
            <= Count (free s1 c)
               + (if IsUnallocated (operand input) then 1 else 0)).
  { intros c. destruct (IsUnallocated (operand input)); [apply Hcount1|].
    destruct (Hsame1 eq_refl) as [-> _]. lia. }
  destruct (IH s1 Harch Hok1)
    as (s' & l' & Hloop & Hok' & Hlost' & Hcount' & Hkeep' & Hall');
    [| |].
  { intros c. specialize (Hspare c). specialize (Hcount1' c).
    destruct (IsUnallocated (operand input)); cbn [length] in Hspare; lia. }
  { eapply Forall_impl; [exact Hall|]. intros i [Hi | [Hop Hi]].
    - left. by apply (InputAssigned_later kAtStart s s1).
    - right. split; [done|]. by apply (InputReady_later s s1). }
  exists s', (input1 :: l'). cbn [for_each_input]. rewrite Hstep.
  cbn [mbind option_bind]. rewrite Hloop. cbn [mbind option_bind].
  split; [done|]. split; [done|].
  split; [by apply (NothingLost_trans kAtStart s s1)|].
  split.
  { intros c. specialize (Hcount1' c). specialize (Hcount' c).
    cbn [List.filter].
    destruct (IsUnallocated (operand input)); cbn [length]; lia. }
  split.
  { intros c x Hu. destruct (Hkeep1 c x Hu) as [Hu1 Hg1].
    destruct (Hkeep' c x Hu1) as [Hu' Hg']. split; [done|]. congruence. }
  constructor.
  - split; [done|].
    split; [by apply (InputAssigned_later kAtStart s1 s')|].
    intros c reg Hin.
    assert (input1 = input) as ->.
    { apply Hsame1. destruct Hin as (n & _ & _ & -> & _). done. }
    apply (InputIn_later kAtStart s1 s'); [done|by apply Hkeep'|].
    apply (InputIn_later kAtStart s s1); [done|by apply Hkeep1|done].
  - eapply Forall2_impl; [exact Hall'|]. intros i i' (Hnode & Hass & Hin).
    split; [done|]. split; [done|]. intros c reg Hi. apply Hin.
    apply (InputIn_later kAtStart s s1); [done|by apply Hkeep1|done].
Qed.

(** ** The temporaries taken from the free registers *)

Lemma TakeFreeTemporaries_Double regs : ∀ s temps needed,
  registers (TakeFreeTemporaries s regs temps needed).1.1 Double
  = registers s Double.
Proof.
  induction regs as [|reg regs IH]; intros s temps needed; [done|].
  cbn [TakeFreeTemporaries].
  destruct (int32_t (needed - 1) =? 0); [done|]. by rewrite IH.
Qed.

Lemma AssignArbitraryTemporaries_enough s node :
  ArchitectureOK → RegistersOK s →
  0 <= num_temporaries_needed node < 2 ^ 31 →
  num_temporaries_needed node <= Count (free s General) →
  (∀ x, has (temporaries node) x = true →
     has (used s General) x = true ∧
     GetValue s General x = kBlockedRegisterSentinel) →
  ∃ s' node',
    AssignArbitraryTemporaries s node = Some (s', node') ∧
    RegistersOK s' ∧
    nodes s' = nodes s ∧ current_node_id s' = current_node_id s ∧
    inputs node' = inputs node ∧
    (∀ c x, has (used s c) x = true →
       has (used s' c) x = true ∧ GetValue s' c x = GetValue s c x) ∧
    (∀ x, has (temporaries node') x = true →
       has (used s' General) x = true ∧
       GetValue s' General x = kBlockedRegisterSentinel) ∧
    Count (temporaries node')
    = Count (temporaries node) + num_temporaries_needed node.
Proof.
  intros Harch Hok Hneeded Henough Htemps. unfold AssignArbitraryTemporaries.
  destruct (num_temporaries_needed node =? 0) eqn:Hzero.
  { apply Z.eqb_eq in Hzero. exists s, node. rewrite Hzero.
    do 5 (split; [done|]).
    split; [intros c x Hu; split; [exact Hu|reflexivity]|].
    split; [done|]. lia. }
  apply Z.eqb_neq in Hzero.
  destruct (TakeFreeTemporaries_spec (registers_of (free s General)) s
              (temporaries node) (num_temporaries_needed node) Harch Hok
              (NoDup_registers_of _))
    as (s1 & temps1 & Htake & Hok1 & Hnodes1 & Hcur1 & Hblocked1 & _
        & Hcount1 & Hkeep1 & _); [|lia|done|].
  { intros x Hx. by apply elem_of_registers_of in Hx as [_ ?]. }
  pose proof (TakeFreeTemporaries_Double (registers_of (free s General)) s
                (temporaries node) (num_temporaries_needed node)) as Hdouble.
  assert (Hmax : Z.max 0 (num_temporaries_needed node
                          - Z.of_nat (length (registers_of (free s General))))
                 = 0) by (unfold Count in Henough; lia).
  rewrite Hmax in Htake, Hcount1.
  rewrite Htake in Hdouble |- *. cbn [fst] in Hdouble.
  cbn [Z.to_nat FreeMoreTemporaries mbind option_bind].
  exists s1, (assign_temporaries node temps1).
  do 5 (split; [done|]). split; [|split; [done|]].
  - intros [] x Hu; [by apply Hkeep1|].
    by rewrite (used_eq s s1 Double Hdouble),
      (GetValue_eq s s1 Double x Hdouble).
  - cbn [temporaries assign_temporaries]. lia.
Qed.

(** ** All the inputs of a node *)

Lemma Forall2_with {A B : Type} (P : A → Prop) (R R' : A → B → Prop) l k :
  Forall P l → Forall2 R l k →
  (∀ a b, P a → R a b → R' a b) → Forall2 R' l k.
Proof.
  intros HP HR Himpl. revert HP.
  induction HR as [|a b l k Hab HR IH]; intros HP; [constructor|].
  apply Forall_cons in HP as [Ha HP]. constructor; [by apply Himpl|by apply IH].
Qed.

Lemma Forall2_right {A B : Type} (P : A → Prop) (R : A → B → Prop)
    (Q : B → Prop) l k :
  Forall P l → Forall2 R l k →
  (∀ a b, P a → R a b → Q b) → Forall Q k.
Proof.
  intros HP HR Himpl. revert HP.
  induction HR as [|a b l k Hab HR IH]; intros HP; [constructor|].
  apply Forall_cons in HP as [Ha HP].
  constructor; [by apply (Himpl a)|by apply IH].
Qed.

Lemma Forall2_compose {A B C : Type} (R : A → B → Prop) (S : B → C → Prop)
    (T : A → C → Prop) l k m :
  Forall2 R l k → Forall2 S k m →
  (∀ a b c, R a b → S b c → T a c) → Forall2 T l m.
Proof.
  intros HR. revert m.
  induction HR as [|a b l k Hab HR IH]; intros m HS Himpl.
  - inversion HS. constructor.
  - inversion HS as [|b' c k' m' Hbc HS']; subst.
    constructor; [by apply (Himpl a b)|by apply IH].
Qed.

(** The inputs without a fixed register are those still unallocated
    after the first loop. *)
Lemma unallocated_after_fixed s (l l1 : list Input) :
  Forall2 (λ input input',
     input_node input' = input_node input ∧
     match fixed_register input with
     | Some (c, reg) => InputIn s input' c reg
     | None =>
         input' = input ∧
         operand input = UnallocatedOperand MUST_HAVE_REGISTER
     end) l l1 →
  (length (List.filter (λ input, IsUnallocated (operand input)) l1)
   + length (omap fixed_register l) = length l)%nat.
Proof.
  induction 1 as [|i i1 l l1 [_ Hi] _ IH]; [done|].
  cbn [List.filter omap list_omap length].
  destruct (fixed_register i) as [[c reg]|].
  - destruct Hi as (n & _ & _ & -> & _). cbn [IsUnallocated length]. lia.
  - destruct Hi as [-> ->]. cbn [IsUnallocated length]. lia.
Qed.

(** X18.  [AssignInputs] on a node whose inputs ask for a fixed register
    or for any register, in a consistent register state in which no
    register is blocked, the values of the inputs are in a register or
    loadable, the fixed registers are distinct and none of them is a
    temporary of the node, and each class has as many free registers as
    the node has inputs, temporaries and temporaries still needed:
    [AssignInputs] returns, and in the state it leaves every input
    passes the check of [VerifyInputs].  Each input has kept its value
    and has a register that holds the value, an input with a fixed
    register that register; the register state is consistent, no value
    is lost, and the temporaries are blocked registers, as many as the
    node had and still needed. *)
Theorem AssignInputs_passes_VerifyInputs s node :
  ArchitectureOK → RegistersOK s → NoneBlocked s →
  Forall (InputReady s) (inputs node) →
  NoDup (omap fixed_register (inputs node)) →
  (∀ reg, has (temporaries node) reg = true →
     has (kAllocatableRegisters General) reg = true ∧
     (General, reg) ∉ omap fixed_register (inputs node)) →
  0 <= num_temporaries_needed node < 2 ^ 31 →
  (∀ c, Z.of_nat (length (inputs node)) + Count (temporaries node)
        + num_temporaries_needed node <= Count (free s c)) →
  ∃ s' node',
    AssignInputs s node = Some (s', node') ∧
    Forall (λ input, VerifyInput s' input = true) (inputs node') ∧
    Forall2 (λ input input',
       input_node input' = input_node input ∧
       InputAssigned s' input' ∧
       ∀ c reg, fixed_register input = Some (c, reg) →
                InputIn s' input' c reg)
      (inputs node) (inputs node') ∧
    RegistersOK s' ∧
    NothingLost kAtStart s s' ∧
    (∀ x, has (temporaries node') x = true →
       has (used s' General) x = true ∧
       GetValue s' General x = kBlockedRegisterSentinel) ∧
    Count (temporaries node')
    = Count (temporaries node) + num_temporaries_needed node.
Proof.
  intros Harch Hok Hnone Hready Hnodup Htemps Hneeded Hspare.
  unfold AssignInputs.
  destruct (fixed_inputs_loop (inputs node) s Harch Hok Hnone Hready Hnodup)
    as (s1 & l1 & Hloop1 & Hok1 & Hlost1 & Hnone1 & Hcount1 & Hkeep1 & Hall1).
  rewrite Hloop1. cbn [mbind option_bind].
  pose proof (unallocated_after_fixed s1 _ _ Hall1) as Hlen1.
  (* the fixed temporaries *)
  destruct (AssignFixedTemporaries_loop_spec
              (registers_of (temporaries node)) s1 Harch
              (NoDup_registers_of _) Hok1)
    as (s2 & Hloop2 & Hok2 & Hlost2 & Hblocked2 & Hkeep2).
  { intros reg Hreg. apply elem_of_registers_of in Hreg as [_ Hreg].
    split; [by apply Htemps|]. intros Hu. by apply Hnone1. }
  pose proof (AssignFixedTemporaries_loop_free _ _ _ Hloop2) as Hcount2.
  fold (Count (temporaries node)) in Hcount2.
  unfold AssignFixedTemporaries.
  cbn [temporaries with_inputs inputs]. rewrite Hloop2.
  cbn [mbind option_bind].
  assert (Hapart : Forall (λ input, ∀ reg,
            fixed_register input = Some (General, reg) →
            reg ∉ registers_of (temporaries node)) (inputs node)).
  { apply Forall_forall. intros i Hi reg Hfixed Hreg.
    apply elem_of_registers_of in Hreg as [_ Hreg].
    destruct (Htemps reg Hreg) as [_ Hnot]. apply Hnot.
    apply list_elem_of_omap. by exists i. }
  assert (Hall2 : Forall2 (λ input input',
            input_node input' = input_node input ∧
            match fixed_register input with
            | Some (c, reg) => InputIn s2 input' c reg
            | None =>
                input' = input ∧
                operand input = UnallocatedOperand MUST_HAVE_REGISTER
            end) (inputs node) l1).
  { apply (Forall2_with _ _ _ _ _ Hapart Hall1). intros i i' Hi [Hnode Hin].
    split; [done|].
    destruct (fixed_register i) as [[c reg]|] eqn:Hfixed; [|done].
    apply (InputIn_later kAtStart s1 s2); [done| |done].
    intros Hu. apply Hkeep2; [done|]. intros ->. by apply Hi. }
  (* the inputs that take any register *)
  assert (Hlost12 : NothingLost kAtStart s s2).
  { by apply (NothingLost_trans kAtStart s s1). }
  destruct (arbitrary_inputs_loop l1 s2 Harch Hok2)
    as (s3 & l3 & Hloop3 & Hok3 & Hlost3 & Hcount3 & Hkeep3 & Hall3).
  { intros c. specialize (Hspare c). specialize (Hcount1 c).
    specialize (Hcount2 c). lia. }
  { apply (Forall2_right _ _ _ _ _ Hready Hall2). intros i i' Hi [_ Hin].
    destruct (fixed_register i) as [[c reg]|]; [left; by exists c, reg|].
    destruct Hin as [-> Hop]. right. split; [done|].
    by apply (InputReady_later s s2). }
  rewrite Hloop3. cbn [mbind option_bind].
  (* the temporaries still needed *)
  destruct (AssignArbitraryTemporaries_enough s3
              (with_inputs (with_inputs node l1) l3) Harch Hok3)
    as (s4 & node4 & Hrun4 & Hok4 & Hnodes4 & Hcur4 & Hinputs4 & Hkeep4
        & Hblocked4 & Htemps4).
  { done. }
  { cbn [num_temporaries_needed with_inputs].
    specialize (Hspare General). specialize (Hcount1 General).
    specialize (Hcount2 General). specialize (Hcount3 General). lia. }
  { cbn [temporaries with_inputs]. intros x Hx.
    destruct (Hblocked2 x) as [Hu2 Hg2].
    { apply elem_of_registers_of. split; [|done].
      destruct Harch as [Hk Halloc].
      apply (has_bound (kAllocatableRegisters General)); [done|apply Halloc|].
      by apply Htemps. }
    destruct (Hkeep3 General x Hu2) as [Hu3 Hg3]. split; [done|]. congruence. }
  rewrite Hrun4. exists s4, node4. split; [done|].
  cbn [inputs with_inputs temporaries num_temporaries_needed] in *.
  rewrite Hinputs4.
  assert (Hlost34 : NothingLost kAtStart s3 s4) by by apply NothingLost_nodes.
  assert (Hfinal : Forall2 (λ input input',
            input_node input' = input_node input ∧
            InputAssigned s4 input' ∧
            ∀ c reg, fixed_register input = Some (c, reg) →
                     InputIn s4 input' c reg) (inputs node) l3).
  { apply (Forall2_compose _ _ _ _ _ _ Hall2 Hall3).
    intros i i1 i3 [Hnode1 Hin1] (Hnode3 & Hassigned3 & Hin3).
    split; [congruence|].
    split; [by apply (InputAssigned_later kAtStart s3 s4)|].
    intros c reg Hfixed. rewrite Hfixed in Hin1.
    apply (InputIn_later kAtStart s3 s4); [done|by apply Hkeep4|].
    by apply Hin3. }
  split.
  { apply (Forall2_right _ _ _ _ _ Hready Hfinal).
    intros i i3 _ (_ & (c & reg & Hin) & _).
    by apply (InputIn_VerifyInput s4 i3 c reg). }
  split; [done|]. split; [done|]. split.
  { apply (NothingLost_trans kAtStart s s2); [done|].
    by apply (NothingLost_trans kAtStart s2 s3). }
  done.
Qed.

(** No register is blocked when none of the registers in use holds the
    sentinel. *)
Lemma NoneBlocked_sound s :
  ArchitectureOK → RegistersOK s →
  (∀ c, forallb (λ reg, negb (GetValue s c reg =? kBlockedRegisterSentinel))
          (registers_of (used s c)) = true) →
  NoneBlocked s.
Proof.
  intros Harch Hok Hcheck c reg Hu.
  pose proof (used_registers_of s c reg Harch Hok Hu) as Hin.
  specialize (Hcheck c). rewrite forallb_forall in Hcheck.
  apply list_elem_of_In in Hin. specialize (Hcheck reg Hin).
  by apply negb_true_iff, Z.eqb_neq in Hcheck.
Qed.

End WithArchitecture.

Import MaglevConcrete.


Lemma two_in_registers_ok : RegistersOK two_in_registers.
Proof.
  apply register_state_ok_sound; [exact four_registers_ok|].
  vm_compute. reflexivity.
Qed.

Lemma one_in_register_ok : RegistersOK one_in_register.
Proof.
  apply register_state_ok_sound; [exact four_registers_ok|].
  vm_compute. reflexivity.
Qed.

Lemma AssignInputs_passes_VerifyInputs_witness :
  (∃ s' node',
     AssignInputs two_in_registers fixed_and_arbitrary = Some (s', node') ∧
     Forall (λ input, VerifyInput s' input = true) (inputs node') ∧
     inputs node'
     = [mkInput 10 (AllocatedOperand REGISTER kTagged 2) 8;
        mkInput 60 (AllocatedOperand REGISTER kTagged 3) 8] ∧
     GetValue two_in_registers General 2 = 70 ∧
     GetValue s' General 2 = 10 ∧ GetValue s' General 3 = 60 ∧
     GetValue s' General 0 = 70 ∧
     RegistersOK s' ∧ NothingLost kAtStart two_in_registers s') ∧
  (∃ s' node',
     AssignInputs one_in_register with_temporaries = Some (s', node') ∧
     Forall (λ input, VerifyInput s' input = true) (inputs node') ∧
     inputs node' = [mkInput 60 (AllocatedOperand REGISTER kTagged 0) 8] ∧
     GetValue s' General 0 = 60 ∧
     temporaries with_temporaries = 8 ∧ temporaries node' = 12 ∧
     GetValue s' General 2 = kBlockedRegisterSentinel ∧
     GetValue s' General 3 = kBlockedRegisterSentinel ∧
     RegistersOK s' ∧ NothingLost kAtStart one_in_register s').
Proof.
  split.
  - assert (Hcomputed :
              match AssignInputs two_in_registers fixed_and_arbitrary
                    return Prop with
              | Some (s', node') =>
                  inputs node'
                  = [mkInput 10 (AllocatedOperand REGISTER kTagged 2) 8;
                     mkInput 60 (AllocatedOperand REGISTER kTagged 3) 8] ∧
                  GetValue s' General 2 = 10 ∧ GetValue s' General 3 = 60 ∧
                  GetValue s' General 0 = 70
              | None => False
              end) by (vm_compute; auto).
    destruct (AssignInputs_passes_VerifyInputs two_in_registers
                fixed_and_arbitrary)
      as (s' & node' & Hrun & Hverify & _ & Hok & Hlost & _).
    + exact four_registers_ok.
    + exact two_in_registers_ok.
    + apply NoneBlocked_sound;
        [exact four_registers_ok|exact two_in_registers_ok|].
      intros []; vm_compute; reflexivity.
    + repeat constructor.
      * eexists. split; [reflexivity|]. split; [by left|]. by split.
      * eexists. split; [reflexivity|]. split; [by right; left|]. done.
    + apply NoDup_singleton.
    + intros reg Hreg. by rewrite has_empty in Hreg.
    + done.
    + intros []; vm_compute; discriminate.
    + rewrite Hrun in Hcomputed.
      destruct Hcomputed as (Hinputs & Hg2 & Hg3 & Hg0).
      exists s', node'. split; [exact Hrun|]. split; [exact Hverify|].
      split; [exact Hinputs|]. split; [reflexivity|]. split; [exact Hg2|].
      split; [exact Hg3|]. split; [exact Hg0|]. split; [exact Hok|exact Hlost].
  - assert (Hcomputed :
              match AssignInputs one_in_register with_temporaries
                    return Prop with
              | Some (s', node') =>
                  inputs node'
                  = [mkInput 60 (AllocatedOperand REGISTER kTagged 0) 8] ∧
                  GetValue s' General 0 = 60 ∧ temporaries node' = 12 ∧
                  GetValue s' General 2 = kBlockedRegisterSentinel ∧
                  GetValue s' General 3 = kBlockedRegisterSentinel
              | None => False
              end) by (vm_compute; auto 6).
    destruct (AssignInputs_passes_VerifyInputs one_in_register
                with_temporaries)
      as (s' & node' & Hrun & Hverify & _ & Hok & Hlost & _).
    + exact four_registers_ok.
    + exact one_in_register_ok.
    + apply NoneBlocked_sound;
        [exact four_registers_ok|exact one_in_register_ok|].
      intros []; vm_compute; reflexivity.
    + repeat constructor.
      eexists. split; [reflexivity|]. split; [by right; left|]. done.
    + apply NoDup_nil_2.
    + intros reg Hreg.
      assert (Hbound : 0 <= reg < 4).
      { apply (has_bound 8 4 reg); [lia|lia|exact Hreg]. }
      assert (reg = 0 ∨ reg = 1 ∨ reg = 2 ∨ reg = 3) as [->|[->|[->| ->]]]
        by lia; try discriminate Hreg.
      split; [reflexivity|]. apply not_elem_of_nil.
    + done.
    + intros []; vm_compute; discriminate.
    + rewrite Hrun in Hcomputed.
      destruct Hcomputed as (Hinputs & Hg0 & Htemps & Hg2 & Hg3).
      exists s', node'. split; [exact Hrun|]. split; [exact Hverify|].
      split; [exact Hinputs|]. split; [exact Hg0|]. split; [reflexivity|].
      split; [exact Htemps|]. split; [exact Hg2|]. split; [exact Hg3|].
      split; [exact Hok|exact Hlost].
Defined.

(** Without a free register the second loop of [AssignInputs] takes a
    register from the first: the value at 10 is forced into register 0
    and keeps register 1, so register 0 holds a value with a copy and
    [FreeSomeRegister] gives it to the value at 60.  Both inputs end in
    register 0 and the first fails the check of [VerifyInputs]. *)
Lemma AssignInputs_without_free_register :
  RegistersOK no_register_free ∧
  NoneBlocked no_register_free ∧
  Forall (InputReady no_register_free) (inputs fixed_then_arbitrary) ∧
  free no_register_free General = kEmptyRegList ∧
  match AssignInputs no_register_free fixed_then_arbitrary return Prop with
  | Some (s', node') =>
      inputs node'
      = [mkInput 10 (AllocatedOperand REGISTER kTagged 0) 8;
         mkInput 60 (AllocatedOperand REGISTER kTagged 0) 8] ∧
      GetValue s' General 0 = 60 ∧
      (VerifyInput s' <$> inputs node') = [false; true]
  | None => False
  end.
Proof.
  split; [exact no_register_free_ok|]. split.
  { apply NoneBlocked_sound;
      [exact four_registers_ok|exact no_register_free_ok|].
    intros []; vm_compute; reflexivity. }
  split.
  { repeat constructor.
    - eexists. split; [reflexivity|]. split; [by left|]. by split.
    - eexists. split; [reflexivity|]. split; [by right; left|]. done. }
  split; [reflexivity|]. vm_compute. auto.
Qed.

End MaglevAssignProofs.
